(** * computoc N-dimensional arrays: layout descriptor and index cursors

    A shallow embedding of [include/computoc/array.h].

    Conventions of the embedding.
    - [std::int64_t] is [Z]; signed overflow is undefined in the source and the
      embedding computes with unbounded integers.
    - [Params<T>] (a size and a pointer) is a [list]; an index is a [Z], as in
      the source.  Reading or writing outside the span is undefined in the
      source: here a read yields a fixed default and a write leaves the span
      unchanged.
    - Allocation is assumed to succeed ("buffer allocation failed" is never
      thrown); a header's internal buffer is represented by its usability
      flag alone.
    - Element buffers live in a store indexed by location, so that two handles
      sharing one buffer hold the same location. *)

From stdpp Require Import base option list.
From Stdlib Require Import ZArith Lia.

#[local] Open Scope Z_scope.

(** ** Spans *)

Definition psize {A} (p : list A) : Z := Z.of_nat (length p).

Definition nthZ {A} (d : A) (p : list A) (i : Z) : A :=
  if i <? 0 then d else nth (Z.to_nat i) p d.

Definition updZ {A} (p : list A) (i : Z) (v : A) : list A :=
  if i <? 0 then p else <[Z.to_nat i := v]> p.

Definition pget (p : list Z) (i : Z) : Z := nthZ 0 p i.
Definition pset (p : list Z) (i v : Z) : list Z := updZ p i v.

(** [for (i = lo; i < hi; ++i)] and [for (i = hi; i >= lo; --i)]. *)
Definition for_up {S} (lo hi : Z) (body : Z -> S -> S) (s : S) : S :=
  foldl (fun acc i => body i acc) s (seqZ lo (hi - lo)).

Definition for_down {S} (hi lo : Z) (body : Z -> S -> S) (s : S) : S :=
  foldl (fun acc i => body i acc) s (reverse (seqZ lo (hi - lo + 1))).

(** [memoc::copy(src, dst)]: the common prefix of [dst] is overwritten. *)
Definition memoc_copy {A} (src dst : list A) : list A :=
  take (length dst) src ++ drop (length src) dst.

(** ** Scalars and intervals (computoc/math.h, computoc/utils.h) *)

(** Modelled from the spec: the scalar [modulo] of computoc/math.h is not part
    of the sources at hand; the spec describes it as the Euclidean modulo with
    a non-negative result, wrapping into [0, n) for a positive [n]. *)
Definition modulo (a n : Z) : Z := a mod n.

(** Modelled from the spec: [Interval] and its operations live in
    computoc/utils.h, which is not part of the sources at hand.  An interval is
    the inclusive range [{start, stop, step}]. *)
Record Interval := { start : Z; stop : Z; step : Z }.

Definition Interval_default : Interval := {| start := 0; stop := 0; step := 1 |}.

(** Modelled from the spec: [forward] returns [{stop, start, -step}] when the
    step is negative and the interval itself otherwise. *)
Definition forward (i : Interval) : Interval :=
  if step i <? 0 then {| start := stop i; stop := start i; step := - step i |} else i.

(** Modelled from the spec: [modulo] on an interval wraps [start] and [stop]
    and leaves [step] unchanged. *)
Definition modulo_interval (i : Interval) (n : Z) : Interval :=
  {| start := modulo (start i) n; stop := modulo (stop i) n; step := step i |}.

Definition iget (p : list Interval) (i : Z) : Interval := nthZ Interval_default p i.

(** [static_cast<int64_t>(std::ceil((stop - start + 1.0) / step))]: the
    quotient is formed in double precision in the source; it is exact for
    operands below 2^53, where it agrees with the integer ceiling used here. *)
Definition ceil_quot (a b : Z) : Z := - ((- a) / b).

(** ** Layout arithmetic *)

Fixpoint numel_loop (dims : list Z) (res : Z) : Z :=
  match dims with
  | [] => res
  | d :: dims' => if d <=? 0 then 0 else numel_loop dims' (res * d)
  end.

Definition numel (dims : list Z) : Z :=
  match dims with
  | [] => 0
  | _ => numel_loop dims 1
  end.

Definition compute_strides (dims strides : list Z) : Z * list Z :=
  let num_strides := if psize dims >? psize strides then psize strides else psize dims in
  if num_strides <=? 0 then (0, strides)
  else
    let strides := pset strides (num_strides - 1) 1 in
    let strides :=
      for_down (num_strides - 2) 0
        (fun i strides => pset strides i (pget strides (i + 1) * pget dims (i + 1)))
        strides in
    (num_strides, strides).

Definition compute_strides_intervals
    (previous_dims previous_strides : list Z) (intervals : list Interval)
    (strides : list Z) : Z * list Z :=
  let nstrides :=
    if psize previous_strides >? psize strides then psize strides
    else psize previous_strides in
  if nstrides <=? 0 then (0, strides)
  else
    let strides :=
      for_up 0 (psize intervals)
        (fun i strides =>
           pset strides i (pget previous_strides i * step (forward (iget intervals i))))
        strides in
    let strides :=
      if (psize intervals <? psize previous_dims) && (nstrides >=? psize previous_dims)
      then
        let strides := pset strides (psize previous_dims - 1) 1 in
        for_down (psize previous_dims - 2) (psize intervals)
          (fun i strides => pset strides i (pget strides (i + 1) * pget previous_dims (i + 1)))
          strides
      else strides in
    (nstrides, strides).

(** The first loop of [compute_dims]; [None] is the early [return 0]. *)
Fixpoint compute_dims_loop (ixs : list Z) (previous_dims : list Z)
    (intervals : list Interval) (dims : list Z) : option (list Z) :=
  match ixs with
  | [] => Some dims
  | i :: ixs' =>
      let interval := forward (modulo_interval (iget intervals i) (pget previous_dims i)) in
      if (start interval >? stop interval) || (step interval <=? 0) then None
      else
        compute_dims_loop ixs' previous_dims intervals
          (pset dims i (ceil_quot (stop interval - start interval + 1) (step interval)))
  end.

Definition compute_dims (previous_dims : list Z) (intervals : list Interval)
    (dims : list Z) : Z * list Z :=
  let ndims := if psize previous_dims >? psize dims then psize dims else psize previous_dims in
  if ndims <=? 0 then (0, dims)
  else
    let num_computed_dims := if ndims >? psize intervals then psize intervals else ndims in
    match compute_dims_loop (seqZ 0 num_computed_dims) previous_dims intervals dims with
    | None => (0, dims)
    | Some dims =>
        let dims :=
          for_up num_computed_dims ndims (fun i dims => pset dims i (pget previous_dims i)) dims in
        (ndims, dims)
    end.

Definition compute_offset (previous_dims : list Z) (previous_offset : Z)
    (previous_strides : list Z) (intervals : list Interval) : Z :=
  let offset := previous_offset in
  match previous_dims, previous_strides, intervals with
  | [], _, _ | _, [], _ | _, _, [] => offset
  | _, _, _ =>
      let num_computations :=
        if psize previous_dims >? psize previous_strides then psize previous_strides
        else psize previous_dims in
      let num_computations :=
        if num_computations >? psize intervals then psize intervals else num_computations in
      for_up 0 num_computations
        (fun i offset =>
           offset + pget previous_strides i
                    * start (forward (modulo_interval (iget intervals i) (pget previous_dims i))))
        offset
  end.

Definition subs2ind (offset : Z) (strides dims subs : list Z) : Z :=
  let ind := offset in
  match strides, dims, subs with
  | [], _, _ | _, [], _ | _, _, [] => ind
  | _, _, _ =>
      let num_used_subs := if psize strides >? psize dims then psize dims else psize strides in
      let num_used_subs := if num_used_subs >? psize subs then psize subs else num_used_subs in
      let num_ignored_subs := psize strides - num_used_subs in
      let num_ignored_subs := if num_ignored_subs <? 0 then 0 else num_ignored_subs in
      for_up num_ignored_subs (psize strides)
        (fun i ind => ind + pget strides i * modulo (pget subs (i - num_ignored_subs)) (pget dims i))
        ind
  end.

Fixpoint is_contained_in_loop (ixs : list Z) (num_zero_dims : Z) (sub_dims dims : list Z) : bool :=
  match ixs with
  | [] => true
  | i :: ixs' =>
      if pget sub_dims (i - num_zero_dims) >? pget dims i then false
      else is_contained_in_loop ixs' num_zero_dims sub_dims dims
  end.

Definition is_contained_in (sub_dims dims : list Z) : bool :=
  if psize sub_dims >? psize dims then false
  else
    let num_zero_dims := psize dims - psize sub_dims in
    is_contained_in_loop (seqZ num_zero_dims (psize dims - num_zero_dims))
      num_zero_dims sub_dims dims.

(** ** Array_header *)

Record Array_header := {
  dims_ : list Z;
  strides_ : list Z;
  buff_usable : bool;      (* buff_.usable() *)
  count_ : Z;
  offset_ : Z;
  is_subarray_ : bool
}.

Definition Array_header_default : Array_header :=
  {| dims_ := []; strides_ := []; buff_usable := false;
     count_ := 0; offset_ := 0; is_subarray_ := false |}.

Definition hdr_empty (h : Array_header) : bool := negb (buff_usable h).

(** The internal buffer as handed out by the allocator. *)
Definition Internal_buffer (n : Z) : list Z := replicate (Z.to_nat n) 0.

(** [Array_header(dims)] *)
Definition Array_header_dims (dims : list Z) : Array_header :=
  let count := numel dims in
  if count <=? 0 then
    {| dims_ := []; strides_ := []; buff_usable := false;
       count_ := count; offset_ := 0; is_subarray_ := false |}
  else
    let dims' := memoc_copy dims (Internal_buffer (psize dims)) in
    let strides' := snd (compute_strides dims (Internal_buffer (psize dims))) in
    {| dims_ := dims'; strides_ := strides'; buff_usable := true;
       count_ := count; offset_ := 0; is_subarray_ := false |}.

(** [Array_header(previous_dims, previous_strides, previous_offset, intervals)] *)
Definition Array_header_slice (previous_dims previous_strides : list Z)
    (previous_offset : Z) (intervals : list Interval) : Array_header :=
  let unusable :=
    {| dims_ := []; strides_ := []; buff_usable := false;
       count_ := 0; offset_ := 0; is_subarray_ := true |} in
  if numel previous_dims <=? 0 then unusable
  else
    let '(n, dims) :=
      compute_dims previous_dims intervals (Internal_buffer (psize previous_dims)) in
    if n <=? 0 then unusable
    else
      {| dims_ := dims;
         strides_ :=
           snd (compute_strides_intervals previous_dims previous_strides intervals
                  (Internal_buffer (psize previous_dims)));
         buff_usable := true;
         count_ := numel dims;
         offset_ := compute_offset previous_dims previous_offset previous_strides intervals;
         is_subarray_ := true |}.

(** [Array_header(previous_dims, omitted_axis)] *)
Definition Array_header_omit (previous_dims : list Z) (omitted_axis : Z) : Array_header :=
  if numel previous_dims <=? 0 then Array_header_default
  else
    let axis := modulo omitted_axis (psize previous_dims) in
    let ndims := if psize previous_dims >? 1 then psize previous_dims - 1 else 1 in
    let dims := Internal_buffer ndims in
    let dims :=
      if psize previous_dims >? 1 then
        let dims := for_up 0 axis (fun i dims => pset dims i (pget previous_dims i)) dims in
        for_up (axis + 1) (psize previous_dims)
          (fun i dims => pset dims (i - 1) (pget previous_dims i)) dims
      else pset dims 0 1 in
    {| dims_ := dims;
       strides_ := snd (compute_strides dims (Internal_buffer ndims));
       buff_usable := true;
       count_ := numel dims;
       offset_ := 0;
       is_subarray_ := false |}.

(** [Array_header(previous_dims, new_order)] *)
Definition Array_header_order (previous_dims new_order : list Z) : Array_header :=
  if numel previous_dims <=? 0 then Array_header_default
  else
    match new_order with
    | [] => Array_header_default
    | _ =>
        let dims :=
          for_up 0 (psize previous_dims)
            (fun i dims =>
               pset dims i
                 (pget previous_dims (modulo (pget new_order i) (pget previous_dims i))))
            (Internal_buffer (psize previous_dims)) in
        if negb (numel previous_dims =? numel dims) then Array_header_default
        else
          {| dims_ := dims;
             strides_ := snd (compute_strides dims (Internal_buffer (psize previous_dims)));
             buff_usable := true;
             count_ := numel dims;
             offset_ := 0;
             is_subarray_ := false |}
    end.

(** [Array_header(previous_dims, count, axis)] *)
Definition Array_header_grow (previous_dims : list Z) (count axis : Z) : Array_header :=
  if numel previous_dims <=? 0 then Array_header_default
  else
    let dims :=
      for_up 0 (psize previous_dims)
        (fun i dims =>
           if axis =? i then pset dims i (pget previous_dims i + count)
           else pset dims i (pget previous_dims i))
        (Internal_buffer (psize previous_dims)) in
    let count' := numel dims in
    if count' <=? 0 then
      {| dims_ := []; strides_ := []; buff_usable := false;
         count_ := count'; offset_ := 0; is_subarray_ := false |}
    else
      {| dims_ := dims;
         strides_ := snd (compute_strides dims (Internal_buffer (psize previous_dims)));
         buff_usable := true;
         count_ := count';
         offset_ := 0;
         is_subarray_ := false |}.

(** ** Array_subscripts_iterator *)

Record Array_subscripts_iterator := {
  nsubs_ : Z;
  subs_ : list Z;
  start_ : list Z;
  minimum_excluded_ : list Z;
  maximum_excluded_ : list Z;
  axis_ : Z;
  order_ : list Z;
  major_axis_ : Z
}.

Definition Array_subscripts_iterator_default : Array_subscripts_iterator :=
  {| nsubs_ := 0; subs_ := []; start_ := []; minimum_excluded_ := [];
     maximum_excluded_ := []; axis_ := 0; order_ := []; major_axis_ := 0 |}.

Definition memoc_set (dst : list Z) (v : Z) : list Z := replicate (length dst) v.

(** The search loop of [find_major_axis]: the first [i] with
    [maximum_excluded_[i] != 0]. *)
Fixpoint find_major_axis_loop (ixs : list Z) (maximum_excluded : list Z) : option Z :=
  match ixs with
  | [] => None
  | i :: ixs' =>
      if negb (pget maximum_excluded i =? 0) then Some i
      else find_major_axis_loop ixs' maximum_excluded
  end.

Definition find_major_axis (it : Array_subscripts_iterator) : Z :=
  let major_axis := if axis_ it >? 0 then 0 else if psize (subs_ it) >? 1 then 1 else 0 in
  if (pget (minimum_excluded_ it) major_axis =? -1)
     && (pget (maximum_excluded_ it) major_axis =? 0)
  then
    match find_major_axis_loop (seqZ (major_axis + 1) (nsubs_ it - (major_axis + 1)))
            (maximum_excluded_ it) with
    | Some i => i
    | None => 0
    end
  else major_axis.

Definition with_major_axis (it : Array_subscripts_iterator) : Array_subscripts_iterator :=
  {| nsubs_ := nsubs_ it; subs_ := subs_ it; start_ := start_ it;
     minimum_excluded_ := minimum_excluded_ it; maximum_excluded_ := maximum_excluded_ it;
     axis_ := axis_ it; order_ := order_ it; major_axis_ := find_major_axis it |}.

(** The part shared by the two constructors: [subs_], [start_] and the two
    bounds. *)
Definition iterator_bounds (nsubs : Z) (start minimum_excluded maximum_excluded : list Z)
    : list Z * list Z * list Z * list Z :=
  let buf := Internal_buffer nsubs in
  let subs := match start with [] => memoc_set buf 0 | _ => memoc_copy start buf end in
  let start' := match start with [] => memoc_set buf 0 | _ => memoc_copy start buf end in
  let minimum :=
    match minimum_excluded, start with
    | _ :: _, _ => memoc_copy minimum_excluded buf
    | [], _ :: _ => map (fun x => x - 1) (memoc_copy start buf)
    | [], [] => memoc_set buf (-1)
    end in
  let maximum :=
    match maximum_excluded with
    | [] => memoc_set buf 1
    | _ => memoc_copy maximum_excluded buf
    end in
  (subs, start', minimum, maximum).

(** [Array_subscripts_iterator(start, minimum_excluded, maximum_excluded, axis)] *)
Definition Array_subscripts_iterator_axis
    (start minimum_excluded maximum_excluded : list Z) (axis : Z)
    : Array_subscripts_iterator :=
  let bounds_size :=
    if psize minimum_excluded >? psize maximum_excluded then psize minimum_excluded
    else psize maximum_excluded in
  let nsubs := if psize start >? bounds_size then psize start else bounds_size in
  if nsubs >? 0 then
    let '(subs, start', minimum, maximum) :=
      iterator_bounds nsubs start minimum_excluded maximum_excluded in
    with_major_axis
      {| nsubs_ := nsubs; subs_ := subs; start_ := start';
         minimum_excluded_ := minimum; maximum_excluded_ := maximum;
         axis_ := modulo axis nsubs; order_ := []; major_axis_ := 0 |}
  else
    {| nsubs_ := nsubs; subs_ := []; start_ := []; minimum_excluded_ := [];
       maximum_excluded_ := []; axis_ := 0; order_ := []; major_axis_ := 0 |}.

(** [Array_subscripts_iterator(start, minimum_excluded, maximum_excluded, order)] *)
Definition Array_subscripts_iterator_order
    (start minimum_excluded maximum_excluded order : list Z)
    : Array_subscripts_iterator :=
  let bounds_size :=
    if psize minimum_excluded >? psize maximum_excluded then psize minimum_excluded
    else psize maximum_excluded in
  let nsubs := if psize start >? bounds_size then psize start else bounds_size in
  if nsubs >? 0 then
    let axis := if psize order >=? nsubs then 0 else nsubs - 1 in
    let '(subs, start', minimum, maximum) :=
      iterator_bounds nsubs start minimum_excluded maximum_excluded in
    let order' :=
      if psize order >=? nsubs then
        map (fun o => modulo o nsubs) (memoc_copy order (Internal_buffer nsubs))
      else [] in
    with_major_axis
      {| nsubs_ := nsubs; subs_ := subs; start_ := start';
         minimum_excluded_ := minimum; maximum_excluded_ := maximum;
         axis_ := axis; order_ := order'; major_axis_ := 0 |}
  else
    {| nsubs_ := nsubs; subs_ := []; start_ := []; minimum_excluded_ := [];
       maximum_excluded_ := []; axis_ := 0; order_ := []; major_axis_ := 0 |}.

(** [Array_subscripts_iterator(from, to, axis)] and
    [Array_subscripts_iterator(from, to, order = {})] *)
Definition Subscripts_iterator_axis (from to : list Z) (axis : Z) :=
  Array_subscripts_iterator_axis from [] to axis.

Definition Subscripts_iterator (from to order : list Z) :=
  Array_subscripts_iterator_order from [] to order.

Definition with_subs (it : Array_subscripts_iterator) (subs : list Z) :=
  {| nsubs_ := nsubs_ it; subs_ := subs; start_ := start_ it;
     minimum_excluded_ := minimum_excluded_ it; maximum_excluded_ := maximum_excluded_ it;
     axis_ := axis_ it; order_ := order_ it; major_axis_ := major_axis_ it |}.

Definition b2z (b : bool) : Z := if b then 1 else 0.

Definition increment_subscript (it : Array_subscripts_iterator) (i major_axis : Z)
    : Array_subscripts_iterator * bool :=
  let subs := subs_ it in
  let subs := pset subs i (pget subs i + b2z (pget subs i <? pget (maximum_excluded_ it) i)) in
  let should_continue := pget subs i =? pget (maximum_excluded_ it) i in
  let subs :=
    if should_continue && negb (i =? major_axis) then
      pset subs i
        (if negb (pget (minimum_excluded_ it) i + 1 =? 0)
         then pget (minimum_excluded_ it) i + 1 else 0)
    else subs in
  (with_subs it subs, should_continue).

(** A loop [for (i = ...; ... && should_process_sub; --i)] over the indices
    [ixs], where the subscript touched at index [i] is [sel i]. *)
Fixpoint increment_loop (ixs : list Z) (sel : Z -> Z) (major_axis : Z)
    (st : Array_subscripts_iterator * bool) : Array_subscripts_iterator * bool :=
  match ixs with
  | [] => st
  | i :: ixs' =>
      if snd st then
        increment_loop ixs' sel major_axis (increment_subscript (fst st) (sel i) major_axis)
      else st
  end.

(** [operator++] *)
Definition increment (it : Array_subscripts_iterator) : Array_subscripts_iterator :=
  match order_ it with
  | _ :: _ =>
      fst (increment_loop (reverse (seqZ 0 (psize (order_ it))))
             (pget (order_ it)) (pget (order_ it) 0) (it, true))
  | [] =>
      let st := increment_subscript it (axis_ it) (major_axis_ it) in
      let st :=
        increment_loop (reverse (seqZ (axis_ it + 1) (psize (subs_ it) - 1 - axis_ it)))
          (fun i => i) (major_axis_ it) st in
      let st :=
        increment_loop (reverse (seqZ 0 (axis_ it))) (fun i => i) (major_axis_ it) st in
      fst st
  end.

(** [explicit operator bool] *)
Definition in_range (it : Array_subscripts_iterator) : bool :=
  match order_ it with
  | _ :: _ =>
      let o := pget (order_ it) 0 in
      (pget (subs_ it) o <? pget (maximum_excluded_ it) o)
      && (pget (subs_ it) o >? pget (minimum_excluded_ it) o)
  | [] =>
      let m := major_axis_ it in
      (pget (subs_ it) m <? pget (maximum_excluded_ it) m)
      && (pget (subs_ it) m >? pget (minimum_excluded_ it) m)
  end.

(** ** Array: a header and a shared element buffer *)

Record Array := { hdr_ : Array_header; buffsp_ : option nat }.

Definition Array_default : Array := {| hdr_ := Array_header_default; buffsp_ := None |}.

Definition with_header (a : Array) (h : Array_header) : Array :=
  {| hdr_ := h; buffsp_ := buffsp_ a |}.

Inductive exception := invalid_argument | out_of_range | runtime_error.

(** The result of a call: a value, a thrown exception, or a loop of the
    embedding that was given too little fuel. *)
Inductive outcome (A : Type) :=
  | Done (a : A)
  | Throw (e : exception)
  | OutOfFuel.
Arguments Done {A} a.
Arguments Throw {A} e.
Arguments OutOfFuel {A}.

(** [while (cond) body] *)
Fixpoint while_do {S} (fuel : nat) (cond : S -> bool) (body : S -> S) (s : S) : option S :=
  match fuel with
  | O => if cond s then None else Some s
  | Datatypes.S fuel' => if cond s then while_do fuel' cond body (body s) else Some s
  end.

(** The store of element buffers: location [l] holds the buffer [st !! l]. *)
Abbreviation store T := (list (list T)).

Section Handle.
Context {T : Type}.
(** The content of a freshly allocated element. *)
Variable T0 : T.

(** [data()]: the element buffer, if any. *)
Definition data (st : store T) (a : Array) : option (list T) :=
  match buffsp_ a with
  | Some l => st !! l
  | None => None
  end.

(** [!arr.data()]: no buffer, or a buffer of no elements. *)
Definition data_null (st : store T) (a : Array) : bool :=
  match data st a with
  | Some (_ :: _) => false
  | _ => true
  end.

Definition empty (st : store T) (a : Array) : bool :=
  (data_null st a || is_subarray_ (hdr_ a)) && hdr_empty (hdr_ a).

(** [operator()(subs)], read and write. *)
Definition Array_at (st : store T) (a : Array) (subs : list Z) : T :=
  nthZ T0 (default [] (data st a))
    (subs2ind (offset_ (hdr_ a)) (strides_ (hdr_ a)) (dims_ (hdr_ a)) subs).

Definition Array_set (st : store T) (a : Array) (subs : list Z) (v : T) : store T :=
  match buffsp_ a with
  | Some l =>
      alter (fun buf =>
               updZ buf (subs2ind (offset_ (hdr_ a)) (strides_ (hdr_ a)) (dims_ (hdr_ a)) subs) v)
        l st
  | None => st
  end.

(** [Array(dims)]: a header over [dims] and a new buffer of [count] elements. *)
Definition Array_dims (st : store T) (dims : list Z) : store T * Array :=
  let h := Array_header_dims dims in
  (st ++ [replicate (Z.to_nat (count_ h)) T0],
   {| hdr_ := h; buffsp_ := Some (length st) |}).

(** [operator()(ranges)]: a slice sharing the buffer. *)
Definition Array_slice (st : store T) (a : Array) (ranges : list Interval) : Array :=
  match ranges with
  | [] => a
  | _ =>
      if empty st a then a
      else
        {| hdr_ :=
             Array_header_slice (dims_ (hdr_ a)) (strides_ (hdr_ a)) (offset_ (hdr_ a)) ranges;
           buffsp_ := buffsp_ a |}
  end.

Definition clone (fuel : nat) (st : store T) (arr : Array) : outcome (store T * Array) :=
  if empty st arr then Done (st, Array_default)
  else
    let '(st, clone) := Array_dims st (dims_ (hdr_ arr)) in
    let iter := Subscripts_iterator [] (dims_ (hdr_ arr)) [] in
    match
      while_do fuel (fun '(iter, st) => in_range iter)
        (fun '(iter, st) =>
           (increment iter, Array_set st clone (subs_ iter) (Array_at st arr (subs_ iter))))
        (iter, st)
    with
    | Some (_, st) => Done (st, clone)
    | None => OutOfFuel
    end.

Definition reshape (fuel : nat) (st : store T) (arr : Array) (new_dims : list Z)
    : outcome (store T * Array) :=
  if empty st arr then Done (st, Array_default)
  else if negb (count_ (hdr_ arr) =? numel new_dims) then Throw invalid_argument
  else if bool_decide (dims_ (hdr_ arr) = new_dims) then Done (st, arr)
  else if is_subarray_ (hdr_ arr) then
    let '(st, res) := Array_dims st new_dims in
    let prev_ndstor := Subscripts_iterator [] (dims_ (hdr_ arr)) [] in
    let new_ndstor := Subscripts_iterator [] new_dims [] in
    match
      while_do fuel (fun '(prev, new, st) => in_range prev && in_range new)
        (fun '(prev, new, st) =>
           (increment prev, increment new,
            Array_set st res (subs_ new) (Array_at st arr (subs_ prev))))
        (prev_ndstor, new_ndstor, st)
    with
    | Some (_, _, st) => Done (st, res)
    | None => OutOfFuel
    end
  else
    let new_header := Array_header_dims new_dims in
    if hdr_empty new_header then Done (st, Array_default)
    else Done (st, with_header arr new_header).

(** The loop shared by [append] and [insert]: the elements of [rhs] occupy
    the band [[lo, hi)] of the result along [fixed_axis]. *)
Definition splice_loop (fuel : nat) (st : store T) (lhs rhs res : Array)
    (fixed_axis lo hi : Z) : option (store T) :=
  let lhsndstor := Subscripts_iterator [] (dims_ (hdr_ lhs)) [] in
  let rhsndstor := Subscripts_iterator [] (dims_ (hdr_ rhs)) [] in
  let resndstor := Subscripts_iterator [] (dims_ (hdr_ res)) [] in
  match
    while_do fuel (fun '(l, r, o, st) => in_range o)
      (fun '(l, r, o, st) =>
         let x := pget (subs_ o) fixed_axis in
         if (in_range l && (x <? lo)) || (x >=? hi) then
           (increment l, r, increment o, Array_set st res (subs_ o) (Array_at st lhs (subs_ l)))
         else if in_range r && (x >=? lo) && (x <? hi) then
           (l, increment r, increment o, Array_set st res (subs_ o) (Array_at st rhs (subs_ r)))
         else (l, r, increment o, st))
      (lhsndstor, rhsndstor, resndstor, st)
  with
  | Some (_, _, _, st) => Some st
  | None => None
  end.

(** The per-axis check of [append] and [insert]; [false] is the throw. *)
Fixpoint same_dims_except (ixs : list Z) (fixed_axis : Z) (ldims rdims : list Z) : bool :=
  match ixs with
  | [] => true
  | i :: ixs' =>
      if negb (i =? fixed_axis) && negb (pget ldims i =? pget rdims i) then false
      else same_dims_except ixs' fixed_axis ldims rdims
  end.

(** [append(lhs, rhs, axis)], at [T1 = T2]. *)
Definition append (fuel : nat) (st : store T) (lhs rhs : Array) (axis : Z)
    : outcome (store T * Array) :=
  if empty st lhs then clone fuel st rhs
  else if empty st rhs then clone fuel st lhs
  else
    let ldims := dims_ (hdr_ lhs) in
    let rdims := dims_ (hdr_ rhs) in
    if negb (psize ldims =? psize rdims) then Throw invalid_argument
    else
      let fixed_axis := modulo axis (psize ldims) in
      if negb (same_dims_except (seqZ 0 (psize ldims)) fixed_axis ldims rdims)
      then Throw invalid_argument
      else
        let new_header := Array_header_grow ldims (pget rdims fixed_axis) fixed_axis in
        if hdr_empty new_header then Done (st, Array_default)
        else
          let '(st, res) := Array_dims st [count_ (hdr_ lhs) + count_ (hdr_ rhs)] in
          let res := with_header res new_header in
          match
            splice_loop fuel st lhs rhs res fixed_axis
              (pget ldims fixed_axis) (pget ldims fixed_axis + pget rdims fixed_axis)
          with
          | Some st => Done (st, res)
          | None => OutOfFuel
          end.

(** [insert(lhs, rhs, ind, axis)], at [T1 = T2]. *)
Definition insert (fuel : nat) (st : store T) (lhs rhs : Array) (ind axis : Z)
    : outcome (store T * Array) :=
  if empty st lhs then clone fuel st rhs
  else if empty st rhs then clone fuel st lhs
  else
    let ldims := dims_ (hdr_ lhs) in
    let rdims := dims_ (hdr_ rhs) in
    if negb (psize ldims =? psize rdims) then Throw invalid_argument
    else
      let fixed_axis := modulo axis (psize ldims) in
      if negb (same_dims_except (seqZ 0 (psize ldims)) fixed_axis ldims rdims)
      then Throw invalid_argument
      else
        let fixed_ind := modulo ind (pget ldims fixed_axis) in
        let new_header := Array_header_grow ldims (pget rdims fixed_axis) fixed_axis in
        if hdr_empty new_header then Done (st, Array_default)
        else
          let '(st, res) := Array_dims st [count_ (hdr_ lhs) + count_ (hdr_ rhs)] in
          let res := with_header res new_header in
          match
            splice_loop fuel st lhs rhs res fixed_axis
              fixed_ind (fixed_ind + pget rdims fixed_axis)
          with
          | Some st => Done (st, res)
          | None => OutOfFuel
          end.

Definition transpose (fuel : nat) (st : store T) (arr : Array) (order : list Z)
    : outcome (store T * Array) :=
  if empty st arr then Done (st, Array_default)
  else
    let new_header := Array_header_order (dims_ (hdr_ arr)) order in
    if hdr_empty new_header then Done (st, Array_default)
    else
      let '(st, res) := Array_dims st [count_ (hdr_ arr)] in
      let res := with_header res new_header in
      let arr_ndstor := Subscripts_iterator [] (dims_ (hdr_ arr)) order in
      let res_ndstor := Subscripts_iterator [] (dims_ (hdr_ res)) [] in
      match
        while_do fuel (fun '(a, r, st) => in_range a && in_range r)
          (fun '(a, r, st) =>
             (increment a, increment r,
              Array_set st res (subs_ r) (Array_at st arr (subs_ a))))
          (arr_ndstor, res_ndstor, st)
      with
      | Some (_, _, st) => Done (st, res)
      | None => OutOfFuel
      end.

(** The loop of [all_match]: [Some b] is the value returned. *)
Fixpoint all_match_loop (fuel : nat) (st : store T) (lhs rhs : Array)
    (func : T -> T -> bool) (ndstor : Array_subscripts_iterator) : option bool :=
  if in_range ndstor then
    if negb (func (Array_at st lhs (subs_ ndstor)) (Array_at st rhs (subs_ ndstor)))
    then Some false
    else
      match fuel with
      | O => None
      | S fuel' => all_match_loop fuel' st lhs rhs func (increment ndstor)
      end
  else Some true.

(** [all_match(lhs, rhs, func)], at [T1 = T2]. *)
Definition all_match (fuel : nat) (st : store T) (lhs rhs : Array)
    (func : T -> T -> bool) : outcome bool :=
  if empty st lhs && empty st rhs then Done true
  else if empty st lhs || empty st rhs then Done false
  else if negb (bool_decide (dims_ (hdr_ lhs) = dims_ (hdr_ rhs))) then Done false
  else
    match
      all_match_loop fuel st lhs rhs func (Subscripts_iterator [] (dims_ (hdr_ lhs)) [])
    with
    | Some b => Done b
    | None => OutOfFuel
    end.

(** The element type's [operator==]. *)
Variable T_eq : T -> T -> bool.

Definition all_equal (fuel : nat) (st : store T) (lhs rhs : Array) : outcome bool :=
  all_match fuel st lhs rhs (fun a b => T_eq a b).
End Handle.

Section Reduce.
Context {T R : Type}.
(** The content of a freshly allocated element, the accumulator type's
    value-initialised object, and [static_cast<R>]. *)
Variables (T0 : T) (R0 : R) (cast : T -> R).

(** [reduce(arr, func)] *)
Definition reduce (fuel : nat) (st : store T) (arr : Array) (func : T -> R -> R)
    : outcome R :=
  if empty st arr then Done R0
  else
    let ndstor := Subscripts_iterator [] (dims_ (hdr_ arr)) [] in
    let res := cast (Array_at T0 st arr (subs_ ndstor)) in
    let ndstor := increment ndstor in
    match
      while_do fuel (fun '(ndstor, res) => in_range ndstor)
        (fun '(ndstor, res) =>
           (increment ndstor, func (Array_at T0 st arr (subs_ ndstor)) res))
        (ndstor, res)
    with
    | Some (_, res) => Done res
    | None => OutOfFuel
    end.

(** [reduce(arr, func, axis)]; the result lives in the store of [R]
    buffers. *)
Definition reduce_axis (fuel : nat) (st : store T) (str : store R) (arr : Array)
    (func : T -> R -> R) (axis : Z) : outcome (store R * Array) :=
  if empty st arr then Done (str, Array_default)
  else
    let new_header := Array_header_omit (dims_ (hdr_ arr)) axis in
    if hdr_empty new_header then Done (str, Array_default)
    else
      let '(str, res) := Array_dims R0 str [count_ new_header] in
      let res := with_header res new_header in
      let arr_ndstor := Subscripts_iterator_axis [] (dims_ (hdr_ arr)) axis in
      let res_ndstor := Subscripts_iterator [] (dims_ (hdr_ res)) [] in
      let reduction_iteration_cycle :=
        pget (dims_ (hdr_ arr)) (modulo axis (psize (dims_ (hdr_ arr)))) in
      match
        while_do fuel (fun '(a, r, str) => in_range a && in_range r)
          (fun '(a, r, str) =>
             let res_element := cast (Array_at T0 st arr (subs_ a)) in
             let a := increment a in
             let '(a, res_element) :=
               for_up 0 (reduction_iteration_cycle - 1)
                 (fun _ '(a, res_element) =>
                    (increment a, func (Array_at T0 st arr (subs_ a)) res_element))
                 (a, res_element) in
             (a, increment r, Array_set str res (subs_ r) res_element))
          (arr_ndstor, res_ndstor, str)
      with
      | Some (_, _, str) => Done (str, res)
      | None => OutOfFuel
      end.
End Reduce.

(** * Specification vocabulary *)

Definition prod_list (l : list Z) : Z := foldr Z.mul 1 l.

(** The sum of [f i] for [lo <= i < hi]. *)
Definition sum_range (lo hi : Z) (f : Z -> Z) : Z :=
  foldr Z.add 0 (f <$> seqZ lo (hi - lo)).

(** Subscripts within the bounds of a shape. *)
Definition in_bounds (dims subs : list Z) : Prop :=
  Forall2 (fun d x => 0 <= x < d) dims subs.

(** All subscript tuples of a shape, the last axis varying fastest. *)
Fixpoint row_major (dims : list Z) : list (list Z) :=
  match dims with
  | [] => [[]]
  | d :: dims' => seqZ 0 d ≫= fun x => cons x <$> row_major dims'
  end.

(** The position of a subscript tuple in [row_major]. *)
Fixpoint lin (dims subs : list Z) : Z :=
  match dims, subs with
  | d :: dims', x :: subs' => x * prod_list dims' + lin dims' subs'
  | _, _ => 0
  end.

Definition row_major_strides (dims strides : list Z) : Prop :=
  psize strides = psize dims
  /\ (0 < psize dims -> pget strides (psize dims - 1) = 1)
  /\ forall i, 0 <= i < psize dims - 1 ->
       pget strides i = pget strides (i + 1) * pget dims (i + 1).

(** A non-empty layout as the data model has it. *)
Record layout_ok (h : Array_header) : Prop := {
  ok_usable : buff_usable h = true;
  ok_rank : dims_ h <> [];
  ok_dims : Forall (fun d => 0 < d) (dims_ h);
  ok_strides : length (strides_ h) = length (dims_ h);
  ok_count : count_ h = prod_list (dims_ h)
}.


(** The elements of an array in default cursor order. *)
Definition elements {T} (T0 : T) (st : store T) (a : Array) : list T :=
  Array_at T0 st a <$> row_major (dims_ (hdr_ a)).

(** Fewer than [n] subscripts stand for the trailing axes, the leading ones
    being 0; subscripts beyond [n] are dropped. *)
Definition trailing_subs (n : Z) (subs : list Z) : list Z :=
  replicate (Z.to_nat (n - psize subs)) 0 ++ take (Z.to_nat n) subs.

(** A subscript tuple with [j] put in at position [a]. *)
Definition insert_at (a j : Z) (r : list Z) : list Z :=
  take (Z.to_nat a) r ++ j :: drop (Z.to_nat a) r.

(** The canonical form of the [i]-th interval of a slice. *)
Definition canonical (previous_dims : list Z) (intervals : list Interval) (i : Z) : Interval :=
  forward (modulo_interval (iget intervals i) (pget previous_dims i)).

(** The extent of the [i]-th axis of a slice, from its canonical interval. *)
Definition canonical_dim (previous_dims : list Z) (intervals : list Interval) (i : Z) : Z :=
  ceil_quot (stop (canonical previous_dims intervals i)
             - start (canonical previous_dims intervals i) + 1)
    (step (canonical previous_dims intervals i)).

(** The flat buffer position of a subscript tuple under a layout. *)
Definition flat_position (h : Array_header) (subs : list Z) : Z :=
  offset_ h
  + sum_range 0 (psize (dims_ h))
      (fun i => pget (strides_ h) i
                * (pget (trailing_subs (psize (dims_ h)) subs) i mod pget (dims_ h) i)).

(** The subscript tuple at a position of [row_major]. *)
Fixpoint unrank (dims : list Z) (k : Z) : list Z :=
  match dims with
  | [] => []
  | d :: dims' => k / prod_list dims' :: unrank dims' (k mod prod_list dims')
  end.

(** Row-major strides in closed form. *)
Fixpoint row_strides (dims : list Z) : list Z :=
  match dims with
  | [] => []
  | d :: dims' => prod_list dims' :: row_strides dims'
  end.

(** The value of a digit list, least significant digit first. *)
Fixpoint lsb_val (radices digits : list Z) : Z :=
  match radices, digits with
  | r :: radices', d :: digits' => d + r * lsb_val radices' digits'
  | _, _ => 0
  end.

(** The order in which [operator++] touches the axes of a cursor built
    without an order: the chosen axis first, then the axes after it from the
    last one down, then the axes before it. *)
Definition touch_order (axis n : Z) : list Z :=
  axis :: reverse (seqZ (axis + 1) (n - 1 - axis)) ++ reverse (seqZ 0 axis).

(** A cursor over the full range of a shape, at the subscripts [s]. *)
Definition cursor (dims : list Z) (axis major : Z) (s : list Z) : Array_subscripts_iterator :=
  {| nsubs_ := psize dims;
     subs_ := s;
     start_ := replicate (length dims) 0;
     minimum_excluded_ := replicate (length dims) (-1);
     maximum_excluded_ := dims;
     axis_ := axis;
     order_ := [];
     major_axis_ := major |}.

(** The number of steps that lead a cursor to the subscripts [s]. *)
Definition cursor_pos (dims : list Z) (axis : Z) (s : list Z) : Z :=
  lsb_val (pget dims <$> touch_order axis (psize dims))
          (pget s <$> touch_order axis (psize dims)).

(** [k] applications of [operator++]. *)
Definition walk (it : Array_subscripts_iterator) (k : nat) : Array_subscripts_iterator :=
  Nat.iter k increment it.

(** The slowest-varying axis of a cursor built with an axis. *)
Definition major_of (axis n : Z) : Z :=
  if axis >? 0 then 0 else if n >? 1 then 1 else 0.

(** A non-empty array whose buffer is in the store. *)
Definition array_ok {T} (st : store T) (a : Array) : Prop :=
  layout_ok (hdr_ a) /\ exists l, buffsp_ a = Some l /\ (l < length st)%nat.

(** A handle over a buffer allocated after those of [st], with a contiguous
    row-major layout of shape [dims]. *)
Definition fresh_result {T} (st : store T) (res : Array) (dims : list Z) : Prop :=
  buffsp_ res = Some (length st) /\ dims_ (hdr_ res) = dims
  /\ row_major_strides dims (strides_ (hdr_ res)) /\ offset_ (hdr_ res) = 0.

(** The fold of the values along axis [a] at the remaining subscripts [r]:
    [func] is called on the element and the accumulator, from the second
    value on. *)
Definition fold_along {T R} (T0 : T) (cast : T -> R) (func : T -> R -> R)
    (st : store T) (A : Array) (a : Z) (r : list Z) : R :=
  foldl (fun e j => func (Array_at T0 st A (insert_at a j r)) e)
    (cast (Array_at T0 st A (insert_at a 0 r)))
    (seqZ 1 (pget (dims_ (hdr_ A)) a - 1)).

(** The element [append] stores at the result subscripts [s]: that of [lhs]
    at [s] below [la] on axis [a], else that of [rhs] at [s] moved down by
    [la] on that axis. *)
Definition append_src {T} (T0 : T) (st : store T) (lhs rhs : Array) (a la : Z)
    (s : list Z) : T :=
  if pget s a <? la then Array_at T0 st lhs s
  else Array_at T0 st rhs (pset s a (pget s a - la)).

(** The subscripts of the parent that a slice's subscripts [s] stand for:
    [start + s[i] * step] of the canonical interval on a sliced axis, and
    [s[i]] itself on the axes after the last interval. *)
Definition parent_subs (previous_dims : list Z) (intervals : list Interval) (s : list Z)
    : list Z :=
  imap (fun i x =>
          if Z.of_nat i <? psize intervals
          then start (canonical previous_dims intervals (Z.of_nat i))
               + x * step (canonical previous_dims intervals (Z.of_nat i))
          else x) s.

(** * Element-wise operations

    Buffers of different element types live in different stores: [st] holds
    the argument's buffers and [str] those of the result's element type. *)

(** The loop that assigns, at every position of the default cursor over
    [dims], the value for the cursor's subscripts to the element of [res]
    there. *)
Definition fill_loop {R} (fuel : nat) (str : store R) (res : Array) (dims : list Z)
    (value : list Z -> R) : option (store R) :=
  match
    while_do fuel (fun '(ndstor, str) => in_range ndstor)
      (fun '(ndstor, str) =>
         (increment ndstor, Array_set str res (subs_ ndstor) (value (subs_ ndstor))))
      (Subscripts_iterator [] dims [], str)
  with
  | Some (_, str) => Some str
  | None => None
  end.

(** [transform(arr, func)] *)
Definition transform {T R} (T0 : T) (R0 : R) (fuel : nat) (st : store T) (str : store R)
    (arr : Array) (func : T -> R) : outcome (store R * Array) :=
  if empty st arr then Done (str, Array_default)
  else
    let '(str, res) := Array_dims R0 str (dims_ (hdr_ arr)) in
    match
      fill_loop fuel str res (dims_ (hdr_ arr)) (fun subs => func (Array_at T0 st arr subs))
    with
    | Some str => Done (str, res)
    | None => OutOfFuel
    end.

(** [transform(lhs, rhs, func)] on two arrays. *)
Definition transform_arrays {T1 T2 R} (T10 : T1) (T20 : T2) (R0 : R) (fuel : nat)
    (st1 : store T1) (st2 : store T2) (str : store R) (lhs rhs : Array)
    (func : T1 -> T2 -> R) : outcome (store R * Array) :=
  if negb (bool_decide (dims_ (hdr_ lhs) = dims_ (hdr_ rhs))) then Throw invalid_argument
  else
    let '(str, res) := Array_dims R0 str (dims_ (hdr_ lhs)) in
    match
      fill_loop fuel str res (dims_ (hdr_ lhs))
        (fun subs => func (Array_at T10 st1 lhs subs) (Array_at T20 st2 rhs subs))
    with
    | Some str => Done (str, res)
    | None => OutOfFuel
    end.

(** [transform(lhs, rhs, func)] on an array and a value. *)
Definition transform_value {T1 T2 R} (T10 : T1) (R0 : R) (fuel : nat)
    (st1 : store T1) (str : store R) (lhs : Array) (rhs : T2)
    (func : T1 -> T2 -> R) : outcome (store R * Array) :=
  let '(str, res) := Array_dims R0 str (dims_ (hdr_ lhs)) in
  match
    fill_loop fuel str res (dims_ (hdr_ lhs)) (fun subs => func (Array_at T10 st1 lhs subs) rhs)
  with
  | Some str => Done (str, res)
  | None => OutOfFuel
  end.

(** * resize *)

(** [resize(arr, new_dims)] *)
Definition resize {T} (T0 : T) (fuel : nat) (st : store T) (arr : Array) (new_dims : list Z)
    : outcome (store T * Array) :=
  match new_dims with
  | [] => Done (st, Array_default)
  | _ =>
      if empty st arr then Done (Array_dims T0 st new_dims)
      else if bool_decide (dims_ (hdr_ arr) = new_dims) then clone T0 fuel st arr
      else
        let '(st, res) := Array_dims T0 st new_dims in
        let prev_ndstor := Subscripts_iterator [] (dims_ (hdr_ arr)) [] in
        let new_ndstor := Subscripts_iterator [] new_dims [] in
        match
          while_do fuel (fun '(prev, new, st) => in_range prev && in_range new)
            (fun '(prev, new, st) =>
               (increment prev, increment new,
                Array_set st res (subs_ new) (Array_at T0 st arr (subs_ prev))))
            (prev_ndstor, new_ndstor, st)
        with
        | Some (_, _, st) => Done (st, res)
        | None => OutOfFuel
        end
  end.

(** * filter and find *)

(** The loop of [filter] and [find]: the cursor over the array and the cursor
    over the result advance while both are valid; at the subscripts [keep]
    accepts, [value] is assigned to the result's current element, the count
    is raised and the result's cursor advances. *)
Definition select_loop {R} (fuel : nat) (str : store R) (res : Array) (arr_dims : list Z)
    (keep : store R -> list Z -> bool) (value : store R -> list Z -> R)
    : option (Z * store R) :=
  match
    while_do fuel
      (fun '(arr_ndstor, res_ndstor, res_count, str) =>
         in_range arr_ndstor && in_range res_ndstor)
      (fun '(arr_ndstor, res_ndstor, res_count, str) =>
         if keep str (subs_ arr_ndstor) then
           (increment arr_ndstor, increment res_ndstor, res_count + 1,
            Array_set str res (subs_ res_ndstor) (value str (subs_ arr_ndstor)))
         else (increment arr_ndstor, res_ndstor, res_count, str))
      (Subscripts_iterator [] arr_dims [], Subscripts_iterator [] (dims_ (hdr_ res)) [], 0, str)
  with
  | Some (_, _, res_count, str) => Some (res_count, str)
  | None => None
  end.

(** [filter(arr, func)] *)
Definition filter_func {T} (T0 : T) (fuel : nat) (st : store T) (arr : Array)
    (func : T -> bool) : outcome (store T * Array) :=
  if empty st arr then Done (st, Array_default)
  else
    let '(st, res) := Array_dims T0 st [count_ (hdr_ arr)] in
    match
      select_loop fuel st res (dims_ (hdr_ arr))
        (fun st subs => func (Array_at T0 st arr subs))
        (fun st subs => Array_at T0 st arr subs)
    with
    | None => OutOfFuel
    | Some (res_count, st) =>
        if res_count =? 0 then Done (st, Array_default)
        else if res_count <? count_ (hdr_ arr) then resize T0 fuel st res [res_count]
        else Done (st, res)
    end.

(** [find(arr, func)]: the result holds positions of [std::int64_t], in the
    store [stz]. *)
Definition find_func {T} (T0 : T) (Z0 : Z) (fuel : nat) (st : store T) (stz : store Z)
    (arr : Array) (func : T -> bool) : outcome (store Z * Array) :=
  if empty st arr then Done (stz, Array_default)
  else
    let '(stz, res) := Array_dims Z0 stz [count_ (hdr_ arr)] in
    match
      select_loop fuel stz res (dims_ (hdr_ arr))
        (fun _ subs => func (Array_at T0 st arr subs))
        (fun _ subs =>
           subs2ind (offset_ (hdr_ arr)) (strides_ (hdr_ arr)) (dims_ (hdr_ arr)) subs)
    with
    | None => OutOfFuel
    | Some (res_count, stz) =>
        if res_count =? 0 then Done (stz, Array_default)
        else if res_count <? count_ (hdr_ arr) then resize Z0 fuel stz res [res_count]
        else Done (stz, res)
    end.

(** * Stepping a cursor back *)

Definition decrement_subscript (it : Array_subscripts_iterator) (i major_axis : Z)
    : Array_subscripts_iterator * bool :=
  let subs := subs_ it in
  let subs := pset subs i (pget subs i - b2z (pget subs i >? pget (minimum_excluded_ it) i)) in
  let should_continue := pget subs i =? pget (minimum_excluded_ it) i in
  let subs :=
    if should_continue && negb (i =? major_axis) then
      pset subs i
        (if negb (pget (maximum_excluded_ it) i =? 0)
         then pget (maximum_excluded_ it) i - 1 else 0)
    else subs in
  (with_subs it subs, should_continue).

Fixpoint decrement_loop (ixs : list Z) (sel : Z -> Z) (major_axis : Z)
    (st : Array_subscripts_iterator * bool) : Array_subscripts_iterator * bool :=
  match ixs with
  | [] => st
  | i :: ixs' =>
      if snd st then
        decrement_loop ixs' sel major_axis (decrement_subscript (fst st) (sel i) major_axis)
      else st
  end.

(** [operator--] *)
Definition decrement (it : Array_subscripts_iterator) : Array_subscripts_iterator :=
  match order_ it with
  | _ :: _ =>
      fst (decrement_loop (reverse (seqZ 0 (psize (order_ it))))
             (pget (order_ it)) (pget (order_ it) 0) (it, true))
  | [] =>
      let st := decrement_subscript it (axis_ it) (major_axis_ it) in
      let st :=
        decrement_loop (reverse (seqZ (axis_ it + 1) (psize (subs_ it) - 1 - axis_ it)))
          (fun i => i) (major_axis_ it) st in
      let st :=
        decrement_loop (reverse (seqZ 0 (axis_ it))) (fun i => i) (major_axis_ it) st in
      fst st
  end.

(** The element [insert] stores at the result subscripts [s], for the band
    [[lo, lo + ra)] on axis [a]: below the band that of [lhs] at [s], in the
    band that of [rhs] at [s] moved down by [lo], above it that of [lhs] at
    [s] moved down by [ra]. *)
Definition insert_src {T} (T0 : T) (st : store T) (lhs rhs : Array) (a lo ra : Z)
    (s : list Z) : T :=
  if pget s a <? lo then Array_at T0 st lhs s
  else if pget s a <? lo + ra then Array_at T0 st rhs (pset s a (pget s a - lo))
  else Array_at T0 st lhs (pset s a (pget s a - ra)).

(** * remove *)

(** [remove(arr, ind, count, axis)]; [/] on [std::int64_t] is [Z.quot]. *)
Definition remove {T} (T0 : T) (fuel : nat) (st : store T) (arr : Array)
    (ind count axis : Z) : outcome (store T * Array) :=
  if empty st arr then Done (st, Array_default)
  else
    let dims := dims_ (hdr_ arr) in
    let fixed_axis := modulo axis (psize dims) in
    let fixed_ind := modulo ind (pget dims fixed_axis) in
    let fixed_count :=
      if fixed_ind + count <=? pget dims fixed_axis then count
      else pget dims fixed_axis - fixed_ind in
    let new_header := Array_header_grow dims (- fixed_count) fixed_axis in
    if hdr_empty new_header then Done (st, Array_default)
    else
      let '(st, res) :=
        Array_dims T0 st
          [count_ (hdr_ arr)
           - Z.quot (count_ (hdr_ arr)) (pget dims fixed_axis) * fixed_count] in
      let res := with_header res new_header in
      match
        while_do fuel (fun '(arrndstor, resndstor, st) => in_range arrndstor)
          (fun '(arrndstor, resndstor, st) =>
             let x := pget (subs_ arrndstor) fixed_axis in
             if (in_range resndstor && (x <? fixed_ind)) || (x >=? fixed_ind + fixed_count)
             then
               (increment arrndstor, increment resndstor,
                Array_set st res (subs_ resndstor) (Array_at T0 st arr (subs_ arrndstor)))
             else (increment arrndstor, resndstor, st))
          (Subscripts_iterator [] dims [], Subscripts_iterator [] (dims_ (hdr_ res)) [], st)
      with
      | Some (_, _, st) => Done (st, res)
      | None => OutOfFuel
      end.

(** The subscripts of [arr] that the result subscripts [t] of [remove] stand
    for: at and beyond the position [lo] the subscript on axis [a] is raised
    by the number [c] of removed subscripts. *)
Definition remove_subs (a lo c : Z) (t : list Z) : list Z :=
  if pget t a <? lo then t else pset t a (pget t a + c).

(** * all and any

    The lambda of [all] and [any] takes both arguments as [const T&]: the
    [bool] accumulator of [reduce] is converted to [T] ([of_bool]) and back
    ([to_bool], the [static_cast<bool>]). *)

(** [all(arr)] *)
Definition all {T} (T0 : T) (to_bool : T -> bool) (of_bool : bool -> T) (fuel : nat)
    (st : store T) (arr : Array) : outcome bool :=
  reduce T0 false to_bool fuel st arr
    (fun value previous => to_bool value && to_bool (of_bool previous)).

(** [any(arr)] *)
Definition any {T} (T0 : T) (to_bool : T -> bool) (of_bool : bool -> T) (fuel : nat)
    (st : store T) (arr : Array) : outcome bool :=
  reduce T0 false to_bool fuel st arr
    (fun value previous => to_bool value || to_bool (of_bool previous)).

(** * copy

    [copy(src, dst)] at one element type, where the two handles may share a
    buffer: each assignment reads the store the earlier ones have written. *)
Definition copy {T} (T0 : T) (fuel : nat) (st : store T) (src dst : Array)
    : outcome (store T) :=
  if empty st src || empty st dst then Done st
  else if is_contained_in (dims_ (hdr_ src)) (dims_ (hdr_ dst)) then
    match
      while_do fuel (fun '(src_iter, st) => in_range src_iter)
        (fun '(src_iter, st) =>
           (increment src_iter,
            Array_set st dst (subs_ src_iter) (Array_at T0 st src (subs_ src_iter))))
        (Subscripts_iterator [] (dims_ (hdr_ src)) [], st)
    with
    | Some (_, st) => Done st
    | None => OutOfFuel
    end
  else Done st.

(** * Indexing by an array of positions

    [operator()(indices)]: the elements of the buffer at the positions the
    array [indices] holds; [indices] is of [std::int64_t], in the store
    [stz]. *)
Definition Array_indices {T} (T0 : T) (Z0 : Z) (fuel : nat) (st : store T) (stz : store Z)
    (a indices : Array) : outcome (store T * Array) :=
  let '(st, res) := Array_dims T0 st (dims_ (hdr_ indices)) in
  match
    while_do fuel (fun '(iter, st) => in_range iter)
      (fun '(iter, st) =>
         (increment iter,
          Array_set st res (subs_ iter)
            (nthZ T0 (default [] (data st a)) (Array_at Z0 stz indices (subs_ iter)))))
      (Subscripts_iterator [] (dims_ (hdr_ indices)) [], st)
  with
  | Some (_, st) => Done (st, res)
  | None => OutOfFuel
  end.

(** * Assigning a value

    [operator=(value)]: the value, converted to the element type, is assigned
    to every element of the array; the handle stays as it is. *)
Definition Array_assign_value {T} (fuel : nat) (st : store T) (a : Array) (value : T)
    : outcome (store T) :=
  if empty st a then Done st
  else
    match
      while_do fuel (fun '(iter, st) => in_range iter)
        (fun '(iter, st) => (increment iter, Array_set st a (subs_ iter) value))
        (Subscripts_iterator [] (dims_ (hdr_ a)) [], st)
    with
    | Some (_, st) => Done st
    | None => OutOfFuel
    end.

(** * filter and find by a mask *)

(** The loop of [filter] and [find] with a mask: a third cursor runs over
    the mask, and the mask's element there decides. *)
Definition select_mask_loop {R} (fuel : nat) (str : store R) (res : Array)
    (arr_dims mask_dims : list Z) (mask : list Z -> bool) (value : store R -> list Z -> R)
    : option (Z * store R) :=
  match
    while_do fuel
      (fun '(arr_ndstor, mask_ndstor, res_ndstor, res_count, str) =>
         in_range arr_ndstor && in_range mask_ndstor && in_range res_ndstor)
      (fun '(arr_ndstor, mask_ndstor, res_ndstor, res_count, str) =>
         if mask (subs_ mask_ndstor) then
           (increment arr_ndstor, increment mask_ndstor, increment res_ndstor, res_count + 1,
            Array_set str res (subs_ res_ndstor) (value str (subs_ arr_ndstor)))
         else (increment arr_ndstor, increment mask_ndstor, res_ndstor, res_count, str))
      (Subscripts_iterator [] arr_dims [], Subscripts_iterator [] mask_dims [],
       Subscripts_iterator [] (dims_ (hdr_ res)) [], 0, str)
  with
  | Some (_, _, _, res_count, str) => Some (res_count, str)
  | None => None
  end.

(** [filter(arr, mask)]: the mask is of another element type, in the store
    [stm]; [to_bool] is its conversion to [bool]. *)
Definition filter_mask {T1 T2} (T10 : T1) (T20 : T2) (to_bool : T2 -> bool) (fuel : nat)
    (st : store T1) (stm : store T2) (arr mask : Array) : outcome (store T1 * Array) :=
  if empty st arr then Done (st, Array_default)
  else if negb (bool_decide (dims_ (hdr_ arr) = dims_ (hdr_ mask))) then
    Throw invalid_argument
  else
    let '(st, res) := Array_dims T10 st [count_ (hdr_ arr)] in
    match
      select_mask_loop fuel st res (dims_ (hdr_ arr)) (dims_ (hdr_ mask))
        (fun subs => to_bool (Array_at T20 stm mask subs))
        (fun st subs => Array_at T10 st arr subs)
    with
    | None => OutOfFuel
    | Some (res_count, st) =>
        if res_count =? 0 then Done (st, Array_default)
        else if res_count <? count_ (hdr_ arr) then resize T10 fuel st res [res_count]
        else Done (st, res)
    end.

(** [find(arr, mask)] *)
Definition find_mask {T1 T2} (T20 : T2) (to_bool : T2 -> bool) (Z0 : Z) (fuel : nat)
    (st : store T1) (stm : store T2) (stz : store Z) (arr mask : Array)
    : outcome (store Z * Array) :=
  if empty st arr then Done (stz, Array_default)
  else if negb (bool_decide (dims_ (hdr_ arr) = dims_ (hdr_ mask))) then
    Throw invalid_argument
  else
    let '(stz, res) := Array_dims Z0 stz [count_ (hdr_ arr)] in
    match
      select_mask_loop fuel stz res (dims_ (hdr_ arr)) (dims_ (hdr_ mask))
        (fun subs => to_bool (Array_at T20 stm mask subs))
        (fun _ subs =>
           subs2ind (offset_ (hdr_ arr)) (strides_ (hdr_ arr)) (dims_ (hdr_ arr)) subs)
    with
    | None => OutOfFuel
    | Some (res_count, stz) =>
        if res_count =? 0 then Done (stz, Array_default)
        else if res_count <? count_ (hdr_ arr) then resize Z0 fuel stz res [res_count]
        else Done (stz, res)
    end.

(** * Inserting into the flattened array

    [insert(lhs, rhs, ind)], at [T1 = T2]. *)
Definition insert_flat {T} (T0 : T) (fuel : nat) (st : store T) (lhs rhs : Array) (ind : Z)
    : outcome (store T * Array) :=
  if empty st lhs then clone T0 fuel st rhs
  else if empty st rhs then clone T0 fuel st lhs
  else if negb (ind <=? count_ (hdr_ lhs)) then Throw out_of_range
  else
    let '(st, res) := Array_dims T0 st [count_ (hdr_ lhs) + count_ (hdr_ rhs)] in
    match reshape T0 fuel st lhs [count_ (hdr_ lhs)] with
    | Done (st, rlhs) =>
        match reshape T0 fuel st rhs [count_ (hdr_ rhs)] with
        | Done (st, rrhs) =>
            let st :=
              for_up 0 ind (fun i st => Array_set st res [i] (Array_at T0 st rlhs [i])) st in
            let st :=
              for_up 0 (count_ (hdr_ rhs))
                (fun i st => Array_set st res [ind + i] (Array_at T0 st rrhs [i])) st in
            let st :=
              for_up 0 (count_ (hdr_ lhs) - ind)
                (fun i st =>
                   Array_set st res [ind + count_ (hdr_ rhs) + i]
                     (Array_at T0 st rlhs [ind + i])) st in
            Done (st, res)
        | Throw e => Throw e
        | OutOfFuel => OutOfFuel
        end
    | Throw e => Throw e
    | OutOfFuel => OutOfFuel
    end.

(** * Appending to the flattened array

    [append(lhs, rhs)], at [T1 = T2]. The loop reads [rhs], not the
    reshaped [rrhs], which is built and left unused. *)
Definition append_flat {T} (T0 : T) (fuel : nat) (st : store T) (lhs rhs : Array)
    : outcome (store T * Array) :=
  if empty st lhs then clone T0 fuel st rhs
  else if empty st rhs then clone T0 fuel st lhs
  else
    match resize T0 fuel st lhs [count_ (hdr_ lhs) + count_ (hdr_ rhs)] with
    | Done (st, res) =>
        match reshape T0 fuel st rhs [count_ (hdr_ rhs)] with
        | Done (st, rrhs) =>
            let st :=
              for_up (count_ (hdr_ lhs)) (count_ (hdr_ res))
                (fun i st =>
                   Array_set st res [i] (Array_at T0 st rhs [i - count_ (hdr_ lhs)])) st in
            Done (st, res)
        | Throw e => Throw e
        | OutOfFuel => OutOfFuel
        end
    | Throw e => Throw e
    | OutOfFuel => OutOfFuel
    end.

(** * Spans and loops *)

Lemma psize_nonneg {A} (l : list A) : 0 <= psize l.
Proof. unfold psize. lia. Qed.

Lemma psize_nil (A : Type) : psize (@nil A) = 0.
Proof. reflexivity. Qed.

Lemma psize_cons {A} (x : A) l : psize (x :: l) = psize l + 1.
Proof. unfold psize. simpl. lia. Qed.

Lemma psize_app {A} (l k : list A) : psize (l ++ k) = psize l + psize k.
Proof. unfold psize. rewrite length_app. lia. Qed.

Lemma nthZ_lookup {A} (d : A) l (n : nat) x :
  l !! n = Some x -> nthZ d l (Z.of_nat n) = x.
Proof.
  intros H. unfold nthZ.
  destruct (Z.ltb_spec (Z.of_nat n) 0); [lia|].
  rewrite Nat2Z.id, nth_lookup, H. reflexivity.
Qed.

Lemma nthZ_cons_0 {A} (d : A) x l : nthZ d (x :: l) 0 = x.
Proof. reflexivity. Qed.

Lemma nthZ_cons_succ {A} (d : A) x l i :
  0 <= i -> nthZ d (x :: l) (i + 1) = nthZ d l i.
Proof.
  intros H. unfold nthZ.
  destruct (Z.ltb_spec (i + 1) 0); [lia|].
  destruct (Z.ltb_spec i 0); [lia|].
  replace (Z.to_nat (i + 1)) with (S (Z.to_nat i)) by lia. reflexivity.
Qed.

Lemma nthZ_app_l {A} (d : A) l k i :
  0 <= i < psize l -> nthZ d (l ++ k) i = nthZ d l i.
Proof.
  unfold psize, nthZ. intros H.
  destruct (Z.ltb_spec i 0); [lia|].
  rewrite !nth_lookup, lookup_app_l by lia. reflexivity.
Qed.

Lemma nthZ_app_r {A} (d : A) l k i :
  psize l <= i -> nthZ d (l ++ k) i = nthZ d k (i - psize l).
Proof.
  unfold psize, nthZ. intros H.
  destruct (Z.ltb_spec i 0); [lia|].
  destruct (Z.ltb_spec (i - Z.of_nat (length l)) 0); [lia|].
  rewrite !nth_lookup, lookup_app_r by lia.
  replace (Z.to_nat (i - Z.of_nat (length l))) with (Z.to_nat i - length l)%nat by lia.
  reflexivity.
Qed.

Lemma nthZ_ge {A} (d : A) l i : psize l <= i -> nthZ d l i = d.
Proof.
  unfold psize, nthZ. intros H.
  destruct (Z.ltb_spec i 0); [reflexivity|].
  rewrite nth_lookup, lookup_ge_None_2 by lia. reflexivity.
Qed.

Lemma psize_updZ {A} (l : list A) i v : psize (updZ l i v) = psize l.
Proof.
  unfold updZ, psize. destruct (i <? 0); [reflexivity|].
  rewrite length_insert. reflexivity.
Qed.

Lemma length_updZ {A} (l : list A) i v : length (updZ l i v) = length l.
Proof.
  unfold updZ. destruct (i <? 0); [reflexivity|]. apply length_insert.
Qed.

Lemma nthZ_updZ_eq {A} (d : A) l i v :
  0 <= i < psize l -> nthZ d (updZ l i v) i = v.
Proof.
  unfold updZ, nthZ, psize. intros H.
  destruct (Z.ltb_spec i 0); [lia|].
  rewrite nth_lookup, list_lookup_insert_eq by lia. reflexivity.
Qed.

Lemma nthZ_updZ_ne {A} (d : A) l i j v :
  i <> j -> nthZ d (updZ l i v) j = nthZ d l j.
Proof.
  unfold updZ, nthZ. intros H.
  destruct (Z.ltb_spec i 0); [reflexivity|].
  destruct (Z.ltb_spec j 0); [reflexivity|].
  rewrite !nth_lookup, list_lookup_insert_ne by lia. reflexivity.
Qed.

Lemma psize_pset l i v : psize (pset l i v) = psize l.
Proof. apply psize_updZ. Qed.

Lemma pget_pset_eq l i v : 0 <= i < psize l -> pget (pset l i v) i = v.
Proof. apply nthZ_updZ_eq. Qed.

Lemma pget_pset_ne l i j v : i <> j -> pget (pset l i v) j = pget l j.
Proof. apply nthZ_updZ_ne. Qed.

(** Two spans of one size with the same entries are the same span. *)
Lemma pget_ext (l k : list Z) :
  psize l = psize k ->
  (forall i, 0 <= i < psize l -> pget l i = pget k i) ->
  l = k.
Proof.
  revert k. induction l as [|x l IH]; intros [|y k] Hs Hi;
    rewrite ?psize_cons, ?psize_nil in *.
  - reflexivity.
  - pose proof (psize_nonneg k). lia.
  - pose proof (psize_nonneg l). lia.
  - pose proof (psize_nonneg l). f_equal.
    + apply (Hi 0). lia.
    + apply IH; [lia|]. intros i Hr.
      specialize (Hi (i + 1)). unfold pget in *.
      rewrite !nthZ_cons_succ in Hi by lia. apply Hi. lia.
Qed.

Lemma for_up_nil {St} lo hi (body : Z -> St -> St) s :
  hi <= lo -> for_up lo hi body s = s.
Proof. intros H. unfold for_up. rewrite seqZ_nil by lia. reflexivity. Qed.

Lemma for_up_first {St} lo hi (body : Z -> St -> St) s :
  lo < hi -> for_up lo hi body s = for_up (lo + 1) hi body (body lo s).
Proof.
  intros H. unfold for_up. rewrite (seqZ_cons lo) by lia. simpl.
  repeat f_equal; lia.
Qed.

Lemma for_up_last {St} lo hi (body : Z -> St -> St) s :
  lo <= hi -> for_up lo (hi + 1) body s = body hi (for_up lo hi body s).
Proof.
  intros H. unfold for_up.
  replace (hi + 1 - lo) with ((hi - lo) + 1) by lia.
  rewrite seqZ_app by lia. rewrite foldl_app.
  rewrite (seqZ_cons _ 1), (seqZ_nil _ (Z.pred 1)) by lia. simpl.
  f_equal; lia.
Qed.

(** The invariant rule for an upward loop. *)
Lemma for_up_ind {St} (P : Z -> St -> Prop) lo hi (body : Z -> St -> St) s :
  lo <= hi ->
  P lo s ->
  (forall i s, lo <= i < hi -> P i s -> P (i + 1) (body i s)) ->
  P hi (for_up lo hi body s).
Proof.
  intros Hle H0 Hstep.
  assert (forall n : nat, lo + Z.of_nat n <= hi ->
            P (lo + Z.of_nat n) (for_up lo (lo + Z.of_nat n) body s)) as Hn.
  { induction n as [|n IH]; intros Hb.
    - rewrite Z.add_0_r, for_up_nil by lia. exact H0.
    - replace (lo + Z.of_nat (S n)) with (lo + Z.of_nat n + 1) by lia.
      rewrite for_up_last by lia. apply Hstep; [lia|]. apply IH. lia. }
  specialize (Hn (Z.to_nat (hi - lo))).
  replace (lo + Z.of_nat (Z.to_nat (hi - lo))) with hi in Hn by lia.
  apply Hn. lia.
Qed.

Lemma for_down_nil {St} hi lo (body : Z -> St -> St) s :
  hi < lo -> for_down hi lo body s = s.
Proof. intros H. unfold for_down. rewrite seqZ_nil by lia. reflexivity. Qed.

Lemma for_down_first {St} hi lo (body : Z -> St -> St) s :
  lo <= hi -> for_down hi lo body s = for_down (hi - 1) lo body (body hi s).
Proof.
  intros H. unfold for_down.
  replace (hi - lo + 1) with ((hi - lo) + 1) by lia.
  rewrite seqZ_app by lia. rewrite reverse_app.
  rewrite (seqZ_cons _ 1), (seqZ_nil _ (Z.pred 1)) by lia. simpl.
  replace (lo + (hi - lo)) with hi by lia.
  replace (hi - 1 - lo + 1) with (hi - lo) by lia. reflexivity.
Qed.

(** The invariant rule for a downward loop: [P i] holds once the indices
    from [i] up have been processed. *)
Lemma for_down_ind {St} (P : Z -> St -> Prop) hi lo (body : Z -> St -> St) s :
  lo <= hi + 1 ->
  P (hi + 1) s ->
  (forall i s, lo <= i <= hi -> P (i + 1) s -> P i (body i s)) ->
  P lo (for_down hi lo body s).
Proof.
  intros Hle H0 Hstep.
  assert (forall (n : nat) h s, h = lo + Z.of_nat n - 1 -> h <= hi ->
            P (h + 1) s -> P lo (for_down h lo body s)) as Hn.
  { induction n as [|n IH]; intros h s' Hh Hb Hp.
    - rewrite for_down_nil by lia. replace lo with (h + 1) by lia. exact Hp.
    - rewrite for_down_first by lia. apply IH; [lia|lia|].
      replace (h - 1 + 1) with h by lia. apply Hstep; [lia|exact Hp]. }
  apply (Hn (Z.to_nat (hi + 1 - lo))); [lia|lia|exact H0].
Qed.

Example header_comment_subarray1 :
  let h := Array_header_slice [2;2;2;2;3] [24;12;6;3;1] 0
             [ {| start := 1; stop := 1; step := 1 |};
               {| start := 0; stop := 1; step := 2 |};
               {| start := 0; stop := 0; step := 1 |};
               {| start := 0; stop := 1; step := 1 |};
               {| start := 1; stop := 2; step := 2 |} ] in
  (dims_ h, strides_ h, offset_ h) = ([1;1;1;2;1], [24;24;6;3;2], 25).
Proof. reflexivity. Qed.

(** * Element counts and strides *)

Lemma prod_list_pos l : Forall (fun d => 0 < d) l -> 0 < prod_list l.
Proof.
  induction 1 as [|d l Hd _ IH]; simpl; [lia|]. apply Z.mul_pos_pos; assumption.
Qed.

Lemma prod_list_app l k : prod_list (l ++ k) = prod_list l * prod_list k.
Proof. induction l as [|d l IH]; simpl; [lia|]. rewrite IH. lia. Qed.

Lemma numel_loop_pos l r :
  Forall (fun d => 0 < d) l -> numel_loop l r = r * prod_list l.
Proof.
  intros H. revert r. induction H as [|d l Hd _ IH]; intros r; simpl; [lia|].
  destruct (Z.leb_spec d 0); [lia|]. rewrite IH. lia.
Qed.

Lemma numel_loop_nonpos l r :
  ~ Forall (fun d => 0 < d) l -> numel_loop l r = 0.
Proof.
  revert r. induction l as [|d l IH]; intros r H; simpl.
  - destruct H. constructor.
  - destruct (Z.leb_spec d 0); [reflexivity|].
    apply IH. intros Hl. apply H. constructor; assumption.
Qed.

Lemma numel_nonneg l : 0 <= numel l.
Proof.
  destruct l as [|d l]; [simpl; lia|]. unfold numel.
  destruct (Forall_dec (fun d => 0 < d) (d :: l)) as [H|H].
  - rewrite numel_loop_pos by assumption. pose proof (prod_list_pos _ H). lia.
  - rewrite numel_loop_nonpos by assumption. lia.
Qed.

Lemma numel_pos_inv l : 0 < numel l -> l <> [] /\ Forall (fun d => 0 < d) l.
Proof.
  intros H. destruct l as [|d l]; [simpl in H; lia|]. split; [discriminate|].
  destruct (Forall_dec (fun d => 0 < d) (d :: l)) as [Hf|Hf]; [assumption|].
  unfold numel in H. rewrite numel_loop_nonpos in H by assumption. lia.
Qed.

Lemma numel_prod l :
  l <> [] -> Forall (fun d => 0 < d) l -> numel l = prod_list l.
Proof.
  intros Hne H. destruct l as [|d l]; [congruence|].
  unfold numel. rewrite numel_loop_pos by assumption. lia.
Qed.

Lemma numel_pos_prod l : 0 < numel l -> numel l = prod_list l.
Proof. intros H. destruct (numel_pos_inv l H). apply numel_prod; assumption. Qed.

Lemma psize_Internal_buffer n : 0 <= n -> psize (Internal_buffer n) = n.
Proof. intros H. unfold psize, Internal_buffer. rewrite length_replicate. lia. Qed.

Lemma memoc_copy_all {A} (src dst : list A) :
  length dst = length src -> memoc_copy src dst = src.
Proof.
  intros H. unfold memoc_copy. rewrite H, firstn_all, drop_ge by lia. apply app_nil_r.
Qed.

Lemma memoc_copy_buffer (l : list Z) : memoc_copy l (Internal_buffer (psize l)) = l.
Proof.
  apply memoc_copy_all. unfold Internal_buffer, psize.
  rewrite length_replicate. lia.
Qed.

(** A loop that stores [f i] at index [i]. *)
Lemma for_up_pset lo hi (f : Z -> Z) l :
  0 <= lo ->
  psize (for_up lo hi (fun i l => pset l i (f i)) l) = psize l
  /\ forall j,
       pget (for_up lo hi (fun i l => pset l i (f i)) l) j =
       if (lo <=? j) && (j <? hi) && (j <? psize l) then f j else pget l j.
Proof.
  intros Hlo. destruct (Z.le_gt_cases lo hi) as [Hle|Hgt].
  - apply (for_up_ind
             (fun i l' => psize l' = psize l /\ forall j,
                 pget l' j = if (lo <=? j) && (j <? i) && (j <? psize l)
                             then f j else pget l j)); [assumption| |].
    + split; [reflexivity|]. intros j.
      destruct (Z.leb_spec lo j), (Z.ltb_spec j lo); simpl; try reflexivity; lia.
    + intros i l' Hi [Hs Hg]. split; [rewrite psize_pset; assumption|].
      intros j. destruct (Z.eq_dec i j) as [->|Hne].
      * destruct (Z.ltb_spec j (psize l)).
        -- rewrite pget_pset_eq by lia.
           destruct (Z.leb_spec lo j), (Z.ltb_spec j (j + 1)); simpl; try reflexivity; lia.
        -- unfold pget, pset. rewrite !nthZ_ge by (rewrite ?psize_updZ; lia).
           rewrite andb_false_r. reflexivity.
      * rewrite pget_pset_ne by assumption. rewrite Hg.
        destruct (Z.leb_spec lo j), (Z.ltb_spec j i), (Z.ltb_spec j (i + 1));
          simpl; try reflexivity; lia.
  - rewrite for_up_nil by lia. split; [reflexivity|]. intros j.
    destruct (Z.leb_spec lo j), (Z.ltb_spec j hi); simpl; try reflexivity; lia.
Qed.

Lemma compute_strides_spec dims buf :
  0 < psize dims -> psize buf = psize dims ->
  row_major_strides dims (snd (compute_strides dims buf)).
Proof.
  intros Hn Hb. unfold compute_strides. rewrite Hb.
  destruct (Z.gtb_spec (psize dims) (psize dims)); [lia|].
  destruct (Z.leb_spec (psize dims) 0); [lia|]. simpl.
  set (N := psize dims) in *.
  set (body := fun i strides => pset strides i (pget strides (i + 1) * pget dims (i + 1))).
  assert (let s := for_down (N - 2) 0 body (pset buf (N - 1) 1) in
          psize s = N /\ pget s (N - 1) = 1
          /\ forall j, 0 <= j < N - 1 -> pget s j = pget s (j + 1) * pget dims (j + 1)) as Hinv.
  { apply (for_down_ind
             (fun i s => psize s = N /\ pget s (N - 1) = 1
                         /\ forall j, i <= j < N - 1 ->
                              pget s j = pget s (j + 1) * pget dims (j + 1))); [lia| |].
    - rewrite psize_pset. split; [assumption|]. split; [|intros; lia].
      apply pget_pset_eq. lia.
    - intros i s Hi (Hs & H1 & Hj). unfold body. rewrite psize_pset.
      split; [assumption|]. split.
      + rewrite pget_pset_ne by lia. assumption.
      + intros j Hjr. destruct (Z.eq_dec j i) as [->|Hne].
        * rewrite pget_pset_eq by lia. rewrite pget_pset_ne by lia. reflexivity.
        * rewrite !pget_pset_ne by lia. apply Hj. lia. }
  destruct Hinv as (Hs & H1 & Hj). split; [exact Hs|]. split; [intros _; exact H1|exact Hj].
Qed.

Lemma row_major_strides_unique dims s1 s2 :
  row_major_strides dims s1 -> row_major_strides dims s2 -> s1 = s2.
Proof.
  intros (Hs1 & Hl1 & Hr1) (Hs2 & Hl2 & Hr2).
  apply pget_ext; [congruence|]. rewrite Hs1. intros i Hi.
  assert (forall n : nat, let j := psize dims - 1 - Z.of_nat n in
            0 <= j -> pget s1 j = pget s2 j) as H.
  { induction n as [|n IH]; intros j Hj; subst j.
    - rewrite Z.sub_0_r. rewrite Hl1, Hl2 by lia. reflexivity.
    - rewrite Hr1, Hr2 by lia.
      replace (psize dims - 1 - Z.of_nat (S n) + 1) with (psize dims - 1 - Z.of_nat n) by lia.
      simpl in IH. rewrite IH by lia. reflexivity. }
  specialize (H (Z.to_nat (psize dims - 1 - i))). simpl in H.
  replace (psize dims - 1 - Z.of_nat (Z.to_nat (psize dims - 1 - i))) with i in H by lia.
  apply H. lia.
Qed.

Lemma foldl_ext_in {A B} (f g : A -> B -> A) l a :
  (forall a x, x ∈ l -> f a x = g a x) -> foldl f a l = foldl g a l.
Proof.
  revert a. induction l as [|x l IH]; intros a H; simpl; [reflexivity|].
  rewrite H by (left). apply IH. intros a' y Hy. apply H. right. assumption.
Qed.

Lemma for_up_ext {St} lo hi (b1 b2 : Z -> St -> St) s :
  (forall i s, lo <= i < hi -> b1 i s = b2 i s) ->
  for_up lo hi b1 s = for_up lo hi b2 s.
Proof.
  intros H. unfold for_up. apply foldl_ext_in.
  intros a x Hx. apply elem_of_seqZ in Hx. apply H. lia.
Qed.

(** A loop that stores [f i] at index [i + c]. *)
Lemma for_up_pset_shift lo hi c (f : Z -> Z) l :
  0 <= lo + c ->
  psize (for_up lo hi (fun i l => pset l (i + c) (f i)) l) = psize l
  /\ forall j,
       pget (for_up lo hi (fun i l => pset l (i + c) (f i)) l) j =
       if (lo + c <=? j) && (j <? hi + c) && (j <? psize l) then f (j - c) else pget l j.
Proof.
  intros Hlo.
  destruct (Z.le_gt_cases lo hi) as [Hle|Hgt].
  - apply (for_up_ind
             (fun i l' => psize l' = psize l /\ forall j,
                 pget l' j = if (lo + c <=? j) && (j <? i + c) && (j <? psize l)
                             then f (j - c) else pget l j)); [assumption| |].
    + split; [reflexivity|]. intros j.
      destruct (Z.leb_spec (lo + c) j), (Z.ltb_spec j (lo + c)); simpl; try reflexivity; lia.
    + intros i l' Hi [Hs Hg]. split; [rewrite psize_pset; assumption|].
      intros j. destruct (Z.eq_dec (i + c) j) as [<-|Hne].
      * destruct (Z.ltb_spec (i + c) (psize l)).
        -- rewrite pget_pset_eq by lia.
           destruct (Z.leb_spec (lo + c) (i + c)), (Z.ltb_spec (i + c) (i + 1 + c));
             simpl; try lia. f_equal. lia.
        -- unfold pget, pset. rewrite !nthZ_ge by (rewrite ?psize_updZ; lia).
           rewrite andb_false_r. reflexivity.
      * rewrite pget_pset_ne by assumption. rewrite Hg.
        destruct (Z.leb_spec (lo + c) j), (Z.ltb_spec j (i + c)), (Z.ltb_spec j (i + 1 + c));
          simpl; try reflexivity; lia.
  - rewrite for_up_nil by lia. split; [reflexivity|]. intros j.
    destruct (Z.leb_spec (lo + c) j), (Z.ltb_spec j (hi + c)); simpl; try reflexivity; lia.
Qed.

Lemma Forall_pget (P : Z -> Prop) l :
  (forall i, 0 <= i < psize l -> P (pget l i)) -> Forall P l.
Proof.
  induction l as [|x l IH]; intros H; constructor.
  - apply (H 0). rewrite psize_cons. pose proof (psize_nonneg l). lia.
  - apply IH. intros i Hi. specialize (H (i + 1)). unfold pget in *.
    rewrite nthZ_cons_succ in H by lia. apply H. rewrite psize_cons. lia.
Qed.

Lemma pget_Forall (P : Z -> Prop) l i :
  Forall P l -> 0 <= i < psize l -> P (pget l i).
Proof.
  intros H Hi. unfold pget, nthZ, psize in *.
  destruct (Z.ltb_spec i 0); [lia|].
  rewrite Forall_forall in H. apply H. apply list_elem_of_In, nth_In. lia.
Qed.

Lemma psize_pos_nonnil {A} (l : list A) : 0 < psize l <-> l <> [].
Proof.
  destruct l; unfold psize; simpl.
  - split; [lia|congruence].
  - split; [discriminate|lia].
Qed.

Lemma ceil_quot_spec a b :
  0 < b -> (ceil_quot a b - 1) * b < a <= ceil_quot a b * b.
Proof.
  intros Hb. unfold ceil_quot.
  pose proof (Z.div_mod (- a) b ltac:(lia)).
  pose proof (Z.mod_pos_bound (- a) b Hb). nia.
Qed.

Lemma ceil_quot_pos a b : 0 < b -> 0 < a -> 0 < ceil_quot a b.
Proof. intros Hb Ha. pose proof (ceil_quot_spec a b Hb). nia. Qed.

(** ** The shape-only constructor *)

Lemma Array_header_dims_nonempty dims :
  0 < numel dims ->
  let h := Array_header_dims dims in
  dims_ h = dims /\ row_major_strides dims (strides_ h) /\ buff_usable h = true
  /\ count_ h = numel dims /\ offset_ h = 0 /\ is_subarray_ h = false.
Proof.
  intros Hn h. subst h. unfold Array_header_dims.
  destruct (Z.leb_spec (numel dims) 0); [lia|]. simpl.
  destruct (numel_pos_inv _ Hn) as [Hne _].
  split; [apply memoc_copy_buffer|]. split; [|auto].
  apply compute_strides_spec.
  - apply psize_pos_nonnil. assumption.
  - apply psize_Internal_buffer, psize_nonneg.
Qed.


Lemma layout_ok_intro h :
  buff_usable h = true -> 0 < numel (dims_ h) -> count_ h = numel (dims_ h) ->
  psize (strides_ h) = psize (dims_ h) -> layout_ok h.
Proof.
  intros Hu Hn Hc Hs. destruct (numel_pos_inv _ Hn) as [Hne Hf].
  constructor; try assumption.
  - unfold psize in Hs. lia.
  - rewrite Hc. apply numel_prod; assumption.
Qed.

Lemma Array_header_dims_ok dims :
  0 < numel dims -> layout_ok (Array_header_dims dims).
Proof.
  intros Hn. destruct (Array_header_dims_nonempty dims Hn) as (Hd & Hs & Hu & Hc & _).
  apply layout_ok_intro; rewrite ?Hd; try assumption. apply Hs.
Qed.

(** ** The slicing constructor *)

Lemma step_forward_modulo I n :
  step (forward (modulo_interval I n)) = step (forward I).
Proof. unfold forward, modulo_interval. simpl. destruct (step I <? 0); reflexivity. Qed.

Lemma canonical_wrapped pd R i :
  0 < pget pd i ->
  0 <= start (canonical pd R i) < pget pd i /\ 0 <= stop (canonical pd R i) < pget pd i.
Proof.
  intros Hd. unfold canonical, forward, modulo_interval, modulo. simpl.
  pose proof (Z.mod_pos_bound (start (iget R i)) _ Hd).
  pose proof (Z.mod_pos_bound (stop (iget R i)) _ Hd).
  destruct (step (iget R i) <? 0); simpl; lia.
Qed.

Lemma pget_Internal_buffer n i : pget (Internal_buffer n) i = 0.
Proof.
  unfold pget, nthZ, Internal_buffer. destruct (i <? 0); [reflexivity|].
  rewrite nth_lookup.
  destruct (replicate (Z.to_nat n) 0 !! Z.to_nat i) eqn:E; [|reflexivity].
  apply lookup_replicate in E as [-> _]. reflexivity.
Qed.

Lemma compute_dims_loop_good ixs pd R dims :
  (forall i, i ∈ ixs ->
     start (canonical pd R i) <= stop (canonical pd R i) /\ 0 < step (canonical pd R i)) ->
  compute_dims_loop ixs pd R dims =
  Some (foldl (fun dims i => pset dims i (canonical_dim pd R i)) dims ixs).
Proof.
  revert dims. induction ixs as [|i ixs IH]; intros dims H; simpl; [reflexivity|].
  destruct (H i ltac:(left)) as [H1 H2]. fold (canonical pd R i).
  destruct (Z.gtb_spec (start (canonical pd R i)) (stop (canonical pd R i))); [lia|].
  destruct (Z.leb_spec (step (canonical pd R i)) 0); [lia|]. simpl.
  apply IH. intros j Hj. apply H. right. assumption.
Qed.

Lemma compute_dims_loop_bad ixs pd R dims i :
  i ∈ ixs ->
  start (canonical pd R i) > stop (canonical pd R i) \/ step (canonical pd R i) <= 0 ->
  compute_dims_loop ixs pd R dims = None.
Proof.
  revert dims. induction ixs as [|j ixs IH]; intros dims Hin Hbad; simpl.
  - inversion Hin.
  - fold (canonical pd R j).
    destruct (Z.gtb_spec (start (canonical pd R j)) (stop (canonical pd R j)));
      [reflexivity|].
    destruct (Z.leb_spec (step (canonical pd R j)) 0); [reflexivity|]. simpl.
    apply IH; [|assumption]. inversion Hin; subst; [lia|assumption].
Qed.

Lemma compute_dims_loop_inv ixs pd R dims dims' :
  compute_dims_loop ixs pd R dims = Some dims' ->
  forall i, i ∈ ixs ->
    start (canonical pd R i) <= stop (canonical pd R i) /\ 0 < step (canonical pd R i).
Proof.
  intros H i Hi.
  destruct (Z.le_gt_cases (start (canonical pd R i)) (stop (canonical pd R i))) as [H1|H1];
    destruct (Z.lt_ge_cases 0 (step (canonical pd R i))) as [H2|H2];
    try (split; assumption);
    rewrite (compute_dims_loop_bad ixs pd R dims i) in H by (assumption || lia);
    discriminate.
Qed.

(** The dimensions [compute_dims] stores when every specified interval is
    well formed. *)
Lemma compute_dims_good pd R :
  0 < psize pd ->
  (forall i, 0 <= i < Z.min (psize pd) (psize R) ->
     start (canonical pd R i) <= stop (canonical pd R i) /\ 0 < step (canonical pd R i)) ->
  exists dims,
    compute_dims pd R (Internal_buffer (psize pd)) = (psize pd, dims)
    /\ psize dims = psize pd
    /\ forall i, pget dims i =
         if (0 <=? i) && (i <? psize pd)
         then (if i <? psize R then canonical_dim pd R i else pget pd i)
         else 0.
Proof.
  intros Hn Hgood. unfold compute_dims.
  pose proof (psize_nonneg R) as HR.
  rewrite psize_Internal_buffer by lia.
  destruct (Z.gtb_spec (psize pd) (psize pd)); [lia|].
  destruct (Z.leb_spec (psize pd) 0); [lia|].
  assert ((if psize pd >? psize R then psize R else psize pd)
          = Z.min (psize pd) (psize R)) as ->.
  { destruct (Z.gtb_spec (psize pd) (psize R)); lia. }
  set (m := Z.min (psize pd) (psize R)) in *.
  rewrite compute_dims_loop_good
    by (intros i Hi; apply elem_of_seqZ in Hi; apply Hgood; lia).
  set (d1 := foldl _ _ _).
  assert (d1 = for_up 0 m (fun i dims => pset dims i (canonical_dim pd R i))
                 (Internal_buffer (psize pd))) as Hd1.
  { unfold d1, for_up. rewrite Z.sub_0_r. reflexivity. }
  destruct (for_up_pset 0 m (canonical_dim pd R) (Internal_buffer (psize pd))
              ltac:(lia)) as [Hs1 Hg1].
  rewrite <- Hd1 in Hs1, Hg1. rewrite psize_Internal_buffer in Hs1, Hg1 by lia.
  destruct (for_up_pset m (psize pd) (pget pd) d1 ltac:(lia)) as [Hs2 Hg2].
  eexists. split; [reflexivity|]. split; [lia|].
  intros i. rewrite Hg2, Hg1, Hs1.
  destruct (Z.leb_spec m i), (Z.ltb_spec i (psize pd)), (Z.leb_spec 0 i),
    (Z.ltb_spec i m), (Z.ltb_spec i (psize R)); simpl; try reflexivity; try lia.
  all: apply pget_Internal_buffer.
Qed.



Lemma for_up_sum lo hi (f : Z -> Z) acc :
  for_up lo hi (fun i acc => acc + f i) acc = acc + sum_range lo hi f.
Proof.
  unfold for_up, sum_range. revert acc.
  induction (seqZ lo (hi - lo)) as [|x l IH]; intros acc.
  - simpl. lia.
  - rewrite fmap_cons. cbn [foldl foldr]. rewrite IH. lia.
Qed.

Lemma compute_offset_spec pd po ps R :
  0 < psize pd -> psize ps = psize pd -> psize R <= psize pd ->
  compute_offset pd po ps R =
  po + sum_range 0 (psize R) (fun i => pget ps i * start (canonical pd R i)).
Proof.
  intros Hn Hs Hk. unfold compute_offset.
  destruct pd as [|d pd]; [unfold psize in Hn; simpl in Hn; lia|].
  destruct ps as [|s ps]; [unfold psize in *; simpl in *; lia|].
  destruct R as [|r R].
  { unfold sum_range. rewrite seqZ_nil by (unfold psize; simpl; lia). simpl. lia. }
  rewrite Hs.
  destruct (Z.gtb_spec (psize (d :: pd)) (psize (d :: pd))); [lia|].
  destruct (Z.gtb_spec (psize (d :: pd)) (psize (r :: R))).
  - apply for_up_sum.
  - assert (psize (r :: R) = psize (d :: pd)) as -> by lia. apply for_up_sum.
Qed.

Lemma compute_strides_intervals_spec pd ps R :
  0 < psize pd -> psize ps = psize pd -> psize R <= psize pd ->
  let strides := snd (compute_strides_intervals pd ps R (Internal_buffer (psize pd))) in
  psize strides = psize pd
  /\ forall i, 0 <= i < psize R ->
       pget strides i = pget ps i * step (canonical pd R i).
Proof.
  intros Hn Hs Hk. pose proof (psize_nonneg R) as HR.
  unfold compute_strides_intervals.
  rewrite psize_Internal_buffer, Hs by lia.
  destruct (Z.gtb_spec (psize pd) (psize pd)); [lia|].
  destruct (Z.leb_spec (psize pd) 0); [lia|].
  destruct (for_up_pset 0 (psize R) (fun i => pget ps i * step (forward (iget R i)))
              (Internal_buffer (psize pd)) ltac:(lia)) as [Hs1 Hg1].
  set (s1 := for_up 0 (psize R) _ _) in *.
  rewrite psize_Internal_buffer in Hs1, Hg1 by lia.
  assert (forall i, 0 <= i < psize R -> pget s1 i = pget ps i * step (canonical pd R i)) as Hc.
  { intros i Hi. rewrite Hg1.
    destruct (Z.leb_spec 0 i), (Z.ltb_spec i (psize R)), (Z.ltb_spec i (psize pd));
      try lia. simpl. unfold canonical. rewrite step_forward_modulo. reflexivity. }
  destruct (Z.ltb_spec (psize R) (psize pd)), (Z.geb_spec (psize pd) (psize pd));
    simpl; try lia; try (split; assumption).
  apply (for_down_ind
           (fun j s => psize s = psize pd /\
                       forall i, 0 <= i < psize R ->
                         pget s i = pget ps i * step (canonical pd R i))); [lia| |].
  - rewrite psize_pset. split; [assumption|]. intros i Hi.
    rewrite pget_pset_ne by lia. apply Hc. assumption.
  - intros j s Hj [Hsz Hg]. rewrite psize_pset. split; [assumption|].
    intros i Hi. rewrite pget_pset_ne by lia. apply Hg. assumption.
Qed.

Lemma canonical_dim_pos pd R i :
  start (canonical pd R i) <= stop (canonical pd R i) ->
  0 < step (canonical pd R i) ->
  0 < canonical_dim pd R i.
Proof. intros H1 H2. apply ceil_quot_pos; lia. Qed.

Lemma Array_header_slice_good pd ps po R :
  0 < numel pd ->
  (forall i, 0 <= i < Z.min (psize pd) (psize R) ->
     start (canonical pd R i) <= stop (canonical pd R i) /\ 0 < step (canonical pd R i)) ->
  exists dims,
    Array_header_slice pd ps po R =
      {| dims_ := dims;
         strides_ := snd (compute_strides_intervals pd ps R (Internal_buffer (psize pd)));
         buff_usable := true;
         count_ := numel dims;
         offset_ := compute_offset pd po ps R;
         is_subarray_ := true |}
    /\ psize dims = psize pd
    /\ (forall i, 0 <= i < psize pd ->
          pget dims i = if i <? psize R then canonical_dim pd R i else pget pd i)
    /\ Forall (fun d => 0 < d) dims.
Proof.
  intros Hn Hgood. destruct (numel_pos_inv _ Hn) as [Hne Hpos].
  apply psize_pos_nonnil in Hne.
  destruct (compute_dims_good pd R Hne Hgood) as (dims & Hcd & Hsz & Hget).
  exists dims. unfold Array_header_slice.
  destruct (Z.leb_spec (numel pd) 0); [lia|]. rewrite Hcd.
  destruct (Z.leb_spec (psize pd) 0); [lia|].
  split; [reflexivity|]. split; [assumption|].
  assert (forall i, 0 <= i < psize pd ->
            pget dims i = if i <? psize R then canonical_dim pd R i else pget pd i) as Hg.
  { intros i Hi. rewrite Hget.
    destruct (Z.leb_spec 0 i), (Z.ltb_spec i (psize pd)); simpl; lia. }
  split; [assumption|].
  apply Forall_pget. rewrite Hsz. intros i Hi. rewrite Hg by assumption.
  destruct (Z.ltb_spec i (psize R)).
  - destruct (Hgood i ltac:(lia)). apply canonical_dim_pos; assumption.
  - apply (pget_Forall (fun d => 0 < d)); assumption.
Qed.



(** ** The constructors used by reduce, transpose and append *)

Lemma pget_delete (l : list Z) (a : nat) j :
  0 <= j ->
  pget (delete a l) j = if j <? Z.of_nat a then pget l j else pget l (j + 1).
Proof.
  intros Hj. unfold pget, nthZ.
  destruct (Z.ltb_spec j 0); [lia|]. destruct (Z.ltb_spec (j + 1) 0); [lia|].
  rewrite !nth_lookup.
  destruct (Z.ltb_spec j (Z.of_nat a)).
  - rewrite list_lookup_delete_lt by lia. reflexivity.
  - rewrite list_lookup_delete_ge by lia.
    replace (Z.to_nat (j + 1)) with (S (Z.to_nat j)) by lia. reflexivity.
Qed.

Lemma psize_delete (l : list Z) (a : nat) :
  (a < length l)%nat -> psize (delete a l) = psize l - 1.
Proof. intros H. unfold psize. rewrite length_delete by (apply lookup_lt_is_Some; lia). lia. Qed.

Lemma Forall_delete_pos (l : list Z) (a : nat) :
  Forall (fun d => 0 < d) l -> Forall (fun d => 0 < d) (delete a l).
Proof.
  intros H. apply Forall_forall. intros x Hx.
  rewrite Forall_forall in H. apply H.
  eapply list_elem_of_delete_inv. eassumption.
Qed.

Lemma Array_header_omit_spec pd axis :
  0 < numel pd ->
  let h := Array_header_omit pd axis in
  dims_ h = (if psize pd >? 1 then delete (Z.to_nat (modulo axis (psize pd))) pd else [1])
  /\ row_major_strides (dims_ h) (strides_ h)
  /\ buff_usable h = true /\ count_ h = numel (dims_ h)
  /\ offset_ h = 0 /\ is_subarray_ h = false.
Proof.
  intros Hn h. destruct (numel_pos_inv _ Hn) as [Hne Hpos].
  apply psize_pos_nonnil in Hne.
  subst h. unfold Array_header_omit.
  destruct (Z.leb_spec (numel pd) 0); [lia|]. cbn [dims_ strides_ buff_usable count_ offset_ is_subarray_].
  set (a := modulo axis (psize pd)).
  assert (0 <= a < psize pd) as Ha by (apply Z.mod_pos_bound; lia).
  set (ndims := if psize pd >? 1 then psize pd - 1 else 1).
  assert (0 < ndims) as Hnd by (subst ndims; destruct (Z.gtb_spec (psize pd) 1); lia).
  set (dims := if psize pd >? 1 then _ else _).
  assert (dims = if psize pd >? 1 then delete (Z.to_nat a) pd else [1]) as Hd.
  { subst dims ndims. destruct (Z.gtb_spec (psize pd) 1) as [Hgt|Hle].
    - destruct (for_up_pset 0 a (pget pd) (Internal_buffer (psize pd - 1)) ltac:(lia))
        as [Hs1 Hg1].
      set (d1 := for_up 0 a _ _) in *.
      rewrite psize_Internal_buffer in Hs1, Hg1 by lia.
      destruct (for_up_pset_shift (a + 1) (psize pd) (-1) (pget pd) d1 ltac:(lia))
        as [Hs2 Hg2].
      apply pget_ext.
      + rewrite psize_delete by (unfold psize in *; lia).
        replace (fun i dims0 => pset dims0 (i - 1) (pget pd i))
          with (fun i l => pset l (i + -1) (pget pd i)) by reflexivity. lia.
      + replace (fun i dims0 => pset dims0 (i - 1) (pget pd i))
          with (fun i l => pset l (i + -1) (pget pd i)) by reflexivity.
        rewrite Hs2, Hs1. intros j Hj. rewrite Hg2, Hg1, Hs1.
        rewrite pget_delete by lia. rewrite Z2Nat.id by lia.
        destruct (Z.leb_spec (a + 1 + -1) j), (Z.ltb_spec j (psize pd + -1)),
          (Z.ltb_spec j (psize pd - 1)), (Z.leb_spec 0 j), (Z.ltb_spec j a);
          simpl; try lia; try reflexivity.
    - reflexivity. }
  rewrite Hd. split; [reflexivity|]. split; [|auto].
  rewrite <- Hd. apply compute_strides_spec.
  - rewrite Hd. destruct (Z.gtb_spec (psize pd) 1).
    + rewrite psize_delete by (unfold psize in *; lia). lia.
    + unfold psize. simpl. lia.
  - rewrite psize_Internal_buffer by lia. rewrite Hd. subst ndims.
    destruct (Z.gtb_spec (psize pd) 1).
    + rewrite psize_delete by (unfold psize in *; lia). lia.
    + reflexivity.
Qed.






(** * Sums over index ranges *)

Lemma sum_range_nil lo hi f : hi <= lo -> sum_range lo hi f = 0.
Proof. intros H. unfold sum_range. rewrite seqZ_nil by lia. reflexivity. Qed.

Lemma sum_range_first lo hi f :
  lo < hi -> sum_range lo hi f = f lo + sum_range (lo + 1) hi f.
Proof.
  intros H. unfold sum_range. rewrite (seqZ_cons lo) by lia.
  rewrite fmap_cons. cbn [foldr]. repeat f_equal; lia.
Qed.

Lemma sum_range_split lo mid hi f :
  lo <= mid <= hi -> sum_range lo hi f = sum_range lo mid f + sum_range mid hi f.
Proof.
  intros H. unfold sum_range.
  replace (hi - lo) with ((mid - lo) + (hi - mid)) by lia.
  rewrite seqZ_app by lia. rewrite fmap_app, foldr_app.
  replace (lo + (mid - lo)) with mid by lia.
  generalize (foldr Z.add 0 (f <$> seqZ mid (hi - mid))). intros z.
  induction (f <$> seqZ lo (mid - lo)) as [|x l IH]; simpl; lia.
Qed.

Lemma sum_range_ext lo hi f g :
  (forall i, lo <= i < hi -> f i = g i) -> sum_range lo hi f = sum_range lo hi g.
Proof.
  intros H. unfold sum_range. f_equal. apply list_fmap_ext.
  intros k i Hi. apply lookup_seqZ in Hi. apply H. lia.
Qed.

Lemma sum_range_zero lo hi f :
  (forall i, lo <= i < hi -> f i = 0) -> sum_range lo hi f = 0.
Proof.
  intros H. rewrite (sum_range_ext lo hi f (fun _ => 0)) by assumption.
  unfold sum_range. induction (seqZ lo (hi - lo)) as [|x l IH]; [reflexivity|].
  rewrite fmap_cons. cbn [foldr]. rewrite IH. reflexivity.
Qed.

(** * Element access *)

Lemma psize_take (l : list Z) n :
  0 <= n -> psize (take (Z.to_nat n) l) = Z.min n (psize l).
Proof. intros H. unfold psize. rewrite length_take. lia. Qed.

Lemma pget_take (l : list Z) n i :
  i < n -> pget (take (Z.to_nat n) l) i = pget l i.
Proof.
  intros H. unfold pget, nthZ. destruct (Z.ltb_spec i 0); [reflexivity|].
  rewrite !nth_lookup, lookup_take_lt by lia. reflexivity.
Qed.

Lemma pget_replicate n i : pget (replicate n 0) i = 0.
Proof.
  unfold pget, nthZ. destruct (i <? 0); [reflexivity|]. rewrite nth_lookup.
  destruct (replicate n 0 !! Z.to_nat i) eqn:E; [|reflexivity].
  apply lookup_replicate in E as [-> _]. reflexivity.
Qed.

Lemma trailing_subs_short n subs :
  psize subs <= n -> trailing_subs n subs = replicate (Z.to_nat (n - psize subs)) 0 ++ subs.
Proof.
  intros H. unfold trailing_subs. rewrite take_ge by (unfold psize in H; lia). reflexivity.
Qed.

Lemma trailing_subs_exact subs : trailing_subs (psize subs) subs = subs.
Proof.
  rewrite trailing_subs_short by lia. rewrite Z.sub_diag. reflexivity.
Qed.

Lemma trailing_subs_extra subs extra :
  trailing_subs (psize subs) (subs ++ extra) = subs.
Proof.
  unfold trailing_subs. rewrite psize_app.
  replace (Z.to_nat (psize subs - (psize subs + psize extra))) with 0%nat
    by (pose proof (psize_nonneg extra); lia).
  simpl. unfold psize. rewrite Nat2Z.id. rewrite take_app_length. reflexivity.
Qed.

Lemma psize_trailing_subs n subs : 0 <= n -> psize (trailing_subs n subs) = n.
Proof.
  intros H. unfold trailing_subs. rewrite psize_app, psize_take by lia.
  unfold psize at 1. rewrite length_replicate. pose proof (psize_nonneg subs). lia.
Qed.

Lemma pget_trailing_subs n subs i :
  0 <= i < n ->
  pget (trailing_subs n subs) i =
  if i <? n - psize subs then 0 else pget subs (i - Z.max 0 (n - psize subs)).
Proof.
  intros Hi. unfold trailing_subs, pget.
  assert (psize (replicate (Z.to_nat (n - psize subs)) 0) = Z.max 0 (n - psize subs)) as Hr.
  { unfold psize at 1. rewrite length_replicate. lia. }
  destruct (Z.ltb_spec i (n - psize subs)).
  - rewrite nthZ_app_l by lia. apply pget_replicate.
  - rewrite nthZ_app_r by lia. rewrite Hr. apply pget_take.
    pose proof (psize_nonneg subs). lia.
Qed.

Lemma subs2ind_sum offset strides dims subs :
  psize strides = psize dims ->
  subs2ind offset strides dims subs =
  offset + sum_range 0 (psize dims)
             (fun i => pget strides i
                       * (pget (trailing_subs (psize dims) subs) i mod pget dims i)).
Proof.
  intros Hs. unfold subs2ind.
  pose proof (psize_nonneg subs) as Hsubs.
  pose proof (psize_nonneg dims) as HN.
  destruct strides as [|s0 ss].
  { rewrite psize_nil in Hs. rewrite sum_range_nil by lia. lia. }
  destruct dims as [|d0 ds].
  { rewrite psize_nil, psize_cons in *. pose proof (psize_nonneg ss). lia. }
  destruct subs as [|x0 xs].
  { rewrite sum_range_zero; [lia|]. intros i Hi.
    rewrite pget_trailing_subs by lia. rewrite psize_nil.
    destruct (Z.ltb_spec i (psize (d0 :: ds) - 0)); [|lia]. rewrite Zmod_0_l. lia. }
  rewrite Hs.
  set (strides := s0 :: ss) in *. set (dims := d0 :: ds) in *. set (subs := x0 :: xs) in *.
  set (N := psize dims) in *.
  destruct (Z.gtb_spec N N); [lia|].
  set (used := if N >? psize subs then psize subs else N).
  assert (used = Z.min N (psize subs)) as Hu
    by (subst used; destruct (Z.gtb_spec N (psize subs)); lia).
  destruct (Z.ltb_spec (N - used) 0); [lia|].
  rewrite (for_up_sum (N - used) N
             (fun i => pget strides i * modulo (pget subs (i - (N - used))) (pget dims i))).
  f_equal.
  rewrite (sum_range_split 0 (N - used) N) by lia.
  rewrite (sum_range_zero 0 (N - used)).
  - simpl. apply sum_range_ext. intros i Hi. unfold modulo.
    rewrite pget_trailing_subs by lia.
    destruct (Z.ltb_spec i (N - psize subs)); [lia|].
    replace (i - (N - used)) with (i - Z.max 0 (N - psize subs)) by lia. reflexivity.
  - intros i Hi. rewrite pget_trailing_subs by lia.
    destruct (Z.ltb_spec i (N - psize subs)); [|lia]. rewrite Zmod_0_l. lia.
Qed.

Lemma subs2ind_flat_position h subs :
  psize (strides_ h) = psize (dims_ h) ->
  subs2ind (offset_ h) (strides_ h) (dims_ h) subs = flat_position h subs.
Proof. apply subs2ind_sum. Qed.

(** * Layout theorems *)



(** C2. Element access resolves to the buffer position
    [offset + sum of strides[i] * (s[i] mod dims[i])], where [s] is the
    subscript tuple cut to the rank, or completed to the rank with leading
    zeros when it is shorter; with positive extents every wrapped subscript
    lies in [0, dims[i]). *)
Theorem C2_element_access {T} (T0 : T) (st : store T) (a : Array) (subs : list Z) :
  psize (strides_ (hdr_ a)) = psize (dims_ (hdr_ a)) ->
  let L := hdr_ a in
  let N := psize (dims_ L) in
  let s := trailing_subs N subs in
  let pos := offset_ L + sum_range 0 N (fun i => pget (strides_ L) i * (pget s i mod pget (dims_ L) i)) in
  Array_at T0 st a subs = nthZ T0 (default [] (data st a)) pos
  /\ (forall v, Array_set st a subs v =
                match buffsp_ a with
                | Some l => alter (fun buf => updZ buf pos v) l st
                | None => st
                end)
  /\ psize s = N
  /\ (forall extra, psize subs = N -> trailing_subs N (subs ++ extra) = subs)
  /\ (psize subs <= N -> s = replicate (Z.to_nat (N - psize subs)) 0 ++ subs)
  /\ (Forall (fun d => 0 < d) (dims_ L) ->
      forall i, 0 <= i < N -> 0 <= pget s i mod pget (dims_ L) i < pget (dims_ L) i).
Proof.
  intros Hs L N s pos.
  pose proof (subs2ind_flat_position (hdr_ a) subs Hs) as Hp.
  unfold flat_position in Hp. fold L N s pos in Hp.
  split; [|split; [|split; [|split; [|split]]]].
  - unfold Array_at. fold L. rewrite Hp. reflexivity.
  - intros v. unfold Array_set. fold L. rewrite Hp. reflexivity.
  - apply psize_trailing_subs, psize_nonneg.
  - intros extra <-. apply trailing_subs_extra.
  - apply trailing_subs_short.
  - intros Hpos i Hi. apply Z.mod_pos_bound.
    apply (pget_Forall (fun d => 0 < d)); assumption.
Qed.

Lemma C2_element_access_witness :
  let a := {| hdr_ := Array_header_dims [3; 1; 2]; buffsp_ := Some 0%nat |} in
  let st := [[1; 2; 3; 4; 5; 6]] in
  Array_at 0 st a [-1; 0; 0] = 5 /\ Array_at 0 st a [1] = 2
  /\ Array_at 0 st a [2; 0; 1; 10] = 6.
Proof.
  intros a st.
  assert (psize (strides_ (hdr_ a)) = psize (dims_ (hdr_ a))) as Hs by reflexivity.
  split; [|split].
  - rewrite (proj1 (C2_element_access 0 st a [-1; 0; 0] Hs)). reflexivity.
  - rewrite (proj1 (C2_element_access 0 st a [1] Hs)). reflexivity.
  - rewrite (proj1 (C2_element_access 0 st a [2; 0; 1; 10] Hs)). reflexivity.
Defined.

(** C3, at the failing input: transposing a 1 x 2 array with the order
    (1, 0). The permuted constructor reduces each order entry modulo the
    extent of the axis instead of the rank, finds the shape [1; 1] and,
    the element counts differing, leaves the layout empty; [transpose]
    returns an empty array. *)
Theorem C3_transpose_row_vector :
  let st := [[7; 8]] in
  let a := {| hdr_ := Array_header_dims [1; 2]; buffsp_ := Some 0%nat |} in
  empty st a = false
  /\ Array_header_order (dims_ (hdr_ a)) [1; 0] = Array_header_default
  /\ forall fuel, transpose 0 fuel st a [1; 0] = Done (st, Array_default).
Proof.
  intros st a. split; [reflexivity|]. split; [reflexivity|].
  intros fuel. reflexivity.
Qed.



(** * Row-major order *)

Lemma in_bounds_length dims subs : in_bounds dims subs -> length subs = length dims.
Proof. intros H. symmetry. eapply Forall2_length. exact H. Qed.

Lemma in_bounds_psize dims subs : in_bounds dims subs -> psize subs = psize dims.
Proof. intros H. unfold psize. rewrite (in_bounds_length _ _ H). reflexivity. Qed.

Lemma in_bounds_pget dims subs i :
  in_bounds dims subs -> 0 <= i < psize dims -> 0 <= pget subs i < pget dims i.
Proof.
  intros H. revert i. induction H as [|d x dims subs Hx _ IH]; intros i Hi.
  - rewrite psize_nil in Hi. lia.
  - rewrite psize_cons in Hi. destruct (Z.eq_dec i 0) as [->|Hne].
    + exact Hx.
    + replace i with (i - 1 + 1) by lia. unfold pget.
      rewrite !nthZ_cons_succ by lia. apply IH. lia.
Qed.

Lemma in_bounds_intro dims subs :
  psize subs = psize dims ->
  (forall i, 0 <= i < psize dims -> 0 <= pget subs i < pget dims i) ->
  in_bounds dims subs.
Proof.
  revert subs. induction dims as [|d dims IH]; intros [|x subs] Hs H;
    rewrite ?psize_cons, ?psize_nil in *.
  - constructor.
  - pose proof (psize_nonneg subs). lia.
  - pose proof (psize_nonneg dims). lia.
  - pose proof (psize_nonneg dims). constructor.
    + apply (H 0). lia.
    + apply IH; [lia|]. intros i Hi. specialize (H (i + 1)).
      unfold pget in *. rewrite !nthZ_cons_succ in H by lia. apply H. lia.
Qed.

Lemma in_bounds_pos dims subs : in_bounds dims subs -> Forall (fun d => 0 < d) dims.
Proof. induction 1; constructor; [lia|assumption]. Qed.

Lemma lin_bounds dims subs : in_bounds dims subs -> 0 <= lin dims subs < prod_list dims.
Proof.
  induction 1 as [|d x dims subs Hx Hb IH]; simpl; [lia|].
  pose proof (prod_list_pos _ (in_bounds_pos _ _ Hb)). nia.
Qed.

Lemma lin_inj dims s1 s2 :
  in_bounds dims s1 -> in_bounds dims s2 -> lin dims s1 = lin dims s2 -> s1 = s2.
Proof.
  intros H1. revert s2. induction H1 as [|d x dims s1 Hx Hb IH]; intros s2 H2 Heq.
  - inversion H2. reflexivity.
  - inversion H2 as [|d' y dims' s2' Hy Hb2]; subst. simpl in Heq.
    pose proof (lin_bounds _ _ Hb). pose proof (lin_bounds _ _ Hb2).
    assert (x = y) by nia. subst y. f_equal. apply IH; [assumption|lia].
Qed.

Lemma unrank_spec dims k :
  Forall (fun d => 0 < d) dims -> 0 <= k < prod_list dims ->
  in_bounds dims (unrank dims k) /\ lin dims (unrank dims k) = k.
Proof.
  intros Hpos. revert k. induction Hpos as [|d dims Hd Hp IH]; intros k Hk; simpl in *.
  - split; [constructor|lia].
  - pose proof (prod_list_pos _ Hp) as HP.
    pose proof (Z.mod_pos_bound k _ HP) as Hm.
    destruct (IH _ Hm) as [Hb Hl]. split.
    + constructor; [|assumption]. split; [apply Z.div_pos; lia|].
      apply Z.div_lt_upper_bound; lia.
    + rewrite Hl. pose proof (Z.div_mod k (prod_list dims) ltac:(lia)). lia.
Qed.

Lemma lookup_bind_block {A B} (f : A -> list B) (xs : list A) (m i j : nat) x :
  (forall y, length (f y) = m) -> xs !! i = Some x -> (j < m)%nat ->
  (xs ≫= f) !! (i * m + j)%nat = f x !! j.
Proof.
  intros Hlen. revert i. induction xs as [|x0 xs IH]; intros i Hi Hj; [inversion Hi|].
  rewrite bind_cons. destruct i as [|i]; simpl in *.
  - inversion Hi; subst. apply lookup_app_l. rewrite Hlen. assumption.
  - rewrite lookup_app_r by (rewrite Hlen; lia). rewrite Hlen.
    replace (m + i * m + j - m)%nat with (i * m + j)%nat by lia. apply IH; assumption.
Qed.

Lemma length_bind_block {A B} (f : A -> list B) (xs : list A) (m : nat) :
  (forall y, length (f y) = m) -> length (xs ≫= f) = (length xs * m)%nat.
Proof.
  intros Hlen. induction xs as [|x0 xs IH]; [reflexivity|].
  rewrite bind_cons, length_app, Hlen, IH. simpl. lia.
Qed.

Lemma length_row_major dims :
  Forall (fun d => 0 < d) dims -> length (row_major dims) = Z.to_nat (prod_list dims).
Proof.
  induction 1 as [|d dims Hd Hp IH]; simpl; [reflexivity|].
  rewrite (length_bind_block _ _ (Z.to_nat (prod_list dims))).
  - rewrite length_seqZ. pose proof (prod_list_pos _ Hp). lia.
  - intros y. rewrite length_fmap. exact IH.
Qed.

Lemma row_major_lookup_lin dims subs :
  in_bounds dims subs -> row_major dims !! Z.to_nat (lin dims subs) = Some subs.
Proof.
  induction 1 as [|d x dims subs Hx Hb IH]; simpl; [reflexivity|].
  pose proof (in_bounds_pos _ _ Hb) as Hp.
  pose proof (prod_list_pos _ Hp) as HP. pose proof (lin_bounds _ _ Hb) as Hl.
  replace (Z.to_nat (x * prod_list dims + lin dims subs))
    with (Z.to_nat x * Z.to_nat (prod_list dims) + Z.to_nat (lin dims subs))%nat by nia.
  rewrite (lookup_bind_block _ _ (Z.to_nat (prod_list dims)) _ _ x).
  - rewrite list_lookup_fmap, IH. reflexivity.
  - intros y. rewrite length_fmap. apply length_row_major. assumption.
  - rewrite lookup_seqZ. split; lia.
  - lia.
Qed.

Lemma row_major_lookup dims k :
  Forall (fun d => 0 < d) dims -> 0 <= k < prod_list dims ->
  row_major dims !! Z.to_nat k = Some (unrank dims k).
Proof.
  intros Hp Hk. destruct (unrank_spec dims k Hp Hk) as [Hb Hl].
  rewrite <- Hl at 1. apply row_major_lookup_lin. assumption.
Qed.

Lemma row_major_lookup_inv dims (k : nat) subs :
  Forall (fun d => 0 < d) dims -> row_major dims !! k = Some subs ->
  in_bounds dims subs /\ lin dims subs = Z.of_nat k.
Proof.
  intros Hp Hk. pose proof (lookup_lt_Some _ _ _ Hk) as Hlt.
  rewrite length_row_major in Hlt by assumption.
  rewrite <- (Nat2Z.id k) in Hk. rewrite row_major_lookup in Hk by (assumption || lia).
  inversion Hk; subst. apply unrank_spec; [assumption|lia].
Qed.

Lemma in_bounds_unrank dims subs :
  in_bounds dims subs -> unrank dims (lin dims subs) = subs.
Proof.
  intros Hb. pose proof (in_bounds_pos _ _ Hb) as Hp.
  pose proof (lin_bounds _ _ Hb) as Hl.
  destruct (unrank_spec dims _ Hp Hl) as [Hb' Hl'].
  apply (lin_inj dims); assumption.
Qed.

(** * Row-major strides and flat positions *)

Lemma length_row_strides dims : length (row_strides dims) = length dims.
Proof. induction dims; simpl; congruence. Qed.

Lemma row_strides_row_major dims : row_major_strides dims (row_strides dims).
Proof.
  unfold row_major_strides. split; [unfold psize; rewrite length_row_strides; reflexivity|].
  induction dims as [|d dims [IH1 IH2]].
  - split; [rewrite psize_nil; lia|]. intros i. rewrite psize_nil. lia.
  - rewrite psize_cons. pose proof (psize_nonneg dims) as Hn. split.
    + intros _. destruct dims as [|d' dims']; [reflexivity|].
      set (dims := d' :: dims') in *.
      assert (0 < psize dims) as Hp by (subst dims; rewrite psize_cons; pose proof (psize_nonneg dims'); lia).
      replace (psize dims + 1 - 1) with (psize dims - 1 + 1) by lia.
      unfold pget. cbn [row_strides]. rewrite nthZ_cons_succ by lia. apply IH1. lia.
    + intros i Hi. destruct (Z.eq_dec i 0) as [->|Hne].
      * destruct dims as [|d' dims']; [unfold psize in Hi; simpl in Hi; lia|].
        unfold pget. cbn [row_strides]. rewrite nthZ_cons_0.
        rewrite !(nthZ_cons_succ _ _ _ 0) by lia. rewrite !nthZ_cons_0. simpl. lia.
      * replace i with (i - 1 + 1) by lia.
        unfold pget. cbn [row_strides]. rewrite !nthZ_cons_succ by lia. apply IH2. lia.
Qed.

Lemma row_major_strides_closed dims strides :
  row_major_strides dims strides -> strides = row_strides dims.
Proof.
  intros H. eapply row_major_strides_unique; [exact H|apply row_strides_row_major].
Qed.

Lemma sum_range_shift lo hi f :
  sum_range (lo + 1) (hi + 1) f = sum_range lo hi (fun i => f (i + 1)).
Proof.
  unfold sum_range. replace (hi + 1 - (lo + 1)) with (hi - lo) by lia.
  f_equal. replace (lo + 1) with (1 + lo) by lia.
  rewrite <- fmap_add_seqZ, <- list_fmap_compose.
  apply list_fmap_ext. intros _ x _. simpl. f_equal. lia.
Qed.

Lemma sum_row_strides dims subs :
  psize subs = psize dims ->
  sum_range 0 (psize dims) (fun i => pget (row_strides dims) i * pget subs i)
  = lin dims subs.
Proof.
  revert subs. induction dims as [|d dims IH]; intros subs Hs.
  - rewrite sum_range_nil by (rewrite psize_nil; lia). reflexivity.
  - destruct subs as [|x subs].
    { rewrite psize_cons, psize_nil in Hs. pose proof (psize_nonneg dims). lia. }
    rewrite !psize_cons in *. pose proof (psize_nonneg dims).
    rewrite sum_range_first by lia. rewrite sum_range_shift.
    cbn [row_strides lin]. unfold pget at 1 2. rewrite !nthZ_cons_0.
    rewrite <- (IH subs) by lia. f_equal; [lia|].
    apply sum_range_ext. intros i Hi. unfold pget. rewrite !nthZ_cons_succ by lia.
    reflexivity.
Qed.

(** Under row-major strides and offset 0, an in-bounds subscript tuple lies at
    its row-major position. *)
Lemma subs2ind_row_major strides dims subs :
  row_major_strides dims strides -> in_bounds dims subs ->
  subs2ind 0 strides dims subs = lin dims subs.
Proof.
  intros Hrm Hb. pose proof (in_bounds_psize _ _ Hb) as Hs.
  rewrite subs2ind_sum by apply Hrm.
  rewrite (row_major_strides_closed _ _ Hrm).
  assert (trailing_subs (psize dims) subs = subs) as ->
    by (rewrite <- Hs; apply trailing_subs_exact).
  rewrite <- (sum_row_strides dims subs Hs). rewrite Z.add_0_l.
  apply sum_range_ext. intros i Hi.
  rewrite Z.mod_small by (apply in_bounds_pget; assumption). reflexivity.
Qed.

(** * Digit lists *)

Lemma lsb_val_app r1 r2 d1 d2 :
  length r1 = length d1 ->
  lsb_val (r1 ++ r2) (d1 ++ d2) = lsb_val r1 d1 + prod_list r1 * lsb_val r2 d2.
Proof.
  revert d1. induction r1 as [|r r1 IH]; intros [|d d1] H; simpl in *; try lia.
  rewrite IH by lia. lia.
Qed.

Lemma prod_list_reverse l : prod_list (reverse l) = prod_list l.
Proof.
  induction l as [|x l IH]; [reflexivity|].
  rewrite reverse_cons, prod_list_app, IH. simpl. lia.
Qed.

Lemma lsb_val_reverse dims subs :
  length subs = length dims -> lsb_val (reverse dims) (reverse subs) = lin dims subs.
Proof.
  revert subs. induction dims as [|d dims IH]; intros [|x subs] H; simpl in *; try lia.
  rewrite !reverse_cons. rewrite lsb_val_app by (rewrite !length_reverse; lia).
  rewrite IH by lia. rewrite prod_list_reverse. simpl. lia.
Qed.

(** * Cursors *)

Lemma increment_loop_stop ixs sel m it :
  increment_loop ixs sel m (it, false) = (it, false).
Proof. destruct ixs; reflexivity. Qed.

Lemma increment_loop_app l1 l2 sel m st :
  increment_loop (l1 ++ l2) sel m st = increment_loop l2 sel m (increment_loop l1 sel m st).
Proof.
  revert st. induction l1 as [|i l1 IH]; intros [it c]; [reflexivity|].
  simpl. destruct c; [apply IH|]. rewrite increment_loop_stop. reflexivity.
Qed.

Lemma increment_unfold it :
  order_ it = [] ->
  increment it =
  fst (increment_loop (touch_order (axis_ it) (psize (subs_ it))) (fun i => i)
         (major_axis_ it) (it, true)).
Proof.
  intros H. unfold increment, touch_order. rewrite H. simpl.
  rewrite increment_loop_app. reflexivity.
Qed.

Lemma fmap_ext_elem_of {A B} (f g : A -> B) (l : list A) :
  (forall x, x ∈ l -> f x = g x) -> f <$> l = g <$> l.
Proof.
  intros H. apply list_fmap_ext. intros i x Hi. apply H.
  eapply list_elem_of_lookup_2. exact Hi.
Qed.

Lemma last_elem_of {A} (l : list A) x : last l = Some x -> x ∈ l.
Proof.
  induction l as [|y [|z l] IH]; intros H; simpl in *.
  - discriminate.
  - inversion H. left.
  - right. apply IH. exact H.
Qed.

(** One [operator++] along the axes [AX], the last of which is the major
    axis: the digit list read along [AX] advances by one, or the major
    subscript reaches its bound when the digits were the last ones. *)
Lemma increment_loop_step AX m :
  forall it,
    NoDup AX -> last AX = Some m ->
    (forall i, i ∈ AX ->
       0 <= i < psize (subs_ it) /\ pget (minimum_excluded_ it) i = -1
       /\ 0 <= pget (subs_ it) i < pget (maximum_excluded_ it) i) ->
    exists s' c,
      increment_loop AX (fun i => i) m (it, true) = (with_subs it s', c)
      /\ psize s' = psize (subs_ it)
      /\ (forall j, j ∉ AX -> pget s' j = pget (subs_ it) j)
      /\ let rad := pget (maximum_excluded_ it) <$> AX in
         let k := lsb_val rad (pget (subs_ it) <$> AX) in
         if c then k + 1 = prod_list rad /\ pget s' m = pget (maximum_excluded_ it) m
         else (forall i, i ∈ AX -> 0 <= pget s' i < pget (maximum_excluded_ it) i)
              /\ lsb_val rad (pget s' <$> AX) = k + 1.
Proof.
  induction AX as [|i AX IH]; intros it Hnd Hlast Hin; [discriminate|].
  destruct (Hin i ltac:(left)) as (Hi & Hmin & Hs).
  apply NoDup_cons in Hnd as [Hni Hnd].
  set (D := maximum_excluded_ it) in *. set (s := subs_ it) in *.
  cbn [increment_loop snd fst]. unfold increment_subscript. fold s D.
  destruct (Z.ltb_spec (pget s i) (pget D i)) as [_|]; [|lia]. cbn [b2z].
  rewrite pget_pset_eq by lia. rewrite Hmin. cbn [Z.add Z.eqb negb].
  replace (-1 + 1) with 0 by lia. cbn [Z.eqb negb].
  destruct AX as [|i' AX'].
  - (* the major axis itself *)
    simpl in Hlast. inversion Hlast; subst m. rewrite Z.eqb_refl. cbn [negb].
    rewrite andb_false_r. cbn [increment_loop].
    exists (pset s i (pget s i + 1)), (pget s i + 1 =? pget D i).
    split; [reflexivity|]. split; [apply psize_pset|]. split.
    { intros j Hj. apply pget_pset_ne. intros ->. apply Hj. left. }
    cbn [fmap list_fmap lsb_val prod_list foldr].
    destruct (Z.eqb_spec (pget s i + 1) (pget D i)) as [He|He].
    + split; [lia|]. rewrite pget_pset_eq by lia. lia.
    + split.
      * intros j Hj. apply list_elem_of_singleton in Hj as ->.
        rewrite pget_pset_eq by lia. lia.
      * rewrite pget_pset_eq by lia. lia.
  - (* an inner axis *)
    rewrite last_cons_cons in Hlast.
    assert (m ∈ i' :: AX') as Hm by (apply last_elem_of; assumption).
    assert (i <> m) as Him by (intros ->; contradiction).
    destruct (Z.eqb_spec i m) as [|_]; [contradiction|]. cbn [negb]. rewrite andb_true_r.
    set (AX := i' :: AX') in *.
    assert (forall t : list Z, (forall j, j ∈ AX -> pget t j = pget s j) ->
              pget t <$> AX = pget s <$> AX) as Hdig.
    { intros t Ht. apply fmap_ext_elem_of. assumption. }
    destruct (Z.eqb_spec (pget s i + 1) (pget D i)) as [He|He].
    + (* carry into the next axis *)
      set (s2 := pset (pset s i (pget s i + 1)) i 0).
      assert (forall j, j <> i -> pget s2 j = pget s j) as Hs2.
      { intros j Hj. unfold s2. rewrite !pget_pset_ne by congruence. reflexivity. }
      destruct (IH (with_subs it s2) Hnd Hlast) as (s' & c & Hloop & Hsz & Hout & Hres).
      { intros j Hj. cbn [with_subs subs_ minimum_excluded_ maximum_excluded_].
        destruct (Hin j ltac:(right; assumption)) as (H1 & H2 & H3).
        assert (j <> i) by (intros ->; contradiction).
        unfold s2 at 1. rewrite !psize_pset. rewrite Hs2 by assumption. auto. }
      exists s', c. cbn [with_subs subs_ minimum_excluded_ maximum_excluded_] in *.
      fold D in Hres.
      split; [exact Hloop|]. split; [unfold s2 in Hsz; rewrite !psize_pset in Hsz; exact Hsz|].
      split.
      { intros j Hj. rewrite Hout by (intros Hc; apply Hj; right; assumption).
        apply Hs2. intros ->. apply Hj. left. }
      rewrite (Hdig s2) in Hres
        by (intros j Hj; apply Hs2; intros ->; contradiction).
      rewrite !fmap_cons. cbn [lsb_val prod_list foldr].
      fold (prod_list (pget D <$> AX)).
      destruct c.
      * destruct Hres as [Hk Hm']. split; [nia|assumption].
      * destruct Hres as [Hr Hk]. split.
        -- intros j Hj. apply elem_of_cons in Hj as [->|Hj]; [|apply Hr; assumption].
           rewrite Hout by assumption. unfold s2. rewrite pget_pset_eq by (rewrite psize_pset; lia).
           lia.
        -- rewrite Hk. rewrite Hout by assumption. unfold s2.
           rewrite pget_pset_eq by (rewrite psize_pset; lia). nia.
    + (* no carry *)
      rewrite increment_loop_stop.
      exists (pset s i (pget s i + 1)), false.
      split; [reflexivity|]. split; [apply psize_pset|]. split.
      { intros j Hj. apply pget_pset_ne. intros ->. apply Hj. left. }
      split.
      * intros j Hj. apply elem_of_cons in Hj as [->|Hj].
        -- rewrite pget_pset_eq by lia. lia.
        -- rewrite pget_pset_ne by (intros ->; contradiction).
           apply (Hin j). right. assumption.
      * rewrite !fmap_cons. cbn [lsb_val]. rewrite pget_pset_eq by lia.
        rewrite (Hdig (pset s i (pget s i + 1))); [lia|].
        intros j Hj. apply pget_pset_ne. intros ->. contradiction.
Qed.

Lemma fmap_pget_seqZ (l : list Z) lo len :
  0 <= lo -> 0 <= len -> lo + len <= psize l ->
  pget l <$> seqZ lo len = take (Z.to_nat len) (drop (Z.to_nat lo) l).
Proof.
  intros Hlo Hlen Hb. apply list_eq. intros i. rewrite list_lookup_fmap.
  destruct (Nat.lt_ge_cases i (Z.to_nat len)) as [Hi|Hi].
  - rewrite lookup_seqZ_lt by lia. simpl.
    rewrite lookup_take_lt by lia. rewrite lookup_drop.
    destruct (l !! (Z.to_nat lo + i)%nat) as [x|] eqn:E.
    + f_equal. unfold pget. replace (lo + Z.of_nat i) with (Z.of_nat (Z.to_nat lo + i)) by lia.
      apply nthZ_lookup. exact E.
    + apply lookup_ge_None in E. unfold psize in Hb. lia.
  - rewrite lookup_seqZ_ge by lia. simpl. symmetry. apply lookup_take_ge. lia.
Qed.

Lemma fmap_pget_all (l : list Z) : pget l <$> seqZ 0 (psize l) = l.
Proof.
  rewrite fmap_pget_seqZ by (pose proof (psize_nonneg l); lia).
  simpl. unfold psize. rewrite Nat2Z.id. apply firstn_all.
Qed.

Lemma touch_order_elem_of a n i :
  0 <= a < n -> i ∈ touch_order a n <-> 0 <= i < n.
Proof.
  intros Ha. unfold touch_order.
  rewrite elem_of_cons, elem_of_app, !elem_of_reverse, !elem_of_seqZ. lia.
Qed.

Lemma NoDup_reverse_seqZ lo len : NoDup (reverse (seqZ lo len)).
Proof. rewrite reverse_Permutation. apply NoDup_seqZ. Qed.

Lemma touch_order_NoDup a n : 0 <= a < n -> NoDup (touch_order a n).
Proof.
  intros Ha. unfold touch_order. apply NoDup_cons. split.
  - rewrite elem_of_app, !elem_of_reverse, !elem_of_seqZ. lia.
  - apply NoDup_app. split; [|split].
    + apply NoDup_reverse_seqZ.
    + intros x. rewrite !elem_of_reverse, !elem_of_seqZ. lia.
    + apply NoDup_reverse_seqZ.
Qed.

Lemma last_reverse_seqZ lo len :
  0 < len -> last (reverse (seqZ lo len)) = Some lo.
Proof.
  intros H. rewrite (seqZ_cons lo) by lia. rewrite reverse_cons. apply last_snoc.
Qed.

Lemma touch_order_last a n :
  0 <= a < n -> last (touch_order a n) = Some (major_of a n).
Proof.
  intros Ha. unfold touch_order, major_of.
  destruct (Z.gtb_spec a 0) as [Hgt|Hle].
  - rewrite app_comm_cons, last_app. rewrite last_reverse_seqZ by lia. reflexivity.
  - assert (a = 0) as -> by lia. rewrite (seqZ_nil 0 0) by lia.
    rewrite reverse_nil, app_nil_r.
    destruct (Z.gtb_spec n 1) as [Hn|Hn].
    + change (0 :: reverse (seqZ (0 + 1) (n - 1 - 0)))
        with ([0] ++ reverse (seqZ (0 + 1) (n - 1 - 0))).
      rewrite last_app, last_reverse_seqZ by lia. reflexivity.
    + rewrite seqZ_nil by lia. reflexivity.
Qed.

Lemma major_of_range a n : 0 <= a < n -> 0 <= major_of a n < n.
Proof.
  intros Ha. unfold major_of.
  destruct (Z.gtb_spec a 0), (Z.gtb_spec n 1); lia.
Qed.

(** The digits read along the touch order: the chosen axis, then the others
    from the last one down. *)
Lemma fmap_pget_touch_order (l : list Z) a :
  0 <= a < psize l ->
  pget l <$> touch_order a (psize l) = pget l a :: reverse (delete (Z.to_nat a) l).
Proof.
  intros Ha. unfold touch_order.
  rewrite fmap_cons, fmap_app, !fmap_reverse.
  rewrite !fmap_pget_seqZ by lia. f_equal.
  rewrite delete_take_drop, reverse_app. f_equal; f_equal.
  replace (Z.to_nat (a + 1)) with (S (Z.to_nat a)) by lia.
  apply take_ge. rewrite length_drop. unfold psize in *. lia.
Qed.

Lemma pget_middle (l : list Z) a :
  0 <= a < psize l ->
  l = take (Z.to_nat a) l ++ pget l a :: drop (S (Z.to_nat a)) l.
Proof.
  intros Ha. symmetry. apply take_drop_middle.
  unfold pget, nthZ. destruct (Z.ltb_spec a 0); [lia|].
  rewrite nth_lookup. destruct (l !! Z.to_nat a) eqn:E; [reflexivity|].
  apply lookup_ge_None in E. unfold psize in Ha. lia.
Qed.

Lemma prod_list_delete (l : list Z) a :
  0 <= a < psize l ->
  prod_list l = pget l a * prod_list (delete (Z.to_nat a) l).
Proof.
  intros Ha. rewrite (pget_middle l a Ha) at 1.
  rewrite delete_take_drop, !prod_list_app. simpl. lia.
Qed.

Lemma prod_list_touch_order (dims : list Z) a :
  0 <= a < psize dims ->
  prod_list (pget dims <$> touch_order a (psize dims)) = prod_list dims.
Proof.
  intros Ha. rewrite fmap_pget_touch_order by assumption.
  simpl. rewrite prod_list_reverse. symmetry. apply prod_list_delete. assumption.
Qed.

Lemma cursor_pos_axis dims a s :
  0 <= a < psize dims -> psize s = psize dims ->
  cursor_pos dims a s =
  pget s a + pget dims a * lin (delete (Z.to_nat a) dims) (delete (Z.to_nat a) s).
Proof.
  intros Ha Hs. unfold cursor_pos. rewrite <- Hs at 2.
  rewrite !fmap_pget_touch_order by lia. simpl.
  rewrite lsb_val_reverse; [reflexivity|].
  rewrite !length_delete by (apply lookup_lt_is_Some; unfold psize in *; lia).
  unfold psize in Hs. lia.
Qed.

Lemma touch_order_last_axis n :
  0 < n -> touch_order (n - 1) n = reverse (seqZ 0 n).
Proof.
  intros Hn. unfold touch_order. rewrite (seqZ_nil _ (n - 1 - (n - 1))) by lia.
  rewrite reverse_nil, app_nil_l.
  replace n with ((n - 1) + 1) at 3 by lia. rewrite seqZ_app by lia.
  rewrite reverse_app. rewrite (seqZ_cons _ 1), (seqZ_nil _ (Z.pred 1)) by lia.
  reflexivity.
Qed.

Lemma cursor_pos_default dims s :
  0 < psize dims -> psize s = psize dims ->
  cursor_pos dims (psize dims - 1) s = lin dims s.
Proof.
  intros Hn Hs. unfold cursor_pos. rewrite touch_order_last_axis by assumption.
  rewrite !fmap_reverse. rewrite <- Hs at 2. rewrite !fmap_pget_all.
  apply lsb_val_reverse. unfold psize in Hs. lia.
Qed.

Lemma in_bounds_delete dims s (a : nat) :
  in_bounds dims s -> in_bounds (delete a dims) (delete a s).
Proof.
  intros H. rewrite !delete_take_drop. apply Forall2_app.
  - apply Forall2_take. exact H.
  - apply Forall2_drop. exact H.
Qed.

Lemma in_bounds_zeros dims :
  Forall (fun d => 0 < d) dims -> in_bounds dims (replicate (length dims) 0).
Proof. induction 1; simpl; constructor; [lia|assumption]. Qed.

Lemma lsb_val_zeros {A} (rs : list Z) (l : list A) :
  lsb_val rs ((fun _ => 0) <$> l) = 0.
Proof.
  revert rs. induction l as [|x l IH]; intros [|r rs]; simpl; try reflexivity.
  rewrite IH. lia.
Qed.

Lemma cursor_pos_zeros dims a :
  cursor_pos dims a (replicate (length dims) 0) = 0.
Proof.
  unfold cursor_pos.
  rewrite (fmap_ext_elem_of (pget (replicate (length dims) 0)) (fun _ => 0))
    by (intros; apply pget_replicate).
  apply lsb_val_zeros.
Qed.

Lemma cursor_pos_bounds dims a s :
  0 <= a < psize dims -> in_bounds dims s ->
  0 <= cursor_pos dims a s < prod_list dims.
Proof.
  intros Ha Hb. rewrite cursor_pos_axis by (assumption || apply in_bounds_psize; assumption).
  pose proof (lin_bounds _ _ (in_bounds_delete _ _ (Z.to_nat a) Hb)).
  pose proof (in_bounds_pget _ _ a Hb Ha).
  rewrite (prod_list_delete dims a Ha). nia.
Qed.

Lemma pget_replicate_neg1 n i :
  0 <= i < Z.of_nat n -> pget (replicate n (-1)) i = -1.
Proof.
  intros Hi. unfold pget, nthZ. destruct (Z.ltb_spec i 0); [lia|].
  rewrite nth_lookup, lookup_replicate_2 by lia. reflexivity.
Qed.

Lemma in_range_cursor_true dims a m s :
  0 <= m < psize dims -> in_bounds dims s -> in_range (cursor dims a m s) = true.
Proof.
  intros Hm Hb. unfold in_range, cursor. simpl.
  pose proof (in_bounds_pget _ _ m Hb Hm).
  rewrite pget_replicate_neg1 by (unfold psize in Hm; lia).
  destruct (Z.ltb_spec (pget s m) (pget dims m)), (Z.gtb_spec (pget s m) (-1));
    simpl; try reflexivity; lia.
Qed.

Lemma in_range_cursor_false dims a m s :
  pget s m = pget dims m -> in_range (cursor dims a m s) = false.
Proof.
  intros H. unfold in_range, cursor. simpl. rewrite H.
  rewrite Z.ltb_irrefl. reflexivity.
Qed.

(** One step of a cursor over a shape. *)
Lemma cursor_increment dims a s :
  0 <= a < psize dims -> in_bounds dims s ->
  exists s',
    increment (cursor dims a (major_of a (psize dims)) s)
    = cursor dims a (major_of a (psize dims)) s'
    /\ psize s' = psize dims
    /\ (cursor_pos dims a s + 1 < prod_list dims ->
        in_bounds dims s' /\ cursor_pos dims a s' = cursor_pos dims a s + 1)
    /\ (cursor_pos dims a s + 1 = prod_list dims ->
        pget s' (major_of a (psize dims)) = pget dims (major_of a (psize dims))).
Proof.
  intros Ha Hb. pose proof (in_bounds_psize _ _ Hb) as Hs.
  set (m := major_of a (psize dims)).
  rewrite increment_unfold by reflexivity.
  cbn [cursor axis_ subs_ major_axis_]. rewrite Hs.
  destruct (increment_loop_step (touch_order a (psize dims)) m (cursor dims a m s))
    as (s' & c & Hloop & Hsz & _ & Hres).
  { apply touch_order_NoDup. assumption. }
  { apply touch_order_last. assumption. }
  { intros i Hi. apply touch_order_elem_of in Hi; [|assumption].
    cbn [cursor subs_ minimum_excluded_ maximum_excluded_]. rewrite Hs.
    split; [assumption|]. split.
    - apply pget_replicate_neg1. unfold psize in Hi. lia.
    - apply in_bounds_pget; assumption. }
  cbn [cursor subs_ minimum_excluded_ maximum_excluded_] in Hsz, Hres.
  rewrite Hloop. cbn [fst]. exists s'. split; [reflexivity|].
  split; [lia|].
  fold (cursor_pos dims a s) in Hres. rewrite prod_list_touch_order in Hres by assumption.
  pose proof (cursor_pos_bounds dims a s Ha Hb) as Hk.
  destruct c.
  - destruct Hres as [Hlast Hm]. split; [lia|]. intros _. exact Hm.
  - destruct Hres as [Hr Hv]. fold (cursor_pos dims a s') in Hv.
    assert (in_bounds dims s') as Hb'.
    { apply in_bounds_intro; [lia|]. intros i Hi. apply Hr.
      apply touch_order_elem_of; assumption. }
    split; [intros _; split; assumption|].
    intros Hlast. pose proof (cursor_pos_bounds dims a s' Ha Hb'). lia.
Qed.

Lemma psize_length {A} (l : list A) : Z.to_nat (psize l) = length l.
Proof. unfold psize. lia. Qed.

Lemma memoc_set_buffer n v : 0 <= n -> memoc_set (Internal_buffer n) v = replicate (Z.to_nat n) v.
Proof.
  intros H. unfold memoc_set, Internal_buffer. rewrite length_replicate. reflexivity.
Qed.

Lemma pget_pos_head dims :
  Forall (fun d => 0 < d) dims -> dims <> [] -> 0 < pget dims 0.
Proof. intros H Hne. destruct H; [congruence|]. exact H. Qed.

Lemma iterator_bounds_full dims :
  dims <> [] ->
  iterator_bounds (psize dims) [] [] dims =
  (replicate (length dims) 0, replicate (length dims) 0,
   replicate (length dims) (-1), dims).
Proof.
  intros Hne. unfold iterator_bounds.
  rewrite !memoc_set_buffer by apply psize_nonneg.
  rewrite memoc_copy_buffer, psize_length.
  destruct dims; [congruence|reflexivity].
Qed.

(** The default cursor of a non-empty shape. *)
Lemma Subscripts_iterator_cursor dims :
  Forall (fun d => 0 < d) dims -> dims <> [] ->
  Subscripts_iterator [] dims [] =
  cursor dims (psize dims - 1) (major_of (psize dims - 1) (psize dims))
    (replicate (length dims) 0).
Proof.
  intros Hpos Hne. pose proof (proj2 (psize_pos_nonnil dims) Hne) as Hn.
  unfold Subscripts_iterator, Array_subscripts_iterator_order.
  rewrite !psize_nil.
  destruct (Z.gtb_spec 0 (psize dims)); [lia|].
  destruct (Z.gtb_spec 0 (psize dims)); [lia|].
  destruct (Z.gtb_spec (psize dims) 0); [|lia].
  destruct (Z.geb_spec 0 (psize dims)); [lia|].
  rewrite iterator_bounds_full by assumption.
  unfold with_major_axis, cursor. cbn [nsubs_ subs_ start_ minimum_excluded_
    maximum_excluded_ axis_ order_]. f_equal.
  unfold find_major_axis, major_of.
  cbn [nsubs_ subs_ start_ minimum_excluded_ maximum_excluded_ axis_ order_].
  assert (psize (replicate (length dims) 0) = psize dims) as ->
    by (unfold psize; rewrite length_replicate; reflexivity).
  pose proof (pget_pos_head dims Hpos Hne) as Hhead.
  destruct (Z.gtb_spec (psize dims - 1) 0).
  - destruct (Z.eqb_spec (pget dims 0) 0); [lia|]. rewrite andb_false_r. reflexivity.
  - destruct (Z.gtb_spec (psize dims) 1); [lia|].
    destruct (Z.eqb_spec (pget dims 0) 0); [lia|]. rewrite andb_false_r. reflexivity.
Qed.

Lemma major_of_last_axis n : 0 < n -> major_of (n - 1) n = 0.
Proof.
  intros H. unfold major_of.
  destruct (Z.gtb_spec (n - 1) 0); [reflexivity|].
  destruct (Z.gtb_spec n 1); [lia|reflexivity].
Qed.

(** The cursor of a non-empty shape built with an axis. *)
Lemma Subscripts_iterator_axis_cursor dims axis :
  Forall (fun d => 0 < d) dims -> dims <> [] ->
  Subscripts_iterator_axis [] dims axis =
  cursor dims (modulo axis (psize dims))
    (major_of (modulo axis (psize dims)) (psize dims))
    (replicate (length dims) 0).
Proof.
  intros Hpos Hne. pose proof (proj2 (psize_pos_nonnil dims) Hne) as Hn.
  unfold Subscripts_iterator_axis, Array_subscripts_iterator_axis.
  rewrite !psize_nil.
  destruct (Z.gtb_spec 0 (psize dims)); [lia|].
  destruct (Z.gtb_spec 0 (psize dims)); [lia|].
  destruct (Z.gtb_spec (psize dims) 0); [|lia].
  rewrite iterator_bounds_full by assumption.
  set (a := modulo axis (psize dims)).
  assert (0 <= a < psize dims) as Ha by (apply Z.mod_pos_bound; lia).
  unfold with_major_axis, cursor. cbn [nsubs_ subs_ start_ minimum_excluded_
    maximum_excluded_ axis_ order_]. f_equal.
  unfold find_major_axis.
  cbn [nsubs_ subs_ start_ minimum_excluded_ maximum_excluded_ axis_ order_].
  assert (psize (replicate (length dims) 0) = psize dims) as ->
    by (unfold psize; rewrite length_replicate; reflexivity).
  fold (major_of a (psize dims)).
  pose proof (major_of_range a (psize dims) Ha) as Hm.
  pose proof (pget_Forall (fun d => 0 < d) dims _ Hpos Hm) as Hmaj. simpl in Hmaj.
  destruct (Z.eqb_spec (pget dims (major_of a (psize dims))) 0); [lia|].
  rewrite andb_false_r. reflexivity.
Qed.

Lemma walk_S it k : walk it (S k) = increment (walk it k).
Proof. reflexivity. Qed.

(** A cursor after [k] steps: before the end it is at the subscripts of
    position [k]; after as many steps as the shape has elements, its major
    subscript is at its bound. *)
Lemma walk_cursor dims a :
  0 <= a < psize dims -> Forall (fun d => 0 < d) dims ->
  forall k : nat, Z.of_nat k <= prod_list dims ->
    exists s,
      walk (cursor dims a (major_of a (psize dims)) (replicate (length dims) 0)) k
      = cursor dims a (major_of a (psize dims)) s
      /\ psize s = psize dims
      /\ (Z.of_nat k < prod_list dims ->
          in_bounds dims s /\ cursor_pos dims a s = Z.of_nat k)
      /\ (Z.of_nat k = prod_list dims ->
          pget s (major_of a (psize dims)) = pget dims (major_of a (psize dims))).
Proof.
  intros Ha Hpos. pose proof (prod_list_pos _ Hpos) as HP.
  induction k as [|k IH]; intros Hk.
  - exists (replicate (length dims) 0). split; [reflexivity|].
    split; [unfold psize; rewrite length_replicate; reflexivity|].
    split; [|simpl; lia]. intros _.
    split; [apply in_bounds_zeros; assumption|apply cursor_pos_zeros].
  - destruct (IH ltac:(lia)) as (s & Hw & Hs & Hin & _).
    destruct (Hin ltac:(lia)) as [Hb Hp].
    destruct (cursor_increment dims a s Ha Hb) as (s' & Hinc & Hs' & H1 & H2).
    exists s'. rewrite walk_S, Hw. split; [exact Hinc|]. split; [exact Hs'|].
    rewrite Hp in H1, H2. split.
    + intros Hlt. destruct (H1 ltac:(lia)) as [Hb' Hp']. split; [assumption|lia].
    + intros Heq. apply H2. lia.
Qed.

Lemma insert_at_delete (s : list Z) a :
  0 <= a < psize s -> insert_at a (pget s a) (delete (Z.to_nat a) s) = s.
Proof.
  intros Ha. unfold insert_at. rewrite delete_take_drop.
  assert (length (take (Z.to_nat a) s) = Z.to_nat a) as Hl
    by (rewrite length_take; unfold psize in Ha; lia).
  rewrite take_app_length' by (symmetry; exact Hl).
  rewrite drop_app_length' by (symmetry; exact Hl).
  symmetry. apply pget_middle. assumption.
Qed.

(** The default cursor visits the subscript tuples in row-major order. *)
Lemma walk_default dims (k : nat) :
  Forall (fun d => 0 < d) dims -> dims <> [] ->
  (Z.of_nat k < prod_list dims ->
     subs_ (walk (Subscripts_iterator [] dims []) k) = unrank dims (Z.of_nat k)
     /\ in_range (walk (Subscripts_iterator [] dims []) k) = true)
  /\ (Z.of_nat k = prod_list dims ->
      in_range (walk (Subscripts_iterator [] dims []) k) = false).
Proof.
  intros Hpos Hne. pose proof (proj2 (psize_pos_nonnil dims) Hne) as Hn.
  rewrite Subscripts_iterator_cursor by assumption.
  assert (0 <= psize dims - 1 < psize dims) as Ha by lia.
  split.
  - intros Hk. destruct (walk_cursor dims _ Ha Hpos k ltac:(lia)) as (s & -> & Hs & Hin & _).
    destruct (Hin Hk) as [Hb Hp]. rewrite cursor_pos_default in Hp by assumption.
    cbn [cursor subs_]. split.
    + rewrite <- Hp. symmetry. apply in_bounds_unrank. assumption.
    + apply in_range_cursor_true; [|assumption]. apply major_of_range. assumption.
  - intros Hk. destruct (walk_cursor dims _ Ha Hpos k ltac:(lia)) as (s & -> & Hs & _ & Hend).
    apply in_range_cursor_false. apply Hend. assumption.
Qed.

(** The cursor built with an axis runs through that axis first and through
    the remaining axes in row-major order. *)
Lemma walk_axis dims axis (k : nat) :
  Forall (fun d => 0 < d) dims -> dims <> [] ->
  let a := modulo axis (psize dims) in
  (Z.of_nat k < prod_list dims ->
     subs_ (walk (Subscripts_iterator_axis [] dims axis) k)
     = insert_at a (Z.of_nat k mod pget dims a)
         (unrank (delete (Z.to_nat a) dims) (Z.of_nat k / pget dims a))
     /\ in_range (walk (Subscripts_iterator_axis [] dims axis) k) = true)
  /\ (Z.of_nat k = prod_list dims ->
      in_range (walk (Subscripts_iterator_axis [] dims axis) k) = false).
Proof.
  intros Hpos Hne a. pose proof (proj2 (psize_pos_nonnil dims) Hne) as Hn.
  rewrite Subscripts_iterator_axis_cursor by assumption. fold a.
  assert (0 <= a < psize dims) as Ha by (apply Z.mod_pos_bound; lia).
  split.
  - intros Hk. destruct (walk_cursor dims _ Ha Hpos k ltac:(lia)) as (s & -> & Hs & Hin & _).
    destruct (Hin Hk) as [Hb Hp]. rewrite cursor_pos_axis in Hp by assumption.
    cbn [cursor subs_].
    pose proof (in_bounds_pget _ _ a Hb Ha) as Hsa.
    pose proof (in_bounds_delete _ _ (Z.to_nat a) Hb) as Hbd.
    split; [|apply in_range_cursor_true; [apply major_of_range|]; assumption].
    assert (Z.of_nat k mod pget dims a = pget s a) as ->.
    { symmetry. apply (Z.mod_unique_pos _ _ (lin (delete (Z.to_nat a) dims)
                                                 (delete (Z.to_nat a) s))); lia. }
    assert (Z.of_nat k / pget dims a
            = lin (delete (Z.to_nat a) dims) (delete (Z.to_nat a) s)) as ->.
    { symmetry. apply (Z.div_unique_pos _ _ _ (pget s a)); lia. }
    rewrite in_bounds_unrank by assumption.
    symmetry. apply insert_at_delete. lia.
  - intros Hk. destruct (walk_cursor dims _ Ha Hpos k ltac:(lia)) as (s & -> & Hs & _ & Hend).
    apply in_range_cursor_false. apply Hend. assumption.
Qed.

(** * Loops and stores *)

Lemma while_do_iter {St} (cond : St -> bool) (body : St -> St) (n fuel : nat) (s : St) :
  (n <= fuel)%nat ->
  (forall k, (k < n)%nat -> cond (Nat.iter k body s) = true) ->
  cond (Nat.iter n body s) = false ->
  while_do fuel cond body s = Some (Nat.iter n body s).
Proof.
  revert fuel s. induction n as [|n IH]; intros fuel s Hf Ht Hc.
  - simpl in Hc. destruct fuel; simpl; rewrite Hc; reflexivity.
  - destruct fuel as [|fuel]; [lia|]. cbn [while_do].
    pose proof (Ht 0%nat ltac:(lia)) as H0. cbn [Nat.iter nat_rect] in H0. rewrite H0.
    rewrite (IH fuel (body s)).
    + f_equal. change (body (Nat.iter n body s)) with (Nat.iter (S n) body s).
      rewrite Nat.iter_succ_r. reflexivity.
    + lia.
    + intros k Hk. rewrite <- Nat.iter_succ_r. apply Ht. lia.
    + rewrite <- Nat.iter_succ_r. exact Hc.
Qed.

Lemma data_app_l {T} (st k : store T) a l :
  buffsp_ a = Some l -> (l < length st)%nat -> data (st ++ k) a = data st a.
Proof. intros Hl Hlt. unfold data. rewrite Hl. apply lookup_app_l. assumption. Qed.

Lemma Array_at_app_l {T} (T0 : T) (st k : store T) a l subs :
  buffsp_ a = Some l -> (l < length st)%nat ->
  Array_at T0 (st ++ k) a subs = Array_at T0 st a subs.
Proof. intros Hl Hlt. unfold Array_at. rewrite (data_app_l st k a l); auto. Qed.

Lemma Array_set_fresh {T} (st : store T) buf res subs v :
  buffsp_ res = Some (length st) ->
  Array_set (st ++ [buf]) res subs v =
  st ++ [updZ buf (subs2ind (offset_ (hdr_ res)) (strides_ (hdr_ res))
                     (dims_ (hdr_ res)) subs) v].
Proof.
  intros Hl. unfold Array_set. rewrite Hl.
  rewrite alter_app_r_alt by lia. rewrite Nat.sub_diag. reflexivity.
Qed.

Lemma Array_at_fresh {T} (T0 : T) (st : store T) buf res subs :
  buffsp_ res = Some (length st) ->
  Array_at T0 (st ++ [buf]) res subs =
  nthZ T0 buf (subs2ind (offset_ (hdr_ res)) (strides_ (hdr_ res))
                 (dims_ (hdr_ res)) subs).
Proof.
  intros Hl. unfold Array_at, data. rewrite Hl.
  rewrite lookup_app_r by lia. rewrite Nat.sub_diag. reflexivity.
Qed.

(** Storing the next element of [full] into a buffer that holds its first
    [k] elements. *)
Lemma fill_step {T} (T0 : T) (full : list T) (k : nat) x :
  full !! k = Some x ->
  updZ (take k full ++ replicate (length full - k) T0) (Z.of_nat k) x
  = take (S k) full ++ replicate (length full - S k) T0.
Proof.
  intros Hk. pose proof (lookup_lt_Some _ _ _ Hk) as Hlt.
  unfold updZ. destruct (Z.ltb_spec (Z.of_nat k) 0); [lia|]. rewrite Nat2Z.id.
  assert (length (take k full) = k) as Hl by (rewrite length_take; lia).
  rewrite insert_app_r_alt by lia. rewrite Hl, Nat.sub_diag.
  replace (length full - k)%nat with (S (length full - S k)) by lia. simpl.
  rewrite (take_S_r _ _ _ Hk). rewrite <- app_assoc. reflexivity.
Qed.

Lemma fill_done {T} (T0 : T) (full : list T) :
  take (length full) full ++ replicate (length full - length full) T0 = full.
Proof. rewrite firstn_all, Nat.sub_diag. apply app_nil_r. Qed.

(** Reading a row-major buffer back in row-major order. *)
Lemma fmap_nthZ_row_major {T} (T0 : T) (full : list T) dims :
  Forall (fun d => 0 < d) dims -> length full = Z.to_nat (prod_list dims) ->
  (fun s => nthZ T0 full (lin dims s)) <$> row_major dims = full.
Proof.
  intros Hpos Hlen. apply list_eq. intros i. rewrite list_lookup_fmap.
  pose proof (prod_list_pos _ Hpos) as HP.
  destruct (Nat.lt_ge_cases i (length full)) as [Hi|Hi].
  - rewrite <- (Nat2Z.id i) at 1. rewrite row_major_lookup by (assumption || lia).
    simpl. destruct (unrank_spec dims (Z.of_nat i) Hpos ltac:(lia)) as [_ ->].
    destruct (full !! i) eqn:E.
    + f_equal. apply nthZ_lookup. exact E.
    + apply lookup_ge_None in E. lia.
  - rewrite (lookup_ge_None_2 full) by lia.
    rewrite lookup_ge_None_2; [reflexivity|].
    rewrite length_row_major by assumption. lia.
Qed.

Lemma array_ok_not_empty {T} (st : store T) a : array_ok st a -> empty st a = false.
Proof.
  intros [Hl _]. unfold empty, hdr_empty. rewrite (ok_usable _ Hl).
  apply andb_false_r.
Qed.

Lemma array_ok_numel {T} (st : store T) a :
  array_ok st a -> numel (dims_ (hdr_ a)) = count_ (hdr_ a) /\ 0 < count_ (hdr_ a).
Proof.
  intros [Hl _]. rewrite (ok_count _ Hl).
  rewrite numel_prod by (apply Hl). split; [reflexivity|].
  apply prod_list_pos. apply Hl.
Qed.

Lemma fill_write {T} (T0 : T) (st : store T) res dims full (k : nat) x :
  fresh_result st res dims -> Forall (fun d => 0 < d) dims ->
  length full = Z.to_nat (prod_list dims) -> full !! k = Some x ->
  Array_set (st ++ [take k full ++ replicate (length full - k) T0]) res
    (unrank dims (Z.of_nat k)) x
  = st ++ [take (S k) full ++ replicate (length full - S k) T0].
Proof.
  intros (Hl & Hd & Hrm & Ho) Hpos Hlen Hk.
  pose proof (lookup_lt_Some _ _ _ Hk) as Hlt.
  rewrite Array_set_fresh by assumption. rewrite Hd, Ho.
  destruct (unrank_spec dims (Z.of_nat k) Hpos ltac:(lia)) as [Hb Hlin].
  rewrite subs2ind_row_major by assumption. rewrite Hlin.
  rewrite fill_step by assumption. reflexivity.
Qed.

Lemma Array_dims_fresh {T} (T0 : T) (st : store T) dims :
  0 < numel dims ->
  fst (Array_dims T0 st dims) = st ++ [replicate (Z.to_nat (prod_list dims)) T0]
  /\ snd (Array_dims T0 st dims)
     = {| hdr_ := Array_header_dims dims; buffsp_ := Some (length st) |}
  /\ fresh_result st (snd (Array_dims T0 st dims)) dims.
Proof.
  intros Hn. unfold Array_dims. cbn [fst snd].
  destruct (Array_header_dims_nonempty dims Hn) as (Hd & Hrm & _ & Hc & Ho & _).
  rewrite Hc, (numel_pos_prod _ Hn). split; [reflexivity|]. split; [reflexivity|].
  unfold fresh_result. cbn [hdr_ buffsp_]. rewrite Hd. auto.
Qed.

Lemma elements_lookup {T} (T0 : T) (st : store T) a (k : nat) :
  Forall (fun d => 0 < d) (dims_ (hdr_ a)) ->
  Z.of_nat k < prod_list (dims_ (hdr_ a)) ->
  elements T0 st a !! k = Some (Array_at T0 st a (unrank (dims_ (hdr_ a)) (Z.of_nat k))).
Proof.
  intros Hpos Hk. unfold elements. rewrite list_lookup_fmap.
  rewrite <- (Nat2Z.id k) at 1. rewrite row_major_lookup by (assumption || lia).
  reflexivity.
Qed.

Lemma length_elements {T} (T0 : T) (st : store T) a :
  Forall (fun d => 0 < d) (dims_ (hdr_ a)) ->
  length (elements T0 st a) = Z.to_nat (prod_list (dims_ (hdr_ a))).
Proof. intros H. unfold elements. rewrite length_fmap. apply length_row_major. exact H. Qed.

(** Reading a fresh contiguous array whose buffer is [full]. *)
Lemma elements_fresh {T} (T0 : T) (st : store T) res dims full :
  fresh_result st res dims -> Forall (fun d => 0 < d) dims ->
  length full = Z.to_nat (prod_list dims) ->
  elements T0 (st ++ [full]) res = full.
Proof.
  intros (Hl & Hd & Hrm & Ho) Hpos Hlen. unfold elements. rewrite Hd.
  rewrite <- (fmap_nthZ_row_major T0 full dims Hpos Hlen) at 2.
  apply list_fmap_ext. intros i s Hs.
  apply row_major_lookup_inv in Hs as [Hb _]; [|assumption].
  rewrite Array_at_fresh by assumption. rewrite Hd, Ho.
  rewrite subs2ind_row_major by assumption. reflexivity.
Qed.

Lemma Array_at_fresh_lin {T} (T0 : T) (st : store T) res dims full subs :
  fresh_result st res dims -> in_bounds dims subs ->
  Array_at T0 (st ++ [full]) res subs = nthZ T0 full (lin dims subs).
Proof.
  intros (Hl & Hd & Hrm & Ho) Hb.
  rewrite Array_at_fresh by assumption. rewrite Hd, Ho.
  rewrite subs2ind_row_major by assumption. reflexivity.
Qed.

(** ** clone *)

Lemma clone_spec {T} (T0 : T) (fuel : nat) (st : store T) a :
  array_ok st a -> (Z.to_nat (count_ (hdr_ a)) <= fuel)%nat ->
  clone T0 fuel st a =
  Done (st ++ [elements T0 st a],
        {| hdr_ := Array_header_dims (dims_ (hdr_ a)); buffsp_ := Some (length st) |}).
Proof.
  intros Hok Hfuel. pose proof Hok as [Hl (l & Hbuf & Hlt)].
  destruct (array_ok_numel st a Hok) as [Hnum Hcnt].
  pose proof (ok_dims _ Hl) as Hpos. pose proof (ok_rank _ Hl) as Hne.
  pose proof (ok_count _ Hl) as Hc.
  unfold clone. rewrite (array_ok_not_empty st a Hok).
  set (D := dims_ (hdr_ a)) in *.
  destruct (Array_dims_fresh T0 st D ltac:(lia)) as (Hst & Hres & Hfresh).
  destruct (Array_dims T0 st D) as [st1 res]. cbn [fst snd] in Hst, Hres, Hfresh.
  set (full := elements T0 st a).
  assert (length full = Z.to_nat (prod_list D)) as Hlen by (apply length_elements; assumption).
  set (n := Z.to_nat (prod_list D)) in *.
  set (it0 := Subscripts_iterator [] D []).
  set (body := fun '(iter, st') =>
                 (increment iter,
                  Array_set st' res (subs_ iter) (Array_at T0 st' a (subs_ iter)))).
  assert (forall k, (k <= n)%nat ->
            Nat.iter k body (it0, st1)
            = (walk it0 k, st ++ [take k full ++ replicate (length full - k) T0])) as Hiter.
  { induction k as [|k IH]; intros Hk.
    - simpl. rewrite Hst, Hlen, Nat.sub_0_r. reflexivity.
    - cbn [Nat.iter nat_rect]. fold (Nat.iter k body (it0, st1)).
      rewrite IH by lia. unfold body at 1. rewrite walk_S. f_equal.
      destruct (walk_default D k Hpos Hne) as [Hin _]. fold it0 in Hin.
      destruct (Hin ltac:(lia)) as [-> _].
      rewrite (Array_at_app_l T0 st _ a l) by assumption.
      apply (fill_write T0 st res D); try assumption.
      apply elements_lookup; [assumption|]. fold D. lia. }
  rewrite (while_do_iter _ body n fuel).
  - rewrite Hiter by lia. rewrite Hres. rewrite <- Hlen, fill_done. reflexivity.
  - lia.
  - intros k Hk. rewrite Hiter by lia.
    destruct (walk_default D k Hpos Hne) as [Hin _]. apply Hin. lia.
  - rewrite Hiter by lia.
    destruct (walk_default D n Hpos Hne) as [_ Hend]. apply Hend.
    pose proof (prod_list_pos _ Hpos). lia.
Qed.

Lemma clone_empty {T} (T0 : T) (fuel : nat) (st : store T) a :
  empty st a = true -> clone T0 fuel st a = Done (st, Array_default).
Proof. intros H. unfold clone. rewrite H. reflexivity. Qed.

Lemma clone_no_throw {T} (T0 : T) (fuel : nat) (st : store T) a e :
  clone T0 fuel st a <> Throw e.
Proof.
  unfold clone. destruct (empty st a); [discriminate|].
  destruct (Array_dims T0 st (dims_ (hdr_ a))) as [st1 res].
  destruct (while_do _ _ _ _) as [[? ?]|]; discriminate.
Qed.

Lemma unrank_zero dims : unrank dims 0 = replicate (length dims) 0.
Proof.
  induction dims as [|d dims IH]; [reflexivity|].
  simpl. rewrite Zdiv_0_l, Zmod_0_l, IH. reflexivity.
Qed.

(** ** reduce over the whole array *)

Lemma reduce_spec {T R} (T0 : T) (R0 : R) (cast : T -> R) (fuel : nat)
    (st : store T) a (func : T -> R -> R) :
  array_ok st a -> (Z.to_nat (count_ (hdr_ a)) <= fuel)%nat ->
  exists x xs,
    elements T0 st a = x :: xs
    /\ reduce T0 R0 cast fuel st a func = Done (foldl (fun acc y => func y acc) (cast x) xs).
Proof.
  intros Hok Hfuel. pose proof Hok as [Hl _].
  destruct (array_ok_numel st a Hok) as [Hnum Hcnt].
  pose proof (ok_dims _ Hl) as Hpos. pose proof (ok_rank _ Hl) as Hne.
  pose proof (ok_count _ Hl) as Hc.
  set (D := dims_ (hdr_ a)) in *.
  pose proof (prod_list_pos _ Hpos) as HP.
  pose proof (length_elements T0 st a Hpos) as Hlen. fold D in Hlen.
  destruct (elements T0 st a) as [|x xs] eqn:Hel; [simpl in Hlen; lia|].
  exists x, xs. split; [reflexivity|].
  unfold reduce. rewrite (array_ok_not_empty st a Hok). fold D.
  set (it0 := Subscripts_iterator [] D []).
  assert (forall k : nat, Z.of_nat k < prod_list D ->
            Array_at T0 st a (subs_ (walk it0 k)) = nth k (x :: xs) x) as Hread.
  { intros k Hk. destruct (walk_default D k Hpos Hne) as [Hin _]. fold it0 in Hin.
    destruct (Hin Hk) as [-> _].
    pose proof (elements_lookup T0 st a k Hpos Hk) as He. rewrite Hel in He.
    rewrite nth_lookup, He. reflexivity. }
  pose proof (Hread 0%nat ltac:(lia)) as Hfirst.
  change (walk it0 0) with it0 in Hfirst. rewrite Hfirst. cbn [nth].
  set (body := fun '(ndstor, res) =>
                 (increment ndstor, func (Array_at T0 st a (subs_ ndstor)) res)).
  set (n := Z.to_nat (prod_list D)) in *.
  assert (forall k, (S k <= n)%nat ->
            Nat.iter k body (increment it0, cast x)
            = (walk it0 (S k), foldl (fun acc y => func y acc) (cast x) (take k xs))) as Hiter.
  { induction k as [|k IH]; intros Hk.
    - reflexivity.
    - cbn [Nat.iter nat_rect]. fold (Nat.iter k body (increment it0, cast x)).
      rewrite IH by lia. unfold body at 1. rewrite <- walk_S. f_equal.
      rewrite Hread by lia. cbn [nth].
      assert (xs !! k = Some (nth k xs x)) as Hk'.
      { rewrite nth_lookup. destruct (xs !! k) eqn:E; [reflexivity|].
        apply lookup_ge_None in E. simpl in Hlen. lia. }
      rewrite (take_S_r _ _ _ Hk'). rewrite foldl_app. reflexivity. }
  rewrite (while_do_iter _ body (n - 1) fuel).
  - rewrite Hiter by lia. rewrite take_ge by (simpl in Hlen; lia). reflexivity.
  - lia.
  - intros k Hk. rewrite Hiter by lia.
    destruct (walk_default D (S k) Hpos Hne) as [Hin _]. fold it0 in Hin. apply Hin. lia.
  - rewrite Hiter by lia.
    destruct (walk_default D (S (n - 1)) Hpos Hne) as [_ Hend]. fold it0 in Hend.
    apply Hend. lia.
Qed.

(** C7. Whole-array [reduce] starts from the first element in default cursor
    order, cast to the accumulator type, and folds the remaining elements
    from left to right in that order, each call being [func(element,
    accumulator)]; on an empty array it returns the accumulator type's
    value-initialised object. *)
Theorem C7_reduce_whole {T R} (T0 : T) (R0 : R) (cast : T -> R) (fuel : nat)
    (st : store T) (A : Array) (func : T -> R -> R) :
  (empty st A = true -> reduce T0 R0 cast fuel st A func = Done R0)
  /\ (array_ok st A -> (Z.to_nat (count_ (hdr_ A)) <= fuel)%nat ->
      exists x xs,
        elements T0 st A = x :: xs
        /\ x = Array_at T0 st A (replicate (length (dims_ (hdr_ A))) 0)
        /\ reduce T0 R0 cast fuel st A func
           = Done (foldl (fun acc y => func y acc) (cast x) xs)).
Proof.
  split.
  - intros He. unfold reduce. rewrite He. reflexivity.
  - intros Hok Hfuel.
    destruct (reduce_spec T0 R0 cast fuel st A func Hok Hfuel) as (x & xs & Hel & Hr).
    exists x, xs. split; [assumption|]. split; [|assumption].
    pose proof Hok as [Hl _]. pose proof (ok_dims _ Hl) as Hpos.
    pose proof (elements_lookup T0 st A 0 Hpos) as H0.
    rewrite Hel in H0. specialize (H0 (prod_list_pos _ Hpos)).
    simpl in H0. rewrite unrank_zero in H0. congruence.
Qed.

Lemma C7_reduce_whole_witness :
  let st := [[1; 2; 3; 4; 5; 6]] in
  let A := {| hdr_ := Array_header_dims [3; 1; 2]; buffsp_ := Some 0%nat |} in
  exists x xs,
    elements 0 st A = x :: xs
    /\ x = Array_at 0 st A (replicate (length (dims_ (hdr_ A))) 0)
    /\ reduce 0 0 (fun v => v) 6 st A (fun v acc => 10 * acc + v)
       = Done (foldl (fun acc y => 10 * acc + y) x xs).
Proof.
  intros st A.
  apply (proj2 (C7_reduce_whole 0 0 (fun v => v) 6 st A (fun v acc => 10 * acc + v))).
  - split.
    + apply Array_header_dims_ok. vm_compute. reflexivity.
    + exists 0%nat. split; [reflexivity|]. simpl. lia.
  - vm_compute. lia.
Defined.

(** ** reshape *)

Lemma reshape_view_spec {T} (T0 : T) (fuel : nat) (st : store T) a new_dims :
  array_ok st a -> count_ (hdr_ a) = numel new_dims ->
  dims_ (hdr_ a) <> new_dims -> is_subarray_ (hdr_ a) = true ->
  (Z.to_nat (count_ (hdr_ a)) <= fuel)%nat ->
  reshape T0 fuel st a new_dims =
  Done (st ++ [elements T0 st a],
        {| hdr_ := Array_header_dims new_dims; buffsp_ := Some (length st) |}).
Proof.
  intros Hok Hcount Hdims Hview Hfuel. pose proof Hok as [Hl (l & Hbuf & Hlt)].
  destruct (array_ok_numel st a Hok) as [Hnum Hcnt].
  pose proof (ok_dims _ Hl) as Hpos. pose proof (ok_rank _ Hl) as Hne.
  pose proof (ok_count _ Hl) as Hc.
  unfold reshape. rewrite (array_ok_not_empty st a Hok).
  destruct (Z.eqb_spec (count_ (hdr_ a)) (numel new_dims)); [|contradiction]. cbn [negb].
  rewrite bool_decide_eq_false_2 by assumption. rewrite Hview.
  set (D := dims_ (hdr_ a)) in *.
  assert (0 < numel new_dims) as Hnn by lia.
  destruct (numel_pos_inv _ Hnn) as [Hne' Hpos'].
  pose proof (numel_pos_prod _ Hnn) as Hprod'.
  destruct (Array_dims_fresh T0 st new_dims Hnn) as (Hst & Hres & Hfresh).
  destruct (Array_dims T0 st new_dims) as [st1 res]. cbn [fst snd] in Hst, Hres, Hfresh.
  set (full := elements T0 st a).
  assert (length full = Z.to_nat (prod_list D)) as Hlen by (apply length_elements; assumption).
  assert (prod_list new_dims = prod_list D) as Hsame by lia.
  set (n := Z.to_nat (prod_list D)) in *.
  set (p0 := Subscripts_iterator [] D []). set (q0 := Subscripts_iterator [] new_dims []).
  set (body := fun '(prev, new, st') =>
                 (increment prev, increment new,
                  Array_set st' res (subs_ new) (Array_at T0 st' a (subs_ prev)))).
  assert (forall k, (k <= n)%nat ->
            Nat.iter k body (p0, q0, st1)
            = (walk p0 k, walk q0 k,
               st ++ [take k full ++ replicate (length full - k) T0])) as Hiter.
  { induction k as [|k IH]; intros Hk.
    - simpl. rewrite Hst, Hlen, Nat.sub_0_r, Hsame. reflexivity.
    - cbn [Nat.iter nat_rect]. fold (Nat.iter k body (p0, q0, st1)).
      rewrite IH by lia. unfold body at 1. rewrite !walk_S. f_equal.
      destruct (walk_default D k Hpos Hne) as [Hin _]. fold p0 in Hin.
      destruct (Hin ltac:(lia)) as [-> _].
      destruct (walk_default new_dims k Hpos' Hne') as [Hin' _]. fold q0 in Hin'.
      destruct (Hin' ltac:(lia)) as [-> _].
      rewrite (Array_at_app_l T0 st _ a l) by assumption.
      apply (fill_write T0 st res new_dims); try assumption; [lia|].
      apply elements_lookup; [assumption|]. fold D. lia. }
  pose proof (prod_list_pos _ Hpos) as HP.
  rewrite (while_do_iter _ body n fuel).
  - rewrite Hiter by lia. rewrite Hres. rewrite <- Hlen, fill_done. reflexivity.
  - lia.
  - intros k Hk. rewrite Hiter by lia.
    destruct (walk_default D k Hpos Hne) as [Hin _]. fold p0 in Hin.
    destruct (walk_default new_dims k Hpos' Hne') as [Hin' _]. fold q0 in Hin'.
    rewrite (proj2 (Hin ltac:(lia))), (proj2 (Hin' ltac:(lia))). reflexivity.
  - rewrite Hiter by lia.
    destruct (walk_default D n Hpos Hne) as [_ Hend]. fold p0 in Hend.
    rewrite Hend by lia. reflexivity.
Qed.

(** C5, as the code has it. For a non-empty array [H]: [reshape] throws
    exactly when [H]'s count differs from [numel new_dims], the product of
    [new_dims] when they are non-empty and all positive and 0 otherwise;
    with equal dims it returns [H] itself over the same buffer; for a view it
    returns a newly allocated contiguous array of shape [new_dims] holding
    [H]'s elements in default order, the two layouts walked in lock-step;
    otherwise it returns a handle over [H]'s buffer with the layout built
    from [new_dims]. *)
Theorem C5_reshape {T} (T0 : T) (fuel : nat) (st : store T) (H : Array) (new_dims : list Z) :
  array_ok st H -> (Z.to_nat (count_ (hdr_ H)) <= fuel)%nat ->
  (reshape T0 fuel st H new_dims = Throw invalid_argument
   <-> count_ (hdr_ H) <> numel new_dims)
  /\ (numel new_dims = if decide (new_dims <> [] /\ Forall (fun d => 0 < d) new_dims)
                       then prod_list new_dims else 0)
  /\ (count_ (hdr_ H) = numel new_dims ->
      (dims_ (hdr_ H) = new_dims -> reshape T0 fuel st H new_dims = Done (st, H))
      /\ (dims_ (hdr_ H) <> new_dims -> is_subarray_ (hdr_ H) = true ->
          let res := {| hdr_ := Array_header_dims new_dims; buffsp_ := Some (length st) |} in
          let st' := st ++ [elements T0 st H] in
          reshape T0 fuel st H new_dims = Done (st', res)
          /\ buffsp_ res <> buffsp_ H
          /\ elements T0 st' res = elements T0 st H
          /\ forall X, array_ok st X -> elements T0 st' X = elements T0 st X)
      /\ (dims_ (hdr_ H) <> new_dims -> is_subarray_ (hdr_ H) = false ->
          reshape T0 fuel st H new_dims
          = Done (st, {| hdr_ := Array_header_dims new_dims; buffsp_ := buffsp_ H |}))).
Proof.
  intros Hok Hfuel.
  assert (count_ (hdr_ H) = numel new_dims ->
      (dims_ (hdr_ H) = new_dims -> reshape T0 fuel st H new_dims = Done (st, H))
      /\ (dims_ (hdr_ H) <> new_dims -> is_subarray_ (hdr_ H) = true ->
          reshape T0 fuel st H new_dims
          = Done (st ++ [elements T0 st H],
                  {| hdr_ := Array_header_dims new_dims; buffsp_ := Some (length st) |}))
      /\ (dims_ (hdr_ H) <> new_dims -> is_subarray_ (hdr_ H) = false ->
          reshape T0 fuel st H new_dims
          = Done (st, {| hdr_ := Array_header_dims new_dims; buffsp_ := buffsp_ H |})))
    as Hcases.
  { intros Hcount. split; [|split].
    - intros Hd. unfold reshape. rewrite (array_ok_not_empty st H Hok).
      rewrite Hcount, Z.eqb_refl. cbn [negb].
      rewrite bool_decide_eq_true_2 by assumption. reflexivity.
    - intros Hd Hv. apply reshape_view_spec; assumption.
    - intros Hd Hv. unfold reshape. rewrite (array_ok_not_empty st H Hok).
      rewrite Hcount, Z.eqb_refl. cbn [negb].
      rewrite bool_decide_eq_false_2 by assumption. rewrite Hv.
      destruct (array_ok_numel st H Hok) as [_ Hcnt].
      destruct (Array_header_dims_nonempty new_dims ltac:(lia)) as (_ & _ & Hu & _).
      unfold hdr_empty. rewrite Hu. reflexivity. }
  split; [|split].
  - split.
    + intros Hthrow Hcount. destruct (Hcases Hcount) as (H1 & H2 & H3).
      destruct (decide (dims_ (hdr_ H) = new_dims)) as [Hd|Hd].
      * rewrite H1 in Hthrow by assumption. discriminate.
      * destruct (is_subarray_ (hdr_ H)) eqn:Hv.
        -- rewrite H2 in Hthrow by auto. discriminate.
        -- rewrite H3 in Hthrow by auto. discriminate.
    + intros Hcount. unfold reshape. rewrite (array_ok_not_empty st H Hok).
      destruct (Z.eqb_spec (count_ (hdr_ H)) (numel new_dims)); [contradiction|].
      reflexivity.
  - destruct (decide _) as [[Hne Hpos]|Hn].
    + apply numel_prod; assumption.
    + pose proof (numel_nonneg new_dims).
      destruct (Z.eq_dec (numel new_dims) 0) as [|Hnz]; [assumption|].
      destruct Hn. apply numel_pos_inv. lia.
  - intros Hcount. destruct (Hcases Hcount) as (H1 & H2 & H3).
    split; [assumption|]. split; [|assumption].
    intros Hd Hv res st'. pose proof Hok as [Hl (l & Hbuf & Hlt)].
    split; [apply H2; assumption|]. split.
    { subst res. cbn [buffsp_]. rewrite Hbuf. intros Heq. inversion Heq. lia. }
    destruct (array_ok_numel st H Hok) as [_ Hcnt].
    assert (0 < numel new_dims) as Hnn by lia.
    destruct (Array_dims_fresh T0 st new_dims Hnn) as (_ & Hres & Hfresh).
    unfold Array_dims in Hres, Hfresh. cbn [snd] in Hres, Hfresh.
    split.
    + subst res st'. apply (elements_fresh T0 st _ new_dims); [exact Hfresh| |].
      * apply (numel_pos_inv new_dims Hnn).
      * rewrite length_elements by apply Hl.
        rewrite <- (numel_pos_prod _ Hnn), <- Hcount, (ok_count _ Hl). reflexivity.
    + intros X (_ & lx & Hbx & Hltx). subst st'. unfold elements.
      apply list_fmap_ext. intros i s _. apply (Array_at_app_l T0 st _ X lx); assumption.
Qed.

Lemma C5_reshape_witness :
  let st := [[1; 2; 3; 4; 5; 6]] in
  let A := {| hdr_ := Array_header_dims [3; 1; 2]; buffsp_ := Some 0%nat |} in
  let V := Array_slice st A [ {| start := 0; stop := 2; step := 2 |} ] in
  reshape 0 6 st V [4] =
  Done (st ++ [[1; 2; 5; 6]], {| hdr_ := Array_header_dims [4]; buffsp_ := Some 1%nat |}).
Proof.
  intros st A V.
  assert (array_ok st V) as Hok.
  { split.
    - apply layout_ok_intro; vm_compute; reflexivity.
    - exists 0%nat. split; [reflexivity|]. simpl. lia. }
  assert ((Z.to_nat (count_ (hdr_ V)) <= 6)%nat) as Hfuel by (vm_compute; lia).
  destruct (C5_reshape 0 6 st V [4] Hok Hfuel) as (_ & _ & Hc).
  destruct (Hc eq_refl) as (_ & Hview & _).
  apply Hview; [discriminate|reflexivity].
Defined.

(** The claim as stated fails: the product of [-2; -3] is the count of a
    six-element array, and [reshape] throws all the same. *)
Lemma C5_reshape_counterexample :
  let st := [[1; 2; 3; 4; 5; 6]] in
  let H := {| hdr_ := Array_header_dims [6]; buffsp_ := Some 0%nat |} in
  empty st H = false
  /\ ~ (reshape 0 6 st H [-2; -3] = Throw invalid_argument
        <-> count_ (hdr_ H) <> prod_list [-2; -3]).
Proof.
  intros st H. split; [reflexivity|].
  intros [Hthrow _]. apply Hthrow; reflexivity.
Qed.

(** ** all_match and all_equal *)

Lemma all_match_loop_spec {T} (T0 : T) (st : store T) lhs rhs (func : T -> T -> bool) dims :
  Forall (fun d => 0 < d) dims -> dims <> [] ->
  forall (j k fuel : nat),
    (k + j)%nat = Z.to_nat (prod_list dims) -> (j <= fuel)%nat ->
    all_match_loop T0 fuel st lhs rhs func (walk (Subscripts_iterator [] dims []) k)
    = Some (forallb (fun s => func (Array_at T0 st lhs s) (Array_at T0 st rhs s))
              (drop k (row_major dims))).
Proof.
  intros Hpos Hne. pose proof (prod_list_pos _ Hpos) as HP.
  induction j as [|j IH]; intros k fuel Hk Hfuel.
  - destruct (walk_default dims k Hpos Hne) as [_ Hend].
    rewrite drop_ge by (rewrite length_row_major by assumption; lia).
    destruct fuel; simpl; rewrite Hend by lia; reflexivity.
  - destruct (walk_default dims k Hpos Hne) as [Hin _].
    destruct (Hin ltac:(lia)) as [Hsub Hr].
    pose proof (row_major_lookup dims (Z.of_nat k) Hpos ltac:(lia)) as Hlk.
    rewrite Nat2Z.id in Hlk. rewrite (drop_S _ _ _ Hlk). cbn [forallb].
    destruct fuel as [|fuel]; [lia|]. cbn [all_match_loop]. rewrite Hr, Hsub.
    destruct (func _ _); [|reflexivity]. cbn [negb andb].
    rewrite <- walk_S. apply IH; lia.
Qed.

Lemma empty_hdr_empty {T} (st : store T) a : empty st a = true -> hdr_empty (hdr_ a) = true.
Proof. unfold empty. intros H. apply andb_true_iff in H. apply H. Qed.

(** C9. [all_match] with the element equality and [all_equal] are the same
    call, so one returns true exactly when the other does; both return false,
    without throwing, when the shapes differ, and true when both arrays are
    empty. With enough fuel the walk ends, with the conjunction of the
    element comparisons in default order. *)
Theorem C9_all_match_all_equal {T} (T0 : T) (T_eq : T -> T -> bool) (fuel : nat)
    (st : store T) (A B : Array) :
  all_match T0 fuel st A B T_eq = all_equal T0 T_eq fuel st A B
  /\ (all_match T0 fuel st A B T_eq = Done true <-> all_equal T0 T_eq fuel st A B = Done true)
  /\ (empty st A = true -> empty st B = true ->
      all_match T0 fuel st A B T_eq = Done true /\ all_equal T0 T_eq fuel st A B = Done true)
  /\ (dims_ (hdr_ A) <> dims_ (hdr_ B) ->
      (hdr_empty (hdr_ A) = true -> dims_ (hdr_ A) = []) ->
      (hdr_empty (hdr_ B) = true -> dims_ (hdr_ B) = []) ->
      all_match T0 fuel st A B T_eq = Done false /\ all_equal T0 T_eq fuel st A B = Done false)
  /\ (array_ok st A -> array_ok st B -> dims_ (hdr_ A) = dims_ (hdr_ B) ->
      (Z.to_nat (count_ (hdr_ A)) <= fuel)%nat ->
      all_equal T0 T_eq fuel st A B
      = Done (forallb (fun s => T_eq (Array_at T0 st A s) (Array_at T0 st B s))
                (row_major (dims_ (hdr_ A))))).
Proof.
  assert (all_match T0 fuel st A B T_eq = all_equal T0 T_eq fuel st A B) as Hsame
    by reflexivity.
  split; [exact Hsame|]. rewrite <- Hsame. split; [tauto|]. split; [|split].
  - intros Ha Hb. unfold all_match. rewrite Ha, Hb. auto.
  - intros Hd Hwa Hwb. cut (all_match T0 fuel st A B T_eq = Done false); [auto|].
    unfold all_match.
    destruct (empty st A) eqn:Ea, (empty st B) eqn:Eb; cbn [andb orb]; try reflexivity.
    + apply empty_hdr_empty in Ea, Eb. destruct Hd. rewrite Hwa, Hwb by assumption.
      reflexivity.
    + rewrite bool_decide_eq_false_2 by assumption. reflexivity.
  - intros Ha Hb Hd Hfuel. unfold all_match.
    rewrite (array_ok_not_empty st A Ha), (array_ok_not_empty st B Hb). cbn [andb orb].
    rewrite bool_decide_eq_true_2 by assumption. cbn [negb].
    destruct Ha as [Hl _]. pose proof (ok_dims _ Hl) as Hpos.
    change (Subscripts_iterator [] (dims_ (hdr_ A)) [])
      with (walk (Subscripts_iterator [] (dims_ (hdr_ A)) []) 0).
    rewrite (all_match_loop_spec T0 st A B _ _ Hpos (ok_rank _ Hl)
               (Z.to_nat (prod_list (dims_ (hdr_ A)))) 0 fuel).
    + rewrite drop_0. reflexivity.
    + reflexivity.
    + rewrite <- (ok_count _ Hl). assumption.
Qed.

Lemma C9_all_match_all_equal_witness :
  let st := [[1; 2; 3; 4; 5; 6]; [1; 2; 3; 4; 5; 6]] in
  let A := {| hdr_ := Array_header_dims [3; 1; 2]; buffsp_ := Some 0%nat |} in
  let B := {| hdr_ := Array_header_dims [6]; buffsp_ := Some 1%nat |} in
  all_match 0 6 st A B Z.eqb = Done false /\ all_equal 0 Z.eqb 6 st A B = Done false.
Proof.
  intros st A B.
  destruct (C9_all_match_all_equal 0 Z.eqb 6 st A B) as (_ & _ & _ & Hdiff & _).
  apply Hdiff; discriminate.
Defined.

(** ** append and insert on an empty operand *)

(** C10. When the left operand is empty, [append] and [insert] return the
    clone of the right one, and when the right operand is empty the clone of
    the left one; no rank or extent is compared on these paths, so they never
    throw. The clone of a non-empty array is a newly allocated contiguous
    array of the same shape and elements, that of an empty array is empty. *)
Theorem C10_append_insert_empty {T} (T0 : T) (fuel : nat) (st : store T)
    (A B : Array) (axis position : Z) :
  (empty st A = true ->
     append T0 fuel st A B axis = clone T0 fuel st B
     /\ insert T0 fuel st A B position axis = clone T0 fuel st B)
  /\ (empty st B = true ->
      append T0 fuel st A B axis = clone T0 fuel st A
      /\ insert T0 fuel st A B position axis = clone T0 fuel st A)
  /\ (empty st A = true \/ empty st B = true ->
      forall e, append T0 fuel st A B axis <> Throw e
                /\ insert T0 fuel st A B position axis <> Throw e)
  /\ (forall X, empty st X = true -> clone T0 fuel st X = Done (st, Array_default))
  /\ (forall X, array_ok st X -> (Z.to_nat (count_ (hdr_ X)) <= fuel)%nat ->
        clone T0 fuel st X =
        Done (st ++ [elements T0 st X],
              {| hdr_ := Array_header_dims (dims_ (hdr_ X)); buffsp_ := Some (length st) |})).
Proof.
  assert (empty st A = true ->
          append T0 fuel st A B axis = clone T0 fuel st B
          /\ insert T0 fuel st A B position axis = clone T0 fuel st B) as HA.
  { intros Ha. unfold append, insert. rewrite Ha. auto. }
  assert (empty st B = true ->
          append T0 fuel st A B axis = clone T0 fuel st A
          /\ insert T0 fuel st A B position axis = clone T0 fuel st A) as HB.
  { intros Hb. destruct (empty st A) eqn:Ha.
    - destruct (HA eq_refl) as [-> ->].
      rewrite !clone_empty by assumption. auto.
    - unfold append, insert. rewrite Ha, Hb. auto. }
  split; [exact HA|]. split; [exact HB|]. split; [|split].
  - intros [Ha|Hb] e.
    + destruct (HA Ha) as [-> ->]. split; apply clone_no_throw.
    + destruct (HB Hb) as [-> ->]. split; apply clone_no_throw.
  - intros X. apply clone_empty.
  - intros X. apply clone_spec.
Qed.

Lemma C10_append_insert_empty_witness :
  let st := [[1; 2; 3; 4]] in
  let B := {| hdr_ := Array_header_dims [2; 2]; buffsp_ := Some 0%nat |} in
  append 0 4 st Array_default B 5 = clone 0 4 st B
  /\ insert 0 4 st Array_default B 1 5 = clone 0 4 st B
  /\ clone 0 4 st B
     = Done (st ++ [[1; 2; 3; 4]],
             {| hdr_ := Array_header_dims [2; 2]; buffsp_ := Some 1%nat |}).
Proof.
  intros st B.
  destruct (C10_append_insert_empty 0 4 st Array_default B 5 1) as (HA & _ & _ & _ & Hc).
  destruct (HA eq_refl) as [H1 H2]. split; [exact H1|]. split; [exact H2|].
  apply (Hc B).
  - split.
    + apply Array_header_dims_ok. vm_compute. reflexivity.
    + exists 0%nat. split; [reflexivity|]. simpl. lia.
  - vm_compute. lia.
Defined.

(** ** reduce along an axis *)

Lemma modulo_idem axis n : modulo (modulo axis n) n = modulo axis n.
Proof. unfold modulo. apply Zmod_mod. Qed.

Lemma Array_header_omit_mod dims axis :
  Array_header_omit dims (modulo axis (psize dims)) = Array_header_omit dims axis.
Proof. unfold Array_header_omit. rewrite modulo_idem. reflexivity. Qed.

Lemma Subscripts_iterator_axis_mod dims axis :
  Forall (fun d => 0 < d) dims -> dims <> [] ->
  Subscripts_iterator_axis [] dims (modulo axis (psize dims))
  = Subscripts_iterator_axis [] dims axis.
Proof.
  intros Hp Hne. rewrite !Subscripts_iterator_axis_cursor by assumption.
  rewrite modulo_idem. reflexivity.
Qed.

Lemma walk_axis_at dims axis (q j : nat) :
  Forall (fun d => 0 < d) dims -> dims <> [] ->
  let a := modulo axis (psize dims) in
  Z.of_nat j < pget dims a ->
  Z.of_nat q < prod_list (delete (Z.to_nat a) dims) ->
  subs_ (walk (Subscripts_iterator_axis [] dims axis) (q * Z.to_nat (pget dims a) + j))
  = insert_at a (Z.of_nat j) (unrank (delete (Z.to_nat a) dims) (Z.of_nat q))
  /\ in_range (walk (Subscripts_iterator_axis [] dims axis)
                 (q * Z.to_nat (pget dims a) + j)) = true.
Proof.
  intros Hpos Hne a Hj Hq. pose proof (proj2 (psize_pos_nonnil dims) Hne) as Hn.
  assert (0 <= a < psize dims) as Ha by (apply Z.mod_pos_bound; lia).
  pose proof (prod_list_delete dims a Ha) as Hprod.
  set (da := pget dims a) in *.
  destruct (walk_axis dims axis (q * Z.to_nat da + j) Hpos Hne) as [Hin _].
  fold a da in Hin.
  assert (Z.of_nat (q * Z.to_nat da + j) = Z.of_nat q * da + Z.of_nat j) as Hk by lia.
  rewrite Hk in Hin.
  assert ((Z.of_nat q * da + Z.of_nat j) mod da = Z.of_nat j) as Hmod.
  { symmetry. apply (Z.mod_unique_pos _ _ (Z.of_nat q)); lia. }
  assert ((Z.of_nat q * da + Z.of_nat j) / da = Z.of_nat q) as Hdiv.
  { symmetry. apply (Z.div_unique_pos _ _ _ (Z.of_nat j)); lia. }
  rewrite Hmod, Hdiv in Hin. apply Hin. nia.
Qed.

Lemma Array_dims_single {T} (T0 : T) (st : store T) c :
  0 < c ->
  Array_dims T0 st [c] =
  (st ++ [replicate (Z.to_nat c) T0],
   {| hdr_ := Array_header_dims [c]; buffsp_ := Some (length st) |}).
Proof.
  intros Hc. assert (0 < numel [c]) as Hn.
  { unfold numel, numel_loop. destruct (Z.leb_spec c 0); lia. }
  destruct (Array_dims_fresh T0 st [c] Hn) as (H1 & H2 & _).
  destruct (Array_dims T0 st [c]) as [st1 res]. cbn [fst snd] in *.
  rewrite H1, H2. simpl. rewrite Z.mul_1_r. reflexivity.
Qed.

Lemma seqZ_snoc lo len : 0 <= len -> seqZ lo (len + 1) = seqZ lo len ++ [lo + len].
Proof.
  intros H. rewrite seqZ_app by lia. rewrite (seqZ_cons _ 1), (seqZ_nil _ (Z.pred 1)) by lia.
  reflexivity.
Qed.

Lemma reduce_axis_spec {T R} (T0 : T) (R0 : R) (cast : T -> R) (fuel : nat)
    (st : store T) (str : store R) A (func : T -> R -> R) axis :
  array_ok st A -> (Z.to_nat (count_ (hdr_ A)) <= fuel)%nat ->
  let D := dims_ (hdr_ A) in
  let a := modulo axis (psize D) in
  reduce_axis T0 R0 cast fuel st str A func axis =
  Done (str ++ [fold_along T0 cast func st A a <$> row_major (delete (Z.to_nat a) D)],
        {| hdr_ := Array_header_omit D axis; buffsp_ := Some (length str) |}).
Proof.
  intros Hok Hfuel D a. pose proof Hok as [Hl _].
  destruct (array_ok_numel st A Hok) as [Hnum Hcnt].
  pose proof (ok_dims _ Hl) as Hpos. pose proof (ok_rank _ Hl) as Hne.
  pose proof (ok_count _ Hl) as Hc. fold D in Hnum, Hpos, Hne, Hc.
  pose proof (proj2 (psize_pos_nonnil D) Hne) as HN.
  assert (0 <= a < psize D) as Ha by (apply Z.mod_pos_bound; lia).
  pose proof (prod_list_delete D a Ha) as Hprod.
  set (Dd := delete (Z.to_nat a) D) in *.
  assert (Forall (fun d => 0 < d) Dd) as Hposd by (apply Forall_delete_pos; assumption).
  pose proof (prod_list_pos _ Hposd) as HPd.
  pose proof (pget_Forall (fun d => 0 < d) D a Hpos Ha) as Hda. simpl in Hda.
  unfold reduce_axis. rewrite (array_ok_not_empty st A Hok). fold D.
  destruct (Array_header_omit_spec D axis ltac:(lia)) as (Hd & Hrm & Hu & Hcn & Ho & _).
  fold a Dd in Hd.
  set (nh := Array_header_omit D axis) in *.
  unfold hdr_empty. rewrite Hu. cbn [negb].
  set (Dr := dims_ nh) in *.
  assert (Forall (fun d => 0 < d) Dr /\ Dr <> [] /\ prod_list Dr = prod_list Dd)
    as (Hposr & Hner & Hprodr).
  { rewrite Hd. destruct (Z.gtb_spec (psize D) 1).
    - split; [assumption|]. split; [|reflexivity].
      apply psize_pos_nonnil. unfold Dd.
      rewrite psize_delete by (unfold psize in *; lia). lia.
    - assert (psize D = 1) as H1 by lia.
      split; [repeat constructor|]. split; [discriminate|].
      destruct D as [|d0 [|d1 D']]; try (unfold psize in H1; simpl in H1; lia).
      assert (a = 0) as Ha0 by (unfold psize in Ha; simpl in Ha; lia).
      unfold Dd. rewrite Ha0. reflexivity. }
  assert (count_ nh = prod_list Dd) as Hcount.
  { rewrite Hcn. fold Dr. rewrite numel_prod by assumption. exact Hprodr. }
  rewrite Array_dims_single by lia. unfold with_header. cbn [hdr_ buffsp_].
  set (res := {| hdr_ := nh; buffsp_ := Some (length str) |}).
  assert (fresh_result str res Dr) as Hfresh.
  { unfold fresh_result, res. cbn [hdr_ buffsp_]. auto. }
  set (F := fold_along T0 cast func st A a).
  set (full := F <$> row_major Dd).
  assert (length full = Z.to_nat (prod_list Dd)) as Hlen.
  { unfold full. rewrite length_fmap. apply length_row_major. assumption. }
  set (n' := Z.to_nat (prod_list Dd)) in *.
  set (da := Z.to_nat (pget D a)).
  set (a0 := Subscripts_iterator_axis [] D axis).
  set (r0 := Subscripts_iterator [] Dr []).
  assert (forall q j : nat, Z.of_nat j < pget D a -> Z.of_nat q < prod_list Dd ->
            subs_ (walk a0 (q * da + j)) = insert_at a (Z.of_nat j) (unrank Dd (Z.of_nat q))
            /\ in_range (walk a0 (q * da + j)) = true) as Hat.
  { intros q j Hj Hq. apply walk_axis_at; assumption. }
  set (inner := fun (_ : Z) '(it, res_element) =>
                  (increment it, func (Array_at T0 st A (subs_ it)) res_element)).
  set (body := fun '(ai, ri, str') =>
                 let res_element := cast (Array_at T0 st A (subs_ ai)) in
                 let ai := increment ai in
                 let '(ai, res_element) :=
                   for_up 0 (pget D a - 1) inner (ai, res_element) in
                 (ai, increment ri, Array_set str' res (subs_ ri) res_element)).
  assert (forall q : nat, Z.of_nat q < prod_list Dd ->
            for_up 0 (pget D a - 1) inner
              (increment (walk a0 (q * da)),
               cast (Array_at T0 st A (subs_ (walk a0 (q * da)))))
            = (walk a0 (S q * da), F (unrank Dd (Z.of_nat q)))) as Hinner.
  { intros q Hq.
    assert (subs_ (walk a0 (q * da)) = insert_at a 0 (unrank Dd (Z.of_nat q))) as H0.
    { destruct (Hat q 0%nat ltac:(lia) Hq) as [Hs _].
      rewrite Nat.add_0_r in Hs. exact Hs. }
    rewrite H0.
    assert (let r := for_up 0 (pget D a - 1) inner
                       (increment (walk a0 (q * da)),
                        cast (Array_at T0 st A (insert_at a 0 (unrank Dd (Z.of_nat q))))) in
            fst r = walk a0 (q * da + 1 + Z.to_nat (pget D a - 1))
            /\ snd r = foldl (fun e j => func (Array_at T0 st A
                                                (insert_at a j (unrank Dd (Z.of_nat q)))) e)
                         (cast (Array_at T0 st A (insert_at a 0 (unrank Dd (Z.of_nat q)))))
                         (seqZ 1 (pget D a - 1))) as Hr.
    { apply (for_up_ind
               (fun i (s : Array_subscripts_iterator * R) =>
                  fst s = walk a0 (q * da + 1 + Z.to_nat i)
                  /\ snd s = foldl (fun e j => func (Array_at T0 st A
                                       (insert_at a j (unrank Dd (Z.of_nat q)))) e)
                               (cast (Array_at T0 st A
                                        (insert_at a 0 (unrank Dd (Z.of_nat q)))))
                               (seqZ 1 i))); [lia| |].
      - cbn [fst snd]. split; [|reflexivity].
        rewrite <- walk_S. f_equal. simpl. lia.
      - intros i [it e] Hi [Hit He]. cbn [fst snd] in Hit, He. subst it e.
        unfold inner. cbn [fst snd]. split.
        + rewrite <- walk_S. f_equal. lia.
        + rewrite seqZ_snoc by lia. rewrite foldl_app. cbn [foldl]. f_equal.
          destruct (Hat q (1 + Z.to_nat i)%nat ltac:(lia) Hq) as [Hs _].
          replace (q * da + 1 + Z.to_nat i)%nat
            with (q * da + (1 + Z.to_nat i))%nat by lia.
          rewrite Hs. do 2 f_equal. lia. }
    destruct (for_up 0 (pget D a - 1) inner _) as [it e]. cbn [fst snd] in Hr.
    destruct Hr as [-> ->]. f_equal. f_equal. unfold da. lia. }
  assert (forall q, (q <= n')%nat ->
            Nat.iter q body (a0, r0, str ++ [replicate (Z.to_nat (count_ nh)) R0])
            = (walk a0 (q * da), walk r0 q,
               str ++ [take q full ++ replicate (length full - q) R0])) as Hiter.
  { induction q as [|q IH]; intros Hq.
    - simpl. rewrite Hcount, Hlen, Nat.sub_0_r. reflexivity.
    - cbn [Nat.iter nat_rect].
      fold (Nat.iter q body (a0, r0, str ++ [replicate (Z.to_nat (count_ nh)) R0])).
      rewrite IH by lia. unfold body at 1.
      rewrite Hinner by lia. rewrite <- walk_S. f_equal.
      destruct (walk_default Dr q Hposr Hner) as [Hin _]. fold r0 in Hin.
      destruct (Hin ltac:(lia)) as [-> _].
      apply (fill_write R0 str res Dr); try assumption; [lia|].
      unfold full. rewrite list_lookup_fmap.
      rewrite <- (Nat2Z.id q) at 1. rewrite row_major_lookup by (assumption || lia).
      reflexivity. }
  rewrite (while_do_iter _ body n' fuel).
  - rewrite Hiter by lia. rewrite <- Hlen, fill_done. reflexivity.
  - assert (prod_list Dd <= prod_list D) by nia. lia.
  - intros q Hq. rewrite Hiter by lia.
    destruct (walk_default Dr q Hposr Hner) as [Hin _]. fold r0 in Hin.
    rewrite (proj2 (Hin ltac:(lia))).
    destruct (Hat q 0%nat ltac:(lia) ltac:(lia)) as [_ Hr].
    rewrite Nat.add_0_r in Hr. rewrite Hr. reflexivity.
  - rewrite Hiter by lia.
    destruct (walk_axis D axis (n' * da) Hpos Hne) as [_ Hend]. fold a0 in Hend.
    rewrite Hend; [reflexivity|]. unfold n', da. nia.
Qed.

(** C4, as the code has it. [reduce] along an axis takes the axis modulo the
    rank, so an axis at or beyond the rank wraps (the rank itself reduces
    along axis 0). The result is a newly allocated contiguous array whose
    shape is the array's shape without the reduced axis, or [1] for a 1-D
    array; its elements, in default order over the remaining subscripts, are
    the folds of the [dims[axis]] consecutive values along the axis. *)
Theorem C4_reduce_axis {T R} (T0 : T) (R0 : R) (cast : T -> R) (fuel : nat)
    (st : store T) (str : store R) (A : Array) (func : T -> R -> R) (axis : Z) :
  array_ok st A -> (Z.to_nat (count_ (hdr_ A)) <= fuel)%nat ->
  let D := dims_ (hdr_ A) in
  let N := psize D in
  let a := modulo axis N in
  0 <= a < N
  /\ (0 <= axis < N -> a = axis)
  /\ reduce_axis T0 R0 cast fuel st str A func axis
     = reduce_axis T0 R0 cast fuel st str A func a
  /\ exists str' res,
       reduce_axis T0 R0 cast fuel st str A func axis = Done (str', res)
       /\ dims_ (hdr_ res) = (if N >? 1 then delete (Z.to_nat a) D else [1])
       /\ buffsp_ res = Some (length str)
       /\ elements R0 str' res
          = fold_along T0 cast func st A a <$> row_major (delete (Z.to_nat a) D)
       /\ (1 < N -> forall r, in_bounds (delete (Z.to_nat a) D) r ->
             Array_at R0 str' res r = fold_along T0 cast func st A a r).
Proof.
  intros Hok Hfuel D N a. pose proof Hok as [Hl _].
  pose proof (ok_dims _ Hl) as Hpos. pose proof (ok_rank _ Hl) as Hne.
  fold D in Hpos, Hne.
  pose proof (proj2 (psize_pos_nonnil D) Hne) as HN. fold N in HN.
  assert (0 <= a < N) as Ha by (apply Z.mod_pos_bound; lia).
  destruct (array_ok_numel st A Hok) as [Hnum Hcnt]. fold D in Hnum.
  split; [exact Ha|]. split; [intros Hr; apply Z.mod_small; exact Hr|].
  pose proof (reduce_axis_spec T0 R0 cast fuel st str A func axis Hok Hfuel) as Hspec.
  pose proof (reduce_axis_spec T0 R0 cast fuel st str A func a Hok Hfuel) as Hspec'.
  cbv zeta in Hspec, Hspec'. fold D N in Hspec, Hspec'. fold a in Hspec, Hspec'.
  assert (modulo a N = a) as Haa by (apply modulo_idem).
  rewrite Haa in Hspec'.
  pose proof (Array_header_omit_mod D axis) as Hom. fold N in Hom. fold a in Hom.
  rewrite Hom in Hspec'.
  split; [rewrite Hspec, Hspec'; reflexivity|].
  destruct (Array_header_omit_spec D axis ltac:(lia)) as (Hd & Hrm & Hu & Hcn & Ho & _).
  fold N a in Hd.
  set (Dd := delete (Z.to_nat a) D) in *.
  set (F := fold_along T0 cast func st A a) in *.
  set (res := {| hdr_ := Array_header_omit D axis; buffsp_ := Some (length str) |}) in *.
  exists (str ++ [F <$> row_major Dd]), res.
  split; [exact Hspec|]. split; [exact Hd|]. split; [reflexivity|].
  assert (Forall (fun d => 0 < d) Dd) as Hposd by (apply Forall_delete_pos; assumption).
  assert (fresh_result str res (dims_ (hdr_ res))) as Hfresh.
  { unfold fresh_result, res. cbn [hdr_ buffsp_]. auto. }
  assert (length (F <$> row_major Dd) = Z.to_nat (prod_list Dd)) as Hlen.
  { rewrite length_fmap. apply length_row_major. assumption. }
  split.
  - apply (elements_fresh R0 str res (dims_ (hdr_ res))); [assumption| |].
    + unfold res. cbn [hdr_]. rewrite Hd. destruct (N >? 1); [assumption|].
      repeat constructor.
    + rewrite Hlen. unfold res. cbn [hdr_]. rewrite Hd.
      destruct (Z.gtb_spec N 1); [reflexivity|].
      destruct D as [|d0 [|d1 D']]; try (unfold N, psize in *; simpl in *; lia).
      assert (a = 0) as Ha0 by (unfold N, psize in Ha; simpl in Ha; lia).
      unfold Dd. rewrite Ha0. reflexivity.
  - intros HN1 r Hr.
    assert (dims_ (hdr_ res) = Dd) as Hdr.
    { unfold res. cbn [hdr_]. rewrite Hd. destruct (Z.gtb_spec N 1); [reflexivity|lia]. }
    rewrite Hdr in Hfresh.
    rewrite (Array_at_fresh_lin R0 str res Dd _ r Hfresh Hr).
    pose proof (lin_bounds _ _ Hr) as Hb.
    rewrite <- (Z2Nat.id (lin Dd r)) by lia. apply nthZ_lookup.
    rewrite list_lookup_fmap, row_major_lookup_lin by assumption. reflexivity.
Qed.

Lemma C4_reduce_axis_witness :
  let st := [[1; 2; 3; 4; 5; 6]] in
  let A := {| hdr_ := Array_header_dims [3; 1; 2]; buffsp_ := Some 0%nat |} in
  reduce_axis 0 0 (fun v => v) 6 st [] A (fun v acc => acc + v) 3
  = reduce_axis 0 0 (fun v => v) 6 st [] A (fun v acc => acc + v) 0
  /\ reduce_axis 0 0 (fun v => v) 6 st [] A (fun v acc => acc + v) 3
     = Done ([[9; 12]], {| hdr_ := Array_header_omit [3; 1; 2] 3; buffsp_ := Some 0%nat |}).
Proof.
  intros st A.
  assert (array_ok st A) as Hok.
  { split.
    - apply Array_header_dims_ok. vm_compute. reflexivity.
    - exists 0%nat. split; [reflexivity|]. simpl. lia. }
  assert ((Z.to_nat (count_ (hdr_ A)) <= 6)%nat) as Hfuel by (vm_compute; lia).
  destruct (C4_reduce_axis 0 0 (fun v => v) 6 st [] A (fun v acc => acc + v) 3 Hok Hfuel)
    as (_ & _ & Hmod & _).
  split; [exact Hmod|]. reflexivity.
Defined.

(** The claim as stated fails: on a rank-3 array, axis 3 does not reduce
    along the last axis. *)
Lemma C4_reduce_axis_counterexample :
  let st := [[1; 2; 3; 4; 5; 6]] in
  let A := {| hdr_ := Array_header_dims [3; 1; 2]; buffsp_ := Some 0%nat |} in
  3 >= psize (dims_ (hdr_ A))
  /\ reduce_axis 0 0 (fun v => v) 6 st [] A (fun v acc => acc + v) 3
     <> reduce_axis 0 0 (fun v => v) 6 st [] A (fun v acc => acc + v)
          (psize (dims_ (hdr_ A)) - 1).
Proof.
  intros st A. split; [vm_compute; discriminate|].
  vm_compute. intros Heq. discriminate Heq.
Qed.

(** * Splitting the default order along an axis *)

Lemma bind_ext_elem_of {A B} (f g : A -> list B) (l : list A) :
  (forall x, x ∈ l -> f x = g x) -> l ≫= f = l ≫= g.
Proof.
  intros H. apply Forall_bind_ext. apply Forall_forall. exact H.
Qed.

Lemma bind_nil_all {A B} (l : list A) : l ≫= (fun _ => @nil B) = [].
Proof. induction l as [|x l IH]; [reflexivity|]. rewrite bind_cons, IH. reflexivity. Qed.

Lemma fmap_bind_list {A B C} (h : B -> C) (f : A -> list B) (l : list A) :
  h <$> (l ≫= f) = l ≫= fun x => h <$> f x.
Proof.
  induction l as [|x l IH]; [reflexivity|].
  rewrite !bind_cons, fmap_app, IH. reflexivity.
Qed.

Lemma filter_bind_cons (P : list Z -> Prop) `{!forall s, Decision (P s)}
    (xs : list Z) (rm : list (list Z)) :
  filter P (xs ≫= fun x => cons x <$> rm)
  = xs ≫= fun x => cons x <$> filter (fun s => P (x :: s)) rm.
Proof.
  induction xs as [|x xs IH]; [reflexivity|].
  rewrite !bind_cons, filter_app, IH. f_equal.
  clear IH. induction rm as [|s rm IH]; [reflexivity|].
  rewrite fmap_cons. destruct (decide (P (x :: s))) as [Hp|Hp].
  - rewrite !filter_cons_True by assumption. rewrite fmap_cons, IH. reflexivity.
  - rewrite !filter_cons_False by assumption. exact IH.
Qed.

Lemma filter_const_True {A} (Q : Prop) `{!Decision Q} (l : list A) :
  Q -> filter (fun _ => Q) l = l.
Proof.
  intros HQ. induction l as [|x l IH]; [reflexivity|].
  rewrite filter_cons_True by assumption. rewrite IH. reflexivity.
Qed.

Lemma filter_const_False {A} (Q : Prop) `{!Decision Q} (l : list A) :
  ~ Q -> filter (fun _ => Q) l = [].
Proof.
  intros HQ. induction l as [|x l IH]; [reflexivity|].
  rewrite filter_cons_False by assumption. exact IH.
Qed.

Lemma row_major_cons d dims :
  row_major (d :: dims) = seqZ 0 d ≫= fun x => cons x <$> row_major dims.
Proof. reflexivity. Qed.

(** The subscripts of the grown shape that lie below [la] on axis [n] are,
    in order, the subscripts of the left shape. *)
Lemma row_major_filter_lt dims (n : nat) la ra :
  (n < length dims)%nat -> 0 <= la -> 0 <= ra ->
  filter (fun s => pget s (Z.of_nat n) < la) (row_major (<[n := la + ra]> dims))
  = row_major (<[n := la]> dims).
Proof.
  intros Hn Hla Hra. revert n Hn.
  induction dims as [|d dims IH]; intros [|n] Hn; simpl in Hn; try lia.
  - change (<[0%nat := la + ra]> (d :: dims)) with ((la + ra) :: dims).
    change (<[0%nat := la]> (d :: dims)) with (la :: dims).
    change (<[0%nat := ra]> (d :: dims)) with (ra :: dims).
    rewrite !row_major_cons.
    rewrite filter_bind_cons, seqZ_app, bind_app by assumption.
    rewrite (bind_ext_elem_of _ (fun x => cons x <$> row_major dims) (seqZ 0 la)).
    + rewrite (bind_ext_elem_of _ (fun _ => []) (seqZ (0 + la) ra)).
      * rewrite bind_nil_all, app_nil_r. reflexivity.
      * intros x Hx. apply elem_of_seqZ in Hx.
        rewrite (list_filter_iff _ (fun _ => x < la)).
        -- rewrite filter_const_False by lia. reflexivity.
        -- intros s. change (Z.of_nat 0) with 0. unfold pget. rewrite nthZ_cons_0. tauto.
    + intros x Hx. apply elem_of_seqZ in Hx.
      rewrite (list_filter_iff _ (fun _ => x < la)).
      * rewrite filter_const_True by lia. reflexivity.
      * intros s. change (Z.of_nat 0) with 0. unfold pget. rewrite nthZ_cons_0. tauto.
  - change (<[S n := la + ra]> (d :: dims)) with (d :: <[n := la + ra]> dims).
    change (<[S n := la]> (d :: dims)) with (d :: <[n := la]> dims).
    change (<[S n := ra]> (d :: dims)) with (d :: <[n := ra]> dims).
    rewrite !row_major_cons.
    rewrite filter_bind_cons. apply bind_ext_elem_of. intros x _. f_equal.
    rewrite <- (IH n) by lia. apply list_filter_iff. intros s.
    unfold pget. rewrite Nat2Z.inj_succ, <- Z.add_1_r.
    rewrite nthZ_cons_succ by lia. tauto.
Qed.

(** Those at or above [la], moved down by [la] on axis [n], are the
    subscripts of the right shape. *)
Lemma row_major_filter_ge dims (n : nat) la ra :
  (n < length dims)%nat -> 0 <= la -> 0 <= ra ->
  (fun s => pset s (Z.of_nat n) (pget s (Z.of_nat n) - la))
    <$> filter (fun s => la <= pget s (Z.of_nat n)) (row_major (<[n := la + ra]> dims))
  = row_major (<[n := ra]> dims).
Proof.
  intros Hn Hla Hra. revert n Hn.
  induction dims as [|d dims IH]; intros [|n] Hn; simpl in Hn; try lia.
  - change (<[0%nat := la + ra]> (d :: dims)) with ((la + ra) :: dims).
    change (<[0%nat := la]> (d :: dims)) with (la :: dims).
    change (<[0%nat := ra]> (d :: dims)) with (ra :: dims).
    rewrite !row_major_cons.
    rewrite filter_bind_cons, seqZ_app, bind_app by assumption.
    rewrite (bind_ext_elem_of _ (fun _ => []) (seqZ 0 la)).
    + rewrite bind_nil_all, app_nil_l.
      rewrite (bind_ext_elem_of _ (fun x => cons x <$> row_major dims) (seqZ (0 + la) ra)).
      * rewrite fmap_bind_list. replace (0 + la) with (la + 0) by lia.
        rewrite <- (fmap_add_seqZ la 0 ra), list_fmap_bind. apply bind_ext_elem_of. intros x _.
        unfold compose. rewrite <- list_fmap_compose. apply list_fmap_ext.
        intros i s _. unfold compose. change (Z.of_nat 0) with 0.
        unfold pget, pset, updZ. rewrite nthZ_cons_0. simpl. f_equal. lia.
      * intros x Hx. apply elem_of_seqZ in Hx.
        rewrite (list_filter_iff _ (fun _ => la <= x)).
        -- rewrite filter_const_True by lia. reflexivity.
        -- intros s. change (Z.of_nat 0) with 0. unfold pget. rewrite nthZ_cons_0. tauto.
    + intros x Hx. apply elem_of_seqZ in Hx.
      rewrite (list_filter_iff _ (fun _ => la <= x)).
      * rewrite filter_const_False by lia. reflexivity.
      * intros s. change (Z.of_nat 0) with 0. unfold pget. rewrite nthZ_cons_0. tauto.
  - change (<[S n := la + ra]> (d :: dims)) with (d :: <[n := la + ra]> dims).
    change (<[S n := la]> (d :: dims)) with (d :: <[n := la]> dims).
    change (<[S n := ra]> (d :: dims)) with (d :: <[n := ra]> dims).
    rewrite !row_major_cons.
    rewrite filter_bind_cons, fmap_bind_list. apply bind_ext_elem_of. intros x _.
    rewrite <- (IH n) by lia. rewrite <- !list_fmap_compose.
    rewrite (list_filter_iff _ (fun s => la <= pget s (Z.of_nat n))).
    + apply list_fmap_ext. intros i s _. unfold compose.
      unfold pget, pset, updZ. rewrite Nat2Z.inj_succ, <- Z.add_1_r.
      rewrite nthZ_cons_succ by lia.
      destruct (Z.ltb_spec (Z.of_nat n + 1) 0); [lia|].
      destruct (Z.ltb_spec (Z.of_nat n) 0); [lia|].
      replace (Z.to_nat (Z.of_nat n + 1)) with (S n) by lia.
      rewrite Nat2Z.id. reflexivity.
    + intros s. unfold pget. rewrite Nat2Z.inj_succ, <- Z.add_1_r.
      rewrite nthZ_cons_succ by lia. tauto.
Qed.

(** An element that passes a filter sits in the filtered list at the number
    of passing elements before it. *)
Lemma filter_lookup_take {A} (P : A -> Prop) `{!forall x, Decision (P x)}
    (l : list A) (k : nat) x :
  l !! k = Some x -> P x ->
  filter P l !! length (filter P (take k l)) = Some x.
Proof.
  intros Hk Hp.
  assert (filter P l = filter P (take k l) ++ x :: filter P (drop (S k) l)) as ->.
  { rewrite <- (filter_cons_True P x) by assumption.
    rewrite <- filter_app, take_drop_middle by assumption. reflexivity. }
  apply list_lookup_middle. reflexivity.
Qed.

Lemma filter_take_S {A} (P : A -> Prop) `{!forall x, Decision (P x)}
    (l : list A) (k : nat) x :
  l !! k = Some x ->
  length (filter P (take (S k) l))
  = (length (filter P (take k l)) + if decide (P x) then 1 else 0)%nat.
Proof.
  intros Hk. rewrite (take_S_r l k x Hk), filter_app, length_app. f_equal.
  destruct (decide (P x)) as [Hp|Hp].
  - rewrite filter_cons_True by assumption. reflexivity.
  - rewrite filter_cons_False by assumption. reflexivity.
Qed.

(** * The grown header *)

Lemma delete_insert_same {A} (l : list A) (n : nat) v :
  delete n (<[n := v]> l) = delete n l.
Proof.
  revert n. induction l as [|x l IH]; intros [|n]; try reflexivity.
  simpl. f_equal. apply IH.
Qed.

Lemma pset_insert l a v : 0 <= a -> pset l a v = <[Z.to_nat a := v]> l.
Proof.
  intros Ha. unfold pset, updZ. destruct (Z.ltb_spec a 0); [lia|reflexivity].
Qed.

Lemma pset_id l a : 0 <= a < psize l -> pset l a (pget l a) = l.
Proof.
  intros Ha. apply pget_ext; [apply psize_pset|].
  rewrite psize_pset. intros i Hi. destruct (Z.eq_dec a i) as [->|Hne].
  - apply pget_pset_eq. assumption.
  - apply pget_pset_ne. assumption.
Qed.

Lemma prod_list_pset l a v :
  0 <= a < psize l -> prod_list (pset l a v) = v * prod_list (delete (Z.to_nat a) l).
Proof.
  intros Ha. rewrite (prod_list_delete (pset l a v) a) by (rewrite psize_pset; assumption).
  rewrite pget_pset_eq by assumption.
  rewrite pset_insert by lia. rewrite delete_insert_same. reflexivity.
Qed.

Lemma Forall_pset_pos l a v :
  Forall (fun d => 0 < d) l -> 0 < v -> Forall (fun d => 0 < d) (pset l a v).
Proof.
  intros Hl Hv. apply Forall_pget. rewrite psize_pset. intros i Hi.
  destruct (Z.eq_dec a i) as [->|Hne].
  - rewrite pget_pset_eq by assumption. assumption.
  - rewrite pget_pset_ne by assumption. apply (pget_Forall (fun d => 0 < d)); assumption.
Qed.

Lemma Array_header_grow_spec pd count a :
  Forall (fun d => 0 < d) pd -> 0 <= a < psize pd -> 0 < pget pd a + count ->
  let h := Array_header_grow pd count a in
  dims_ h = pset pd a (pget pd a + count)
  /\ row_major_strides (dims_ h) (strides_ h)
  /\ buff_usable h = true /\ count_ h = prod_list (dims_ h)
  /\ offset_ h = 0 /\ is_subarray_ h = false.
Proof.
  intros Hpos Ha Hv h.
  assert (pd <> []) as Hne by (apply psize_pos_nonnil; lia).
  pose proof (prod_list_pos _ Hpos) as Hpp.
  subst h. unfold Array_header_grow.
  rewrite (numel_prod pd Hne Hpos).
  destruct (Z.leb_spec (prod_list pd) 0); [lia|].
  set (dims := for_up _ _ _ _).
  assert (dims = pset pd a (pget pd a + count)) as Hd.
  { subst dims.
    rewrite (for_up_ext 0 (psize pd) _
               (fun i l => pset l i (if a =? i then pget pd i + count else pget pd i))).
    2:{ intros i s _. destruct (a =? i); reflexivity. }
    destruct (for_up_pset 0 (psize pd)
                (fun i => if a =? i then pget pd i + count else pget pd i)
                (Internal_buffer (psize pd)) ltac:(lia)) as [Hs Hg].
    rewrite psize_Internal_buffer in Hs, Hg by lia.
    apply pget_ext.
    - rewrite Hs, psize_pset. reflexivity.
    - rewrite Hs. intros j Hj. rewrite Hg.
      destruct (Z.leb_spec 0 j), (Z.ltb_spec j (psize pd)); try lia. simpl.
      destruct (Z.eqb_spec a j) as [->|Hne'].
      + rewrite pget_pset_eq by assumption. reflexivity.
      + rewrite pget_pset_ne by assumption. reflexivity. }
  assert (Forall (fun d => 0 < d) dims) as Hposd.
  { rewrite Hd. apply Forall_pset_pos; assumption. }
  assert (psize dims = psize pd) as Hsz by (rewrite Hd; apply psize_pset).
  assert (dims <> []) as Hned by (apply psize_pos_nonnil; lia).
  rewrite (numel_prod dims Hned Hposd).
  pose proof (prod_list_pos _ Hposd).
  destruct (Z.leb_spec (prod_list dims) 0); [lia|].
  cbn [dims_ strides_ buff_usable count_ offset_ is_subarray_].
  split; [exact Hd|]. split; [|auto].
  apply compute_strides_spec; [lia|].
  rewrite psize_Internal_buffer by lia. symmetry. exact Hsz.
Qed.

Lemma same_dims_except_spec ixs a ld rd :
  same_dims_except ixs a ld rd = true
  <-> forall i, i ∈ ixs -> i <> a -> pget ld i = pget rd i.
Proof.
  induction ixs as [|i ixs IH]; simpl.
  - split; [|reflexivity]. intros _ i Hi. inversion Hi.
  - destruct (Z.eqb_spec i a) as [->|Hne]; simpl.
    + rewrite IH. split.
      * intros H i Hi Hia. apply elem_of_cons in Hi as [->|Hi]; [congruence|auto].
      * intros H i Hi. apply H. right. assumption.
    + destruct (Z.eqb_spec (pget ld i) (pget rd i)) as [He|He]; simpl.
      * rewrite IH. split.
        -- intros H j Hj Hja. apply elem_of_cons in Hj as [->|Hj]; [assumption|auto].
        -- intros H j Hj. apply H. right. assumption.
      * split; [discriminate|]. intros H. exfalso. apply He, H; [left|assumption].
Qed.

(** * append *)

Lemma append_spec {T} (T0 : T) (fuel : nat) (st : store T) A B axis :
  array_ok st A -> array_ok st B ->
  let Dl := dims_ (hdr_ A) in
  let Dr := dims_ (hdr_ B) in
  let a := modulo axis (psize Dl) in
  let la := pget Dl a in
  let ra := pget Dr a in
  psize Dl = psize Dr ->
  (forall i, 0 <= i < psize Dl -> i <> a -> pget Dl i = pget Dr i) ->
  (Z.to_nat (count_ (hdr_ A) + count_ (hdr_ B)) <= fuel)%nat ->
  append T0 fuel st A B axis =
  Done (st ++ [append_src T0 st A B a la <$> row_major (pset Dl a (la + ra))],
        {| hdr_ := Array_header_grow Dl ra a; buffsp_ := Some (length st) |}).
Proof.
  intros HokA HokB Dl Dr a la ra Hrank Hsame Hfuel.
  pose proof HokA as [HlA (lA & HbufA & HltA)].
  pose proof HokB as [HlB (lB & HbufB & HltB)].
  pose proof (ok_dims _ HlA) as HposA. pose proof (ok_rank _ HlA) as HneA.
  pose proof (ok_dims _ HlB) as HposB. pose proof (ok_rank _ HlB) as HneB.
  pose proof (ok_count _ HlA) as HcA. pose proof (ok_count _ HlB) as HcB.
  fold Dl in HposA, HneA, HcA. fold Dr in HposB, HneB, HcB.
  pose proof (proj2 (psize_pos_nonnil Dl) HneA) as HN.
  assert (0 <= a < psize Dl) as Ha by (apply Z.mod_pos_bound; lia).
  assert (0 < la) as Hla by (apply (pget_Forall (fun d => 0 < d)); assumption).
  assert (0 < ra) as Hra by (apply (pget_Forall (fun d => 0 < d)); [assumption|lia]).
  set (Dres := pset Dl a (la + ra)).
  assert (Dr = pset Dl a ra) as HDr.
  { apply pget_ext; [rewrite psize_pset; lia|].
    intros i Hi. destruct (Z.eq_dec a i) as [<-|Hne].
    - rewrite pget_pset_eq by assumption. reflexivity.
    - rewrite pget_pset_ne by assumption. symmetry. apply Hsame; [lia|congruence]. }
  assert (Forall (fun d => 0 < d) Dres) as Hposr by (apply Forall_pset_pos; [assumption|lia]).
  assert (psize Dres = psize Dl) as Hszr by apply psize_pset.
  assert (Dres <> []) as Hner by (apply psize_pos_nonnil; lia).
  assert (prod_list Dres = count_ (hdr_ A) + count_ (hdr_ B)) as Hcnt.
  { rewrite HcA, HcB. unfold Dres. rewrite prod_list_pset by assumption.
    rewrite (prod_list_delete Dl a Ha). fold la.
    assert (prod_list Dr = ra * prod_list (delete (Z.to_nat a) Dl)) as ->; [|lia].
    rewrite (prod_list_delete Dr a) by lia. fold ra. f_equal.
    rewrite HDr, pset_insert by lia. rewrite delete_insert_same. reflexivity. }
  pose proof (prod_list_pos _ Hposr) as Hpr.
  destruct (Array_header_grow_spec Dl ra a HposA Ha ltac:(fold la; lia))
    as (Hgd & Hgs & Hgu & Hgc & Hgo & _).
  fold la in Hgd. fold Dres in Hgd.
  set (hres := Array_header_grow Dl ra a) in *.
  set (res := {| hdr_ := hres; buffsp_ := Some (length st) |}).
  assert (fresh_result st res Dres) as Hfresh.
  { unfold fresh_result, res. cbn [hdr_ buffsp_]. rewrite <- Hgd. auto. }
  set (RM := row_major Dres).
  set (full := append_src T0 st A B a la <$> RM).
  assert (length RM = Z.to_nat (prod_list Dres)) as HlenRM by (apply length_row_major; assumption).
  assert (length full = Z.to_nat (prod_list Dres)) as Hlen
    by (unfold full; rewrite length_fmap; assumption).
  set (n := Z.to_nat (prod_list Dres)) in *.
  set (P := fun s : list Z => pget s a < la).
  set (Q := fun s : list Z => la <= pget s a).
  assert (filter P RM = row_major Dl) as HF1.
  { pose proof (row_major_filter_lt Dl (Z.to_nat a) la ra
                  ltac:(unfold psize in Ha; lia) ltac:(lia) ltac:(lia)) as HF.
    rewrite Z2Nat.id in HF by lia. rewrite <- !pset_insert in HF by lia.
    unfold la in HF at 3. rewrite pset_id in HF by assumption. exact HF. }
  assert ((fun s => pset s a (pget s a - la)) <$> filter Q RM = row_major Dr) as HF2.
  { pose proof (row_major_filter_ge Dl (Z.to_nat a) la ra
                  ltac:(unfold psize in Ha; lia) ltac:(lia) ltac:(lia)) as HF.
    rewrite Z2Nat.id in HF by lia. rewrite <- !pset_insert in HF by lia.
    rewrite <- HDr in HF. exact HF. }
  set (cL := fun k : nat => length (filter P (take k RM))).
  set (cR := fun k : nat => length (filter Q (take k RM))).
  set (l0 := Subscripts_iterator [] Dl []).
  set (r0 := Subscripts_iterator [] Dr []).
  set (o0 := Subscripts_iterator [] Dres []).
  set (st1 := st ++ [replicate (Z.to_nat (count_ (hdr_ A) + count_ (hdr_ B))) T0]).
  set (body := fun '(l, r, o, st') =>
         let x := pget (subs_ o) a in
         if (in_range l && (x <? la)) || (x >=? la + ra) then
           (increment l, r, increment o,
            Array_set st' res (subs_ o) (Array_at T0 st' A (subs_ l)))
         else if in_range r && (x >=? la) && (x <? la + ra) then
           (l, increment r, increment o,
            Array_set st' res (subs_ o) (Array_at T0 st' B (subs_ r)))
         else (l, r, increment o, st')).
  assert (forall k, (k <= n)%nat ->
            Nat.iter k body (l0, r0, o0, st1)
            = (walk l0 (cL k), walk r0 (cR k), walk o0 k,
               st ++ [take k full ++ replicate (length full - k) T0])) as Hiter.
  { induction k as [|k IH]; intros Hk.
    - simpl. unfold st1. rewrite <- Hcnt. fold n. rewrite Hlen, Nat.sub_0_r. reflexivity.
    - cbn [Nat.iter nat_rect]. fold (Nat.iter k body (l0, r0, o0, st1)).
      rewrite IH by lia.
      destruct (walk_default Dres k Hposr Hner) as [Hin _]. fold o0 in Hin.
      destruct (Hin ltac:(lia)) as [Hso Hio].
      set (s := unrank Dres (Z.of_nat k)) in *.
      assert (RM !! k = Some s) as HRMk.
      { unfold RM, s. rewrite <- (Nat2Z.id k) at 1. apply row_major_lookup; [assumption|lia]. }
      destruct (unrank_spec Dres (Z.of_nat k) Hposr ltac:(lia)) as [Hbs _]. fold s in Hbs.
      assert (0 <= pget s a < pget Dres a) as Hx
        by (apply in_bounds_pget; [assumption|lia]).
      unfold Dres in Hx. rewrite pget_pset_eq in Hx by assumption.
      assert (full !! k = Some (append_src T0 st A B a la s)) as Hfk.
      { unfold full. rewrite list_lookup_fmap, HRMk. reflexivity. }
      pose proof (fill_write T0 st res Dres full k _ Hfresh Hposr Hlen Hfk) as Hw.
      fold s in Hw.
      unfold body at 1. cbv beta iota zeta. rewrite Hso.
      destruct (Z.ltb_spec (pget s a) la) as [Hlt|Hge].
      + (* drawn from lhs *)
        assert (P s) as HP by exact Hlt.
        pose proof (filter_lookup_take P RM k s HRMk HP) as HLk.
        rewrite HF1 in HLk. fold (cL k) in HLk.
        pose proof (lookup_lt_Some _ _ _ HLk) as HcLk.
        rewrite length_row_major in HcLk by assumption.
        pose proof (prod_list_pos _ HposA).
        destruct (walk_default Dl (cL k) HposA HneA) as [HinL _]. fold l0 in HinL.
        destruct (HinL ltac:(lia)) as [HsL HiL].
        assert (unrank Dl (Z.of_nat (cL k)) = s) as HuL.
        { pose proof (row_major_lookup Dl (Z.of_nat (cL k)) HposA ltac:(lia)) as Hr.
          rewrite Nat2Z.id in Hr. congruence. }
        rewrite HiL, HsL, HuL. cbn [andb orb].
        rewrite (Array_at_app_l T0 st _ A lA) by assumption.
        assert (append_src T0 st A B a la s = Array_at T0 st A s) as Hsrc.
        { unfold append_src. destruct (Z.ltb_spec (pget s a) la); [reflexivity|lia]. }
        rewrite Hsrc in Hw. rewrite Hw.
        assert (cL (S k) = S (cL k)) as ->.
        { unfold cL. rewrite (filter_take_S P RM k s HRMk).
          destruct (decide (P s)); [lia|contradiction]. }
        assert (cR (S k) = cR k) as ->.
        { unfold cR. rewrite (filter_take_S Q RM k s HRMk).
          destruct (decide (Q s)) as [Hq|]; [unfold Q in Hq; lia|lia]. }
        rewrite !walk_S. reflexivity.
      + (* drawn from rhs *)
        assert (Q s) as HQ by exact Hge.
        pose proof (filter_lookup_take Q RM k s HRMk HQ) as HRk.
        fold (cR k) in HRk.
        assert (row_major Dr !! cR k = Some (pset s a (pget s a - la))) as HRk'.
        { rewrite <- HF2, list_lookup_fmap, HRk. reflexivity. }
        pose proof (lookup_lt_Some _ _ _ HRk') as HcRk.
        rewrite length_row_major in HcRk by assumption.
        pose proof (prod_list_pos _ HposB).
        destruct (walk_default Dr (cR k) HposB HneB) as [HinR _]. fold r0 in HinR.
        destruct (HinR ltac:(lia)) as [HsR HiR].
        assert (unrank Dr (Z.of_nat (cR k)) = pset s a (pget s a - la)) as HuR.
        { pose proof (row_major_lookup Dr (Z.of_nat (cR k)) HposB ltac:(lia)) as Hr.
          rewrite Nat2Z.id in Hr. congruence. }
        rewrite HiR, HsR, HuR.
        destruct (Z.geb_spec (pget s a) (la + ra)); [lia|].
        destruct (Z.geb_spec (pget s a) la); [|lia].
        destruct (Z.ltb_spec (pget s a) (la + ra)); [|lia].
        rewrite andb_false_r. cbn [andb orb].
        rewrite (Array_at_app_l T0 st _ B lB) by assumption.
        assert (append_src T0 st A B a la s
                = Array_at T0 st B (pset s a (pget s a - la))) as Hsrc.
        { unfold append_src. destruct (Z.ltb_spec (pget s a) la); [lia|reflexivity]. }
        rewrite Hsrc in Hw. rewrite Hw.
        assert (cL (S k) = cL k) as ->.
        { unfold cL. rewrite (filter_take_S P RM k s HRMk).
          destruct (decide (P s)) as [Hp|]; [unfold P in Hp; lia|lia]. }
        assert (cR (S k) = S (cR k)) as ->.
        { unfold cR. rewrite (filter_take_S Q RM k s HRMk).
          destruct (decide (Q s)); [lia|contradiction]. }
        rewrite !walk_S. reflexivity. }
  unfold append.
  rewrite (array_ok_not_empty st A HokA), (array_ok_not_empty st B HokB).
  fold Dl Dr. fold a. fold la ra.
  destruct (Z.eqb_spec (psize Dl) (psize Dr)); [|contradiction]. cbn [negb].
  assert (same_dims_except (seqZ 0 (psize Dl)) a Dl Dr = true) as ->.
  { apply same_dims_except_spec. intros i Hi Hne. apply elem_of_seqZ in Hi.
    apply Hsame; [lia|assumption]. }
  cbn [negb]. fold hres. unfold hdr_empty. rewrite Hgu. cbn [negb].
  rewrite (Array_dims_single T0 st) by lia.
  unfold with_header. cbn [buffsp_]. fold res. fold st1.
  unfold splice_loop. fold Dl Dr.
  assert (dims_ (hdr_ res) = Dres) as -> by exact Hgd.
  fold l0 r0 o0.
  change (while_do fuel _ _ (l0, r0, o0, st1))
    with (while_do fuel (fun '(l, r, o, st') => in_range o) body (l0, r0, o0, st1)).
  rewrite (while_do_iter _ body n fuel).
  - rewrite Hiter by lia. rewrite <- Hlen, fill_done. reflexivity.
  - unfold n. rewrite Hcnt. exact Hfuel.
  - intros k Hk. rewrite Hiter by lia.
    destruct (walk_default Dres k Hposr Hner) as [Hin _]. apply Hin. lia.
  - rewrite Hiter by lia.
    destruct (walk_default Dres n Hposr Hner) as [_ Hend]. apply Hend. lia.
Qed.

(** C6. For non-empty arrays [A] and [B] of equal rank, [append] takes the
    axis modulo the rank, so that an in-range axis is itself and a negative
    one wraps into [0, rank). It throws [invalid_argument] when the shapes
    differ on an axis other than the append axis. Otherwise it returns a
    newly allocated array whose shape is that of [A] except on the append
    axis, where it is the sum of the two extents; the element at the result
    subscripts [s] is that of [A] at [s] when [s] is below [A]'s extent on
    the append axis, and that of [B] at [s] moved down by [A]'s extent on
    that axis otherwise. *)
Theorem C6_append {T} (T0 : T) (fuel : nat) (st : store T) (A B : Array) (axis : Z) :
  array_ok st A -> array_ok st B ->
  let Dl := dims_ (hdr_ A) in
  let Dr := dims_ (hdr_ B) in
  let N := psize Dl in
  let a := modulo axis N in
  let la := pget Dl a in
  let ra := pget Dr a in
  psize Dl = psize Dr ->
  (Z.to_nat (count_ (hdr_ A) + count_ (hdr_ B)) <= fuel)%nat ->
  0 <= a < N
  /\ (0 <= axis < N -> a = axis)
  /\ (- N <= axis < 0 -> a = axis + N)
  /\ ((exists i, 0 <= i < N /\ i <> a /\ pget Dl i <> pget Dr i) ->
      append T0 fuel st A B axis = Throw invalid_argument)
  /\ ((forall i, 0 <= i < N -> i <> a -> pget Dl i = pget Dr i) ->
      exists st' res,
        append T0 fuel st A B axis = Done (st', res)
        /\ buffsp_ res = Some (length st)
        /\ psize (dims_ (hdr_ res)) = N
        /\ pget (dims_ (hdr_ res)) a = la + ra
        /\ (forall i, 0 <= i < N -> i <> a -> pget (dims_ (hdr_ res)) i = pget Dl i)
        /\ count_ (hdr_ res) = count_ (hdr_ A) + count_ (hdr_ B)
        /\ forall s, in_bounds (dims_ (hdr_ res)) s ->
             Array_at T0 st' res s
             = if pget s a <? la then Array_at T0 st A s
               else Array_at T0 st B (pset s a (pget s a - la))).
Proof.
  intros HokA HokB Dl Dr N a la ra Hrank Hfuel.
  pose proof HokA as [HlA _]. pose proof HokB as [HlB _].
  pose proof (ok_dims _ HlA) as HposA. pose proof (ok_rank _ HlA) as HneA.
  pose proof (ok_dims _ HlB) as HposB.
  pose proof (ok_count _ HlA) as HcA. pose proof (ok_count _ HlB) as HcB.
  fold Dl in HposA, HneA, HcA. fold Dr in HposB, HcB.
  pose proof (proj2 (psize_pos_nonnil Dl) HneA) as HN. fold N in HN.
  assert (0 <= a < N) as Ha by (apply Z.mod_pos_bound; lia).
  split; [exact Ha|].
  split; [intros Hr; apply Z.mod_small; exact Hr|].
  split.
  { intros Hr. unfold a, modulo. rewrite <- (Z.mod_add axis 1 N) by lia.
    rewrite Z.mod_small by lia. lia. }
  split.
  - intros (i & Hi & Hia & Hdiff). unfold append.
    rewrite (array_ok_not_empty st A HokA), (array_ok_not_empty st B HokB).
    fold Dl Dr. fold N. fold a.
    destruct (Z.eqb_spec N (psize Dr)); [|unfold N in *; contradiction]. cbn [negb].
    destruct (same_dims_except (seqZ 0 N) a Dl Dr) eqn:Hs; [|reflexivity].
    exfalso. apply Hdiff.
    apply (proj1 (same_dims_except_spec _ _ _ _) Hs); [|assumption].
    apply elem_of_seqZ. lia.
  - intros Hsame.
    pose proof (append_spec T0 fuel st A B axis HokA HokB Hrank Hsame Hfuel) as Hspec.
    cbv zeta in Hspec. fold Dl Dr in Hspec. fold N in Hspec. fold a in Hspec.
    fold la ra in Hspec.
    assert (0 < la) as Hla by (apply (pget_Forall (fun d => 0 < d)); assumption).
    assert (0 < ra) as Hra
      by (apply (pget_Forall (fun d => 0 < d)); [assumption|unfold N in *; lia]).
    destruct (Array_header_grow_spec Dl ra a HposA Ha ltac:(fold la; lia))
      as (Hgd & Hgs & Hgu & Hgc & Hgo & _).
    fold la in Hgd.
    set (Dres := pset Dl a (la + ra)) in *.
    set (hres := Array_header_grow Dl ra a) in *.
    set (res := {| hdr_ := hres; buffsp_ := Some (length st) |}) in *.
    set (full := append_src T0 st A B a la <$> row_major Dres) in *.
    assert (Forall (fun d => 0 < d) Dres) as Hposr
      by (apply Forall_pset_pos; [assumption|lia]).
    assert (fresh_result st res Dres) as Hfresh.
    { unfold fresh_result, res. cbn [hdr_ buffsp_]. rewrite <- Hgd. auto. }
    exists (st ++ [full]), res.
    split; [exact Hspec|]. split; [reflexivity|].
    assert (dims_ (hdr_ res) = Dres) as Hdr by exact Hgd.
    rewrite Hdr.
    split; [apply psize_pset|].
    split; [apply pget_pset_eq; exact Ha|].
    split; [intros i _ Hne; apply pget_pset_ne; congruence|].
    split.
    { change (count_ (hdr_ res)) with (count_ hres). rewrite Hgc, Hgd.
      unfold Dres. rewrite prod_list_pset by assumption.
      rewrite HcA, HcB, (prod_list_delete Dl a Ha). fold la.
      assert (prod_list Dr = ra * prod_list (delete (Z.to_nat a) Dl)) as ->; [|lia].
      rewrite (prod_list_delete Dr a) by (unfold N in *; lia). fold ra. f_equal.
      assert (Dr = pset Dl a ra) as HDr.
      { apply pget_ext; [rewrite psize_pset; lia|].
        intros i Hi. destruct (Z.eq_dec a i) as [<-|Hne].
        - rewrite pget_pset_eq by assumption. reflexivity.
        - rewrite pget_pset_ne by assumption. symmetry.
          apply Hsame; [unfold N in *; lia|congruence]. }
      rewrite HDr, pset_insert by lia. rewrite delete_insert_same. reflexivity. }
    intros s Hs.
    rewrite (Array_at_fresh_lin T0 st res Dres _ s Hfresh Hs).
    pose proof (lin_bounds _ _ Hs) as Hb.
    rewrite <- (Z2Nat.id (lin Dres s)) by lia.
    apply nthZ_lookup. unfold full.
    rewrite list_lookup_fmap, row_major_lookup_lin by assumption. reflexivity.
Qed.

Lemma C6_append_witness :
  let st := [[1; 2]; [3; 4; 5; 6]] in
  let A := {| hdr_ := Array_header_dims [2; 1]; buffsp_ := Some 0%nat |} in
  let B := {| hdr_ := Array_header_dims [2; 2]; buffsp_ := Some 1%nat |} in
  exists st' res,
    append 0 6 st A B (-1) = Done (st', res)
    /\ pget (dims_ (hdr_ res)) 1 = 3
    /\ count_ (hdr_ res) = 6.
Proof.
  intros st A B.
  assert (array_ok st A) as HokA.
  { split.
    - apply Array_header_dims_ok. vm_compute. reflexivity.
    - exists 0%nat. split; [reflexivity|]. simpl. lia. }
  assert (array_ok st B) as HokB.
  { split.
    - apply Array_header_dims_ok. vm_compute. reflexivity.
    - exists 1%nat. split; [reflexivity|]. simpl. lia. }
  assert (psize (dims_ (hdr_ A)) = psize (dims_ (hdr_ B))) as Hrank by reflexivity.
  assert ((Z.to_nat (count_ (hdr_ A) + count_ (hdr_ B)) <= 6)%nat) as Hfuel
    by (vm_compute; lia).
  destruct (C6_append 0 6 st A B (-1) HokA HokB Hrank Hfuel)
    as (_ & _ & _ & _ & Hres).
  destruct Hres as (st' & res & Hdone & _ & _ & Hd & _ & Hc & _).
  { intros i Hi Hne. change (psize (dims_ (hdr_ A))) with 2 in Hi.
    change (modulo (-1) (psize (dims_ (hdr_ A)))) with 1 in Hne.
    assert (i = 0) as -> by lia. reflexivity. }
  exists st', res. split; [exact Hdone|]. split; [exact Hd|exact Hc].
Defined.

(** * Cursors as a user sees them *)

(** X1. The default cursor over a shape with positive extents visits the
    subscript tuples of the shape in row-major order, the last axis varying
    fastest: it is valid for exactly as many steps as the shape has
    elements, and every in-bounds tuple is met at one step only. *)
Theorem X1_default_cursor_order (dims : list Z) :
  Forall (fun d => 0 < d) dims -> dims <> [] ->
  let it := Subscripts_iterator [] dims [] in
  let n := Z.to_nat (prod_list dims) in
  (fun k => subs_ (walk it k)) <$> seq 0 n = row_major dims
  /\ (forall k, (k < n)%nat -> in_range (walk it k) = true)
  /\ in_range (walk it n) = false
  /\ forall s, in_bounds dims s ->
       exists k, (k < n)%nat /\ subs_ (walk it k) = s
         /\ forall k', (k' < n)%nat -> subs_ (walk it k') = s -> k' = k.
Proof.
  intros Hpos Hne it n. pose proof (prod_list_pos _ Hpos) as HP.
  assert (forall k, (k < n)%nat ->
            subs_ (walk it k) = unrank dims (Z.of_nat k)
            /\ in_range (walk it k) = true) as Hstep.
  { intros k Hk. destruct (walk_default dims k Hpos Hne) as [Hin _].
    apply Hin. unfold n in Hk. lia. }
  split; [|split; [|split]].
  - apply list_eq. intros k. rewrite list_lookup_fmap.
    destruct (decide (k < n)%nat) as [Hk|Hk].
    + rewrite lookup_seq_lt by assumption. simpl.
      rewrite (proj1 (Hstep k Hk)).
      rewrite <- (Nat2Z.id k) at 2. symmetry. apply row_major_lookup; [assumption|].
      unfold n in Hk. lia.
    + rewrite lookup_seq_ge by lia. simpl. symmetry. apply lookup_ge_None.
      rewrite length_row_major by assumption. fold n. lia.
  - intros k Hk. apply Hstep. assumption.
  - destruct (walk_default dims n Hpos Hne) as [_ Hend]. apply Hend. unfold n. lia.
  - intros s Hs. pose proof (lin_bounds _ _ Hs) as Hb.
    assert (Z.to_nat (lin dims s) < n)%nat as Hlt by (unfold n; lia).
    exists (Z.to_nat (lin dims s)). split; [exact Hlt|]. split.
    + rewrite (proj1 (Hstep _ Hlt)).
      rewrite Z2Nat.id by lia. apply in_bounds_unrank. assumption.
    + intros k' Hk' Hk's. rewrite (proj1 (Hstep k' Hk')) in Hk's.
      destruct (unrank_spec dims (Z.of_nat k') Hpos ltac:(unfold n in Hk'; lia)) as [_ Hl].
      rewrite Hk's in Hl. lia.
Qed.

Lemma X1_default_cursor_order_witness :
  (fun k => subs_ (walk (Subscripts_iterator [] [2; 3] []) k)) <$> seq 0 6
  = [[0; 0]; [0; 1]; [0; 2]; [1; 0]; [1; 1]; [1; 2]]
  /\ in_range (walk (Subscripts_iterator [] [2; 3] []) 6) = false.
Proof.
  assert (Forall (fun d => 0 < d) [2; 3]) as Hpos by (repeat constructor; lia).
  assert ([2; 3] <> @nil Z) as Hne by discriminate.
  destruct (X1_default_cursor_order [2; 3] Hpos Hne) as (Hord & _ & Hend & _).
  split; [exact Hord|exact Hend].
Defined.

(** X2. A cursor built with an axis varies that axis fastest: step [k]
    stands at [k mod dims[axis]] on the axis and, on the other axes, at the
    tuple number [k / dims[axis]] of their row-major order. The axis is taken
    modulo the rank, and the cursor is valid for exactly as many steps as the
    shape has elements. *)
Theorem X2_axis_cursor_order (dims : list Z) (axis : Z) (k : nat) :
  Forall (fun d => 0 < d) dims -> dims <> [] ->
  let a := modulo axis (psize dims) in
  let it := Subscripts_iterator_axis [] dims axis in
  0 <= a < psize dims
  /\ (Z.of_nat k < prod_list dims ->
      in_range (walk it k) = true
      /\ pget (subs_ (walk it k)) a = Z.of_nat k mod pget dims a
      /\ delete (Z.to_nat a) (subs_ (walk it k))
         = unrank (delete (Z.to_nat a) dims) (Z.of_nat k / pget dims a))
  /\ (Z.of_nat k = prod_list dims -> in_range (walk it k) = false).
Proof.
  intros Hpos Hne a it.
  pose proof (proj2 (psize_pos_nonnil dims) Hne) as HN.
  assert (0 <= a < psize dims) as Ha by (apply Z.mod_pos_bound; lia).
  destruct (walk_axis dims axis k Hpos Hne) as [Hin Hend].
  split; [exact Ha|]. split; [|exact Hend].
  intros Hk. destruct (Hin Hk) as [Hs Hr]. fold a in Hs. fold it in Hs, Hr.
  split; [exact Hr|]. rewrite Hs.
  assert (0 < pget dims a) as Hd by (apply (pget_Forall (fun d => 0 < d)); assumption).
  set (r := unrank (delete (Z.to_nat a) dims) (Z.of_nat k / pget dims a)).
  assert (length r = (length dims - 1)%nat) as Hlr.
  { pose proof (prod_list_delete dims a Ha) as Hp.
    assert (Forall (fun d => 0 < d) (delete (Z.to_nat a) dims)) as Hpd
      by (apply Forall_delete_pos; assumption).
    pose proof (prod_list_pos _ Hpd) as Hpp.
    destruct (unrank_spec (delete (Z.to_nat a) dims) (Z.of_nat k / pget dims a) Hpd) as [Hb _].
    { split; [apply Z.div_pos; lia|]. apply Z.div_lt_upper_bound; lia. }
    apply in_bounds_length in Hb. fold r in Hb. rewrite Hb.
    rewrite length_delete; [reflexivity|].
    apply lookup_lt_is_Some. unfold psize in Ha. lia. }
  unfold insert_at. split.
  - unfold pget, nthZ. destruct (Z.ltb_spec a 0); [lia|].
    rewrite nth_lookup, lookup_app_r by (rewrite length_take; unfold psize in Ha; lia).
    rewrite length_take.
    replace (Z.to_nat a - Z.to_nat a `min` length r)%nat with 0%nat
      by (unfold psize in Ha; lia).
    reflexivity.
  - rewrite delete_take_drop.
    rewrite take_app_le by (rewrite length_take; unfold psize in Ha; lia).
    rewrite take_take, Nat.min_id.
    rewrite drop_app_ge by (rewrite length_take; unfold psize in Ha; lia).
    rewrite length_take.
    replace (S (Z.to_nat a) - Z.to_nat a `min` length r)%nat with 1%nat
      by (unfold psize in Ha; lia).
    simpl. rewrite drop_0. apply take_drop.
Qed.

Lemma X2_axis_cursor_order_witness :
  in_range (walk (Subscripts_iterator_axis [] [2; 3] (-2)) 3) = true
  /\ pget (subs_ (walk (Subscripts_iterator_axis [] [2; 3] (-2)) 3)) 0 = 1
  /\ delete 0%nat (subs_ (walk (Subscripts_iterator_axis [] [2; 3] (-2)) 3)) = [1].
Proof.
  assert (Forall (fun d => 0 < d) [2; 3]) as Hpos by (repeat constructor; lia).
  assert ([2; 3] <> @nil Z) as Hne by discriminate.
  destruct (X2_axis_cursor_order [2; 3] (-2) 3 Hpos Hne) as (_ & Hin & _).
  apply Hin. vm_compute. reflexivity.
Defined.

(** X3. Over a layout built from a shape alone the default cursor addresses
    the buffer in sequence: the subscripts at step [k] resolve to the flat
    position [k]. *)
Theorem X3_default_cursor_flat_position (dims : list Z) (k : nat) :
  0 < numel dims -> Z.of_nat k < numel dims ->
  let h := Array_header_dims dims in
  subs2ind (offset_ h) (strides_ h) (dims_ h)
    (subs_ (walk (Subscripts_iterator [] (dims_ h) []) k))
  = Z.of_nat k.
Proof.
  intros Hn Hk h.
  destruct (Array_header_dims_nonempty dims Hn) as (Hd & Hs & _ & _ & Ho & _).
  fold h in Hd, Hs, Ho. rewrite Hd, Ho.
  destruct (numel_pos_inv dims Hn) as [Hne Hpos].
  rewrite (numel_prod dims Hne Hpos) in Hk.
  destruct (walk_default dims k Hpos Hne) as [Hin _].
  destruct (Hin Hk) as [-> _].
  destruct (unrank_spec dims (Z.of_nat k) Hpos ltac:(lia)) as [Hb Hl].
  rewrite subs2ind_row_major by assumption. exact Hl.
Qed.

Lemma X3_default_cursor_flat_position_witness :
  subs2ind (offset_ (Array_header_dims [3; 1; 2])) (strides_ (Array_header_dims [3; 1; 2]))
    (dims_ (Array_header_dims [3; 1; 2]))
    (subs_ (walk (Subscripts_iterator [] (dims_ (Array_header_dims [3; 1; 2])) []) 4))
  = 4.
Proof.
  apply (X3_default_cursor_flat_position [3; 1; 2] 4); vm_compute; reflexivity.
Defined.

(** * clone, and reduce on a 1-D array *)

Lemma Array_at_fresh_full {T} (T0 : T) (st : store T) res dims (f : list Z -> T) s :
  fresh_result st res dims -> in_bounds dims s ->
  Array_at T0 (st ++ [f <$> row_major dims]) res s = f s.
Proof.
  intros Hfresh Hs.
  rewrite (Array_at_fresh_lin T0 st res dims _ s Hfresh Hs).
  pose proof (lin_bounds _ _ Hs) as Hb.
  rewrite <- (Z2Nat.id (lin dims s)) by lia. apply nthZ_lookup.
  rewrite list_lookup_fmap, row_major_lookup_lin by assumption. reflexivity.
Qed.

(** X4. [clone] of a non-empty array, a view included, returns a handle over
    a newly allocated buffer with the same shape, row-major strides and no
    offset, which is not a view; it holds the argument's elements at the same
    subscripts, and the arrays that existed before read as before. *)
Theorem X4_clone {T} (T0 : T) (fuel : nat) (st : store T) (A : Array) :
  array_ok st A -> (Z.to_nat (count_ (hdr_ A)) <= fuel)%nat ->
  exists st' c,
    clone T0 fuel st A = Done (st', c)
    /\ buffsp_ c = Some (length st)
    /\ buffsp_ c <> buffsp_ A
    /\ dims_ (hdr_ c) = dims_ (hdr_ A)
    /\ row_major_strides (dims_ (hdr_ c)) (strides_ (hdr_ c))
    /\ offset_ (hdr_ c) = 0
    /\ is_subarray_ (hdr_ c) = false
    /\ count_ (hdr_ c) = count_ (hdr_ A)
    /\ elements T0 st' c = elements T0 st A
    /\ (forall s, in_bounds (dims_ (hdr_ A)) s -> Array_at T0 st' c s = Array_at T0 st A s)
    /\ (forall X s, array_ok st X -> Array_at T0 st' X s = Array_at T0 st X s).
Proof.
  intros Hok Hfuel. pose proof Hok as [Hl (l & Hbuf & Hlt)].
  destruct (array_ok_numel st A Hok) as [Hnum Hcnt].
  pose proof (ok_dims _ Hl) as Hpos.
  set (D := dims_ (hdr_ A)) in *.
  destruct (Array_header_dims_nonempty D ltac:(lia)) as (Hd & Hs & _ & Hc & Ho & Hv).
  set (c := {| hdr_ := Array_header_dims D; buffsp_ := Some (length st) |}).
  assert (fresh_result st c D) as Hfresh.
  { unfold fresh_result, c. cbn [hdr_ buffsp_]. rewrite Hd. auto. }
  exists (st ++ [elements T0 st A]), c.
  split; [apply clone_spec; assumption|].
  split; [reflexivity|].
  split; [cbn [c buffsp_]; rewrite Hbuf; intros [= Heq]; lia|].
  cbn [c hdr_]. rewrite Hd.
  split; [reflexivity|]. split; [assumption|]. split; [assumption|].
  split; [assumption|]. split; [lia|].
  split.
  { apply (elements_fresh T0 st c D); [assumption|assumption|].
    apply length_elements. assumption. }
  split.
  - intros s Hs'. unfold elements. fold D.
    apply (Array_at_fresh_full T0 st c D (Array_at T0 st A) s Hfresh Hs').
  - intros X s [_ (lx & Hbx & Hltx)]. apply (Array_at_app_l T0 st _ X lx); assumption.
Qed.

Lemma X4_clone_witness :
  let st := [[1; 2; 3; 4; 5; 6]] in
  let A := {| hdr_ := Array_header_slice [2; 3] [3; 1] 0 [{| start := 0; stop := 1; step := 1 |};
                                                         {| start := 1; stop := 2; step := 1 |}];
              buffsp_ := Some 0%nat |} in
  exists st' c,
    clone 0 4 st A = Done (st', c)
    /\ dims_ (hdr_ c) = [2; 2]
    /\ elements 0 st' c = [2; 3; 5; 6].
Proof.
  intros st A.
  assert (array_ok st A) as Hok.
  { split.
    - constructor; vm_compute; try reflexivity; try discriminate.
      repeat constructor.
    - exists 0%nat. split; [reflexivity|]. simpl. lia. }
  assert ((Z.to_nat (count_ (hdr_ A)) <= 4)%nat) as Hfuel by (vm_compute; lia).
  destruct (X4_clone 0 4 st A Hok Hfuel)
    as (st' & c & Hdone & _ & _ & Hd & _ & _ & _ & _ & Hel & _).
  exists st', c. split; [exact Hdone|]. split; [exact Hd|exact Hel].
Defined.

Lemma row_major_single d : row_major [d] = (fun j => [j]) <$> seqZ 0 d.
Proof.
  simpl. induction (seqZ 0 d) as [|x l IH]; [reflexivity|].
  rewrite bind_cons, fmap_cons, IH. reflexivity.
Qed.

(** X6. On a 1-D array, [reduce] along an axis, whichever axis is asked for,
    returns a one-element array of shape [1] that holds the value of the
    whole-array [reduce]. *)
Theorem X6_reduce_axis_1d {T R} (T0 : T) (R0 : R) (cast : T -> R) (fuel : nat)
    (st : store T) (str : store R) (A : Array) (func : T -> R -> R) (axis : Z) :
  array_ok st A -> psize (dims_ (hdr_ A)) = 1 ->
  (Z.to_nat (count_ (hdr_ A)) <= fuel)%nat ->
  exists v res,
    reduce T0 R0 cast fuel st A func = Done v
    /\ reduce_axis T0 R0 cast fuel st str A func axis = Done (str ++ [[v]], res)
    /\ dims_ (hdr_ res) = [1]
    /\ buffsp_ res = Some (length str).
Proof.
  intros Hok Hrank Hfuel. pose proof Hok as [Hl _].
  pose proof (ok_dims _ Hl) as Hpos.
  destruct (array_ok_numel st A Hok) as [Hnum Hcnt].
  destruct (reduce_spec T0 R0 cast fuel st A func Hok Hfuel) as (x & xs & Hel & Hred).
  pose proof (reduce_axis_spec T0 R0 cast fuel st str A func axis Hok Hfuel) as Hax.
  cbv zeta in Hax.
  destruct (Array_header_omit_spec (dims_ (hdr_ A)) axis ltac:(lia)) as (Hd & _).
  destruct (dims_ (hdr_ A)) as [|d [|d' D']] eqn:HD;
    try (unfold psize in Hrank; simpl in Hrank; lia).
  assert (0 < d) as Hdpos by (inversion Hpos; assumption).
  assert (modulo axis (psize [d]) = 0) as Hmod
    by (unfold modulo, psize; simpl; apply Z.mod_1_r).
  rewrite Hmod in Hax. change (delete (Z.to_nat 0) [d]) with (@nil Z) in Hax.
  cbn [row_major fmap list_fmap] in Hax.
  exists (foldl (fun acc y => func y acc) (cast x) xs),
    {| hdr_ := Array_header_omit [d] axis; buffsp_ := Some (length str) |}.
  split; [exact Hred|]. split; [|split; [exact Hd|reflexivity]].
  rewrite Hax. f_equal. f_equal. f_equal. f_equal. f_equal.
  unfold fold_along. rewrite HD.
  change (pget [d] 0) with d.
  unfold elements in Hel. rewrite HD, row_major_single in Hel.
  rewrite (seqZ_cons 0 d) in Hel by lia. rewrite !fmap_cons in Hel.
  injection Hel as Hx Hxs.
  change (insert_at 0 0 []) with [0]. rewrite Hx.
  replace (Z.succ 0) with 1 in Hxs by lia. replace (Z.pred d) with (d - 1) in Hxs by lia.
  rewrite <- Hxs, <- list_fmap_compose, foldl_fmap. reflexivity.
Qed.

Lemma X6_reduce_axis_1d_witness :
  let st := [[1; 2; 3]] in
  let A := {| hdr_ := Array_header_dims [3]; buffsp_ := Some 0%nat |} in
  exists v res,
    reduce 0 0 (fun v => v) 3 st A (fun v acc => 10 * acc + v) = Done v
    /\ reduce_axis 0 0 (fun v => v) 3 st [] A (fun v acc => 10 * acc + v) 5
       = Done ([[v]], res)
    /\ dims_ (hdr_ res) = [1]
    /\ buffsp_ res = Some 0%nat.
Proof.
  intros st A.
  apply (X6_reduce_axis_1d 0 0 (fun v => v) 3 st [] A (fun v acc => 10 * acc + v) 5).
  - split.
    + apply Array_header_dims_ok. vm_compute. reflexivity.
    + exists 0%nat. split; [reflexivity|]. simpl. lia.
  - reflexivity.
  - vm_compute. lia.
Defined.

(** * is_contained_in *)

Lemma is_contained_in_loop_spec ixs nz sub dims :
  is_contained_in_loop ixs nz sub dims = true
  <-> forall i, i ∈ ixs -> pget sub (i - nz) <= pget dims i.
Proof.
  induction ixs as [|i ixs IH]; simpl.
  - split; [|reflexivity]. intros _ i Hi. inversion Hi.
  - destruct (Z.gtb_spec (pget sub (i - nz)) (pget dims i)) as [Hgt|Hle].
    + split; [discriminate|]. intros H. specialize (H i ltac:(left)). lia.
    + rewrite IH. split.
      * intros H j Hj. apply elem_of_cons in Hj as [->|Hj]; [assumption|auto].
      * intros H j Hj. apply H. right. assumption.
Qed.

(** X7. [is_contained_in] holds exactly when the first shape has no more
    axes than the second and each of its extents is at most the extent of
    the second shape's axis it is aligned with, the axes being aligned at
    the last one. Extents are not required to be positive. *)
Theorem X7_is_contained_in (sub_dims dims : list Z) :
  is_contained_in sub_dims dims = true
  <-> psize sub_dims <= psize dims
      /\ forall j, 0 <= j < psize sub_dims ->
           pget sub_dims j <= pget dims (j + (psize dims - psize sub_dims)).
Proof.
  unfold is_contained_in.
  destruct (Z.gtb_spec (psize sub_dims) (psize dims)) as [Hgt|Hle].
  - split; [discriminate|]. intros [H _]. lia.
  - rewrite is_contained_in_loop_spec. split.
    + intros H. split; [assumption|]. intros j Hj.
      specialize (H (j + (psize dims - psize sub_dims))).
      replace (j + (psize dims - psize sub_dims) - (psize dims - psize sub_dims)) with j in H
        by lia.
      apply H. apply elem_of_seqZ. pose proof (psize_nonneg sub_dims). lia.
    + intros [_ H] i Hi. apply elem_of_seqZ in Hi.
      specialize (H (i - (psize dims - psize sub_dims)) ltac:(lia)).
      replace (i - (psize dims - psize sub_dims) + (psize dims - psize sub_dims)) with i in H
        by lia.
      exact H.
Qed.

(** * Slices as views *)

Lemma sum_range_plus lo hi f g :
  sum_range lo hi (fun i => f i + g i) = sum_range lo hi f + sum_range lo hi g.
Proof.
  unfold sum_range. induction (seqZ lo (hi - lo)) as [|x l IH]; [reflexivity|].
  rewrite !fmap_cons. cbn [foldr]. rewrite IH. lia.
Qed.

Lemma psize_parent_subs pd R s : psize (parent_subs pd R s) = psize s.
Proof. unfold parent_subs, psize. rewrite length_imap. reflexivity. Qed.

Lemma pget_parent_subs pd R s i :
  0 <= i < psize s ->
  pget (parent_subs pd R s) i =
  if i <? psize R then start (canonical pd R i) + pget s i * step (canonical pd R i)
  else pget s i.
Proof.
  intros Hi. unfold pget, nthZ, parent_subs.
  destruct (Z.ltb_spec i 0); [lia|].
  rewrite !nth_lookup, list_lookup_imap.
  destruct (s !! Z.to_nat i) as [x|] eqn:Hx.
  - simpl. rewrite Z2Nat.id by lia. reflexivity.
  - apply lookup_ge_None in Hx. unfold psize in Hi. lia.
Qed.

(** The strides a slice gives to the axes after its last interval are those
    of a row-major layout of the parent's shape. *)
Lemma compute_strides_intervals_trailing pd ps R :
  0 < psize pd -> psize ps = psize pd -> psize R <= psize pd ->
  row_major_strides pd ps ->
  forall i, psize R <= i < psize pd ->
    pget (snd (compute_strides_intervals pd ps R (Internal_buffer (psize pd)))) i = pget ps i.
Proof.
  intros Hn Hs Hk (_ & Hlast & Hrec) i Hi. pose proof (psize_nonneg R) as HR.
  unfold compute_strides_intervals.
  rewrite psize_Internal_buffer, Hs by lia.
  destruct (Z.gtb_spec (psize pd) (psize pd)); [lia|].
  destruct (Z.leb_spec (psize pd) 0); [lia|].
  set (s1 := for_up 0 (psize R) _ _).
  assert (psize s1 = psize pd) as Hs1.
  { subst s1.
    destruct (for_up_pset 0 (psize R) (fun i => pget ps i * step (forward (iget R i)))
                (Internal_buffer (psize pd)) ltac:(lia)) as [Hsz _].
    rewrite Hsz. apply psize_Internal_buffer. lia. }
  destruct (Z.ltb_spec (psize R) (psize pd)), (Z.geb_spec (psize pd) (psize pd));
    simpl; try lia.
  set (N := psize pd) in *.
  assert (let s := for_down (N - 2) (psize R)
                     (fun i strides => pset strides i (pget strides (i + 1) * pget pd (i + 1)))
                     (pset s1 (N - 1) 1) in
          psize s = N /\ forall j, psize R <= j < N -> pget s j = pget ps j) as Hinv.
  { apply (for_down_ind
             (fun i s => psize s = N /\ forall j, i <= j < N -> pget s j = pget ps j)); [lia| |].
    - rewrite psize_pset. split; [assumption|]. intros j Hj.
      assert (j = N - 1) as -> by lia.
      rewrite pget_pset_eq by lia. symmetry. apply Hlast. lia.
    - intros j s Hj [Hsz Hg]. rewrite psize_pset. split; [assumption|].
      intros j' Hj'. destruct (Z.eq_dec j' j) as [->|Hne].
      + rewrite pget_pset_eq by lia. rewrite Hg by lia. symmetry. apply Hrec. lia.
      + rewrite pget_pset_ne by lia. apply Hg. lia. }
  apply Hinv. lia.
Qed.

Lemma parent_subs_in_bounds pd R dims s :
  Forall (fun d => 0 < d) pd -> psize R <= psize pd -> psize dims = psize pd ->
  (forall i, 0 <= i < psize R ->
     start (canonical pd R i) <= stop (canonical pd R i) /\ 0 < step (canonical pd R i)) ->
  (forall i, 0 <= i < psize pd ->
     pget dims i = if i <? psize R then canonical_dim pd R i else pget pd i) ->
  in_bounds dims s -> in_bounds pd (parent_subs pd R s).
Proof.
  intros Hpos Hk Hsz Hgood Hdims Hs.
  pose proof (in_bounds_psize _ _ Hs) as Hps.
  apply in_bounds_intro; [rewrite psize_parent_subs; lia|].
  intros i Hi. rewrite pget_parent_subs by lia.
  pose proof (in_bounds_pget _ _ i Hs ltac:(lia)) as Hb. rewrite Hdims in Hb by lia.
  destruct (Z.ltb_spec i (psize R)); [|assumption].
  destruct (Hgood i ltac:(lia)) as [Hse Ht].
  assert (0 < pget pd i) as Hd by (apply (pget_Forall (fun d => 0 < d)); assumption).
  destruct (canonical_wrapped pd R i Hd) as [Hst Hsp].
  unfold canonical_dim in Hb.
  pose proof (ceil_quot_spec (stop (canonical pd R i) - start (canonical pd R i) + 1)
                (step (canonical pd R i)) Ht) as Hc.
  nia.
Qed.

(** The flat position of a slice's subscripts is that of the parent's
    subscripts they stand for. *)
Lemma slice_subs2ind pd ps po R s :
  0 < numel pd -> psize ps = psize pd -> psize R <= psize pd ->
  (forall i, 0 <= i < psize R ->
     start (canonical pd R i) <= stop (canonical pd R i) /\ 0 < step (canonical pd R i)) ->
  psize R = psize pd \/ row_major_strides pd ps ->
  let L := Array_header_slice pd ps po R in
  in_bounds (dims_ L) s ->
  subs2ind (offset_ L) (strides_ L) (dims_ L) s = subs2ind po ps pd (parent_subs pd R s).
Proof.
  intros Hn Hs Hk Hgood Htrail L Hb. pose proof (psize_nonneg R) as HR.
  destruct (numel_pos_inv _ Hn) as [Hne Hpos].
  pose proof (proj2 (psize_pos_nonnil pd) Hne) as HN.
  destruct (Array_header_slice_good pd ps po R Hn) as (dims & HL & Hsz & Hget & Hposd).
  { intros i Hi. apply Hgood. lia. }
  destruct (compute_strides_intervals_spec pd ps R HN Hs Hk) as [Hss Hsg].
  fold L in HL. rewrite HL in Hb |- *.
  cbn [dims_ strides_ offset_] in Hb |- *.
  set (S' := snd (compute_strides_intervals pd ps R (Internal_buffer (psize pd)))) in *.
  assert (forall i, psize R <= i < psize pd -> pget S' i = pget ps i) as Hst.
  { intros i Hi. destruct Htrail as [Hfull|Hrm]; [lia|].
    apply compute_strides_intervals_trailing; assumption. }
  pose proof (parent_subs_in_bounds pd R dims s Hpos Hk Hsz Hgood Hget Hb) as Hbp.
  pose proof (in_bounds_psize _ _ Hb) as Hps.
  pose proof (in_bounds_psize _ _ Hbp) as Hpp.
  rewrite !subs2ind_sum by lia.
  assert (trailing_subs (psize dims) s = s) as ->
    by (rewrite <- Hps; apply trailing_subs_exact).
  assert (trailing_subs (psize pd) (parent_subs pd R s) = parent_subs pd R s) as ->
    by (rewrite <- Hpp; apply trailing_subs_exact).
  rewrite compute_offset_spec by assumption.
  rewrite Hsz.
  rewrite (sum_range_split 0 (psize R) (psize pd)) by lia.
  rewrite (sum_range_split 0 (psize R) (psize pd)
             (fun i => pget ps i * (pget (parent_subs pd R s) i mod pget pd i))) by lia.
  rewrite (sum_range_ext 0 (psize R)
             (fun i => pget ps i * (pget (parent_subs pd R s) i mod pget pd i))
             (fun i => pget ps i * start (canonical pd R i)
                       + pget S' i * (pget s i mod pget dims i))).
  - rewrite sum_range_plus.
    rewrite (sum_range_ext (psize R) (psize pd)
               (fun i => pget ps i * (pget (parent_subs pd R s) i mod pget pd i))
               (fun i => pget S' i * (pget s i mod pget dims i))); [lia|].
    intros i Hi. rewrite Hst by lia.
    pose proof (in_bounds_pget _ _ i Hbp ltac:(lia)) as Hbi.
    pose proof (in_bounds_pget _ _ i Hb ltac:(lia)) as Hbi'.
    rewrite !Z.mod_small by lia.
    rewrite pget_parent_subs by lia.
    destruct (Z.ltb_spec i (psize R)); [lia|reflexivity].
  - intros i Hi. rewrite Hsg by lia.
    pose proof (in_bounds_pget _ _ i Hbp ltac:(lia)) as Hbi.
    pose proof (in_bounds_pget _ _ i Hb ltac:(lia)) as Hbi'.
    rewrite !Z.mod_small by lia.
    rewrite pget_parent_subs by lia.
    destruct (Z.ltb_spec i (psize R)); [lia|lia].
Qed.

Lemma Array_slice_nonempty {T} (st : store T) A R :
  array_ok st A -> R <> [] ->
  Array_slice st A R =
  {| hdr_ := Array_header_slice (dims_ (hdr_ A)) (strides_ (hdr_ A)) (offset_ (hdr_ A)) R;
     buffsp_ := buffsp_ A |}.
Proof.
  intros Hok HR. unfold Array_slice. rewrite (array_ok_not_empty st A Hok).
  destruct R; [congruence|reflexivity].
Qed.

(** X8. A slice is a view of its parent: it shares the parent's buffer, and
    its element at the subscripts [s] is the parent's element at
    [start + s[i] * step] on each sliced axis and at [s[i]] on the axes after
    the last interval. This holds when every axis has an interval, or when
    the parent's strides are row-major; intervals are canonical with
    [start <= stop]. *)
Theorem X8_slice_access {T} (T0 : T) (st : store T) (A : Array) (R : list Interval) :
  array_ok st A -> R <> [] -> psize R <= psize (dims_ (hdr_ A)) ->
  (forall i, 0 <= i < psize R ->
     start (canonical (dims_ (hdr_ A)) R i) <= stop (canonical (dims_ (hdr_ A)) R i)
     /\ 0 < step (canonical (dims_ (hdr_ A)) R i)) ->
  psize R = psize (dims_ (hdr_ A))
    \/ row_major_strides (dims_ (hdr_ A)) (strides_ (hdr_ A)) ->
  let V := Array_slice st A R in
  buffsp_ V = buffsp_ A
  /\ is_subarray_ (hdr_ V) = true
  /\ forall s, in_bounds (dims_ (hdr_ V)) s ->
       in_bounds (dims_ (hdr_ A)) (parent_subs (dims_ (hdr_ A)) R s)
       /\ Array_at T0 st V s = Array_at T0 st A (parent_subs (dims_ (hdr_ A)) R s).
Proof.
  intros Hok HR Hk Hgood Htrail V. pose proof Hok as [Hl _].
  destruct (array_ok_numel st A Hok) as [Hnum Hcnt].
  pose proof (ok_dims _ Hl) as Hpos.
  assert (psize (strides_ (hdr_ A)) = psize (dims_ (hdr_ A))) as Hss
    by (unfold psize; rewrite (ok_strides _ Hl); reflexivity).
  unfold V. rewrite (Array_slice_nonempty st A R Hok HR). cbn [hdr_ buffsp_].
  set (pd := dims_ (hdr_ A)) in *. set (ps := strides_ (hdr_ A)) in *.
  set (po := offset_ (hdr_ A)) in *.
  destruct (Array_header_slice_good pd ps po R ltac:(lia)) as (dims & HL & Hsz & Hget & Hposd).
  { intros i Hi. apply Hgood. lia. }
  split; [reflexivity|]. split; [rewrite HL; reflexivity|].
  intros s Hs. split.
  - rewrite HL in Hs. cbn [dims_] in Hs.
    apply (parent_subs_in_bounds pd R dims s); assumption.
  - unfold Array_at. cbn [hdr_]. unfold data. cbn [buffsp_].
    fold pd ps po.
    rewrite (slice_subs2ind pd ps po R s); try assumption; [reflexivity|lia].
Qed.

Lemma X8_slice_access_witness :
  let st := [[1; 2; 3; 4; 5; 6]] in
  let A := {| hdr_ := Array_header_dims [2; 3]; buffsp_ := Some 0%nat |} in
  let R := [{| start := 1; stop := 1; step := 1 |}; {| start := 2; stop := 0; step := -2 |}] in
  Array_at 0 st (Array_slice st A R) [0; 1] = Array_at 0 st A [1; 2]
  /\ Array_at 0 st A [1; 2] = 6.
Proof.
  intros st A R.
  assert (array_ok st A) as Hok.
  { split.
    - apply Array_header_dims_ok. vm_compute. reflexivity.
    - exists 0%nat. split; [reflexivity|]. simpl. lia. }
  destruct (X8_slice_access 0 st A R Hok) as (_ & _ & Hat).
  - discriminate.
  - vm_compute. discriminate.
  - intros i Hi. change (psize R) with 2 in Hi.
    assert (i = 0 \/ i = 1) as [-> | ->] by lia; vm_compute; split; congruence.
  - left. reflexivity.
  - split; [|reflexivity]. apply (Hat [0; 1]).
    vm_compute. repeat constructor; discriminate.
Defined.

(** X9. Writing through a slice writes the parent's buffer: after an
    assignment to the slice's element at [s], the parent reads the new value
    at the subscripts [s] stands for, and the slice reads it at [s],
    provided the position lies within the buffer. *)
Theorem X9_slice_write_through {T} (T0 : T) (st : store T) (A : Array) (R : list Interval)
    (s : list Z) (v : T) (buf : list T) :
  array_ok st A -> R <> [] -> psize R <= psize (dims_ (hdr_ A)) ->
  (forall i, 0 <= i < psize R ->
     start (canonical (dims_ (hdr_ A)) R i) <= stop (canonical (dims_ (hdr_ A)) R i)
     /\ 0 < step (canonical (dims_ (hdr_ A)) R i)) ->
  psize R = psize (dims_ (hdr_ A))
    \/ row_major_strides (dims_ (hdr_ A)) (strides_ (hdr_ A)) ->
  let V := Array_slice st A R in
  let p := parent_subs (dims_ (hdr_ A)) R s in
  in_bounds (dims_ (hdr_ V)) s ->
  data st A = Some buf ->
  0 <= subs2ind (offset_ (hdr_ A)) (strides_ (hdr_ A)) (dims_ (hdr_ A)) p < psize buf ->
  let st' := Array_set st V s v in
  Array_at T0 st' A p = v /\ Array_at T0 st' V s = v /\ length st' = length st.
Proof.
  intros Hok HR Hk Hgood Htrail V p Hs Hdata Hrange st'. pose proof Hok as [Hl (l & Hbuf & Hlt)].
  destruct (array_ok_numel st A Hok) as [Hnum Hcnt].
  assert (psize (strides_ (hdr_ A)) = psize (dims_ (hdr_ A))) as Hss
    by (unfold psize; rewrite (ok_strides _ Hl); reflexivity).
  unfold V in Hs. rewrite (Array_slice_nonempty st A R Hok HR) in Hs. cbn [hdr_] in Hs.
  pose proof (slice_subs2ind (dims_ (hdr_ A)) (strides_ (hdr_ A)) (offset_ (hdr_ A)) R s
                ltac:(lia) Hss Hk Hgood Htrail Hs) as Hind.
  cbv zeta in Hind. fold p in Hind.
  subst st'. unfold V. rewrite (Array_slice_nonempty st A R Hok HR).
  unfold Array_set, Array_at, data in *. cbn [hdr_ buffsp_] in *.
  rewrite Hbuf in *. rewrite Hind.
  rewrite list_lookup_alter_eq, Hdata. simpl.
  split; [apply nthZ_updZ_eq; assumption|].
  split; [apply nthZ_updZ_eq; assumption|].
  apply length_alter.
Qed.

Lemma X9_slice_write_through_witness :
  let st := [[1; 2; 3; 4; 5; 6]] in
  let A := {| hdr_ := Array_header_dims [2; 3]; buffsp_ := Some 0%nat |} in
  let R := [{| start := 1; stop := 1; step := 1 |}; {| start := 2; stop := 0; step := -2 |}] in
  Array_at 0 (Array_set st (Array_slice st A R) [0; 0] 9) A [1; 0] = 9.
Proof.
  intros st A R.
  assert (array_ok st A) as Hok.
  { split.
    - apply Array_header_dims_ok. vm_compute. reflexivity.
    - exists 0%nat. split; [reflexivity|]. simpl. lia. }
  apply (X9_slice_write_through 0 st A R [0; 0] 9 [1; 2; 3; 4; 5; 6] Hok).
  - discriminate.
  - vm_compute. discriminate.
  - intros i Hi. change (psize R) with 2 in Hi.
    assert (i = 0 \/ i = 1) as [-> | ->] by lia; vm_compute; split; congruence.
  - left. reflexivity.
  - vm_compute. repeat constructor; discriminate.
  - reflexivity.
  - vm_compute. split; [discriminate|reflexivity].
Defined.

(** * Element-wise operations *)

Lemma fill_loop_spec {R} (R0 : R) (fuel : nat) (str : store R) res dims (value : list Z -> R) :
  fresh_result str res dims -> Forall (fun d => 0 < d) dims -> dims <> [] ->
  (Z.to_nat (prod_list dims) <= fuel)%nat ->
  fill_loop fuel (str ++ [replicate (Z.to_nat (prod_list dims)) R0]) res dims value
  = Some (str ++ [value <$> row_major dims]).
Proof.
  intros Hfresh Hpos Hne Hfuel. pose proof (prod_list_pos _ Hpos) as HP.
  unfold fill_loop.
  set (full := value <$> row_major dims).
  assert (length full = Z.to_nat (prod_list dims)) as Hlen
    by (unfold full; rewrite length_fmap; apply length_row_major; assumption).
  set (n := Z.to_nat (prod_list dims)) in *.
  set (it0 := Subscripts_iterator [] dims []).
  set (body := fun '(ndstor, s) =>
                 (increment ndstor, Array_set s res (subs_ ndstor) (value (subs_ ndstor)))).
  assert (forall k, (k <= n)%nat ->
            Nat.iter k body (it0, str ++ [replicate n R0])
            = (walk it0 k, str ++ [take k full ++ replicate (length full - k) R0])) as Hiter.
  { induction k as [|k IH]; intros Hk.
    - simpl. rewrite Hlen, Nat.sub_0_r. reflexivity.
    - cbn [Nat.iter nat_rect]. fold (Nat.iter k body (it0, str ++ [replicate n R0])).
      rewrite IH by lia. unfold body at 1. rewrite walk_S. f_equal.
      destruct (walk_default dims k Hpos Hne) as [Hin _]. fold it0 in Hin.
      destruct (Hin ltac:(lia)) as [-> _].
      apply (fill_write R0 str res dims); try assumption.
      unfold full. rewrite list_lookup_fmap.
      rewrite <- (Nat2Z.id k) at 1. rewrite row_major_lookup by (try assumption; lia).
      reflexivity. }
  change (while_do fuel _ _ (it0, str ++ [replicate n R0]))
    with (while_do fuel (fun '(ndstor, s) => in_range ndstor) body
            (it0, str ++ [replicate n R0])).
  rewrite (while_do_iter _ body n fuel).
  - rewrite Hiter by lia. rewrite <- Hlen, fill_done. reflexivity.
  - lia.
  - intros k Hk. rewrite Hiter by lia.
    destruct (walk_default dims k Hpos Hne) as [Hin _]. apply Hin. lia.
  - rewrite Hiter by lia.
    destruct (walk_default dims n Hpos Hne) as [_ Hend]. apply Hend. lia.
Qed.

Lemma fresh_Array_header_dims {R} (str : store R) dims :
  0 < numel dims ->
  fresh_result str {| hdr_ := Array_header_dims dims; buffsp_ := Some (length str) |} dims.
Proof.
  intros Hn. destruct (Array_header_dims_nonempty dims Hn) as (Hd & Hrm & _ & _ & Ho & _).
  unfold fresh_result. cbn [hdr_ buffsp_]. rewrite Hd. auto.
Qed.

(** A newly allocated array of shape [dims] filled with [value] at every
    subscript tuple. *)
Lemma filled_array_spec {R} (R0 : R) (fuel : nat) (str : store R) dims (value : list Z -> R) :
  0 < numel dims -> (Z.to_nat (numel dims) <= fuel)%nat ->
  (let '(str', res) := Array_dims R0 str dims in
   match fill_loop fuel str' res dims value with
   | Some str' => Done (str', res)
   | None => OutOfFuel
   end)
  = Done (str ++ [value <$> row_major dims],
          {| hdr_ := Array_header_dims dims; buffsp_ := Some (length str) |}).
Proof.
  intros Hn Hfuel. destruct (numel_pos_inv _ Hn) as [Hne Hpos].
  rewrite (numel_pos_prod _ Hn) in Hfuel.
  destruct (Array_dims_fresh R0 str dims Hn) as (Hst & Hres & Hfresh).
  destruct (Array_dims R0 str dims) as [str1 res]. cbn [fst snd] in Hst, Hres, Hfresh.
  rewrite Hst, (fill_loop_spec R0 fuel str res dims value) by assumption.
  rewrite Hres. reflexivity.
Qed.

(** X10. [transform] of a non-empty array returns a newly allocated array
    of the same shape whose element at each subscript tuple is [func]
    applied to the argument's element there; of an empty array it returns
    an empty array. *)
Theorem X10_transform {T R} (T0 : T) (R0 : R) (fuel : nat) (st : store T) (str : store R)
    (A : Array) (func : T -> R) :
  (empty st A = true -> transform T0 R0 fuel st str A func = Done (str, Array_default))
  /\ (array_ok st A -> (Z.to_nat (count_ (hdr_ A)) <= fuel)%nat ->
      exists str' res,
        transform T0 R0 fuel st str A func = Done (str', res)
        /\ buffsp_ res = Some (length str)
        /\ dims_ (hdr_ res) = dims_ (hdr_ A)
        /\ count_ (hdr_ res) = count_ (hdr_ A)
        /\ elements R0 str' res = func <$> elements T0 st A
        /\ forall s, in_bounds (dims_ (hdr_ A)) s ->
             Array_at R0 str' res s = func (Array_at T0 st A s)).
Proof.
  split.
  { intros He. unfold transform. rewrite He. reflexivity. }
  intros Hok Hfuel. pose proof Hok as [Hl _].
  destruct (array_ok_numel st A Hok) as [Hnum Hcnt].
  pose proof (ok_dims _ Hl) as Hpos.
  set (D := dims_ (hdr_ A)) in *.
  set (value := fun subs => func (Array_at T0 st A subs)).
  pose proof (filled_array_spec R0 fuel str D value ltac:(lia) ltac:(lia)) as Hfill.
  pose proof (fresh_Array_header_dims str D ltac:(lia)) as Hfresh.
  destruct (Array_header_dims_nonempty D ltac:(lia)) as (Hd & _ & _ & Hc & _).
  exists (str ++ [value <$> row_major D]),
    {| hdr_ := Array_header_dims D; buffsp_ := Some (length str) |}.
  split.
  { unfold transform. rewrite (array_ok_not_empty st A Hok). fold D. exact Hfill. }
  split; [reflexivity|]. cbn [hdr_]. split; [exact Hd|]. split; [lia|]. split.
  - rewrite (elements_fresh R0 str _ D (value <$> row_major D) Hfresh Hpos).
    + unfold elements, value. fold D. apply list_fmap_compose.
    + rewrite length_fmap. apply length_row_major. assumption.
  - intros s Hs. apply (Array_at_fresh_full R0 str _ D value s Hfresh Hs).
Qed.

Lemma X10_transform_witness :
  let st := [[1; 2; 3; 4; 5; 6]] in
  let A := {| hdr_ := Array_header_dims [2; 3]; buffsp_ := Some 0%nat |} in
  exists str' res,
    transform 0 false 6 st [] A (fun x => x >? 3) = Done (str', res)
    /\ dims_ (hdr_ res) = [2; 3]
    /\ elements false str' res = [false; false; false; true; true; true].
Proof.
  intros st A.
  destruct (proj2 (X10_transform 0 false 6 st [] A (fun x => x >? 3)))
    as (str' & res & Hdone & _ & Hd & _ & Hel & _).
  - split.
    + apply Array_header_dims_ok. vm_compute. reflexivity.
    + exists 0%nat. split; [reflexivity|]. simpl. lia.
  - vm_compute. lia.
  - exists str', res. split; [exact Hdone|]. split; [exact Hd|exact Hel].
Defined.

(** X11. [transform] on two arrays throws [invalid_argument] when their
    shapes differ; on non-empty arrays of one shape it returns a newly
    allocated array of that shape whose element at each subscript tuple is
    [func] applied to the two elements there. *)
Theorem X11_transform_arrays {T1 T2 R} (T10 : T1) (T20 : T2) (R0 : R) (fuel : nat)
    (st1 : store T1) (st2 : store T2) (str : store R) (A B : Array) (func : T1 -> T2 -> R) :
  (dims_ (hdr_ A) <> dims_ (hdr_ B) ->
   transform_arrays T10 T20 R0 fuel st1 st2 str A B func = Throw invalid_argument)
  /\ (array_ok st1 A -> dims_ (hdr_ A) = dims_ (hdr_ B) ->
      (Z.to_nat (count_ (hdr_ A)) <= fuel)%nat ->
      exists str' res,
        transform_arrays T10 T20 R0 fuel st1 st2 str A B func = Done (str', res)
        /\ buffsp_ res = Some (length str)
        /\ dims_ (hdr_ res) = dims_ (hdr_ A)
        /\ forall s, in_bounds (dims_ (hdr_ A)) s ->
             Array_at R0 str' res s = func (Array_at T10 st1 A s) (Array_at T20 st2 B s)).
Proof.
  split.
  { intros Hd. unfold transform_arrays. rewrite bool_decide_eq_false_2 by assumption.
    reflexivity. }
  intros Hok Hsame Hfuel. pose proof Hok as [Hl _].
  destruct (array_ok_numel st1 A Hok) as [Hnum Hcnt].
  set (D := dims_ (hdr_ A)) in *.
  set (value := fun subs => func (Array_at T10 st1 A subs) (Array_at T20 st2 B subs)).
  pose proof (filled_array_spec R0 fuel str D value ltac:(lia) ltac:(lia)) as Hfill.
  pose proof (fresh_Array_header_dims str D ltac:(lia)) as Hfresh.
  destruct (Array_header_dims_nonempty D ltac:(lia)) as (Hd & _).
  exists (str ++ [value <$> row_major D]),
    {| hdr_ := Array_header_dims D; buffsp_ := Some (length str) |}.
  split.
  { unfold transform_arrays. rewrite bool_decide_eq_true_2 by assumption. cbn [negb].
    fold D. exact Hfill. }
  split; [reflexivity|]. cbn [hdr_]. split; [exact Hd|].
  intros s Hs. apply (Array_at_fresh_full R0 str _ D value s Hfresh Hs).
Qed.

Lemma X11_transform_arrays_witness :
  let st := [[1; 2; 3; 4; 5; 6]; [10; 20; 30; 40; 50; 60]] in
  let A := {| hdr_ := Array_header_dims [2; 3]; buffsp_ := Some 0%nat |} in
  let B := {| hdr_ := Array_header_dims [2; 3]; buffsp_ := Some 1%nat |} in
  exists str' res,
    transform_arrays 0 0 0 6 st st st A B Z.add = Done (str', res)
    /\ Array_at 0 str' res [1; 2] = 66.
Proof.
  intros st A B.
  destruct (proj2 (X11_transform_arrays 0 0 0 6 st st st A B Z.add))
    as (str' & res & Hdone & _ & _ & Hat).
  - split.
    + apply Array_header_dims_ok. vm_compute. reflexivity.
    + exists 0%nat. split; [reflexivity|]. simpl. lia.
  - reflexivity.
  - vm_compute. lia.
  - exists str', res. split; [exact Hdone|].
    apply (Hat [1; 2]). vm_compute. repeat constructor; discriminate.
Defined.

(** X12. [transform] on a non-empty array and a value returns a newly
    allocated array of the array's shape whose element at each subscript
    tuple is [func] applied to the array's element there and the value. No
    shape check is made and nothing is thrown. *)
Theorem X12_transform_value {T1 T2 R} (T10 : T1) (R0 : R) (fuel : nat)
    (st1 : store T1) (str : store R) (A : Array) (b : T2) (func : T1 -> T2 -> R) :
  array_ok st1 A -> (Z.to_nat (count_ (hdr_ A)) <= fuel)%nat ->
  exists str' res,
    transform_value T10 R0 fuel st1 str A b func = Done (str', res)
    /\ buffsp_ res = Some (length str)
    /\ dims_ (hdr_ res) = dims_ (hdr_ A)
    /\ forall s, in_bounds (dims_ (hdr_ A)) s ->
         Array_at R0 str' res s = func (Array_at T10 st1 A s) b.
Proof.
  intros Hok Hfuel. pose proof Hok as [Hl _].
  destruct (array_ok_numel st1 A Hok) as [Hnum Hcnt].
  set (D := dims_ (hdr_ A)) in *.
  set (value := fun subs => func (Array_at T10 st1 A subs) b).
  pose proof (filled_array_spec R0 fuel str D value ltac:(lia) ltac:(lia)) as Hfill.
  pose proof (fresh_Array_header_dims str D ltac:(lia)) as Hfresh.
  destruct (Array_header_dims_nonempty D ltac:(lia)) as (Hd & _).
  exists (str ++ [value <$> row_major D]),
    {| hdr_ := Array_header_dims D; buffsp_ := Some (length str) |}.
  split; [unfold transform_value; fold D; exact Hfill|].
  split; [reflexivity|]. cbn [hdr_]. split; [exact Hd|].
  intros s Hs. apply (Array_at_fresh_full R0 str _ D value s Hfresh Hs).
Qed.

Lemma X12_transform_value_witness :
  let st := [[1; 2; 3; 4; 5; 6]] in
  let A := {| hdr_ := Array_header_dims [2; 3]; buffsp_ := Some 0%nat |} in
  exists str' res,
    transform_value 0 0 6 st st A 100 Z.add = Done (str', res)
    /\ Array_at 0 str' res [0; 1] = 102.
Proof.
  intros st A.
  destruct (X12_transform_value 0 0 6 st st A 100 Z.add)
    as (str' & res & Hdone & _ & _ & Hat).
  - split.
    + apply Array_header_dims_ok. vm_compute. reflexivity.
    + exists 0%nat. split; [reflexivity|]. simpl. lia.
  - vm_compute. lia.
  - exists str', res. split; [exact Hdone|].
    apply (Hat [0; 1]). vm_compute. repeat constructor; discriminate.
Defined.

(** * resize *)

Lemma resize_spec {T} (T0 : T) (fuel : nat) (st : store T) A new_dims :
  array_ok st A -> 0 < numel new_dims ->
  (Z.to_nat (Z.min (count_ (hdr_ A)) (numel new_dims)) <= fuel)%nat ->
  resize T0 fuel st A new_dims =
  Done (st ++ [take (Z.to_nat (numel new_dims)) (elements T0 st A)
               ++ replicate (Z.to_nat (numel new_dims) - Z.to_nat (count_ (hdr_ A))) T0],
        {| hdr_ := Array_header_dims new_dims; buffsp_ := Some (length st) |}).
Proof.
  intros Hok Hnn Hfuel. pose proof Hok as [Hl (l & Hbuf & Hlt)].
  destruct (array_ok_numel st A Hok) as [Hnum Hcnt].
  pose proof (ok_dims _ Hl) as Hpos. pose proof (ok_rank _ Hl) as Hne.
  pose proof (ok_count _ Hl) as Hc.
  destruct (numel_pos_inv _ Hnn) as [Hne' Hpos'].
  pose proof (numel_pos_prod _ Hnn) as Hprod'.
  set (D := dims_ (hdr_ A)) in *.
  set (els := elements T0 st A).
  assert (length els = Z.to_nat (prod_list D)) as Hlen by (apply length_elements; assumption).
  unfold resize. destruct new_dims as [|d0 nd] eqn:Hnd; [congruence|]. rewrite <- Hnd in *.
  clear Hnd d0 nd.
  rewrite (array_ok_not_empty st A Hok).
  destruct (decide (D = new_dims)) as [Heq|Hneq].
  { rewrite bool_decide_eq_true_2 by assumption.
    assert (Z.to_nat (count_ (hdr_ A)) <= fuel)%nat as Hfc
      by (rewrite <- Heq in Hfuel; lia).
    rewrite clone_spec by assumption. fold D els.
    assert (Array_header_dims D = Array_header_dims new_dims) as -> by (rewrite Heq; reflexivity).
    f_equal. f_equal. f_equal. f_equal.
    rewrite take_ge by (rewrite Hlen, Hprod', Heq; lia).
    replace (Z.to_nat (numel new_dims) - Z.to_nat (count_ (hdr_ A)))%nat with 0%nat
      by (rewrite Hprod', Hc, Heq; lia).
    rewrite app_nil_r. reflexivity. }
  rewrite bool_decide_eq_false_2 by assumption.
  destruct (Array_dims_fresh T0 st new_dims Hnn) as (Hst & Hres & Hfresh).
  destruct (Array_dims T0 st new_dims) as [st1 res]. cbn [fst snd] in Hst, Hres, Hfresh.
  set (nA := Z.to_nat (prod_list D)) in *.
  set (nN := Z.to_nat (prod_list new_dims)) in *.
  rewrite Hprod', Hc. fold nA nN.
  set (full := take nN els ++ replicate (nN - nA) T0).
  assert (length full = nN) as Hlenf.
  { unfold full. rewrite length_app, length_take, length_replicate, Hlen. lia. }
  set (m := Nat.min nA nN).
  pose proof (prod_list_pos _ Hpos) as HP. pose proof (prod_list_pos _ Hpos') as HP'.
  set (p0 := Subscripts_iterator [] D []). set (q0 := Subscripts_iterator [] new_dims []).
  set (body := fun '(prev, new, st') =>
                 (increment prev, increment new,
                  Array_set st' res (subs_ new) (Array_at T0 st' A (subs_ prev)))).
  assert (forall k, (k <= m)%nat ->
            Nat.iter k body (p0, q0, st1)
            = (walk p0 k, walk q0 k,
               st ++ [take k full ++ replicate (length full - k) T0])) as Hiter.
  { induction k as [|k IH]; intros Hk.
    - simpl. rewrite Hst, Hlenf, Nat.sub_0_r. reflexivity.
    - cbn [Nat.iter nat_rect]. fold (Nat.iter k body (p0, q0, st1)).
      rewrite IH by lia. unfold body at 1. rewrite !walk_S. f_equal.
      destruct (walk_default D k Hpos Hne) as [Hin _]. fold p0 in Hin.
      destruct (Hin ltac:(lia)) as [-> _].
      destruct (walk_default new_dims k Hpos' Hne') as [Hin' _]. fold q0 in Hin'.
      destruct (Hin' ltac:(lia)) as [-> _].
      rewrite (Array_at_app_l T0 st _ A l) by assumption.
      apply (fill_write T0 st res new_dims); try assumption.
      unfold full. rewrite lookup_app_l by (rewrite length_take, Hlen; lia).
      rewrite lookup_take_lt by lia.
      apply elements_lookup; [assumption|]. fold D. lia. }
  rewrite (while_do_iter _ body m fuel).
  - rewrite Hiter by lia. rewrite Hres. f_equal. f_equal. f_equal. f_equal.
    rewrite Hlenf. unfold full.
    destruct (Nat.le_gt_cases nN nA) as [Hle|Hgt].
    + replace m with nN by lia. replace (nN - nA)%nat with 0%nat by lia.
      rewrite Nat.sub_diag. simpl. rewrite !app_nil_r.
      rewrite take_take, Nat.min_id. reflexivity.
    + replace m with nA by lia.
      rewrite (take_ge els nN) by lia.
      rewrite take_app_length' by (symmetry; exact Hlen). reflexivity.
  - unfold m, nA, nN. rewrite <- Hprod', <- Hc. lia.
  - intros k Hk. rewrite Hiter by lia.
    destruct (walk_default D k Hpos Hne) as [Hin _]. fold p0 in Hin.
    destruct (walk_default new_dims k Hpos' Hne') as [Hin' _]. fold q0 in Hin'.
    rewrite (proj2 (Hin ltac:(lia))), (proj2 (Hin' ltac:(lia))). reflexivity.
  - rewrite Hiter by lia.
    destruct (Nat.le_gt_cases nN nA) as [Hle|Hgt].
    + destruct (walk_default new_dims m Hpos' Hne') as [_ Hend]. fold q0 in Hend.
      rewrite Hend by lia. apply andb_false_r.
    + destruct (walk_default D m Hpos Hne) as [_ Hend]. fold p0 in Hend.
      rewrite Hend by lia. reflexivity.
Qed.



(** * filter and find *)

Lemma row_major_1d (n : Z) (k : nat) :
  0 < n -> Z.of_nat k < n ->
  subs_ (walk (Subscripts_iterator [] [n] []) k) = unrank [n] (Z.of_nat k)
  /\ in_range (walk (Subscripts_iterator [] [n] []) k) = true.
Proof.
  intros Hn Hk.
  destruct (walk_default [n] k ltac:(repeat constructor; lia) ltac:(discriminate)) as [Hin _].
  apply Hin. simpl. lia.
Qed.

Lemma select_loop_spec {R} (R0 : R) (fuel : nat) (str : store R) res dims
    (keep : store R -> list Z -> bool) (value : store R -> list Z -> R)
    (keep0 : list Z -> bool) (value0 : list Z -> R) :
  Forall (fun d => 0 < d) dims -> dims <> [] ->
  fresh_result str res [prod_list dims] ->
  (forall buf s, keep (str ++ [buf]) s = keep0 s) ->
  (forall buf s, value (str ++ [buf]) s = value0 s) ->
  (Z.to_nat (prod_list dims) <= fuel)%nat ->
  let F := value0 <$> filter (fun s => keep0 s = true) (row_major dims) in
  select_loop fuel (str ++ [replicate (Z.to_nat (prod_list dims)) R0]) res dims keep value
  = Some (Z.of_nat (length F),
          str ++ [F ++ replicate (Z.to_nat (prod_list dims) - length F) R0]).
Proof.
  intros Hpos Hne Hfresh Hkeep Hvalue Hfuel F.
  pose proof (prod_list_pos _ Hpos) as HP.
  pose proof Hfresh as (_ & Hrd & _).
  unfold select_loop. rewrite Hrd.
  set (RM := row_major dims) in *.
  set (K := fun s : list Z => keep0 s = true) in *.
  assert (length RM = Z.to_nat (prod_list dims)) as HlenRM
    by (apply length_row_major; assumption).
  set (n := Z.to_nat (prod_list dims)) in *.
  assert (length F <= n)%nat as HlenF.
  { unfold F. rewrite length_fmap. rewrite <- HlenRM. apply length_filter. }
  set (full := F ++ replicate (n - length F) R0).
  assert (length full = n) as Hlenn.
  { unfold full. rewrite length_app, length_replicate. lia. }
  assert (length full = Z.to_nat (prod_list [prod_list dims])) as Hlenf.
  { rewrite Hlenn. unfold n. simpl. lia. }
  assert (Forall (fun d => 0 < d) [prod_list dims]) as Hpos1 by (repeat constructor; lia).
  set (c := fun k : nat => length (filter K (take k RM))).
  assert (forall k, (c k <= k)%nat) as Hck.
  { intros k. unfold c. etransitivity; [apply length_filter|]. rewrite length_take. lia. }
  set (a0 := Subscripts_iterator [] dims []).
  set (r0 := Subscripts_iterator [] [prod_list dims] []).
  set (body := fun '(arr_ndstor, res_ndstor, res_count, s) =>
         if keep s (subs_ arr_ndstor) then
           (increment arr_ndstor, increment res_ndstor, res_count + 1,
            Array_set s res (subs_ res_ndstor) (value s (subs_ arr_ndstor)))
         else (increment arr_ndstor, res_ndstor, res_count, s)).
  assert (forall k, (k <= n)%nat ->
            Nat.iter k body (a0, r0, 0, str ++ [replicate n R0])
            = (walk a0 k, walk r0 (c k), Z.of_nat (c k),
               str ++ [take (c k) full ++ replicate (length full - c k) R0])) as Hiter.
  { induction k as [|k IH]; intros Hk.
    - change (c 0%nat) with 0%nat. simpl. rewrite Hlenn, Nat.sub_0_r. reflexivity.
    - cbn [Nat.iter nat_rect]. fold (Nat.iter k body (a0, r0, 0, str ++ [replicate n R0])).
      rewrite IH by lia.
      destruct (walk_default dims k Hpos Hne) as [Hin _]. fold a0 in Hin.
      destruct (Hin ltac:(lia)) as [Hsa _].
      set (s := unrank dims (Z.of_nat k)) in *.
      assert (RM !! k = Some s) as HRMk.
      { unfold RM, s. rewrite <- (Nat2Z.id k) at 1. apply row_major_lookup; [assumption|lia]. }
      unfold body at 1. cbv beta iota. rewrite Hsa, Hkeep, Hvalue.
      pose proof (filter_take_S K RM k s HRMk) as HcS. fold (c (S k)) (c k) in HcS.
      destruct (keep0 s) eqn:Hks.
      + assert (K s) as HK by exact Hks.
        destruct (decide (K s)); [|contradiction].
        pose proof (filter_lookup_take K RM k s HRMk HK) as HFk. fold (c k) in HFk.
        assert (full !! c k = Some (value0 s)) as Hfk.
        { unfold full. rewrite lookup_app_l.
          - unfold F. rewrite list_lookup_fmap, HFk. reflexivity.
          - unfold F. rewrite length_fmap. apply lookup_lt_Some in HFk. exact HFk. }
        destruct (row_major_1d (prod_list dims) (c k) HP) as [Hsr _].
        { specialize (Hck k). lia. }
        fold r0 in Hsr. rewrite Hsr.
        rewrite (fill_write R0 str res [prod_list dims] full (c k) _ Hfresh Hpos1 Hlenf Hfk).
        rewrite HcS, !walk_S. replace (c k + 1)%nat with (S (c k)) by lia.
        rewrite !walk_S. f_equal. f_equal. lia.
      + assert (~ K s) as HK by (unfold K; rewrite Hks; discriminate).
        destruct (decide (K s)); [contradiction|].
        rewrite HcS, walk_S, Nat.add_0_r. reflexivity. }
  change (while_do fuel _ _ (a0, r0, 0, str ++ [replicate n R0]))
    with (while_do fuel
            (fun '(arr_ndstor, res_ndstor, res_count, s) =>
               in_range arr_ndstor && in_range res_ndstor) body
            (a0, r0, 0, str ++ [replicate n R0])).
  assert (c n = length F) as Hcn.
  { unfold c, F. rewrite take_ge by lia. rewrite length_fmap. reflexivity. }
  rewrite (while_do_iter _ body n fuel).
  - rewrite Hiter by lia. rewrite Hcn. f_equal. f_equal. f_equal. f_equal.
    unfold full at 1. rewrite take_app_length. rewrite Hlenn. reflexivity.
  - exact Hfuel.
  - intros k Hk. rewrite Hiter by lia.
    destruct (walk_default dims k Hpos Hne) as [Hin _]. fold a0 in Hin.
    rewrite (proj2 (Hin ltac:(lia))).
    destruct (row_major_1d (prod_list dims) (c k) HP) as [_ Hir].
    { specialize (Hck k). lia. }
    fold r0 in Hir. rewrite Hir. reflexivity.
  - rewrite Hiter by lia.
    destruct (walk_default dims n Hpos Hne) as [_ Hend]. fold a0 in Hend.
    rewrite Hend by lia. reflexivity.
Qed.

Lemma filter_fmap_bool {A B} (f : A -> B) (p : B -> bool) (l : list A) :
  filter (fun y => p y = true) (f <$> l) = f <$> filter (fun x => p (f x) = true) l.
Proof.
  induction l as [|x l IH]; [reflexivity|].
  rewrite fmap_cons. destruct (p (f x)) eqn:Hp.
  - rewrite !filter_cons_True by assumption. rewrite fmap_cons, IH. reflexivity.
  - rewrite !filter_cons_False by (rewrite Hp; discriminate). exact IH.
Qed.

Lemma numel_single x : 0 < x -> numel [x] = x.
Proof. intros H. simpl. destruct (Z.leb_spec x 0); lia. Qed.

(** What [filter] and [find] return after the loop: nothing kept gives an
    empty array, everything kept gives the result array itself, and
    otherwise the result is resized to the number of kept elements. *)
Lemma select_spec {R} (R0 : R) (fuel : nat) (str : store R) dims
    (keep : store R -> list Z -> bool) (value : store R -> list Z -> R)
    (keep0 : list Z -> bool) (value0 : list Z -> R) :
  Forall (fun d => 0 < d) dims -> dims <> [] ->
  (forall buf s, keep (str ++ [buf]) s = keep0 s) ->
  (forall buf s, value (str ++ [buf]) s = value0 s) ->
  (Z.to_nat (prod_list dims) <= fuel)%nat ->
  let F := value0 <$> filter (fun s => keep0 s = true) (row_major dims) in
  let n := Z.to_nat (prod_list dims) in
  let full := F ++ replicate (n - length F) R0 in
  (let '(str1, res) := Array_dims R0 str [prod_list dims] in
   match select_loop fuel str1 res dims keep value with
   | None => OutOfFuel
   | Some (res_count, str1) =>
       if res_count =? 0 then Done (str1, Array_default)
       else if res_count <? prod_list dims then resize R0 fuel str1 res [res_count]
       else Done (str1, res)
   end)
  = if decide (F = []) then Done (str ++ [full], Array_default)
    else if decide (length F < n)%nat then
      Done ((str ++ [full]) ++ [F],
            {| hdr_ := Array_header_dims [Z.of_nat (length F)];
               buffsp_ := Some (length (str ++ [full])) |})
    else Done (str ++ [F],
               {| hdr_ := Array_header_dims [prod_list dims]; buffsp_ := Some (length str) |}).
Proof.
  intros Hpos Hne Hkeep Hvalue Hfuel F n full.
  pose proof (prod_list_pos _ Hpos) as HP.
  rewrite (Array_dims_single R0 str (prod_list dims) HP).
  set (res := {| hdr_ := Array_header_dims [prod_list dims]; buffsp_ := Some (length str) |}).
  assert (0 < numel [prod_list dims]) as Hn1 by (rewrite numel_single; lia).
  assert (fresh_result str res [prod_list dims]) as Hfresh
    by (apply fresh_Array_header_dims; exact Hn1).
  rewrite (select_loop_spec R0 fuel str res dims keep value keep0 value0) by assumption.
  fold F. fold n. fold full.
  assert (length F <= n)%nat as HlenF.
  { unfold F, n. rewrite length_fmap, <- (length_row_major dims Hpos). apply length_filter. }
  assert (length full = n) as Hlenn
    by (unfold full; rewrite length_app, length_replicate; lia).
  assert (Forall (fun d => 0 < d) [prod_list dims]) as Hpos1 by (repeat constructor; lia).
  assert (elements R0 (str ++ [full]) res = full) as Helres.
  { apply (elements_fresh R0 str res [prod_list dims]); [assumption|assumption|].
    rewrite Hlenn. unfold n. simpl. lia. }
  destruct (decide (F = [])) as [HF|HF].
  { rewrite HF. reflexivity. }
  assert (0 < length F)%nat as HlF by (destruct F; [congruence|simpl; lia]).
  destruct (Z.eqb_spec (Z.of_nat (length F)) 0) as [H0|_]; [lia|].
  destruct (decide (length F < n)%nat) as [Hlt|Hge].
  - destruct (Z.ltb_spec (Z.of_nat (length F)) (prod_list dims)) as [_|Hc]; [|unfold n in Hlt; lia].
    assert (array_ok (str ++ [full]) res) as Hok.
    { split.
      - apply Array_header_dims_ok. exact Hn1.
      - exists (length str). split; [reflexivity|]. rewrite length_app. simpl. lia. }
    assert (count_ (hdr_ res) = prod_list dims) as Hcr.
    { unfold res. cbn [hdr_].
      destruct (Array_header_dims_nonempty [prod_list dims] Hn1) as (_ & _ & _ & Hc' & _).
      rewrite Hc'. apply numel_single. lia. }
    assert (numel [Z.of_nat (length F)] = Z.of_nat (length F)) as Hnl
      by (apply numel_single; lia).
    rewrite (resize_spec R0 fuel (str ++ [full]) res [Z.of_nat (length F)] Hok)
      by (rewrite ?Hnl, ?Hcr; unfold n in *; lia).
    rewrite Hnl, Hcr, Helres, Nat2Z.id. fold n.
    replace (length F - n)%nat with 0%nat by lia.
    assert (take (length F) full = F) as -> by (unfold full; apply take_app_length).
    simpl. rewrite app_nil_r. reflexivity.
  - destruct (Z.ltb_spec (Z.of_nat (length F)) (prod_list dims)) as [Hc|_]; [unfold n in Hge; lia|].
    assert (length F = n) as Heq by lia.
    unfold full. rewrite Heq, Nat.sub_diag. simpl. rewrite app_nil_r. reflexivity.
Qed.

(** X14. [filter] of a non-empty array with a predicate returns the
    elements the predicate accepts, in default order, as a newly allocated
    1-D array with as many elements; when none is accepted it returns an
    empty array. The arrays that existed before read as before. *)
Theorem X14_filter_func {T} (T0 : T) (fuel : nat) (st : store T) (A : Array)
    (func : T -> bool) :
  (empty st A = true -> filter_func T0 fuel st A func = Done (st, Array_default))
  /\ (array_ok st A -> (Z.to_nat (count_ (hdr_ A)) <= fuel)%nat ->
      let F := filter (fun x => func x = true) (elements T0 st A) in
      exists st' res,
        filter_func T0 fuel st A func = Done (st', res)
        /\ (forall X s, array_ok st X -> Array_at T0 st' X s = Array_at T0 st X s)
        /\ (F = [] -> res = Array_default)
        /\ (F <> [] ->
            dims_ (hdr_ res) = [Z.of_nat (length F)]
            /\ elements T0 st' res = F
            /\ exists l, buffsp_ res = Some l /\ (length st <= l)%nat)).
Proof.
  split.
  { intros He. unfold filter_func. rewrite He. reflexivity. }
  intros Hok Hfuel F. pose proof Hok as [Hl (l & Hbuf & Hlt)].
  pose proof (ok_dims _ Hl) as Hpos. pose proof (ok_rank _ Hl) as Hne.
  pose proof (ok_count _ Hl) as Hc.
  set (D := dims_ (hdr_ A)) in *.
  pose proof (prod_list_pos _ Hpos) as HP.
  pose proof (select_spec T0 fuel st D
                (fun st' subs => func (Array_at T0 st' A subs))
                (fun st' subs => Array_at T0 st' A subs)
                (fun subs => func (Array_at T0 st A subs))
                (Array_at T0 st A) Hpos Hne) as Hsel.
  cbv beta zeta in Hsel.
  assert (Array_at T0 st A <$> filter (fun s => func (Array_at T0 st A s) = true) (row_major D)
          = F) as HF.
  { unfold F, elements. fold D. symmetry.
    apply (filter_fmap_bool (Array_at T0 st A) func). }
  rewrite HF in Hsel.
  specialize (Hsel
    ltac:(intros buf s; rewrite (Array_at_app_l T0 st _ A l) by assumption; reflexivity)
    ltac:(intros buf s; apply (Array_at_app_l T0 st _ A l); assumption)
    ltac:(rewrite <- Hc; exact Hfuel)).
  match type of Hsel with
  | _ = ?rhs => assert (filter_func T0 fuel st A func = rhs) as Hrun
  end.
  { unfold filter_func. rewrite (array_ok_not_empty st A Hok). fold D. rewrite Hc.
    exact Hsel. }
  clear Hsel.
  set (n := Z.to_nat (prod_list D)) in *.
  set (full := F ++ replicate (n - length F) T0) in *.
  assert (length F <= n)%nat as HlenF.
  { unfold F, n. etransitivity; [apply length_filter|].
    rewrite length_elements by assumption. fold D. lia. }
  destruct (decide (F = [])) as [HFe|HFe].
  { exists (st ++ [full]), Array_default. split; [exact Hrun|]. split.
    - intros X s [_ (lx & Hbx & Hltx)]. apply (Array_at_app_l T0 st _ X lx); assumption.
    - split; [reflexivity|]. intros; contradiction. }
  assert (0 < length F)%nat as HlF by (destruct F; [congruence|simpl; lia]).
  destruct (decide (length F < n)%nat) as [Hlt'|Hge].
  - eexists _, _. split; [exact Hrun|]. split.
    + intros X s [_ (lx & Hbx & Hltx)].
      rewrite (Array_at_app_l T0 (st ++ [full]) _ X lx)
        by (try assumption; rewrite length_app; lia).
      apply (Array_at_app_l T0 st _ X lx); assumption.
    + split; [intros; contradiction|]. intros _.
      assert (0 < numel [Z.of_nat (length F)]) as Hn1 by (rewrite numel_single; lia).
      destruct (Array_header_dims_nonempty [Z.of_nat (length F)] Hn1) as (Hd & _).
      cbn [hdr_ buffsp_]. split; [exact Hd|]. split.
      * apply (elements_fresh T0 (st ++ [full]) _ [Z.of_nat (length F)]).
        -- apply fresh_Array_header_dims. exact Hn1.
        -- repeat constructor. lia.
        -- simpl. lia.
      * eexists. split; [reflexivity|]. rewrite length_app. lia.
  - eexists _, _. split; [exact Hrun|]. split.
    + intros X s [_ (lx & Hbx & Hltx)]. apply (Array_at_app_l T0 st _ X lx); assumption.
    + split; [intros; contradiction|]. intros _.
      assert (0 < numel [prod_list D]) as Hn1 by (rewrite numel_single; lia).
      destruct (Array_header_dims_nonempty [prod_list D] Hn1) as (Hd & _).
      cbn [hdr_ buffsp_]. split; [rewrite Hd; f_equal; unfold n in *; lia|]. split.
      * apply (elements_fresh T0 st _ [prod_list D]).
        -- apply fresh_Array_header_dims. exact Hn1.
        -- repeat constructor. lia.
        -- simpl. unfold n in *. lia.
      * eexists. split; [reflexivity|]. lia.
Qed.

Lemma X14_filter_func_witness :
  let st := [[5; 2; 7; 4; 9; 6]] in
  let A := {| hdr_ := Array_header_dims [2; 3]; buffsp_ := Some 0%nat |} in
  exists st' res,
    filter_func 0 6 st A (fun x => x >? 4) = Done (st', res)
    /\ dims_ (hdr_ res) = [4]
    /\ elements 0 st' res = [5; 7; 9; 6].
Proof.
  intros st A.
  destruct (proj2 (X14_filter_func 0 6 st A (fun x => x >? 4)))
    as (st' & res & Hdone & _ & _ & Hres).
  - split.
    + apply Array_header_dims_ok. vm_compute. reflexivity.
    + exists 0%nat. split; [reflexivity|]. simpl. lia.
  - vm_compute. lia.
  - destruct Hres as (Hd & Hel & _); [vm_compute; discriminate|].
    exists st', res. split; [exact Hdone|]. split; [exact Hd|exact Hel].
Defined.

(** X15. [find] of a non-empty array with a predicate returns, as a newly
    allocated 1-D array, the flat buffer positions of the elements the
    predicate accepts, in default order; these are positions under the
    array's own offset and strides, so for a view they are positions in the
    parent's buffer. Each of them addresses an accepted element. When no
    element is accepted the result is an empty array. *)
Theorem X15_find_func {T} (T0 : T) (Z0 : Z) (fuel : nat) (st : store T) (stz : store Z)
    (A : Array) (func : T -> bool) :
  (empty st A = true -> find_func T0 Z0 fuel st stz A func = Done (stz, Array_default))
  /\ (array_ok st A -> (Z.to_nat (count_ (hdr_ A)) <= fuel)%nat ->
      let position :=
        subs2ind (offset_ (hdr_ A)) (strides_ (hdr_ A)) (dims_ (hdr_ A)) in
      let P := position <$> filter (fun s => func (Array_at T0 st A s) = true)
                              (row_major (dims_ (hdr_ A))) in
      (forall p, p ∈ P -> func (nthZ T0 (default [] (data st A)) p) = true)
      /\ exists stz' res,
           find_func T0 Z0 fuel st stz A func = Done (stz', res)
           /\ (P = [] -> res = Array_default)
           /\ (P <> [] ->
               dims_ (hdr_ res) = [Z.of_nat (length P)]
               /\ elements Z0 stz' res = P
               /\ exists l, buffsp_ res = Some l /\ (length stz <= l)%nat)).
Proof.
  split.
  { intros He. unfold find_func. rewrite He. reflexivity. }
  intros Hok Hfuel position P. pose proof Hok as [Hl _].
  pose proof (ok_dims _ Hl) as Hpos. pose proof (ok_rank _ Hl) as Hne.
  pose proof (ok_count _ Hl) as Hc.
  set (D := dims_ (hdr_ A)) in *.
  pose proof (prod_list_pos _ Hpos) as HP.
  split.
  { intros p Hp. unfold P in Hp. apply list_elem_of_fmap in Hp as (s & -> & Hs).
    apply list_elem_of_filter in Hs as [Hs _]. exact Hs. }
  pose proof (select_spec Z0 fuel stz D
                (fun _ subs => func (Array_at T0 st A subs))
                (fun _ subs => position subs)
                (fun subs => func (Array_at T0 st A subs))
                position Hpos Hne
                ltac:(reflexivity) ltac:(reflexivity) ltac:(rewrite <- Hc; exact Hfuel))
    as Hsel.
  cbv beta zeta in Hsel. fold P in Hsel.
  match type of Hsel with
  | _ = ?rhs => assert (find_func T0 Z0 fuel st stz A func = rhs) as Hrun
  end.
  { unfold find_func. rewrite (array_ok_not_empty st A Hok). fold D. rewrite Hc.
    exact Hsel. }
  clear Hsel.
  set (n := Z.to_nat (prod_list D)) in *.
  set (full := P ++ replicate (n - length P) Z0) in *.
  assert (length P <= n)%nat as HlenP.
  { unfold P, n. rewrite length_fmap. etransitivity; [apply length_filter|].
    rewrite length_row_major by assumption. lia. }
  destruct (decide (P = [])) as [HPe|HPe].
  { exists (stz ++ [full]), Array_default. split; [exact Hrun|].
    split; [reflexivity|]. intros; contradiction. }
  assert (0 < length P)%nat as HlP by (destruct P; [congruence|simpl; lia]).
  destruct (decide (length P < n)%nat) as [Hlt'|Hge].
  - eexists _, _. split; [exact Hrun|].
    split; [intros; contradiction|]. intros _.
    assert (0 < numel [Z.of_nat (length P)]) as Hn1 by (rewrite numel_single; lia).
    destruct (Array_header_dims_nonempty [Z.of_nat (length P)] Hn1) as (Hd & _).
    cbn [hdr_ buffsp_]. split; [exact Hd|]. split.
    + apply (elements_fresh Z0 (stz ++ [full]) _ [Z.of_nat (length P)]).
      * apply fresh_Array_header_dims. exact Hn1.
      * repeat constructor. lia.
      * simpl. lia.
    + eexists. split; [reflexivity|]. rewrite length_app. lia.
  - eexists _, _. split; [exact Hrun|].
    split; [intros; contradiction|]. intros _.
    assert (0 < numel [prod_list D]) as Hn1 by (rewrite numel_single; lia).
    destruct (Array_header_dims_nonempty [prod_list D] Hn1) as (Hd & _).
    cbn [hdr_ buffsp_]. split; [rewrite Hd; f_equal; unfold n in *; lia|]. split.
    + apply (elements_fresh Z0 stz _ [prod_list D]).
      * apply fresh_Array_header_dims. exact Hn1.
      * repeat constructor. lia.
      * simpl. unfold n in *. lia.
    + eexists. split; [reflexivity|]. lia.
Qed.

Lemma X15_find_func_witness :
  let st := [[5; 2; 7; 4; 9; 6]] in
  let A := {| hdr_ := Array_header_slice [2; 3] [3; 1] 0
                        [{| start := 0; stop := 1; step := 1 |};
                         {| start := 1; stop := 2; step := 1 |}];
              buffsp_ := Some 0%nat |} in
  exists stz' res,
    find_func 0 0 4 st [] A (fun x => x >? 6) = Done (stz', res)
    /\ dims_ (hdr_ res) = [2]
    /\ elements 0 stz' res = [2; 4].
Proof.
  intros st A.
  destruct (proj2 (X15_find_func 0 0 4 st [] A (fun x => x >? 6)))
    as (_ & stz' & res & Hdone & _ & Hres).
  - split.
    + constructor; vm_compute; try reflexivity; try discriminate.
      repeat constructor.
    + exists 0%nat. split; [reflexivity|]. simpl. lia.
  - vm_compute. lia.
  - destruct Hres as (Hd & Hel & _); [vm_compute; discriminate|].
    exists stz', res. split; [exact Hdone|]. split; [exact Hd|exact Hel].
Defined.

(** * reshape keeps the elements *)

Lemma lin_row_major dims :
  Forall (fun d => 0 < d) dims -> lin dims <$> row_major dims = seqZ 0 (prod_list dims).
Proof.
  intros Hpos. pose proof (prod_list_pos _ Hpos) as HP.
  apply list_eq. intros k. rewrite list_lookup_fmap.
  destruct (decide (Z.of_nat k < prod_list dims)) as [Hk|Hk].
  - rewrite lookup_seqZ_lt by assumption.
    pose proof (row_major_lookup dims (Z.of_nat k) Hpos ltac:(lia)) as Hr.
    rewrite Nat2Z.id in Hr. rewrite Hr. simpl.
    destruct (unrank_spec dims (Z.of_nat k) Hpos ltac:(lia)) as [_ ->]. reflexivity.
  - rewrite lookup_seqZ_ge by lia.
    rewrite (proj2 (lookup_ge_None (row_major dims) k)); [reflexivity|].
    rewrite length_row_major by assumption. lia.
Qed.

(** The elements of a contiguous array in default order are the leading
    elements of its buffer. *)
Lemma elements_contiguous {T} (T0 : T) (st : store T) a :
  Forall (fun d => 0 < d) (dims_ (hdr_ a)) ->
  row_major_strides (dims_ (hdr_ a)) (strides_ (hdr_ a)) -> offset_ (hdr_ a) = 0 ->
  elements T0 st a
  = nthZ T0 (default [] (data st a)) <$> seqZ 0 (prod_list (dims_ (hdr_ a))).
Proof.
  intros Hpos Hrm Ho. rewrite <- (lin_row_major _ Hpos), <- list_fmap_compose.
  unfold elements. apply fmap_ext_elem_of. intros s Hs.
  apply list_elem_of_lookup_1 in Hs as [k Hk].
  destruct (row_major_lookup_inv _ k s Hpos Hk) as [Hb _].
  unfold Array_at, compose. rewrite Ho, subs2ind_row_major by assumption. reflexivity.
Qed.

(** X5. [reshape] keeps the sequence of elements: when it succeeds on a
    non-empty array that is a view, or whose layout is contiguous (row-major
    strides, no offset), the result has the new shape and its elements in
    default order are the argument's elements in default order. *)
Theorem X5_reshape_elements {T} (T0 : T) (fuel : nat) (st : store T) (H : Array)
    (new_dims : list Z) :
  array_ok st H -> count_ (hdr_ H) = numel new_dims ->
  is_subarray_ (hdr_ H) = true
    \/ (row_major_strides (dims_ (hdr_ H)) (strides_ (hdr_ H)) /\ offset_ (hdr_ H) = 0) ->
  (Z.to_nat (count_ (hdr_ H)) <= fuel)%nat ->
  exists st' res,
    reshape T0 fuel st H new_dims = Done (st', res)
    /\ dims_ (hdr_ res) = new_dims
    /\ count_ (hdr_ res) = count_ (hdr_ H)
    /\ elements T0 st' res = elements T0 st H.
Proof.
  intros Hok Hcount Hlay Hfuel. pose proof Hok as [Hl (l & Hbuf & Hlt)].
  destruct (array_ok_numel st H Hok) as [Hnum Hcnt].
  pose proof (ok_dims _ Hl) as Hpos. pose proof (ok_count _ Hl) as Hc.
  assert (0 < numel new_dims) as Hnn by lia.
  destruct (numel_pos_inv _ Hnn) as [Hne' Hpos'].
  pose proof (numel_pos_prod _ Hnn) as Hprod'.
  destruct (Array_header_dims_nonempty new_dims Hnn) as (Hd & Hrm' & Hu' & Hc' & Ho' & _).
  destruct (decide (dims_ (hdr_ H) = new_dims)) as [Heq|Hneq].
  { exists st, H. split; [|auto].
    unfold reshape. rewrite (array_ok_not_empty st H Hok).
    destruct (Z.eqb_spec (count_ (hdr_ H)) (numel new_dims)); [|contradiction]. cbn [negb].
    rewrite bool_decide_eq_true_2 by assumption. reflexivity. }
  destruct (is_subarray_ (hdr_ H)) eqn:Hview.
  - eexists _, _. split; [apply reshape_view_spec; assumption|].
    cbn [hdr_]. split; [exact Hd|]. split; [lia|].
    apply (elements_fresh T0 st _ new_dims).
    + apply fresh_Array_header_dims. exact Hnn.
    + assumption.
    + rewrite length_elements by assumption. lia.
  - destruct Hlay as [Hv|[Hrm Ho]]; [discriminate|].
    exists st, {| hdr_ := Array_header_dims new_dims; buffsp_ := buffsp_ H |}.
    split.
    { unfold reshape. rewrite (array_ok_not_empty st H Hok).
      destruct (Z.eqb_spec (count_ (hdr_ H)) (numel new_dims)); [|contradiction]. cbn [negb].
      rewrite bool_decide_eq_false_2 by assumption. rewrite Hview.
      unfold hdr_empty. rewrite Hu'. reflexivity. }
    cbn [hdr_]. split; [exact Hd|]. split; [lia|].
    rewrite (elements_contiguous T0 st H) by assumption.
    rewrite (elements_contiguous T0 st {| hdr_ := Array_header_dims new_dims;
                                          buffsp_ := buffsp_ H |});
      cbn [hdr_]; rewrite ?Hd; try assumption.
    unfold data. cbn [buffsp_]. f_equal. f_equal. lia.
Qed.

Lemma X5_reshape_elements_witness :
  let st := [[1; 2; 3; 4; 5; 6]] in
  let A := {| hdr_ := Array_header_dims [2; 3]; buffsp_ := Some 0%nat |} in
  exists st' res,
    reshape 0 6 st A [3; 2] = Done (st', res)
    /\ dims_ (hdr_ res) = [3; 2]
    /\ count_ (hdr_ res) = count_ (hdr_ A)
    /\ elements 0 st' res = elements 0 st A.
Proof.
  intros st A.
  apply (X5_reshape_elements 0 6 st A [3; 2]).
  - split.
    + apply Array_header_dims_ok. vm_compute. reflexivity.
    + exists 0%nat. split; [reflexivity|]. simpl. lia.
  - reflexivity.
  - right. split; [|reflexivity].
    destruct (Array_header_dims_nonempty [2; 3] ltac:(vm_compute; reflexivity))
      as (_ & Hrm & _). exact Hrm.
  - vm_compute. lia.
Defined.

(** * Stepping a cursor back *)

Lemma decrement_loop_stop ixs sel m it :
  decrement_loop ixs sel m (it, false) = (it, false).
Proof. destruct ixs; reflexivity. Qed.

Lemma decrement_loop_app l1 l2 sel m st :
  decrement_loop (l1 ++ l2) sel m st = decrement_loop l2 sel m (decrement_loop l1 sel m st).
Proof.
  revert st. induction l1 as [|i l1 IH]; intros [it c]; [reflexivity|].
  simpl. destruct c; [apply IH|]. rewrite decrement_loop_stop. reflexivity.
Qed.

Lemma decrement_unfold it :
  order_ it = [] ->
  decrement it =
  fst (decrement_loop (touch_order (axis_ it) (psize (subs_ it))) (fun i => i)
         (major_axis_ it) (it, true)).
Proof.
  intros H. unfold decrement, touch_order. rewrite H. simpl.
  rewrite decrement_loop_app. reflexivity.
Qed.

Lemma with_subs_id it : with_subs it (subs_ it) = it.
Proof. destruct it. reflexivity. Qed.

Lemma with_subs_with_subs it s t : with_subs (with_subs it s) t = with_subs it t.
Proof. reflexivity. Qed.

Lemma pset_pset_eq l i v w : pset (pset l i v) i w = pset l i w.
Proof.
  unfold pset, updZ. destruct (Z.ltb_spec i 0); [reflexivity|].
  apply list_insert_insert_eq.
Qed.

Lemma pset_comm l i j v w : i <> j -> pset (pset l i v) j w = pset (pset l j w) i v.
Proof.
  intros Hne. unfold pset, updZ.
  destruct (Z.ltb_spec i 0), (Z.ltb_spec j 0); try reflexivity.
  apply list_insert_insert_ne. lia.
Qed.

(** A step back on axis [j] leaves a subscript set on another axis alone. *)
Lemma decrement_subscript_frame it i v j m :
  i <> j ->
  decrement_subscript (with_subs it (pset (subs_ it) i v)) j m
  = (with_subs (fst (decrement_subscript it j m))
       (pset (subs_ (fst (decrement_subscript it j m))) i v),
     snd (decrement_subscript it j m)).
Proof.
  intros Hne. unfold decrement_subscript.
  cbn [with_subs subs_ minimum_excluded_ maximum_excluded_ fst snd].
  rewrite !(pget_pset_ne _ i j) by assumption.
  set (x := pget (subs_ it) j - b2z (pget (subs_ it) j >? pget (minimum_excluded_ it) j)).
  rewrite (pset_comm _ i j) by assumption.
  rewrite !(pget_pset_ne _ i j) by assumption.
  destruct ((pget (pset (subs_ it) j x) j =? pget (minimum_excluded_ it) j)
            && negb (j =? m)).
  - rewrite (pset_comm _ i j) by assumption. reflexivity.
  - reflexivity.
Qed.

Lemma decrement_loop_frame AX m i v :
  i ∉ AX ->
  forall it b,
    decrement_loop AX (fun j => j) m (with_subs it (pset (subs_ it) i v), b)
    = (with_subs (fst (decrement_loop AX (fun j => j) m (it, b)))
         (pset (subs_ (fst (decrement_loop AX (fun j => j) m (it, b)))) i v),
       snd (decrement_loop AX (fun j => j) m (it, b))).
Proof.
  induction AX as [|j AX IH]; intros Hi it b; [reflexivity|].
  apply not_elem_of_cons in Hi as [Hij Hi].
  cbn [decrement_loop fst snd]. destruct b; [|reflexivity].
  rewrite decrement_subscript_frame by assumption.
  destruct (decrement_subscript it j m) as [it' b'] eqn:E. cbn [fst snd].
  apply IH. assumption.
Qed.

Lemma decrement_subscript_value it i m :
  0 <= i < psize (subs_ it) -> pget (minimum_excluded_ it) i = -1 ->
  0 <= pget (subs_ it) i ->
  decrement_subscript it i m =
  if pget (subs_ it) i =? 0 then
    (with_subs it
       (if i =? m then pset (subs_ it) i (-1)
        else pset (subs_ it) i
               (if negb (pget (maximum_excluded_ it) i =? 0)
                then pget (maximum_excluded_ it) i - 1 else 0)), true)
  else (with_subs it (pset (subs_ it) i (pget (subs_ it) i - 1)), false).
Proof.
  intros Hi Hmin Hs. unfold decrement_subscript. rewrite Hmin.
  destruct (Z.gtb_spec (pget (subs_ it) i) (-1)); [|lia]. cbn [b2z].
  rewrite pget_pset_eq by lia.
  destruct (Z.eqb_spec (pget (subs_ it) i) 0) as [H0|H0].
  - rewrite H0. cbn [Z.sub Z.opp Z.add Z.pos_sub Z.eqb Pos.eqb andb].
    destruct (i =? m); cbn [negb]; [reflexivity|]. rewrite pset_pset_eq. reflexivity.
  - destruct (Z.eqb_spec (pget (subs_ it) i - 1) (-1)); [lia|]. reflexivity.
Qed.

(** Along axes the last of which is the major axis, a step back undoes a
    step forward. *)
Lemma decrement_increment_loop AX m :
  forall it,
    NoDup AX -> last AX = Some m ->
    (forall i, i ∈ AX ->
       0 <= i < psize (subs_ it) /\ pget (minimum_excluded_ it) i = -1
       /\ 0 <= pget (subs_ it) i < pget (maximum_excluded_ it) i) ->
    fst (decrement_loop AX (fun i => i) m
           (fst (increment_loop AX (fun i => i) m (it, true)), true)) = it.
Proof.
  induction AX as [|i AX IH]; intros it Hnd Hlast Hin; [discriminate|].
  destruct (Hin i ltac:(left)) as (Hi & Hmin & Hs).
  pose proof Hnd as Hnd0. apply NoDup_cons in Hnd as [Hni Hnd].
  set (D := maximum_excluded_ it) in *. set (s := subs_ it) in *.
  assert (forall x, with_subs it (pset (pset s i x) i (pget s i)) = it) as Hback.
  { intros x. rewrite pset_pset_eq. unfold s. rewrite pset_id by assumption.
    apply with_subs_id. }
  cbn [increment_loop snd fst]. unfold increment_subscript. fold s D.
  destruct (Z.ltb_spec (pget s i) (pget D i)) as [_|]; [|lia]. cbn [b2z].
  rewrite pget_pset_eq by lia. rewrite Hmin.
  replace (-1 + 1) with 0 by lia. cbn [Z.eqb negb].
  destruct AX as [|i' AX'].
  - (* the major axis itself *)
    simpl in Hlast. inversion Hlast; subst m. rewrite Z.eqb_refl. cbn [negb].
    rewrite andb_false_r. cbn [increment_loop fst decrement_loop snd].
    rewrite decrement_subscript_value;
      cbn [with_subs subs_ minimum_excluded_ maximum_excluded_];
      rewrite ?psize_pset, ?pget_pset_eq by lia; try lia; try assumption.
    destruct (Z.eqb_spec (pget s i + 1) 0); [lia|]. cbn [fst].
    rewrite ?with_subs_with_subs.
    replace (pget s i + 1 - 1) with (pget s i) by lia. apply Hback.
  - rewrite last_cons_cons in Hlast.
    assert (m ∈ i' :: AX') as Hm by (apply last_elem_of; assumption).
    assert (i <> m) as Him by (intros ->; contradiction).
    destruct (Z.eqb_spec i m) as [|_]; [contradiction|]. cbn [negb]. rewrite andb_true_r.
    set (AX := i' :: AX') in *.
    destruct (Z.eqb_spec (pget s i + 1) (pget D i)) as [He|He].
    + (* carry *)
      rewrite pset_pset_eq.
      set (it2 := with_subs it (pset s i 0)).
      assert (forall j, j ∈ AX ->
                0 <= j < psize (subs_ it2) /\ pget (minimum_excluded_ it2) j = -1
                /\ 0 <= pget (subs_ it2) j < pget (maximum_excluded_ it2) j) as Hin2.
      { intros j Hj. cbn [it2 with_subs subs_ minimum_excluded_ maximum_excluded_].
        destruct (Hin j ltac:(right; assumption)) as (H1 & H2 & H3).
        assert (j <> i) by (intros ->; contradiction).
        rewrite psize_pset, pget_pset_ne by congruence. auto. }
      destruct (increment_loop_step AX m it2 Hnd Hlast Hin2)
        as (s' & c & Hloop & Hsz & Hout & _).
      specialize (IH it2 Hnd Hlast Hin2). rewrite Hloop in IH |- *. cbn [fst] in IH |- *.
      cbn [it2 with_subs subs_] in Hsz, Hout. rewrite psize_pset in Hsz.
      change (with_subs it2 s') with (with_subs it s') in IH |- *.
      assert (pget s' i = 0) as Hs'i.
      { rewrite Hout by assumption. apply pget_pset_eq. lia. }
      change (decrement_loop (i :: AX) (fun i0 => i0) m (with_subs it s', true))
        with (decrement_loop AX (fun i0 => i0) m (decrement_subscript (with_subs it s') i m)).
      rewrite decrement_subscript_value;
        cbn [with_subs subs_ minimum_excluded_ maximum_excluded_];
        try lia; try assumption.
      rewrite Hs'i. cbn [Z.eqb]. fold D.
      destruct (Z.eqb_spec i m) as [|_]; [contradiction|].
      destruct (Z.eqb_spec (pget D i) 0) as [|_]; [lia|]. cbn [negb].
      replace (pget D i - 1) with (pget s i) by lia.
      change (pset s' i (pget s i)) with (pset (subs_ (with_subs it s')) i (pget s i)).
      rewrite (decrement_loop_frame AX m i (pget s i) Hni (with_subs it s') true).
      cbn [fst]. rewrite IH.
      unfold it2. cbn [with_subs subs_]. apply Hback.
    + (* no carry *)
      rewrite increment_loop_stop. cbn [fst].
      change (decrement_loop (i :: AX) (fun i0 => i0) m
                (with_subs it (pset s i (pget s i + 1)), true))
        with (decrement_loop AX (fun i0 => i0) m
                (decrement_subscript (with_subs it (pset s i (pget s i + 1))) i m)).
      rewrite decrement_subscript_value;
        cbn [with_subs subs_ minimum_excluded_ maximum_excluded_];
        rewrite ?psize_pset, ?pget_pset_eq by lia; try lia; try assumption.
      destruct (Z.eqb_spec (pget s i + 1) 0); [lia|].
      rewrite decrement_loop_stop. cbn [fst]. rewrite ?with_subs_with_subs.
      replace (pget s i + 1 - 1) with (pget s i) by lia. apply Hback.
Qed.

Lemma cursor_decrement_increment dims a s :
  0 <= a < psize dims -> in_bounds dims s ->
  decrement (increment (cursor dims a (major_of a (psize dims)) s))
  = cursor dims a (major_of a (psize dims)) s.
Proof.
  intros Ha Hb. pose proof (in_bounds_psize _ _ Hb) as Hs.
  set (m := major_of a (psize dims)). set (it := cursor dims a m s).
  assert (forall i, i ∈ touch_order a (psize dims) ->
            0 <= i < psize (subs_ it) /\ pget (minimum_excluded_ it) i = -1
            /\ 0 <= pget (subs_ it) i < pget (maximum_excluded_ it) i) as Hin.
  { intros i Hi. apply touch_order_elem_of in Hi; [|assumption].
    cbn [it cursor subs_ minimum_excluded_ maximum_excluded_]. rewrite Hs.
    split; [assumption|]. split.
    - apply pget_replicate_neg1. unfold psize in Hi. lia.
    - apply in_bounds_pget; assumption. }
  destruct (increment_loop_step (touch_order a (psize dims)) m it
              (touch_order_NoDup a _ Ha) (touch_order_last a _ Ha) Hin)
    as (s' & c & Hloop & Hsz & _).
  pose proof (decrement_increment_loop (touch_order a (psize dims)) m it
                (touch_order_NoDup a _ Ha) (touch_order_last a _ Ha) Hin) as Hrt.
  rewrite (increment_unfold it) by reflexivity.
  cbn [it cursor axis_ subs_ major_axis_] in Hsz |- *. fold it. rewrite Hs.
  rewrite Hloop in Hrt |- *. cbn [fst] in Hrt |- *.
  rewrite decrement_unfold by reflexivity.
  cbn [with_subs it cursor axis_ subs_ major_axis_]. fold it.
  change (with_subs it s') with (with_subs it s') in Hrt.
  rewrite Hsz, Hs. exact Hrt.
Qed.

(** X16. Stepping a cursor forward and then back returns it to where it
    was: at every valid position of a cursor over a shape, built with an
    axis or without an order, [operator--] undoes [operator++]; this holds
    at the last position too, from which the step forward leaves the
    range. *)
Theorem X16_decrement_increment (dims : list Z) (axis : Z) (k : nat) :
  Forall (fun d => 0 < d) dims -> dims <> [] -> Z.of_nat k < prod_list dims ->
  decrement (increment (walk (Subscripts_iterator [] dims []) k))
  = walk (Subscripts_iterator [] dims []) k
  /\ decrement (increment (walk (Subscripts_iterator_axis [] dims axis) k))
     = walk (Subscripts_iterator_axis [] dims axis) k.
Proof.
  intros Hpos Hne Hk.
  pose proof (proj2 (psize_pos_nonnil dims) Hne) as HN.
  split.
  - rewrite Subscripts_iterator_cursor by assumption.
    destruct (walk_cursor dims (psize dims - 1) ltac:(lia) Hpos k ltac:(lia))
      as (s & -> & _ & Hin & _).
    apply cursor_decrement_increment; [lia|]. apply Hin. assumption.
  - rewrite Subscripts_iterator_axis_cursor by assumption.
    assert (0 <= modulo axis (psize dims) < psize dims) as Ha
      by (apply Z.mod_pos_bound; lia).
    destruct (walk_cursor dims (modulo axis (psize dims)) Ha Hpos k ltac:(lia))
      as (s & -> & _ & Hin & _).
    apply cursor_decrement_increment; [assumption|]. apply Hin. assumption.
Qed.

Lemma X16_decrement_increment_witness :
  decrement (increment (walk (Subscripts_iterator [] [2; 3] []) 5))
  = walk (Subscripts_iterator [] [2; 3] []) 5
  /\ decrement (increment (walk (Subscripts_iterator_axis [] [2; 3] 0) 2))
     = walk (Subscripts_iterator_axis [] [2; 3] 0) 2.
Proof.
  assert (Forall (fun d => 0 < d) [2; 3]) as Hpos by (repeat constructor; lia).
  assert ([2; 3] <> @nil Z) as Hne by discriminate.
  split.
  - apply (X16_decrement_increment [2; 3] 0 5 Hpos Hne). vm_compute. reflexivity.
  - apply (X16_decrement_increment [2; 3] 0 2 Hpos Hne). vm_compute. reflexivity.
Defined.

(** * Selecting a range of one axis in the default order *)

Lemma filter_all {A} (P : A -> Prop) `{!forall x, Decision (P x)} (l : list A) :
  (forall x, x ∈ l -> P x) -> filter P l = l.
Proof.
  induction l as [|x l IH]; intros Hall; [reflexivity|].
  rewrite filter_cons_True by (apply Hall; left).
  rewrite IH; [reflexivity|]. intros y Hy. apply Hall. right. exact Hy.
Qed.

Lemma filter_none {A} (P : A -> Prop) `{!forall x, Decision (P x)} (l : list A) :
  (forall x, x ∈ l -> ~ P x) -> filter P l = [].
Proof.
  induction l as [|x l IH]; intros Hall; [reflexivity|].
  rewrite filter_cons_False by (apply Hall; left).
  apply IH. intros y Hy. apply Hall. right. exact Hy.
Qed.

Lemma pget_cons_0 x (s : list Z) : pget (x :: s) 0 = x.
Proof. apply nthZ_cons_0. Qed.

Lemma pget_cons_S x (s : list Z) (n : nat) :
  pget (x :: s) (Z.of_nat (S n)) = pget s (Z.of_nat n).
Proof.
  unfold pget. rewrite Nat2Z.inj_succ, <- Z.add_1_r. apply nthZ_cons_succ. lia.
Qed.

Lemma pset_cons_0 x (s : list Z) v : pset (x :: s) 0 v = v :: s.
Proof. reflexivity. Qed.

Lemma pset_cons_S x (s : list Z) (n : nat) v :
  pset (x :: s) (Z.of_nat (S n)) v = x :: pset s (Z.of_nat n) v.
Proof.
  unfold pset, updZ.
  destruct (Z.ltb_spec (Z.of_nat (S n)) 0); [lia|].
  destruct (Z.ltb_spec (Z.of_nat n) 0); [lia|].
  rewrite !Nat2Z.id. reflexivity.
Qed.

(** Keeping the tuples whose subscript on axis [n] is accepted by [p], and
    renumbering that subscript by [h], gives the default order of the shape
    whose extent on the axis is the number of accepted subscripts, provided
    [h] renumbers the accepted subscripts in sequence. *)
Lemma row_major_select dims (n : nat) (p : Z -> bool) (h : Z -> Z) (e e' : Z) :
  (n < length dims)%nat ->
  h <$> filter (fun x => p x = true) (seqZ 0 e) = seqZ 0 e' ->
  (fun s => pset s (Z.of_nat n) (h (pget s (Z.of_nat n))))
    <$> filter (fun s => p (pget s (Z.of_nat n)) = true) (row_major (<[n := e]> dims))
  = row_major (<[n := e']> dims).
Proof.
  intros Hn Hsel. revert n Hn.
  induction dims as [|d dims IH]; intros [|n] Hn; simpl in Hn; try lia.
  - change (<[0%nat := e]> (d :: dims)) with (e :: dims).
    change (<[0%nat := e']> (d :: dims)) with (e' :: dims).
    rewrite !row_major_cons, <- Hsel. change (Z.of_nat 0) with 0.
    generalize (seqZ 0 e). intros xs.
    induction xs as [|x xs IHx]; [reflexivity|].
    rewrite bind_cons, filter_app, fmap_app, IHx.
    destruct (p x) eqn:Hp.
    + rewrite (filter_cons_True (fun x => p x = true)) by assumption.
      rewrite fmap_cons, bind_cons. f_equal.
      rewrite filter_all.
      * rewrite <- list_fmap_compose. apply list_fmap_ext. intros i s _.
        unfold compose. rewrite pget_cons_0, pset_cons_0. reflexivity.
      * intros s Hs. apply list_elem_of_fmap in Hs as (s' & -> & _).
        rewrite pget_cons_0. assumption.
    + rewrite (filter_cons_False (fun x => p x = true)) by (rewrite Hp; discriminate).
      rewrite filter_none; [reflexivity|].
      intros s Hs. apply list_elem_of_fmap in Hs as (s' & -> & _).
      rewrite pget_cons_0, Hp. discriminate.
  - change (<[S n := e]> (d :: dims)) with (d :: <[n := e]> dims).
    change (<[S n := e']> (d :: dims)) with (d :: <[n := e']> dims).
    rewrite !row_major_cons. rewrite <- (IH n) by lia.
    generalize (row_major (<[n := e]> dims)). intros rm.
    generalize (seqZ 0 d). intros xs.
    induction xs as [|x xs IHx]; [reflexivity|].
    rewrite !bind_cons, filter_app, fmap_app, IHx. f_equal.
    clear IHx. induction rm as [|s rm IHr]; [reflexivity|].
    rewrite fmap_cons. destruct (p (pget s (Z.of_nat n))) eqn:Hp.
    + rewrite (filter_cons_True (fun s => p (pget s (Z.of_nat (S n))) = true))
        by (rewrite pget_cons_S; assumption).
      rewrite (filter_cons_True (fun s => p (pget s (Z.of_nat n)) = true)) by assumption.
      rewrite !fmap_cons, IHr. f_equal.
      rewrite pget_cons_S, pset_cons_S. reflexivity.
    + rewrite (filter_cons_False (fun s => p (pget s (Z.of_nat (S n))) = true))
        by (rewrite pget_cons_S, Hp; discriminate).
      rewrite (filter_cons_False (fun s => p (pget s (Z.of_nat n)) = true))
        by (rewrite Hp; discriminate).
      exact IHr.
Qed.

(** The subscripts of a band [[lo, lo + c)], moved down by [lo]. *)
Lemma seqZ_select_band lo c r :
  0 <= lo -> 0 <= c -> 0 <= r ->
  (fun x => x - lo)
    <$> filter (fun x => (lo <=? x) && (x <? lo + c) = true) (seqZ 0 (lo + c + r))
  = seqZ 0 c.
Proof.
  intros Hlo Hc Hr. rewrite !seqZ_app, !filter_app by lia.
  rewrite (filter_none _ (seqZ 0 lo)), (filter_all _ (seqZ (0 + lo) c)),
    (filter_none _ (seqZ (0 + (lo + c)) r)).
  - rewrite app_nil_l, app_nil_r.
    replace (0 + lo) with (lo + 0) by lia. rewrite <- (fmap_add_seqZ lo 0 c).
    rewrite <- list_fmap_compose. rewrite <- (list_fmap_id (seqZ 0 c)) at 2.
    apply list_fmap_ext. intros i x _. unfold compose. simpl. lia.
  - intros x Hx. apply elem_of_seqZ in Hx. lia.
  - intros x Hx. apply elem_of_seqZ in Hx. lia.
  - intros x Hx. apply elem_of_seqZ in Hx. lia.
Qed.

(** The subscripts outside the band, those above it moved down by [c]. *)
Lemma seqZ_select_rest lo c r :
  0 <= lo -> 0 <= c -> 0 <= r ->
  (fun x => if x <? lo then x else x - c)
    <$> filter (fun x => (x <? lo) || (x >=? lo + c) = true) (seqZ 0 (lo + c + r))
  = seqZ 0 (lo + r).
Proof.
  intros Hlo Hc Hr. rewrite !seqZ_app, !filter_app by lia.
  rewrite (filter_all _ (seqZ 0 lo)), (filter_none _ (seqZ (0 + lo) c)),
    (filter_all _ (seqZ (0 + (lo + c)) r)).
  - rewrite app_nil_r, fmap_app. f_equal.
    + rewrite <- (list_fmap_id (seqZ 0 lo)) at 2.
      apply fmap_ext_elem_of. intros x Hx. apply elem_of_seqZ in Hx.
      destruct (Z.ltb_spec x lo); [reflexivity|lia].
    + replace (0 + (lo + c)) with ((lo + c) + 0) by lia.
      replace (0 + lo) with (lo + 0) by lia.
      rewrite <- (fmap_add_seqZ (lo + c) 0 r), <- (fmap_add_seqZ lo 0 r).
      rewrite <- list_fmap_compose. apply fmap_ext_elem_of. intros x Hx.
      apply elem_of_seqZ in Hx. unfold compose.
      destruct (Z.ltb_spec (lo + c + x) lo); lia.
  - intros x Hx. apply elem_of_seqZ in Hx.
    destruct (Z.ltb_spec x lo), (Z.geb_spec x (lo + c)); simpl; try reflexivity; lia.
  - intros x Hx. apply elem_of_seqZ in Hx.
    destruct (Z.ltb_spec x lo), (Z.geb_spec x (lo + c)); simpl; try discriminate; lia.
  - intros x Hx. apply elem_of_seqZ in Hx.
    destruct (Z.ltb_spec x lo), (Z.geb_spec x (lo + c)); simpl; try reflexivity; lia.
Qed.

(** * insert *)

Lemma insert_spec {T} (T0 : T) (fuel : nat) (st : store T) A B ind axis :
  array_ok st A -> array_ok st B ->
  let Dl := dims_ (hdr_ A) in
  let Dr := dims_ (hdr_ B) in
  let a := modulo axis (psize Dl) in
  let la := pget Dl a in
  let ra := pget Dr a in
  let lo := modulo ind la in
  psize Dl = psize Dr ->
  (forall i, 0 <= i < psize Dl -> i <> a -> pget Dl i = pget Dr i) ->
  (Z.to_nat (count_ (hdr_ A) + count_ (hdr_ B)) <= fuel)%nat ->
  insert T0 fuel st A B ind axis =
  Done (st ++ [insert_src T0 st A B a lo ra <$> row_major (pset Dl a (la + ra))],
        {| hdr_ := Array_header_grow Dl ra a; buffsp_ := Some (length st) |}).
Proof.
  intros HokA HokB Dl Dr a la ra lo Hrank Hsame Hfuel.
  pose proof HokA as [HlA (lA & HbufA & HltA)].
  pose proof HokB as [HlB (lB & HbufB & HltB)].
  pose proof (ok_dims _ HlA) as HposA. pose proof (ok_rank _ HlA) as HneA.
  pose proof (ok_dims _ HlB) as HposB. pose proof (ok_rank _ HlB) as HneB.
  pose proof (ok_count _ HlA) as HcA. pose proof (ok_count _ HlB) as HcB.
  fold Dl in HposA, HneA, HcA. fold Dr in HposB, HneB, HcB.
  pose proof (proj2 (psize_pos_nonnil Dl) HneA) as HN.
  assert (0 <= a < psize Dl) as Ha by (apply Z.mod_pos_bound; lia).
  assert (0 < la) as Hla by (apply (pget_Forall (fun d => 0 < d)); assumption).
  assert (0 < ra) as Hra by (apply (pget_Forall (fun d => 0 < d)); [assumption|lia]).
  assert (0 <= lo < la) as Hlo by (apply Z.mod_pos_bound; lia).
  set (Dres := pset Dl a (la + ra)).
  assert (Dr = pset Dl a ra) as HDr.
  { apply pget_ext; [rewrite psize_pset; lia|].
    intros i Hi. destruct (Z.eq_dec a i) as [<-|Hne].
    - rewrite pget_pset_eq by assumption. reflexivity.
    - rewrite pget_pset_ne by assumption. symmetry. apply Hsame; [lia|congruence]. }
  assert (Forall (fun d => 0 < d) Dres) as Hposr by (apply Forall_pset_pos; [assumption|lia]).
  assert (psize Dres = psize Dl) as Hszr by apply psize_pset.
  assert (Dres <> []) as Hner by (apply psize_pos_nonnil; lia).
  assert (prod_list Dres = count_ (hdr_ A) + count_ (hdr_ B)) as Hcnt.
  { rewrite HcA, HcB. unfold Dres. rewrite prod_list_pset by assumption.
    rewrite (prod_list_delete Dl a Ha). fold la.
    assert (prod_list Dr = ra * prod_list (delete (Z.to_nat a) Dl)) as ->; [|lia].
    rewrite (prod_list_delete Dr a) by lia. fold ra. f_equal.
    rewrite HDr, pset_insert by lia. rewrite delete_insert_same. reflexivity. }
  pose proof (prod_list_pos _ Hposr) as Hpr.
  destruct (Array_header_grow_spec Dl ra a HposA Ha ltac:(fold la; lia))
    as (Hgd & Hgs & Hgu & Hgc & Hgo & _).
  fold la in Hgd. fold Dres in Hgd.
  set (hres := Array_header_grow Dl ra a) in *.
  set (res := {| hdr_ := hres; buffsp_ := Some (length st) |}).
  assert (fresh_result st res Dres) as Hfresh.
  { unfold fresh_result, res. cbn [hdr_ buffsp_]. rewrite <- Hgd. auto. }
  set (RM := row_major Dres).
  set (full := insert_src T0 st A B a lo ra <$> RM).
  assert (length RM = Z.to_nat (prod_list Dres)) as HlenRM by (apply length_row_major; assumption).
  assert (length full = Z.to_nat (prod_list Dres)) as Hlen
    by (unfold full; rewrite length_fmap; assumption).
  set (n := Z.to_nat (prod_list Dres)) in *.
  set (P := fun s : list Z => (pget s a <? lo) || (pget s a >=? lo + ra) = true).
  set (Q := fun s : list Z => (lo <=? pget s a) && (pget s a <? lo + ra) = true).
  set (gL := fun s : list Z => pset s a (if pget s a <? lo then pget s a else pget s a - ra)).
  set (gR := fun s : list Z => pset s a (pget s a - lo)).
  assert ((Z.to_nat a < length Dl)%nat) as Hanat by (unfold psize in Ha; lia).
  assert (gL <$> filter P RM = row_major Dl) as HF1.
  { pose proof (row_major_select Dl (Z.to_nat a)
                  (fun x => (x <? lo) || (x >=? lo + ra))
                  (fun x => if x <? lo then x else x - ra)
                  (lo + ra + (la - lo)) (lo + (la - lo)) Hanat
                  (seqZ_select_rest lo ra (la - lo) ltac:(lia) ltac:(lia) ltac:(lia))) as HF.
    rewrite Z2Nat.id in HF by lia. rewrite <- !pset_insert in HF by lia.
    replace (lo + ra + (la - lo)) with (la + ra) in HF by lia.
    replace (lo + (la - lo)) with la in HF by lia.
    unfold la in HF at 2. rewrite pset_id in HF by assumption. exact HF. }
  assert (gR <$> filter Q RM = row_major Dr) as HF2.
  { pose proof (row_major_select Dl (Z.to_nat a)
                  (fun x => (lo <=? x) && (x <? lo + ra))
                  (fun x => x - lo)
                  (lo + ra + (la - lo)) ra Hanat
                  (seqZ_select_band lo ra (la - lo) ltac:(lia) ltac:(lia) ltac:(lia))) as HF.
    rewrite Z2Nat.id in HF by lia. rewrite <- !pset_insert in HF by lia.
    replace (lo + ra + (la - lo)) with (la + ra) in HF by lia.
    rewrite <- HDr in HF. exact HF. }
  set (cL := fun k : nat => length (filter P (take k RM))).
  set (cR := fun k : nat => length (filter Q (take k RM))).
  set (l0 := Subscripts_iterator [] Dl []).
  set (r0 := Subscripts_iterator [] Dr []).
  set (o0 := Subscripts_iterator [] Dres []).
  set (st1 := st ++ [replicate (Z.to_nat (count_ (hdr_ A) + count_ (hdr_ B))) T0]).
  set (body := fun '(l, r, o, st') =>
         let x := pget (subs_ o) a in
         if (in_range l && (x <? lo)) || (x >=? lo + ra) then
           (increment l, r, increment o,
            Array_set st' res (subs_ o) (Array_at T0 st' A (subs_ l)))
         else if in_range r && (x >=? lo) && (x <? lo + ra) then
           (l, increment r, increment o,
            Array_set st' res (subs_ o) (Array_at T0 st' B (subs_ r)))
         else (l, r, increment o, st')).
  assert (forall k, (k <= n)%nat ->
            Nat.iter k body (l0, r0, o0, st1)
            = (walk l0 (cL k), walk r0 (cR k), walk o0 k,
               st ++ [take k full ++ replicate (length full - k) T0])) as Hiter.
  { induction k as [|k IH]; intros Hk.
    - simpl. unfold st1. rewrite <- Hcnt. fold n. rewrite Hlen, Nat.sub_0_r. reflexivity.
    - cbn [Nat.iter nat_rect]. fold (Nat.iter k body (l0, r0, o0, st1)).
      rewrite IH by lia.
      destruct (walk_default Dres k Hposr Hner) as [Hin _]. fold o0 in Hin.
      destruct (Hin ltac:(lia)) as [Hso Hio].
      set (s := unrank Dres (Z.of_nat k)) in *.
      assert (RM !! k = Some s) as HRMk.
      { unfold RM, s. rewrite <- (Nat2Z.id k) at 1. apply row_major_lookup; [assumption|lia]. }
      destruct (unrank_spec Dres (Z.of_nat k) Hposr ltac:(lia)) as [Hbs _]. fold s in Hbs.
      assert (0 <= pget s a < pget Dres a) as Hx
        by (apply in_bounds_pget; [assumption|lia]).
      unfold Dres in Hx. rewrite pget_pset_eq in Hx by assumption.
      pose proof (in_bounds_psize _ _ Hbs) as Hps.
      assert (full !! k = Some (insert_src T0 st A B a lo ra s)) as Hfk.
      { unfold full. rewrite list_lookup_fmap, HRMk. reflexivity. }
      pose proof (fill_write T0 st res Dres full k _ Hfresh Hposr Hlen Hfk) as Hw.
      fold s in Hw.
      pose proof (filter_take_S P RM k s HRMk) as HcLS. fold (cL (S k)) (cL k) in HcLS.
      pose proof (filter_take_S Q RM k s HRMk) as HcRS. fold (cR (S k)) (cR k) in HcRS.
      unfold body at 1. cbv beta iota zeta. rewrite Hso.
      destruct ((pget s a <? lo) || (pget s a >=? lo + ra)) eqn:Hside.
      + (* drawn from lhs *)
        assert (P s) as HP by exact Hside.
        assert (~ Q s) as HQ.
        { unfold Q. destruct (Z.ltb_spec (pget s a) lo), (Z.geb_spec (pget s a) (lo + ra)),
            (Z.leb_spec lo (pget s a)), (Z.ltb_spec (pget s a) (lo + ra));
            simpl in *; try discriminate; lia. }
        destruct (decide (P s)); [|contradiction]. destruct (decide (Q s)); [contradiction|].
        pose proof (filter_lookup_take P RM k s HRMk HP) as HLk. fold (cL k) in HLk.
        assert (row_major Dl !! cL k = Some (gL s)) as HLk'.
        { rewrite <- HF1, list_lookup_fmap, HLk. reflexivity. }
        pose proof (lookup_lt_Some _ _ _ HLk') as HcLk.
        rewrite length_row_major in HcLk by assumption.
        pose proof (prod_list_pos _ HposA).
        destruct (walk_default Dl (cL k) HposA HneA) as [HinL _]. fold l0 in HinL.
        destruct (HinL ltac:(lia)) as [HsL HiL].
        assert (unrank Dl (Z.of_nat (cL k)) = gL s) as HuL.
        { pose proof (row_major_lookup Dl (Z.of_nat (cL k)) HposA ltac:(lia)) as Hr.
          rewrite Nat2Z.id in Hr. congruence. }
        rewrite HiL, HsL, HuL.
        assert ((true && (pget s a <? lo)) || (pget s a >=? lo + ra) = true) as ->
          by exact Hside.
        rewrite (Array_at_app_l T0 st _ A lA) by assumption.
        assert (insert_src T0 st A B a lo ra s = Array_at T0 st A (gL s)) as Hsrc.
        { unfold insert_src, gL. destruct (Z.ltb_spec (pget s a) lo) as [Hlt|Hge].
          - rewrite pset_id by lia. reflexivity.
          - destruct (Z.ltb_spec (pget s a) (lo + ra)); [|reflexivity].
            destruct (Z.geb_spec (pget s a) (lo + ra)); simpl in Hside; [lia|discriminate]. }
        rewrite Hsrc in Hw. rewrite Hw.
        rewrite HcLS, HcRS, Nat.add_0_r. replace (cL k + 1)%nat with (S (cL k)) by lia.
        rewrite !walk_S. reflexivity.
      + (* drawn from rhs *)
        assert (~ P s) as HP by (unfold P; rewrite Hside; discriminate).
        assert (lo <= pget s a < lo + ra) as Hband.
        { destruct (Z.ltb_spec (pget s a) lo), (Z.geb_spec (pget s a) (lo + ra));
            simpl in Hside; try discriminate; lia. }
        assert (Q s) as HQ.
        { unfold Q. destruct (Z.leb_spec lo (pget s a)), (Z.ltb_spec (pget s a) (lo + ra));
            simpl; try reflexivity; lia. }
        destruct (decide (P s)); [contradiction|]. destruct (decide (Q s)); [|contradiction].
        pose proof (filter_lookup_take Q RM k s HRMk HQ) as HRk. fold (cR k) in HRk.
        assert (row_major Dr !! cR k = Some (gR s)) as HRk'.
        { rewrite <- HF2, list_lookup_fmap, HRk. reflexivity. }
        pose proof (lookup_lt_Some _ _ _ HRk') as HcRk.
        rewrite length_row_major in HcRk by assumption.
        pose proof (prod_list_pos _ HposB).
        destruct (walk_default Dr (cR k) HposB HneB) as [HinR _]. fold r0 in HinR.
        destruct (HinR ltac:(lia)) as [HsR HiR].
        assert (unrank Dr (Z.of_nat (cR k)) = gR s) as HuR.
        { pose proof (row_major_lookup Dr (Z.of_nat (cR k)) HposB ltac:(lia)) as Hr.
          rewrite Nat2Z.id in Hr. congruence. }
        rewrite HiR, HsR, HuR.
        assert ((in_range (walk l0 (cL k)) && (pget s a <? lo)) || (pget s a >=? lo + ra)
                = false) as ->.
        { destruct (Z.ltb_spec (pget s a) lo), (Z.geb_spec (pget s a) (lo + ra)); try lia.
          all: rewrite andb_false_r; reflexivity. }
        destruct (Z.geb_spec (pget s a) lo); [|lia].
        destruct (Z.ltb_spec (pget s a) (lo + ra)); [|lia]. cbn [andb].
        rewrite (Array_at_app_l T0 st _ B lB) by assumption.
        assert (insert_src T0 st A B a lo ra s = Array_at T0 st B (gR s)) as Hsrc.
        { unfold insert_src, gR. destruct (Z.ltb_spec (pget s a) lo); [lia|].
          destruct (Z.ltb_spec (pget s a) (lo + ra)); [reflexivity|lia]. }
        rewrite Hsrc in Hw. rewrite Hw.
        rewrite HcLS, HcRS, Nat.add_0_r. replace (cR k + 1)%nat with (S (cR k)) by lia.
        rewrite !walk_S. reflexivity. }
  unfold insert.
  rewrite (array_ok_not_empty st A HokA), (array_ok_not_empty st B HokB).
  fold Dl Dr. fold a. fold la ra. fold lo.
  destruct (Z.eqb_spec (psize Dl) (psize Dr)); [|contradiction]. cbn [negb].
  assert (same_dims_except (seqZ 0 (psize Dl)) a Dl Dr = true) as ->.
  { apply same_dims_except_spec. intros i Hi Hne. apply elem_of_seqZ in Hi.
    apply Hsame; [lia|assumption]. }
  cbn [negb]. fold hres. unfold hdr_empty. rewrite Hgu. cbn [negb].
  rewrite (Array_dims_single T0 st) by lia.
  unfold with_header. cbn [buffsp_]. fold res. fold st1.
  unfold splice_loop. fold Dl Dr.
  assert (dims_ (hdr_ res) = Dres) as -> by exact Hgd.
  fold l0 r0 o0.
  change (while_do fuel _ _ (l0, r0, o0, st1))
    with (while_do fuel (fun '(l, r, o, st') => in_range o) body (l0, r0, o0, st1)).
  rewrite (while_do_iter _ body n fuel).
  - rewrite Hiter by lia. rewrite <- Hlen, fill_done. reflexivity.
  - unfold n. rewrite Hcnt. exact Hfuel.
  - intros k Hk. rewrite Hiter by lia.
    destruct (walk_default Dres k Hposr Hner) as [Hin _]. apply Hin. lia.
  - rewrite Hiter by lia.
    destruct (walk_default Dres n Hposr Hner) as [_ Hend]. apply Hend. lia.
Qed.

(** X17. [insert] along an axis, on non-empty arrays. The axis is taken
    modulo the rank and the position modulo the left array's extent on that
    axis, so a position equal to the extent inserts at 0. Ranks that differ,
    or extents that differ on another axis, throw [invalid_argument].
    Otherwise the result is a newly allocated array whose extent on the
    axis is the sum of the two; with [x] the result subscript on the axis,
    its element comes from the left array at the same subscripts when [x]
    is below the position, from the right array at [x - position] when [x]
    is within the inserted band, and from the left array at [x] less the
    right extent above the band. *)
Theorem X17_insert {T} (T0 : T) (fuel : nat) (st : store T) (A B : Array) (ind axis : Z) :
  array_ok st A -> array_ok st B ->
  (Z.to_nat (count_ (hdr_ A) + count_ (hdr_ B)) <= fuel)%nat ->
  let Dl := dims_ (hdr_ A) in
  let Dr := dims_ (hdr_ B) in
  let N := psize Dl in
  let a := modulo axis N in
  let la := pget Dl a in
  let ra := pget Dr a in
  let lo := modulo ind la in
  0 <= a < N /\ 0 <= lo < la
  /\ (psize Dr <> N -> insert T0 fuel st A B ind axis = Throw invalid_argument)
  /\ (psize Dr = N ->
      ((exists i, 0 <= i < N /\ i <> a /\ pget Dl i <> pget Dr i) ->
       insert T0 fuel st A B ind axis = Throw invalid_argument)
      /\ ((forall i, 0 <= i < N -> i <> a -> pget Dl i = pget Dr i) ->
          exists st' res,
            insert T0 fuel st A B ind axis = Done (st', res)
            /\ buffsp_ res = Some (length st)
            /\ psize (dims_ (hdr_ res)) = N
            /\ pget (dims_ (hdr_ res)) a = la + ra
            /\ (forall i, 0 <= i < N -> i <> a -> pget (dims_ (hdr_ res)) i = pget Dl i)
            /\ forall s, in_bounds (dims_ (hdr_ res)) s ->
                 Array_at T0 st' res s
                 = if pget s a <? lo then Array_at T0 st A s
                   else if pget s a <? lo + ra
                        then Array_at T0 st B (pset s a (pget s a - lo))
                        else Array_at T0 st A (pset s a (pget s a - ra)))).
Proof.
  intros HokA HokB Hfuel Dl Dr N a la ra lo.
  pose proof HokA as [HlA _]. pose proof HokB as [HlB _].
  pose proof (ok_dims _ HlA) as HposA. pose proof (ok_rank _ HlA) as HneA.
  pose proof (ok_dims _ HlB) as HposB.
  fold Dl in HposA, HneA. fold Dr in HposB.
  pose proof (proj2 (psize_pos_nonnil Dl) HneA) as HN. fold N in HN.
  assert (0 <= a < N) as Ha by (apply Z.mod_pos_bound; lia).
  assert (0 < la) as Hla by (apply (pget_Forall (fun d => 0 < d)); assumption).
  assert (0 <= lo < la) as Hlo by (apply Z.mod_pos_bound; lia).
  split; [exact Ha|]. split; [exact Hlo|]. split.
  { intros Hrank. unfold insert.
    rewrite (array_ok_not_empty st A HokA), (array_ok_not_empty st B HokB).
    fold Dl Dr. fold N.
    destruct (Z.eqb_spec N (psize Dr)); [congruence|reflexivity]. }
  intros Hrank. split.
  - intros (i & Hi & Hia & Hdiff). unfold insert.
    rewrite (array_ok_not_empty st A HokA), (array_ok_not_empty st B HokB).
    fold Dl Dr. fold N. fold a.
    destruct (Z.eqb_spec N (psize Dr)); [|congruence]. cbn [negb].
    destruct (same_dims_except (seqZ 0 N) a Dl Dr) eqn:Hs; [|reflexivity].
    exfalso. apply Hdiff.
    apply (proj1 (same_dims_except_spec _ _ _ _) Hs); [|assumption].
    apply elem_of_seqZ. lia.
  - intros Hsame.
    pose proof (insert_spec T0 fuel st A B ind axis HokA HokB ltac:(symmetry; exact Hrank)
                  Hsame Hfuel) as Hspec.
    cbv zeta in Hspec. fold Dl Dr in Hspec. fold N in Hspec. fold a in Hspec.
    fold la ra in Hspec. fold lo in Hspec.
    assert (0 < ra) as Hra
      by (apply (pget_Forall (fun d => 0 < d)); [assumption|lia]).
    destruct (Array_header_grow_spec Dl ra a HposA Ha ltac:(fold la; lia))
      as (Hgd & Hgs & Hgu & Hgc & Hgo & _).
    fold la in Hgd.
    set (Dres := pset Dl a (la + ra)) in *.
    set (hres := Array_header_grow Dl ra a) in *.
    set (res := {| hdr_ := hres; buffsp_ := Some (length st) |}) in *.
    assert (fresh_result st res Dres) as Hfresh.
    { unfold fresh_result, res. cbn [hdr_ buffsp_]. rewrite <- Hgd. auto. }
    exists (st ++ [insert_src T0 st A B a lo ra <$> row_major Dres]), res.
    split; [exact Hspec|]. split; [reflexivity|].
    assert (dims_ (hdr_ res) = Dres) as Hdr by exact Hgd.
    rewrite Hdr.
    split; [apply psize_pset|].
    split; [apply pget_pset_eq; exact Ha|].
    split; [intros i _ Hne; apply pget_pset_ne; congruence|].
    intros s Hs.
    apply (Array_at_fresh_full T0 st res Dres (insert_src T0 st A B a lo ra) s Hfresh Hs).
Qed.

Lemma X17_insert_witness :
  let st := [[1; 2; 3; 4]; [7; 8]] in
  let A := {| hdr_ := Array_header_dims [2; 2]; buffsp_ := Some 0%nat |} in
  let B := {| hdr_ := Array_header_dims [2; 1]; buffsp_ := Some 1%nat |} in
  exists st' res,
    insert 0 6 st A B 1 (-1) = Done (st', res)
    /\ pget (dims_ (hdr_ res)) 1 = 3
    /\ Array_at 0 st' res [1; 1] = 8
    /\ Array_at 0 st' res [1; 2] = 4.
Proof.
  intros st A B.
  assert (array_ok st A) as HokA.
  { split.
    - apply Array_header_dims_ok. vm_compute. reflexivity.
    - exists 0%nat. split; [reflexivity|]. simpl. lia. }
  assert (array_ok st B) as HokB.
  { split.
    - apply Array_header_dims_ok. vm_compute. reflexivity.
    - exists 1%nat. split; [reflexivity|]. simpl. lia. }
  assert ((Z.to_nat (count_ (hdr_ A) + count_ (hdr_ B)) <= 6)%nat) as Hfuel
    by (vm_compute; lia).
  destruct (X17_insert 0 6 st A B 1 (-1) HokA HokB Hfuel) as (_ & _ & _ & Hres).
  destruct (Hres eq_refl) as [_ Hok]. clear Hres.
  destruct Hok as (st' & res & Hdone & _ & Hsz & Hd & Hoth & Hat).
  { intros i Hi Hne. change (psize (dims_ (hdr_ A))) with 2 in Hi.
    change (modulo (-1) (psize (dims_ (hdr_ A)))) with 1 in Hne.
    assert (i = 0) as -> by lia. reflexivity. }
  change (psize (dims_ (hdr_ A))) with 2 in Hsz, Hd, Hoth, Hat.
  change (modulo (-1) 2) with 1 in Hd, Hoth, Hat.
  assert (forall x, 0 <= x < 3 -> in_bounds (dims_ (hdr_ res)) [1; x]) as Hb.
  { intros x Hx. apply in_bounds_intro; [rewrite Hsz; reflexivity|].
    rewrite Hsz. intros i Hi. assert (i = 0 \/ i = 1) as [-> | ->] by lia.
    - rewrite (Hoth 0) by lia. vm_compute. split; [discriminate|reflexivity].
    - rewrite Hd. change (pget [1; x] 1) with x.
      change (pget (dims_ (hdr_ A)) 1 + pget (dims_ (hdr_ B)) 1) with 3. lia. }
  exists st', res. split; [exact Hdone|]. split; [exact Hd|]. split.
  - rewrite (Hat [1; 1] (Hb 1 ltac:(lia))). reflexivity.
  - rewrite (Hat [1; 2] (Hb 2 ltac:(lia))). reflexivity.
Defined.

(** * remove *)

Lemma Array_header_grow_empty pd count a :
  Forall (fun d => 0 < d) pd -> 0 <= a < psize pd -> pget pd a + count <= 0 ->
  hdr_empty (Array_header_grow pd count a) = true.
Proof.
  intros Hpos Ha Hv.
  assert (pd <> []) as Hne by (apply psize_pos_nonnil; lia).
  pose proof (prod_list_pos _ Hpos) as Hpp.
  unfold Array_header_grow. rewrite (numel_prod pd Hne Hpos).
  destruct (Z.leb_spec (prod_list pd) 0); [lia|].
  set (dims := for_up _ _ _ _).
  assert (pget dims a = pget pd a + count /\ psize dims = psize pd) as [Hd Hsz].
  { subst dims.
    rewrite (for_up_ext 0 (psize pd) _
               (fun i l => pset l i (if a =? i then pget pd i + count else pget pd i))).
    2:{ intros i s _. destruct (a =? i); reflexivity. }
    destruct (for_up_pset 0 (psize pd)
                (fun i => if a =? i then pget pd i + count else pget pd i)
                (Internal_buffer (psize pd)) ltac:(lia)) as [Hs Hg].
    rewrite psize_Internal_buffer in Hs, Hg by lia.
    split; [|exact Hs]. rewrite Hg.
    destruct (Z.leb_spec 0 a), (Z.ltb_spec a (psize pd)); try lia. simpl.
    rewrite Z.eqb_refl. reflexivity. }
  destruct (Z.leb_spec (numel dims) 0) as [_|Hn]; [reflexivity|].
  exfalso. destruct (numel_pos_inv dims Hn) as [_ Hposd].
  pose proof (pget_Forall (fun d => 0 < d) dims a Hposd ltac:(lia)) as Hda.
  simpl in Hda. lia.
Qed.

Lemma remove_spec {T} (T0 : T) (fuel : nat) (st : store T) A ind count axis :
  array_ok st A -> 0 <= count ->
  let D := dims_ (hdr_ A) in
  let a := modulo axis (psize D) in
  let d := pget D a in
  let lo := modulo ind d in
  let fc := if lo + count <=? d then count else d - lo in
  fc < d ->
  (Z.to_nat (count_ (hdr_ A)) <= fuel)%nat ->
  remove T0 fuel st A ind count axis =
  Done (st ++ [(fun t => Array_at T0 st A (remove_subs a lo fc t))
                 <$> row_major (pset D a (d - fc))],
        {| hdr_ := Array_header_grow D (- fc) a; buffsp_ := Some (length st) |}).
Proof.
  intros Hok Hcount D a d lo fc Hfc Hfuel.
  pose proof Hok as [Hl (lA & Hbuf & Hlt)].
  pose proof (ok_dims _ Hl) as Hpos. pose proof (ok_rank _ Hl) as Hne.
  pose proof (ok_count _ Hl) as Hc. fold D in Hpos, Hne, Hc.
  pose proof (proj2 (psize_pos_nonnil D) Hne) as HN.
  assert (0 <= a < psize D) as Ha by (apply Z.mod_pos_bound; lia).
  assert (0 < d) as Hd by (apply (pget_Forall (fun d => 0 < d)); assumption).
  assert (0 <= lo < d) as Hlo by (apply Z.mod_pos_bound; lia).
  assert (0 <= fc /\ lo + fc <= d) as [Hfc0 Hfc1].
  { unfold fc. destruct (Z.leb_spec (lo + count) d); lia. }
  set (Dres := pset D a (d - fc)).
  assert (Forall (fun d => 0 < d) Dres) as Hposr by (apply Forall_pset_pos; [assumption|lia]).
  assert (psize Dres = psize D) as Hszr by apply psize_pset.
  assert (Dres <> []) as Hner by (apply psize_pos_nonnil; lia).
  pose proof (prod_list_pos _ Hpos) as Hp. pose proof (prod_list_pos _ Hposr) as Hpr.
  set (pdel := prod_list (delete (Z.to_nat a) D)).
  assert (prod_list D = d * pdel) as HpD by (apply prod_list_delete; assumption).
  assert (prod_list Dres = (d - fc) * pdel) as HpR
    by (unfold Dres; apply prod_list_pset; assumption).
  assert (count_ (hdr_ A) - Z.quot (count_ (hdr_ A)) d * fc = prod_list Dres) as Hbuf0.
  { rewrite Hc, HpD, HpR. rewrite (Z.mul_comm d pdel), Z.quot_mul by lia. lia. }
  destruct (Array_header_grow_spec D (- fc) a Hpos Ha ltac:(fold d; lia))
    as (Hgd & Hgs & Hgu & Hgc & Hgo & _).
  fold d in Hgd. replace (d + - fc) with (d - fc) in Hgd by lia. fold Dres in Hgd.
  set (hres := Array_header_grow D (- fc) a) in *.
  set (res := {| hdr_ := hres; buffsp_ := Some (length st) |}).
  assert (fresh_result st res Dres) as Hfresh.
  { unfold fresh_result, res. cbn [hdr_ buffsp_]. rewrite <- Hgd. auto. }
  set (RM := row_major D).
  set (P := fun s : list Z => (pget s a <? lo) || (pget s a >=? lo + fc) = true).
  set (g := fun s : list Z => pset s a (if pget s a <? lo then pget s a else pget s a - fc)).
  assert ((Z.to_nat a < length D)%nat) as Hanat by (unfold psize in Ha; lia).
  assert (g <$> filter P RM = row_major Dres) as HF.
  { pose proof (row_major_select D (Z.to_nat a)
                  (fun x => (x <? lo) || (x >=? lo + fc))
                  (fun x => if x <? lo then x else x - fc)
                  (lo + fc + (d - lo - fc)) (lo + (d - lo - fc)) Hanat
                  (seqZ_select_rest lo fc (d - lo - fc) ltac:(lia) ltac:(lia) ltac:(lia)))
      as HF.
    rewrite Z2Nat.id in HF by lia. rewrite <- !pset_insert in HF by lia.
    replace (lo + fc + (d - lo - fc)) with d in HF by lia.
    replace (lo + (d - lo - fc)) with (d - fc) in HF by lia.
    unfold d in HF at 1. rewrite pset_id in HF by assumption. exact HF. }
  assert (filter P RM = remove_subs a lo fc <$> row_major Dres) as HFinv.
  { rewrite <- HF, <- list_fmap_compose.
    rewrite <- (list_fmap_id (filter P RM)) at 1.
    apply fmap_ext_elem_of. intros s Hs.
    apply list_elem_of_filter in Hs as [HPs Hs].
    apply list_elem_of_lookup_1 in Hs as [k Hk].
    destruct (row_major_lookup_inv D k s Hpos Hk) as [Hbs _].
    pose proof (in_bounds_psize _ _ Hbs) as Hps.
    assert (0 <= pget s a < d) as Hx by (apply in_bounds_pget; assumption).
    unfold compose, g, remove_subs. simpl.
    destruct (Z.ltb_spec (pget s a) lo) as [Hlt'|Hge].
    - rewrite pset_id by lia.
      destruct (Z.ltb_spec (pget s a) lo); [reflexivity|lia].
    - rewrite pget_pset_eq by lia.
      assert (lo + fc <= pget s a) as Hhi.
      { unfold P in HPs. destruct (Z.ltb_spec (pget s a) lo), (Z.geb_spec (pget s a) (lo + fc));
          simpl in HPs; try discriminate; lia. }
      destruct (Z.ltb_spec (pget s a - fc) lo); [lia|].
      rewrite pset_pset_eq. replace (pget s a - fc + fc) with (pget s a) by lia.
      rewrite pset_id by lia. reflexivity. }
  set (full := (fun t => Array_at T0 st A (remove_subs a lo fc t)) <$> row_major Dres).
  assert (full = Array_at T0 st A <$> filter P RM) as Hfull.
  { unfold full. rewrite HFinv, <- list_fmap_compose. reflexivity. }
  assert (length full = Z.to_nat (prod_list Dres)) as Hlen.
  { unfold full. rewrite length_fmap. apply length_row_major. assumption. }
  assert (length (filter P RM) = length full) as HlenF
    by (rewrite Hfull, length_fmap; reflexivity).
  assert (length RM = Z.to_nat (prod_list D)) as HlenRM by (apply length_row_major; assumption).
  set (n := Z.to_nat (prod_list D)) in *.
  set (c := fun k : nat => length (filter P (take k RM))).
  set (a0 := Subscripts_iterator [] D []).
  set (r0 := Subscripts_iterator [] Dres []).
  set (st1 := st ++ [replicate (Z.to_nat (prod_list Dres)) T0]).
  set (body := fun '(arrndstor, resndstor, st') =>
         let x := pget (subs_ arrndstor) a in
         if (in_range resndstor && (x <? lo)) || (x >=? lo + fc)
         then
           (increment arrndstor, increment resndstor,
            Array_set st' res (subs_ resndstor) (Array_at T0 st' A (subs_ arrndstor)))
         else (increment arrndstor, resndstor, st')).
  assert (forall k, (k <= n)%nat ->
            Nat.iter k body (a0, r0, st1)
            = (walk a0 k, walk r0 (c k),
               st ++ [take (c k) full ++ replicate (length full - c k) T0])) as Hiter.
  { induction k as [|k IH]; intros Hk.
    - change (c 0%nat) with 0%nat. simpl. unfold st1. rewrite Hlen, Nat.sub_0_r. reflexivity.
    - cbn [Nat.iter nat_rect]. fold (Nat.iter k body (a0, r0, st1)).
      rewrite IH by lia.
      destruct (walk_default D k Hpos Hne) as [Hin _]. fold a0 in Hin.
      destruct (Hin ltac:(lia)) as [Hsa _].
      set (s := unrank D (Z.of_nat k)) in *.
      assert (RM !! k = Some s) as HRMk.
      { unfold RM, s. rewrite <- (Nat2Z.id k) at 1. apply row_major_lookup; [assumption|lia]. }
      pose proof (filter_take_S P RM k s HRMk) as HcS. fold (c (S k)) (c k) in HcS.
      unfold body at 1. cbv beta iota zeta. rewrite Hsa.
      destruct ((pget s a <? lo) || (pget s a >=? lo + fc)) eqn:Hside.
      + assert (P s) as HP by exact Hside.
        destruct (decide (P s)); [|contradiction].
        pose proof (filter_lookup_take P RM k s HRMk HP) as HFk. fold (c k) in HFk.
        pose proof (lookup_lt_Some _ _ _ HFk) as Hck. rewrite HlenF, Hlen in Hck.
        destruct (walk_default Dres (c k) Hposr Hner) as [HinR _]. fold r0 in HinR.
        destruct (HinR ltac:(lia)) as [HsR HiR].
        rewrite HiR, HsR.
        assert ((true && (pget s a <? lo)) || (pget s a >=? lo + fc) = true) as ->
          by exact Hside.
        rewrite (Array_at_app_l T0 st _ A lA) by assumption.
        assert (full !! c k = Some (Array_at T0 st A s)) as Hfk.
        { rewrite Hfull, list_lookup_fmap, HFk. reflexivity. }
        rewrite (fill_write T0 st res Dres full (c k) _ Hfresh Hposr Hlen Hfk).
        rewrite HcS. replace (c k + 1)%nat with (S (c k)) by lia.
        rewrite !walk_S. reflexivity.
      + assert (~ P s) as HP by (unfold P; rewrite Hside; discriminate).
        destruct (decide (P s)); [contradiction|].
        assert ((in_range (walk r0 (c k)) && (pget s a <? lo)) || (pget s a >=? lo + fc)
                = false) as ->.
        { destruct (Z.ltb_spec (pget s a) lo), (Z.geb_spec (pget s a) (lo + fc));
            simpl in Hside; try discriminate. rewrite andb_false_r. reflexivity. }
        rewrite HcS, Nat.add_0_r, walk_S. reflexivity. }
  unfold remove. rewrite (array_ok_not_empty st A Hok).
  fold D. fold a. fold d. fold lo. fold fc. fold hres.
  unfold hdr_empty. rewrite Hgu. cbn [negb].
  rewrite Hbuf0. rewrite (Array_dims_single T0 st) by lia.
  unfold with_header. cbn [buffsp_]. fold res. fold st1.
  assert (dims_ (hdr_ res) = Dres) as -> by exact Hgd.
  fold a0 r0.
  change (while_do fuel _ _ (a0, r0, st1))
    with (while_do fuel (fun '(arrndstor, resndstor, st') => in_range arrndstor) body
            (a0, r0, st1)).
  assert (c n = length full) as Hcn.
  { unfold c. rewrite take_ge by lia. exact HlenF. }
  rewrite (while_do_iter _ body n fuel).
  - rewrite Hiter by lia. rewrite Hcn, fill_done. reflexivity.
  - unfold n. rewrite <- Hc. exact Hfuel.
  - intros k Hk. rewrite Hiter by lia.
    destruct (walk_default D k Hpos Hne) as [Hin _]. apply Hin. lia.
  - rewrite Hiter by lia.
    destruct (walk_default D n Hpos Hne) as [_ Hend]. apply Hend. lia.
Qed.

(** X18. [remove] along an axis, on a non-empty array and a count that is
    not negative. The axis is taken modulo the rank and the position modulo
    the extent on that axis; a count that runs past the end is cut to the
    subscripts that remain. Removing the whole extent gives an empty array.
    Otherwise the result is a newly allocated array whose extent on the axis
    is lowered by the number removed; its element at [t] is the argument's
    element at [t] below the position, and at [t] raised by the number
    removed on the axis from the position on. *)
Theorem X18_remove {T} (T0 : T) (fuel : nat) (st : store T) (A : Array) (ind count axis : Z) :
  array_ok st A -> 0 <= count -> (Z.to_nat (count_ (hdr_ A)) <= fuel)%nat ->
  let D := dims_ (hdr_ A) in
  let N := psize D in
  let a := modulo axis N in
  let d := pget D a in
  let lo := modulo ind d in
  let fc := if lo + count <=? d then count else d - lo in
  0 <= a < N /\ 0 <= lo < d /\ 0 <= fc <= d - lo
  /\ (fc = d -> remove T0 fuel st A ind count axis = Done (st, Array_default))
  /\ (fc < d ->
      exists st' res,
        remove T0 fuel st A ind count axis = Done (st', res)
        /\ buffsp_ res = Some (length st)
        /\ psize (dims_ (hdr_ res)) = N
        /\ pget (dims_ (hdr_ res)) a = d - fc
        /\ (forall i, 0 <= i < N -> i <> a -> pget (dims_ (hdr_ res)) i = pget D i)
        /\ forall t, in_bounds (dims_ (hdr_ res)) t ->
             Array_at T0 st' res t
             = Array_at T0 st A (if pget t a <? lo then t else pset t a (pget t a + fc))).
Proof.
  intros Hok Hcount Hfuel D N a d lo fc. pose proof Hok as [Hl _].
  pose proof (ok_dims _ Hl) as Hpos. pose proof (ok_rank _ Hl) as Hne.
  fold D in Hpos, Hne.
  pose proof (proj2 (psize_pos_nonnil D) Hne) as HN. fold N in HN.
  assert (0 <= a < N) as Ha by (apply Z.mod_pos_bound; lia).
  assert (0 < d) as Hd by (apply (pget_Forall (fun d => 0 < d)); assumption).
  assert (0 <= lo < d) as Hlo by (apply Z.mod_pos_bound; lia).
  assert (0 <= fc <= d - lo) as Hfc.
  { unfold fc. destruct (Z.leb_spec (lo + count) d); lia. }
  split; [exact Ha|]. split; [exact Hlo|]. split; [exact Hfc|]. split.
  - intros Hall. unfold remove. rewrite (array_ok_not_empty st A Hok).
    fold D. fold N. fold a. fold d. fold lo. fold fc.
    rewrite (Array_header_grow_empty D (- fc) a Hpos Ha) by (fold d; lia).
    reflexivity.
  - intros Hlt.
    pose proof (remove_spec T0 fuel st A ind count axis Hok Hcount Hlt Hfuel) as Hspec.
    cbv zeta in Hspec. fold D in Hspec. fold N in Hspec. fold a in Hspec.
    fold d in Hspec. fold lo in Hspec. fold fc in Hspec.
    destruct (Array_header_grow_spec D (- fc) a Hpos Ha ltac:(fold d; lia))
      as (Hgd & Hgs & Hgu & Hgc & Hgo & _).
    fold d in Hgd. replace (d + - fc) with (d - fc) in Hgd by lia.
    set (Dres := pset D a (d - fc)) in *.
    set (hres := Array_header_grow D (- fc) a) in *.
    set (res := {| hdr_ := hres; buffsp_ := Some (length st) |}) in *.
    assert (fresh_result st res Dres) as Hfresh.
    { unfold fresh_result, res. cbn [hdr_ buffsp_]. rewrite <- Hgd. auto. }
    eexists _, res. split; [exact Hspec|]. split; [reflexivity|].
    assert (dims_ (hdr_ res) = Dres) as Hdr by exact Hgd.
    rewrite Hdr.
    split; [apply psize_pset|].
    split; [apply pget_pset_eq; exact Ha|].
    split; [intros i _ Hne'; apply pget_pset_ne; congruence|].
    intros t Ht.
    apply (Array_at_fresh_full T0 st res Dres
             (fun t => Array_at T0 st A (remove_subs a lo fc t)) t Hfresh Ht).
Qed.

Lemma X18_remove_witness :
  let st := [[1; 2; 3; 4; 5; 6]] in
  let A := {| hdr_ := Array_header_dims [2; 3]; buffsp_ := Some 0%nat |} in
  exists st' res,
    remove 0 6 st A 1 1 (-1) = Done (st', res)
    /\ pget (dims_ (hdr_ res)) 1 = 2
    /\ Array_at 0 st' res [1; 1] = 6.
Proof.
  intros st A.
  assert (array_ok st A) as Hok.
  { split.
    - apply Array_header_dims_ok. vm_compute. reflexivity.
    - exists 0%nat. split; [reflexivity|]. simpl. lia. }
  assert ((Z.to_nat (count_ (hdr_ A)) <= 6)%nat) as Hfuel by (vm_compute; lia).
  destruct (X18_remove 0 6 st A 1 1 (-1) Hok ltac:(lia) Hfuel) as (_ & _ & _ & _ & Hres).
  destruct Hres as (st' & res & Hdone & _ & Hsz & Hd & Hoth & Hat);
    [vm_compute; reflexivity|].
  change (psize (dims_ (hdr_ A))) with 2 in Hsz, Hd, Hoth, Hat.
  change (modulo (-1) 2) with 1 in Hd, Hoth, Hat.
  assert (in_bounds (dims_ (hdr_ res)) [1; 1]) as Hb.
  { apply in_bounds_intro; [rewrite Hsz; reflexivity|].
    rewrite Hsz. intros i Hi. assert (i = 0 \/ i = 1) as [-> | ->] by lia.
    - rewrite (Hoth 0) by lia. vm_compute. split; [discriminate|reflexivity].
    - rewrite Hd. vm_compute. split; [discriminate|reflexivity]. }
  exists st', res. split; [exact Hdone|]. split; [exact Hd|].
  rewrite (Hat [1; 1] Hb). reflexivity.
Defined.

(** * The layouts the constructors produce *)









(** * all and any *)

Lemma foldl_andb {A} (p : A -> bool) (g : bool -> bool) (acc : bool) (l : list A) :
  (forall b, g b = b) ->
  foldl (fun acc y => p y && g acc) acc l = acc && forallb p l.
Proof.
  intros Hg. revert acc. induction l as [|x l IH]; intros acc; simpl.
  - rewrite andb_true_r. reflexivity.
  - rewrite IH, Hg. destruct (p x), acc; reflexivity.
Qed.

Lemma foldl_orb {A} (p : A -> bool) (g : bool -> bool) (acc : bool) (l : list A) :
  (forall b, g b = b) ->
  foldl (fun acc y => p y || g acc) acc l = acc || existsb p l.
Proof.
  intros Hg. revert acc. induction l as [|x l IH]; intros acc; simpl.
  - rewrite orb_false_r. reflexivity.
  - rewrite IH, Hg. destruct (p x), acc; reflexivity.
Qed.

(** X20. For an element type whose conversion from [bool] and back is the
    identity, [all] of a non-empty array is true exactly when every element
    converts to true, and [any] exactly when some element does. Of an empty
    array both return false. *)
Theorem X20_all_any {T} (T0 : T) (to_bool : T -> bool) (of_bool : bool -> T) (fuel : nat)
    (st : store T) (A : Array) :
  (empty st A = true ->
   all T0 to_bool of_bool fuel st A = Done false
   /\ any T0 to_bool of_bool fuel st A = Done false)
  /\ ((forall b, to_bool (of_bool b) = b) ->
      array_ok st A -> (Z.to_nat (count_ (hdr_ A)) <= fuel)%nat ->
      all T0 to_bool of_bool fuel st A = Done (forallb to_bool (elements T0 st A))
      /\ any T0 to_bool of_bool fuel st A = Done (existsb to_bool (elements T0 st A))).
Proof.
  split.
  { intros He. unfold all, any, reduce. rewrite He. auto. }
  intros Hconv Hok Hfuel. split.
  - destruct (reduce_spec T0 false to_bool fuel st A
                (fun value previous => to_bool value && to_bool (of_bool previous))
                Hok Hfuel) as (x & xs & Hel & Hred).
    unfold all. rewrite Hred, Hel. f_equal.
    apply (foldl_andb to_bool (fun b => to_bool (of_bool b))). exact Hconv.
  - destruct (reduce_spec T0 false to_bool fuel st A
                (fun value previous => to_bool value || to_bool (of_bool previous))
                Hok Hfuel) as (x & xs & Hel & Hred).
    unfold any. rewrite Hred, Hel. f_equal.
    apply (foldl_orb to_bool (fun b => to_bool (of_bool b))). exact Hconv.
Qed.

Lemma X20_all_any_witness :
  let st := [[1; 0; 3]] in
  let A := {| hdr_ := Array_header_dims [3]; buffsp_ := Some 0%nat |} in
  all 0 (fun x => negb (x =? 0)) (fun b : bool => if b then 1 else 0) 3 st A = Done false
  /\ any 0 (fun x => negb (x =? 0)) (fun b : bool => if b then 1 else 0) 3 st A = Done true.
Proof.
  intros st A.
  apply (proj2 (X20_all_any 0 (fun x => negb (x =? 0)) (fun b : bool => if b then 1 else 0)
                  3 st A)).
  - intros [|]; reflexivity.
  - split.
    + apply Array_header_dims_ok. vm_compute. reflexivity.
    + exists 0%nat. split; [reflexivity|]. simpl. lia.
  - vm_compute. lia.
Defined.

(** * copy *)

Lemma psize_foldl_updZ {X A} (P : X -> Z) (V : X -> A) (l : list X) buf :
  psize (foldl (fun b s => updZ b (P s) (V s)) buf l) = psize buf.
Proof.
  revert buf. induction l as [|y l IH]; intros buf; simpl; [reflexivity|].
  rewrite IH. apply psize_updZ.
Qed.

(** A position written by [x], and by others only with the same value,
    holds the value of [x]. *)
Lemma foldl_updZ_hit {X A} (d : A) (P : X -> Z) (V : X -> A) (l : list X) buf x :
  x ∈ l -> (forall y, y ∈ l -> P y = P x -> V y = V x) -> 0 <= P x < psize buf ->
  nthZ d (foldl (fun b s => updZ b (P s) (V s)) buf l) (P x) = V x.
Proof.
  induction l as [|y l IH] using rev_ind; intros Hx Hinj Hr.
  - inversion Hx.
  - rewrite foldl_app. simpl. destruct (decide (P y = P x)) as [E|E].
    + rewrite <- (Hinj y); [|apply elem_of_app; right; apply list_elem_of_singleton;
                              reflexivity|assumption].
      rewrite <- E. apply nthZ_updZ_eq. rewrite psize_foldl_updZ. rewrite E. assumption.
    + rewrite nthZ_updZ_ne by assumption. apply IH.
      * apply elem_of_app in Hx as [Hx|Hx]; [assumption|].
        apply list_elem_of_singleton in Hx. subst. congruence.
      * intros z Hz. apply Hinj. apply elem_of_app. left. assumption.
      * assumption.
Qed.

(** A position no write goes to keeps its content. *)
Lemma foldl_updZ_miss {X A} (d : A) (P : X -> Z) (V : X -> A) (l : list X) buf p :
  (forall y, y ∈ l -> P y <> p) ->
  nthZ d (foldl (fun b s => updZ b (P s) (V s)) buf l) p = nthZ d buf p.
Proof.
  induction l as [|y l IH] using rev_ind; intros Hne; [reflexivity|].
  rewrite foldl_app. simpl. rewrite nthZ_updZ_ne.
  - apply IH. intros z Hz. apply Hne. apply elem_of_app. left. assumption.
  - apply Hne. apply elem_of_app. right. apply list_elem_of_singleton. reflexivity.
Qed.

Lemma Array_set_insert {T} (st : store T) a (l : nat) b subs v :
  buffsp_ a = Some l -> (l < length st)%nat ->
  Array_set (<[l := b]> st) a subs v
  = <[l := updZ b (subs2ind (offset_ (hdr_ a)) (strides_ (hdr_ a)) (dims_ (hdr_ a)) subs) v]>
      st.
Proof.
  intros Hl Hlt. unfold Array_set. rewrite Hl.
  apply list_eq. intros i. destruct (decide (i = l)) as [->|Hne].
  - rewrite list_lookup_alter_eq, !list_lookup_insert_eq by (rewrite ?length_insert; lia).
    reflexivity.
  - rewrite list_lookup_alter_ne, !list_lookup_insert_ne by congruence. reflexivity.
Qed.

Lemma Array_at_insert_ne {T} (T0 : T) (st : store T) a (l : nat) b subs :
  buffsp_ a <> Some l -> Array_at T0 (<[l := b]> st) a subs = Array_at T0 st a subs.
Proof.
  intros Hne. unfold Array_at, data. destruct (buffsp_ a) as [l'|]; [|reflexivity].
  rewrite list_lookup_insert_ne by congruence. reflexivity.
Qed.

Lemma Array_at_insert_eq {T} (T0 : T) (st : store T) a (l : nat) b subs :
  buffsp_ a = Some l -> (l < length st)%nat ->
  Array_at T0 (<[l := b]> st) a subs
  = nthZ T0 b (subs2ind (offset_ (hdr_ a)) (strides_ (hdr_ a)) (dims_ (hdr_ a)) subs).
Proof.
  intros Hl Hlt. unfold Array_at, data. rewrite Hl.
  rewrite list_lookup_insert_eq by assumption. reflexivity.
Qed.

Lemma is_contained_in_le sub_dims dims :
  is_contained_in sub_dims dims = true ->
  psize sub_dims <= psize dims
  /\ forall j, 0 <= j < psize sub_dims ->
       pget sub_dims j <= pget dims (j + (psize dims - psize sub_dims)).
Proof.
  unfold is_contained_in.
  destruct (Z.gtb_spec (psize sub_dims) (psize dims)) as [Hgt|Hle]; [discriminate|].
  rewrite is_contained_in_loop_spec. intros H. split; [assumption|]. intros j Hj.
  specialize (H (j + (psize dims - psize sub_dims))).
  replace (j + (psize dims - psize sub_dims) - (psize dims - psize sub_dims)) with j in H
    by lia.
  apply H. apply elem_of_seqZ. pose proof (psize_nonneg sub_dims). lia.
Qed.

(** Subscripts of a contained shape address, in a contiguous row-major
    array, the element whose leading subscripts are 0. *)
Lemma contained_position sdims ddims strides s :
  Forall (fun d => 0 < d) ddims -> row_major_strides ddims strides ->
  is_contained_in sdims ddims = true -> in_bounds sdims s ->
  in_bounds ddims (trailing_subs (psize ddims) s)
  /\ subs2ind 0 strides ddims s = lin ddims (trailing_subs (psize ddims) s).
Proof.
  intros Hpos Hrm Hc Hb. apply is_contained_in_le in Hc as [Hle Hc].
  pose proof (in_bounds_psize _ _ Hb) as Hps.
  pose proof (psize_nonneg ddims) as Hn0. pose proof (psize_nonneg s) as Hs0.
  assert (psize (trailing_subs (psize ddims) s) = psize ddims) as Hpt
    by (apply psize_trailing_subs; assumption).
  assert (in_bounds ddims (trailing_subs (psize ddims) s)) as Hbt.
  { apply in_bounds_intro; [assumption|]. intros i Hi.
    rewrite pget_trailing_subs by assumption.
    destruct (Z.ltb_spec i (psize ddims - psize s)) as [Hlt|Hge].
    - pose proof (pget_Forall _ _ i Hpos Hi). simpl in *. lia.
    - rewrite Z.max_r by lia.
      pose proof (in_bounds_pget _ _ (i - (psize ddims - psize s)) Hb ltac:(lia)) as Hx.
      specialize (Hc (i - (psize ddims - psize s)) ltac:(lia)).
      rewrite <- Hps in Hc.
      replace (i - (psize ddims - psize s) + (psize ddims - psize s)) with i in Hc by lia.
      lia. }
  split; [assumption|].
  rewrite <- (subs2ind_row_major strides ddims _ Hrm Hbt).
  rewrite !subs2ind_sum by apply Hrm.
  pose proof (trailing_subs_exact (trailing_subs (psize ddims) s)) as Hid.
  rewrite Hpt in Hid. rewrite Hid. reflexivity.
Qed.

(** X21. [copy] does nothing when either array is empty or the shape of
    [src] is not contained in that of [dst]. Otherwise, for a contiguous
    row-major [dst] over another buffer than [src], it assigns every element
    of [src] to the element of [dst] at the same subscripts (as the trailing
    ones, the leading ones being 0 when [src] has fewer axes), keeps every
    other element of [dst] and writes to no other buffer. *)
Theorem X21_copy {T} (T0 : T) (fuel : nat) (st : store T) (src dst : Array)
    (ld : nat) (buf : list T) :
  (empty st src = true \/ empty st dst = true
     \/ is_contained_in (dims_ (hdr_ src)) (dims_ (hdr_ dst)) = false ->
   copy T0 fuel st src dst = Done st)
  /\ (array_ok st src -> layout_ok (hdr_ dst) ->
      buffsp_ dst = Some ld -> buffsp_ src <> Some ld -> st !! ld = Some buf ->
      row_major_strides (dims_ (hdr_ dst)) (strides_ (hdr_ dst)) ->
      offset_ (hdr_ dst) = 0 ->
      prod_list (dims_ (hdr_ dst)) <= psize buf ->
      is_contained_in (dims_ (hdr_ src)) (dims_ (hdr_ dst)) = true ->
      (Z.to_nat (count_ (hdr_ src)) <= fuel)%nat ->
      exists st',
        copy T0 fuel st src dst = Done st'
        /\ length st' = length st
        /\ (forall l, l <> ld -> st' !! l = st !! l)
        /\ (forall s, in_bounds (dims_ (hdr_ src)) s ->
              Array_at T0 st' dst s = Array_at T0 st src s)
        /\ (forall t, in_bounds (dims_ (hdr_ dst)) t ->
              (forall s, in_bounds (dims_ (hdr_ src)) s ->
                 t <> trailing_subs (psize (dims_ (hdr_ dst))) s) ->
              Array_at T0 st' dst t = Array_at T0 st dst t)).
Proof.
  split.
  { unfold copy.
    destruct (empty st src), (empty st dst),
      (is_contained_in (dims_ (hdr_ src)) (dims_ (hdr_ dst)));
      try reflexivity.
    intros [H|[H|H]]; discriminate. }
  intros Hoks Hokd Hld Hls Hbuf Hrm Hoff Hsz Hcont Hfuel.
  pose proof Hoks as [Hlays _].
  pose proof (ok_dims _ Hlays) as Hposs. pose proof (ok_rank _ Hlays) as Hnes.
  pose proof (ok_dims _ Hokd) as Hposd.
  pose proof (lookup_lt_Some _ _ _ Hbuf) as Hlt.
  assert (array_ok st dst) as Hokd' by (split; [assumption|]; exists ld; auto).
  rewrite (ok_count _ Hlays) in Hfuel.
  set (sdims := dims_ (hdr_ src)) in *. set (ddims := dims_ (hdr_ dst)) in *.
  pose proof (prod_list_pos _ Hposs) as HP.
  set (P := fun s => subs2ind (offset_ (hdr_ dst)) (strides_ (hdr_ dst)) ddims s).
  set (V := fun s => Array_at T0 st src s).
  set (B := fun l => foldl (fun b s => updZ b (P s) (V s)) buf l).
  set (n := Z.to_nat (prod_list sdims)) in *.
  set (it0 := Subscripts_iterator [] sdims []).
  set (body := fun '(src_iter, s) =>
                 (increment src_iter,
                  Array_set s dst (subs_ src_iter) (Array_at T0 s src (subs_ src_iter)))).
  assert (length (row_major sdims) = n) as Hlen by (apply length_row_major; assumption).
  assert (forall k, (k <= n)%nat ->
            Nat.iter k body (it0, st)
            = (walk it0 k, <[ld := B (take k (row_major sdims))]> st)) as Hiter.
  { induction k as [|k IH]; intros Hk.
    - simpl. unfold B. simpl. rewrite list_insert_id by assumption. reflexivity.
    - cbn [Nat.iter nat_rect]. fold (Nat.iter k body (it0, st)).
      rewrite IH by lia. unfold body at 1. rewrite walk_S. f_equal.
      destruct (walk_default sdims k Hposs Hnes) as [Hin _]. fold it0 in Hin.
      destruct (Hin ltac:(lia)) as [-> _].
      rewrite Array_at_insert_ne by assumption.
      rewrite Array_set_insert by assumption. f_equal.
      assert (row_major sdims !! k = Some (unrank sdims (Z.of_nat k))) as Hk'.
      { rewrite <- (Nat2Z.id k) at 1. apply row_major_lookup; [assumption|lia]. }
      rewrite (take_S_r _ _ _ Hk'). unfold B. rewrite foldl_app. reflexivity. }
  exists (<[ld := B (row_major sdims)]> st).
  assert (copy T0 fuel st src dst = Done (<[ld := B (row_major sdims)]> st)) as Hrun.
  { unfold copy. rewrite (array_ok_not_empty st src Hoks), (array_ok_not_empty st dst Hokd').
    cbn [orb]. fold sdims ddims. rewrite Hcont.
    change (while_do fuel _ _ (Subscripts_iterator [] sdims [], st))
      with (while_do fuel (fun '(src_iter, s) => in_range src_iter) body (it0, st)).
    rewrite (while_do_iter _ body n fuel).
    - rewrite Hiter by lia. rewrite <- Hlen, firstn_all. reflexivity.
    - lia.
    - intros k Hk. rewrite Hiter by lia.
      destruct (walk_default sdims k Hposs Hnes) as [Hin _]. apply Hin. lia.
    - rewrite Hiter by lia.
      destruct (walk_default sdims n Hposs Hnes) as [_ Hend]. apply Hend. lia. }
  split; [exact Hrun|]. split; [apply length_insert|].
  split; [intros l Hl; apply list_lookup_insert_ne; congruence|].
  assert (forall y, y ∈ row_major sdims ->
            in_bounds ddims (trailing_subs (psize ddims) y)
            /\ P y = lin ddims (trailing_subs (psize ddims) y)
            /\ in_bounds sdims y) as Hpos_of.
  { intros y Hy. apply list_elem_of_lookup_1 in Hy as [i Hi].
    apply row_major_lookup_inv in Hi as [Hby _]; [|assumption].
    destruct (contained_position sdims ddims (strides_ (hdr_ dst)) y Hposd Hrm Hcont Hby)
      as [Hb1 Hb2].
    unfold P. rewrite Hoff. auto. }
  split.
  - intros s Hs.
    rewrite Array_at_insert_eq by assumption. fold ddims. fold (P s).
    assert (s ∈ row_major sdims) as Hin
      by (eapply list_elem_of_lookup_2; apply row_major_lookup_lin; assumption).
    destruct (Hpos_of s Hin) as (Hbs & HPs & _).
    unfold B. apply (foldl_updZ_hit T0 P V); [assumption| |].
    + intros y Hy Heq. enough (y = s) as -> by reflexivity.
      destruct (Hpos_of y Hy) as (Hby & HPy & Hby').
      rewrite HPy, HPs in Heq. apply lin_inj in Heq; [|assumption..].
      pose proof (in_bounds_psize _ _ Hs) as Hp1.
      pose proof (in_bounds_psize _ _ Hby') as Hp2.
      destruct (is_contained_in_le _ _ Hcont) as [Hle _]. fold sdims ddims in Hle.
      rewrite !trailing_subs_short in Heq by lia.
      rewrite Hp1, Hp2 in Heq. apply app_inv_head in Heq. assumption.
    + rewrite HPs. pose proof (lin_bounds _ _ Hbs). lia.
  - intros t Ht Hout.
    rewrite Array_at_insert_eq by assumption. fold ddims. fold (P t).
    unfold B. rewrite (foldl_updZ_miss T0 P V).
    + unfold Array_at, data. rewrite Hld, Hbuf. reflexivity.
    + intros y Hy Heq. destruct (Hpos_of y Hy) as (Hby & HPy & Hby').
      apply (Hout y Hby'). rewrite HPy in Heq.
      unfold P in Heq. rewrite Hoff in Heq.
      rewrite (subs2ind_row_major _ _ _ Hrm Ht) in Heq.
      apply lin_inj in Heq; [|assumption..]. symmetry. assumption.
Qed.

Lemma X21_copy_witness :
  let st := [[7; 8]; [1; 2; 3; 4; 5; 6]] in
  let src := {| hdr_ := Array_header_dims [2]; buffsp_ := Some 0%nat |} in
  let dst := {| hdr_ := Array_header_dims [2; 3]; buffsp_ := Some 1%nat |} in
  exists st',
    copy 0 2 st src dst = Done st'
    /\ Array_at 0 st' dst [1] = 8
    /\ Array_at 0 st' dst [1; 2] = 6.
Proof.
  intros st src dst.
  destruct (proj2 (X21_copy 0 2 st src dst 1%nat [1; 2; 3; 4; 5; 6]))
    as (st' & Hrun & _ & _ & Hcopy & Hkeep).
  - split.
    + apply Array_header_dims_ok. vm_compute. reflexivity.
    + exists 0%nat. split; [reflexivity|]. simpl. lia.
  - apply Array_header_dims_ok. vm_compute. reflexivity.
  - reflexivity.
  - discriminate.
  - reflexivity.
  - apply (Array_header_dims_nonempty [2; 3]). vm_compute. reflexivity.
  - reflexivity.
  - vm_compute. discriminate.
  - reflexivity.
  - vm_compute. lia.
  - exists st'. split; [exact Hrun|]. split.
    + rewrite (Hcopy [1]); [reflexivity|].
      repeat constructor; lia.
    + rewrite (Hkeep [1; 2]); [reflexivity| |].
      * repeat constructor; lia.
      * intros s Hs. apply Forall2_length in Hs.
        destruct s as [|x [|y s]]; discriminate.
Defined.

(** * Indexing by an array of positions *)

Lemma Array_indices_spec {T} (T0 : T) (Z0 : Z) (fuel : nat) (st : store T) (stz : store Z)
    a indices l :
  array_ok stz indices -> buffsp_ a = Some l -> (l < length st)%nat ->
  (Z.to_nat (count_ (hdr_ indices)) <= fuel)%nat ->
  Array_indices T0 Z0 fuel st stz a indices
  = Done (st ++ [(fun s => nthZ T0 (default [] (data st a)) (Array_at Z0 stz indices s))
                   <$> row_major (dims_ (hdr_ indices))],
          {| hdr_ := Array_header_dims (dims_ (hdr_ indices));
             buffsp_ := Some (length st) |}).
Proof.
  intros Hok Hl Hlt Hfuel. pose proof Hok as [Hlay _].
  destruct (array_ok_numel stz indices Hok) as [Hnum Hcnt].
  pose proof (ok_dims _ Hlay) as Hpos. pose proof (ok_rank _ Hlay) as Hne.
  pose proof (ok_count _ Hlay) as Hc.
  unfold Array_indices.
  set (D := dims_ (hdr_ indices)) in *.
  destruct (Array_dims_fresh T0 st D ltac:(lia)) as (Hst & Hres & Hfresh).
  destruct (Array_dims T0 st D) as [st1 res]. cbn [fst snd] in Hst, Hres, Hfresh.
  set (value := fun s => nthZ T0 (default [] (data st a)) (Array_at Z0 stz indices s)).
  set (full := value <$> row_major D).
  assert (length full = Z.to_nat (prod_list D)) as Hlen
    by (unfold full; rewrite length_fmap; apply length_row_major; assumption).
  set (n := Z.to_nat (prod_list D)) in *.
  set (it0 := Subscripts_iterator [] D []).
  set (body := fun '(iter, st') =>
                 (increment iter,
                  Array_set st' res (subs_ iter)
                    (nthZ T0 (default [] (data st' a))
                       (Array_at Z0 stz indices (subs_ iter))))).
  assert (forall k, (k <= n)%nat ->
            Nat.iter k body (it0, st1)
            = (walk it0 k, st ++ [take k full ++ replicate (length full - k) T0])) as Hiter.
  { induction k as [|k IH]; intros Hk.
    - simpl. rewrite Hst, Hlen, Nat.sub_0_r. reflexivity.
    - cbn [Nat.iter nat_rect]. fold (Nat.iter k body (it0, st1)).
      rewrite IH by lia. unfold body at 1. rewrite walk_S. f_equal.
      destruct (walk_default D k Hpos Hne) as [Hin _]. fold it0 in Hin.
      destruct (Hin ltac:(lia)) as [-> _].
      rewrite (data_app_l st _ a l) by assumption.
      apply (fill_write T0 st res D); try assumption.
      unfold full. rewrite list_lookup_fmap.
      rewrite <- (Nat2Z.id k) at 1. rewrite row_major_lookup by (try assumption; lia).
      reflexivity. }
  rewrite (while_do_iter _ body n fuel).
  - rewrite Hiter by lia. rewrite Hres. rewrite <- Hlen, fill_done. reflexivity.
  - lia.
  - intros k Hk. rewrite Hiter by lia.
    destruct (walk_default D k Hpos Hne) as [Hin _]. apply Hin. lia.
  - rewrite Hiter by lia.
    destruct (walk_default D n Hpos Hne) as [_ Hend]. apply Hend.
    pose proof (prod_list_pos _ Hpos). lia.
Qed.

(** X22. Indexing an array by a non-empty array of positions within its
    buffer returns a newly allocated contiguous array of the shape of the
    position array, whose element at each subscript tuple is the buffer
    element at the position found there. The positions are taken in the
    buffer as it is, whatever the offset and strides of the indexed array.
    The arrays that existed before read as before. *)
Theorem X22_index_by_positions {T} (T0 : T) (Z0 : Z) (fuel : nat) (st : store T)
    (stz : store Z) (A I : Array) (buf : list T) :
  array_ok stz I -> data st A = Some buf ->
  (forall s, in_bounds (dims_ (hdr_ I)) s -> 0 <= Array_at Z0 stz I s < psize buf) ->
  (Z.to_nat (count_ (hdr_ I)) <= fuel)%nat ->
  exists st' res,
    Array_indices T0 Z0 fuel st stz A I = Done (st', res)
    /\ buffsp_ res = Some (length st)
    /\ dims_ (hdr_ res) = dims_ (hdr_ I)
    /\ row_major_strides (dims_ (hdr_ res)) (strides_ (hdr_ res))
    /\ offset_ (hdr_ res) = 0
    /\ (forall s, in_bounds (dims_ (hdr_ I)) s ->
          Array_at T0 st' res s = nthZ T0 buf (Array_at Z0 stz I s))
    /\ elements T0 st' res = nthZ T0 buf <$> elements Z0 stz I
    /\ (forall X s, array_ok st X -> Array_at T0 st' X s = Array_at T0 st X s).
Proof.
  intros Hok Hdata _ Hfuel. pose proof Hok as [Hlay _].
  destruct (array_ok_numel stz I Hok) as [Hnum Hcnt].
  pose proof (ok_dims _ Hlay) as Hpos.
  assert (exists l, buffsp_ A = Some l /\ (l < length st)%nat) as (l & Hl & Hlt).
  { unfold data in Hdata. destruct (buffsp_ A) as [l|]; [|discriminate].
    exists l. split; [reflexivity|]. eapply lookup_lt_Some. exact Hdata. }
  set (D := dims_ (hdr_ I)) in *.
  destruct (Array_header_dims_nonempty D ltac:(lia)) as (Hd & Hs & _ & Hc & Ho & Hv).
  set (res := {| hdr_ := Array_header_dims D; buffsp_ := Some (length st) |}).
  assert (fresh_result st res D) as Hfresh.
  { unfold fresh_result, res. cbn [hdr_ buffsp_]. rewrite Hd. auto. }
  pose proof (Array_indices_spec T0 Z0 fuel st stz A I l Hok Hl Hlt Hfuel) as Hrun.
  rewrite Hdata in Hrun. cbn [default] in Hrun. fold D in Hrun. fold res in Hrun.
  eexists _, res. split; [exact Hrun|].
  split; [reflexivity|]. cbn [res hdr_]. rewrite Hd.
  split; [reflexivity|]. split; [assumption|]. split; [assumption|].
  split; [|split].
  - intros s Hs'.
    apply (Array_at_fresh_full T0 st res D
             (fun s => nthZ T0 buf (Array_at Z0 stz I s)) s Hfresh Hs').
  - rewrite (elements_fresh T0 st res D) by
      (try assumption; rewrite length_fmap; apply length_row_major; assumption).
    unfold elements. fold D. rewrite <- list_fmap_compose. reflexivity.
  - intros X s [_ (lx & Hbx & Hltx)]. apply (Array_at_app_l T0 st _ X lx); assumption.
Qed.

Lemma X22_index_by_positions_witness :
  let st := [[10; 11; 12; 13]] in
  let stz := [[3; 0; 3]] in
  let A := {| hdr_ := Array_header_dims [2; 2]; buffsp_ := Some 0%nat |} in
  let I := {| hdr_ := Array_header_dims [3]; buffsp_ := Some 0%nat |} in
  exists st' res,
    Array_indices 0 0 3 st stz A I = Done (st', res)
    /\ elements 0 st' res = [13; 10; 13].
Proof.
  intros st stz A I.
  destruct (X22_index_by_positions 0 0 3 st stz A I [10; 11; 12; 13])
    as (st' & res & Hrun & _ & _ & _ & _ & _ & Hel & _).
  - split.
    + apply Array_header_dims_ok. vm_compute. reflexivity.
    + exists 0%nat. split; [reflexivity|]. simpl. lia.
  - reflexivity.
  - intros s Hs. inversion Hs as [|d x ds xs Hx Hrest]; subst.
    inversion Hrest; subst.
    assert (x = 0 \/ x = 1 \/ x = 2) as [-> | [-> | ->]] by lia;
      vm_compute; split; congruence.
  - vm_compute. lia.
  - exists st', res. split; [exact Hrun|]. rewrite Hel. reflexivity.
Defined.

(** * Indexing by the positions find returns *)

(** The array of positions [find] returns when some element is accepted. *)
Lemma find_func_result {T} (T0 : T) (Z0 : Z) (fuel : nat) (st : store T) (stz : store Z)
    (A : Array) (func : T -> bool) :
  array_ok st A -> (Z.to_nat (count_ (hdr_ A)) <= fuel)%nat ->
  let position := subs2ind (offset_ (hdr_ A)) (strides_ (hdr_ A)) (dims_ (hdr_ A)) in
  let P := position <$> filter (fun s => func (Array_at T0 st A s) = true)
                          (row_major (dims_ (hdr_ A))) in
  P <> [] ->
  exists stz' idx,
    find_func T0 Z0 fuel st stz A func = Done (stz', idx)
    /\ array_ok stz' idx
    /\ dims_ (hdr_ idx) = [Z.of_nat (length P)]
    /\ elements Z0 stz' idx = P
    /\ count_ (hdr_ idx) <= count_ (hdr_ A).
Proof.
  intros Hok Hfuel position P HPe. pose proof Hok as [Hl _].
  pose proof (ok_dims _ Hl) as Hpos. pose proof (ok_rank _ Hl) as Hne.
  pose proof (ok_count _ Hl) as Hc.
  set (D := dims_ (hdr_ A)) in *.
  pose proof (prod_list_pos _ Hpos) as HP.
  pose proof (select_spec Z0 fuel stz D
                (fun _ subs => func (Array_at T0 st A subs))
                (fun _ subs => position subs)
                (fun subs => func (Array_at T0 st A subs))
                position Hpos Hne
                ltac:(reflexivity) ltac:(reflexivity) ltac:(rewrite <- Hc; exact Hfuel))
    as Hsel.
  cbv beta zeta in Hsel. fold P in Hsel.
  match type of Hsel with
  | _ = ?rhs => assert (find_func T0 Z0 fuel st stz A func = rhs) as Hrun
  end.
  { unfold find_func. rewrite (array_ok_not_empty st A Hok). fold D. rewrite Hc.
    exact Hsel. }
  clear Hsel.
  set (n := Z.to_nat (prod_list D)) in *.
  set (full := P ++ replicate (n - length P) Z0) in *.
  assert (length P <= n)%nat as HlenP.
  { unfold P, n. rewrite length_fmap. etransitivity; [apply length_filter|].
    rewrite length_row_major by assumption. lia. }
  destruct (decide (P = [])) as [|_]; [contradiction|].
  assert (0 < length P)%nat as HlP by (destruct P; [congruence|simpl; lia]).
  destruct (decide (length P < n)%nat) as [Hlt'|Hge].
  - eexists _, _. split; [exact Hrun|].
    assert (0 < numel [Z.of_nat (length P)]) as Hn1 by (rewrite numel_single; lia).
    destruct (Array_header_dims_nonempty [Z.of_nat (length P)] Hn1)
      as (Hd & _ & _ & Hcnt & _).
    cbn [hdr_ buffsp_]. split; [|split; [exact Hd|split]].
    + split; [apply Array_header_dims_ok; exact Hn1|].
      eexists. split; [reflexivity|]. rewrite !length_app. simpl. lia.
    + apply (elements_fresh Z0 (stz ++ [full]) _ [Z.of_nat (length P)]).
      * apply fresh_Array_header_dims. exact Hn1.
      * repeat constructor. lia.
      * simpl. lia.
    + rewrite Hcnt, numel_single by lia. unfold n in *. lia.
  - eexists _, _. split; [exact Hrun|].
    assert (0 < numel [prod_list D]) as Hn1 by (rewrite numel_single; lia).
    destruct (Array_header_dims_nonempty [prod_list D] Hn1) as (Hd & _ & _ & Hcnt & _).
    cbn [hdr_ buffsp_]. split; [|split; [rewrite Hd; f_equal; unfold n in *; lia|split]].
    + split; [apply Array_header_dims_ok; exact Hn1|].
      eexists. split; [reflexivity|]. rewrite !length_app. simpl. lia.
    + apply (elements_fresh Z0 stz _ [prod_list D]).
      * apply fresh_Array_header_dims. exact Hn1.
      * repeat constructor. lia.
      * simpl. unfold n in *. lia.
    + rewrite Hcnt, numel_single by lia. lia.
Qed.

(** X23. Indexing a non-empty array by the positions [find] returns for a
    predicate gives, as a newly allocated 1-D array, the elements the
    predicate accepts, in default order: the elements [filter] keeps. This
    holds for a view too, the positions being those in the shared buffer. *)
Theorem X23_find_then_index {T} (T0 : T) (Z0 : Z) (fuel : nat) (st : store T)
    (stz : store Z) (A : Array) (func : T -> bool) :
  array_ok st A -> (Z.to_nat (count_ (hdr_ A)) <= fuel)%nat ->
  let F := filter (fun x => func x = true) (elements T0 st A) in
  F <> [] ->
  exists stz' idx st' res,
    find_func T0 Z0 fuel st stz A func = Done (stz', idx)
    /\ Array_indices T0 Z0 fuel st stz' A idx = Done (st', res)
    /\ dims_ (hdr_ res) = [Z.of_nat (length F)]
    /\ elements T0 st' res = F.
Proof.
  intros Hok Hfuel F HFe. pose proof Hok as [Hl (l & Hbuf & Hlt)].
  pose proof (ok_dims _ Hl) as Hpos.
  set (D := dims_ (hdr_ A)) in *.
  set (position := subs2ind (offset_ (hdr_ A)) (strides_ (hdr_ A)) D).
  set (kept := filter (fun s => func (Array_at T0 st A s) = true) (row_major D)).
  assert (F = Array_at T0 st A <$> kept) as HF.
  { unfold F, elements, kept. fold D. apply (filter_fmap_bool (Array_at T0 st A) func). }
  assert (length (position <$> kept) = length F) as Hlen
    by (rewrite HF, !length_fmap; reflexivity).
  destruct (find_func_result T0 Z0 fuel st stz A func Hok Hfuel)
    as (stz' & idx & Hfind & Hokz & Hdz & Helz & Hcz).
  { fold D. fold position. fold kept. intros He. apply HFe.
    rewrite HF. apply fmap_nil_inv in He. rewrite He. reflexivity. }
  fold D in Hdz, Helz. fold position in Hdz, Helz. fold kept in Hdz, Helz.
  rewrite Hlen in Hdz.
  pose proof (Array_indices_spec T0 Z0 fuel st stz' A idx l Hokz Hbuf Hlt ltac:(lia)) as Hrun.
  rewrite Hdz in Hrun.
  assert (0 < length F)%nat as HlF by (destruct F; [congruence|simpl; lia]).
  assert (0 < numel [Z.of_nat (length F)]) as Hn1 by (rewrite numel_single; lia).
  destruct (Array_header_dims_nonempty [Z.of_nat (length F)] Hn1) as (Hd & _).
  eexists stz', idx, _, _. split; [exact Hfind|]. split; [exact Hrun|].
  cbn [hdr_]. split; [exact Hd|].
  rewrite (elements_fresh T0 st _ [Z.of_nat (length F)]).
  - rewrite (list_fmap_compose (Array_at Z0 stz' idx)
               (fun i => nthZ T0 (default [] (data st A)) i)).
    rewrite <- Hdz. change (Array_at Z0 stz' idx <$> row_major (dims_ (hdr_ idx)))
      with (elements Z0 stz' idx).
    rewrite Helz, HF, <- list_fmap_compose. reflexivity.
  - apply fresh_Array_header_dims. exact Hn1.
  - repeat constructor. lia.
  - rewrite length_fmap, length_row_major by (repeat constructor; lia). simpl. lia.
Qed.

Lemma X23_find_then_index_witness :
  let st := [[5; 2; 7; 4; 9; 6]] in
  let A := {| hdr_ := Array_header_slice [2; 3] [3; 1] 0
                        [{| start := 0; stop := 1; step := 1 |};
                         {| start := 1; stop := 2; step := 1 |}];
              buffsp_ := Some 0%nat |} in
  exists stz' idx st' res,
    find_func 0 0 4 st [] A (fun x => 5 <? x) = Done (stz', idx)
    /\ Array_indices 0 0 4 st stz' A idx = Done (st', res)
    /\ elements 0 st' res = [7; 9; 6].
Proof.
  intros st A.
  destruct (X23_find_then_index 0 0 4 st [] A (fun x => 5 <? x))
    as (stz' & idx & st' & res & Hfind & Hrun & _ & Hel).
  - split.
    + apply layout_ok_intro; vm_compute; try reflexivity; try discriminate.
    + exists 0%nat. split; [reflexivity|]. simpl. lia.
  - vm_compute. lia.
  - vm_compute. discriminate.
  - exists stz', idx, st', res. split; [exact Hfind|]. split; [exact Hrun|].
    rewrite Hel. reflexivity.
Defined.

(** * Assigning a value *)

(** X24. Assigning a value to an empty array does nothing. Assigning it to
    a non-empty array whose elements lie within its buffer makes every
    element of the array read as the value, and changes nothing else: an
    element of any handle reads as before unless the handle shares the
    buffer and the element lies at the position of an element of the array.
    So a value assigned to a view is written to the elements of the parent
    the view selects, and to no other. *)
Theorem X24_assign_value {T} (T0 : T) (fuel : nat) (st : store T) (A : Array) (value : T)
    (l : nat) (buf : list T) :
  (empty st A = true -> Array_assign_value fuel st A value = Done st)
  /\ (layout_ok (hdr_ A) -> buffsp_ A = Some l -> st !! l = Some buf ->
      (forall s, in_bounds (dims_ (hdr_ A)) s ->
         0 <= subs2ind (offset_ (hdr_ A)) (strides_ (hdr_ A)) (dims_ (hdr_ A)) s
           < psize buf) ->
      (Z.to_nat (count_ (hdr_ A)) <= fuel)%nat ->
      exists st',
        Array_assign_value fuel st A value = Done st'
        /\ length st' = length st
        /\ (forall s, in_bounds (dims_ (hdr_ A)) s -> Array_at T0 st' A s = value)
        /\ (forall X t,
              (buffsp_ X = Some l ->
               forall s, in_bounds (dims_ (hdr_ A)) s ->
                 subs2ind (offset_ (hdr_ X)) (strides_ (hdr_ X)) (dims_ (hdr_ X)) t
                 <> subs2ind (offset_ (hdr_ A)) (strides_ (hdr_ A)) (dims_ (hdr_ A)) s) ->
              Array_at T0 st' X t = Array_at T0 st X t)).
Proof.
  split.
  { intros He. unfold Array_assign_value. rewrite He. reflexivity. }
  intros Hlay Hl Hbuf Hrange Hfuel.
  pose proof (ok_dims _ Hlay) as Hpos. pose proof (ok_rank _ Hlay) as Hne.
  pose proof (lookup_lt_Some _ _ _ Hbuf) as Hlt.
  assert (array_ok st A) as Hok by (split; [assumption|]; exists l; auto).
  rewrite (ok_count _ Hlay) in Hfuel.
  set (D := dims_ (hdr_ A)) in *.
  pose proof (prod_list_pos _ Hpos) as HP.
  set (P := fun s => subs2ind (offset_ (hdr_ A)) (strides_ (hdr_ A)) D s).
  set (B := fun k => foldl (fun b s => updZ b (P s) value) buf k).
  set (n := Z.to_nat (prod_list D)) in *.
  set (it0 := Subscripts_iterator [] D []).
  set (body := fun '(iter, s) => (increment iter, Array_set s A (subs_ iter) value)).
  assert (length (row_major D) = n) as Hlen by (apply length_row_major; assumption).
  assert (forall k, (k <= n)%nat ->
            Nat.iter k body (it0, st)
            = (walk it0 k, <[l := B (take k (row_major D))]> st)) as Hiter.
  { induction k as [|k IH]; intros Hk.
    - simpl. unfold B. simpl. rewrite list_insert_id by assumption. reflexivity.
    - cbn [Nat.iter nat_rect]. fold (Nat.iter k body (it0, st)).
      rewrite IH by lia. unfold body at 1. rewrite walk_S. f_equal.
      destruct (walk_default D k Hpos Hne) as [Hin _]. fold it0 in Hin.
      destruct (Hin ltac:(lia)) as [-> _].
      rewrite Array_set_insert by assumption. f_equal.
      assert (row_major D !! k = Some (unrank D (Z.of_nat k))) as Hk'.
      { rewrite <- (Nat2Z.id k) at 1. apply row_major_lookup; [assumption|lia]. }
      rewrite (take_S_r _ _ _ Hk'). unfold B. rewrite foldl_app. reflexivity. }
  exists (<[l := B (row_major D)]> st).
  assert (Array_assign_value fuel st A value = Done (<[l := B (row_major D)]> st)) as Hrun.
  { unfold Array_assign_value. rewrite (array_ok_not_empty st A Hok). fold D.
    change (while_do fuel _ _ (Subscripts_iterator [] D [], st))
      with (while_do fuel (fun '(iter, s) => in_range iter) body (it0, st)).
    rewrite (while_do_iter _ body n fuel).
    - rewrite Hiter by lia. rewrite <- Hlen, firstn_all. reflexivity.
    - lia.
    - intros k Hk. rewrite Hiter by lia.
      destruct (walk_default D k Hpos Hne) as [Hin _]. apply Hin. lia.
    - rewrite Hiter by lia.
      destruct (walk_default D n Hpos Hne) as [_ Hend]. apply Hend. lia. }
  split; [exact Hrun|]. split; [apply length_insert|].
  split.
  - intros s Hs.
    rewrite Array_at_insert_eq by assumption. fold D. fold (P s).
    unfold B. apply (foldl_updZ_hit T0 P (fun _ => value)).
    + eapply list_elem_of_lookup_2. apply row_major_lookup_lin. assumption.
    + reflexivity.
    + apply Hrange. assumption.
  - intros X t Hout. destruct (decide (buffsp_ X = Some l)) as [HX|HX].
    + rewrite Array_at_insert_eq by assumption.
      unfold B. rewrite (foldl_updZ_miss T0 P (fun _ => value)).
      * unfold Array_at, data. rewrite HX, Hbuf. reflexivity.
      * intros y Hy Heq. apply list_elem_of_lookup_1 in Hy as [i Hi].
        apply row_major_lookup_inv in Hi as [Hby _]; [|assumption].
        apply (Hout HX y Hby). symmetry. exact Heq.
    + apply Array_at_insert_ne. assumption.
Qed.

Lemma X24_assign_value_witness :
  let st := [[1; 2; 3; 4; 5]] in
  let parent := {| hdr_ := Array_header_dims [5]; buffsp_ := Some 0%nat |} in
  let view := Array_slice st parent [{| start := 1; stop := 3; step := 2 |}] in
  exists st',
    Array_assign_value 2 st view 9 = Done st'
    /\ elements 0 st' parent = [1; 9; 3; 9; 5].
Proof.
  intros st parent view.
  destruct (proj2 (X24_assign_value 0 2 st view 9 0%nat [1; 2; 3; 4; 5]))
    as (st' & Hrun & _ & Hset & Hkeep).
  - apply layout_ok_intro; vm_compute; try reflexivity; try discriminate.
  - reflexivity.
  - reflexivity.
  - intros s Hs. change (dims_ (hdr_ view)) with [2] in Hs.
    inversion Hs as [|d x ds xs Hx Hrest]; subst. inversion Hrest; subst.
    assert (x = 0 \/ x = 1) as [-> | ->] by lia; vm_compute; split; congruence.
  - vm_compute. lia.
  - exists st'. split; [exact Hrun|].
    assert (forall x, 0 <= x < 2 -> in_bounds (dims_ (hdr_ view)) [x]) as Hin.
    { intros x Hx. change (dims_ (hdr_ view)) with [2]. repeat constructor; lia. }
    assert (forall t, t = 0 \/ t = 2 \/ t = 4 ->
              Array_at 0 st' parent [t] = Array_at 0 st parent [t]) as Hsame.
    { intros t Ht. apply Hkeep. intros _ s Hs.
      change (dims_ (hdr_ view)) with [2] in Hs.
      inversion Hs as [|d x ds xs Hx Hrest]; subst. inversion Hrest; subst.
      assert (x = 0 \/ x = 1) as [-> | ->] by lia;
        destruct Ht as [-> | [-> | ->]]; vm_compute; congruence. }
    assert (Array_at 0 st' parent [1] = Array_at 0 st' view [0]) as Hv1 by reflexivity.
    assert (Array_at 0 st' parent [3] = Array_at 0 st' view [1]) as Hv3 by reflexivity.
    unfold elements.
    change (row_major (dims_ (hdr_ parent))) with [[0]; [1]; [2]; [3]; [4]].
    cbn [fmap list_fmap].
    rewrite (Hsame 0), (Hsame 2), (Hsame 4) by lia.
    rewrite Hv1, Hv3.
    rewrite !Hset by (apply Hin; lia). reflexivity.
Defined.

(** * filter and find by a mask *)

(** A loop whose state carries a component the other loop lacks runs as the
    other loop does. *)
Lemma while_do_proj {S1 S2} (proj : S1 -> S2) (Inv : S1 -> Prop)
    (c1 : S1 -> bool) (b1 : S1 -> S1) (c2 : S2 -> bool) (b2 : S2 -> S2) :
  (forall s, Inv s -> c1 s = c2 (proj s)) ->
  (forall s, Inv s -> Inv (b1 s) /\ proj (b1 s) = b2 (proj s)) ->
  forall fuel s, Inv s ->
    proj <$> while_do fuel c1 b1 s = while_do fuel c2 b2 (proj s).
Proof.
  intros Hc Hb. induction fuel as [|fuel IH]; intros s Hs; simpl.
  - rewrite <- (Hc s Hs). destruct (c1 s); reflexivity.
  - rewrite <- (Hc s Hs). destruct (c1 s); [|reflexivity].
    destruct (Hb s Hs) as [Hinv <-]. apply IH. exact Hinv.
Qed.

(** Over a mask of the array's shape the two cursors agree, and the loop is
    that of the selection by a predicate on the subscripts. *)
Lemma select_mask_loop_eq {R} (fuel : nat) (str : store R) res dims
    (mask : list Z -> bool) (value : store R -> list Z -> R) :
  select_mask_loop fuel str res dims dims mask value
  = select_loop fuel str res dims (fun _ s => mask s) value.
Proof.
  unfold select_mask_loop, select_loop.
  set (c1 := fun '(arr_ndstor, mask_ndstor, res_ndstor, res_count, s) =>
               in_range arr_ndstor && in_range mask_ndstor && in_range res_ndstor).
  set (b1 := fun '(arr_ndstor, mask_ndstor, res_ndstor, res_count, s) =>
               if mask (subs_ mask_ndstor) then
                 (increment arr_ndstor, increment mask_ndstor, increment res_ndstor,
                  res_count + 1,
                  Array_set s res (subs_ res_ndstor) (value s (subs_ arr_ndstor)))
               else (increment arr_ndstor, increment mask_ndstor, res_ndstor, res_count, s)).
  set (c2 := fun '(arr_ndstor, res_ndstor, res_count, s) =>
               in_range arr_ndstor && in_range res_ndstor).
  set (b2 := fun '(arr_ndstor, res_ndstor, res_count, s) =>
               if mask (subs_ arr_ndstor) then
                 (increment arr_ndstor, increment res_ndstor, res_count + 1,
                  Array_set s res (subs_ res_ndstor) (value s (subs_ arr_ndstor)))
               else (increment arr_ndstor, res_ndstor, res_count, s)).
  set (proj := fun x : Array_subscripts_iterator * Array_subscripts_iterator
                      * Array_subscripts_iterator * Z * store R =>
                 let '(a, m, r, c, s) := x in (a, r, c, s)).
  set (Inv := fun x : Array_subscripts_iterator * Array_subscripts_iterator
                     * Array_subscripts_iterator * Z * store R =>
                let '(a, m, r, c, s) := x in m = a).
  set (it := Subscripts_iterator [] dims []).
  set (rit := Subscripts_iterator [] (dims_ (hdr_ res)) []).
  pose proof (while_do_proj proj Inv c1 b1 c2 b2) as Hsim.
  specialize (Hsim
    ltac:(intros [[[[a m] r] c] s] Hm; simpl in Hm; subst m; simpl;
          destruct (in_range a); reflexivity)
    ltac:(intros [[[[a m] r] c] s] Hm; simpl in Hm; subst m; simpl;
          destruct (mask (subs_ a)); simpl; split; reflexivity)
    fuel (it, it, rit, 0, str) ltac:(reflexivity)).
  change (proj (it, it, rit, 0, str)) with (it, rit, 0, str) in Hsim.
  rewrite <- Hsim.
  destruct (while_do fuel c1 b1 (it, it, rit, 0, str)) as [[[[[a m] r] c] s]|]; reflexivity.
Qed.

(** What the selection returns, for a predicate and a value that do not
    depend on the buffers allocated after [str]. *)
Lemma select_result {R} (R0 : R) (fuel : nat) (str : store R) dims
    (keep : store R -> list Z -> bool) (value : store R -> list Z -> R)
    (keep0 : list Z -> bool) (value0 : list Z -> R) :
  Forall (fun d => 0 < d) dims -> dims <> [] ->
  (forall buf s, keep (str ++ [buf]) s = keep0 s) ->
  (forall buf s, value (str ++ [buf]) s = value0 s) ->
  (Z.to_nat (prod_list dims) <= fuel)%nat ->
  let F := value0 <$> filter (fun s => keep0 s = true) (row_major dims) in
  exists str' res,
    (let '(str1, res) := Array_dims R0 str [prod_list dims] in
     match select_loop fuel str1 res dims keep value with
     | None => OutOfFuel
     | Some (res_count, str1) =>
         if res_count =? 0 then Done (str1, Array_default)
         else if res_count <? prod_list dims then resize R0 fuel str1 res [res_count]
         else Done (str1, res)
     end) = Done (str', res)
    /\ (forall X s, array_ok str X -> Array_at R0 str' X s = Array_at R0 str X s)
    /\ (F = [] -> res = Array_default)
    /\ (F <> [] ->
        dims_ (hdr_ res) = [Z.of_nat (length F)]
        /\ elements R0 str' res = F
        /\ exists l, buffsp_ res = Some l /\ (length str <= l)%nat).
Proof.
  intros Hpos Hne Hkeep Hvalue Hfuel F.
  pose proof (prod_list_pos _ Hpos) as HP.
  pose proof (select_spec R0 fuel str dims keep value keep0 value0
                Hpos Hne Hkeep Hvalue Hfuel) as Hrun.
  cbv beta zeta in Hrun. fold F in Hrun.
  set (n := Z.to_nat (prod_list dims)) in *.
  set (full := F ++ replicate (n - length F) R0) in *.
  assert (length F <= n)%nat as HlenF.
  { unfold F, n. rewrite length_fmap. etransitivity; [apply length_filter|].
    rewrite length_row_major by assumption. lia. }
  destruct (decide (F = [])) as [HFe|HFe].
  { exists (str ++ [full]), Array_default. split; [exact Hrun|]. split.
    - intros X s [_ (lx & Hbx & Hltx)]. apply (Array_at_app_l R0 str _ X lx); assumption.
    - split; [reflexivity|]. intros; contradiction. }
  assert (0 < length F)%nat as HlF by (destruct F; [congruence|simpl; lia]).
  destruct (decide (length F < n)%nat) as [Hlt'|Hge].
  - eexists _, _. split; [exact Hrun|]. split.
    + intros X s [_ (lx & Hbx & Hltx)].
      rewrite (Array_at_app_l R0 (str ++ [full]) _ X lx)
        by (try assumption; rewrite length_app; lia).
      apply (Array_at_app_l R0 str _ X lx); assumption.
    + split; [intros; contradiction|]. intros _.
      assert (0 < numel [Z.of_nat (length F)]) as Hn1 by (rewrite numel_single; lia).
      destruct (Array_header_dims_nonempty [Z.of_nat (length F)] Hn1) as (Hd & _).
      cbn [hdr_ buffsp_]. split; [exact Hd|]. split.
      * apply (elements_fresh R0 (str ++ [full]) _ [Z.of_nat (length F)]).
        -- apply fresh_Array_header_dims. exact Hn1.
        -- repeat constructor. lia.
        -- simpl. lia.
      * eexists. split; [reflexivity|]. rewrite length_app. lia.
  - eexists _, _. split; [exact Hrun|]. split.
    + intros X s [_ (lx & Hbx & Hltx)]. apply (Array_at_app_l R0 str _ X lx); assumption.
    + split; [intros; contradiction|]. intros _.
      assert (0 < numel [prod_list dims]) as Hn1 by (rewrite numel_single; lia).
      destruct (Array_header_dims_nonempty [prod_list dims] Hn1) as (Hd & _).
      cbn [hdr_ buffsp_]. split; [rewrite Hd; f_equal; unfold n in *; lia|]. split.
      * apply (elements_fresh R0 str _ [prod_list dims]).
        -- apply fresh_Array_header_dims. exact Hn1.
        -- repeat constructor. lia.
        -- simpl. unfold n in *. lia.
      * eexists. split; [reflexivity|]. lia.
Qed.

(** X25. [filter] by a mask returns an empty array for an empty array,
    whatever the mask; throws [invalid_argument] when the mask's shape is
    not that of the non-empty array; and otherwise returns, as a newly
    allocated 1-D array, the elements whose mask element at the same
    subscripts converts to true, in default order, or an empty array when
    there is none. The arrays that existed before read as before. *)
Theorem X25_filter_mask {T1 T2} (T10 : T1) (T20 : T2) (to_bool : T2 -> bool) (fuel : nat)
    (st : store T1) (stm : store T2) (A M : Array) :
  (empty st A = true ->
   filter_mask T10 T20 to_bool fuel st stm A M = Done (st, Array_default))
  /\ (empty st A = false -> dims_ (hdr_ A) <> dims_ (hdr_ M) ->
      filter_mask T10 T20 to_bool fuel st stm A M = Throw invalid_argument)
  /\ (array_ok st A -> dims_ (hdr_ M) = dims_ (hdr_ A) ->
      (Z.to_nat (count_ (hdr_ A)) <= fuel)%nat ->
      let F := Array_at T10 st A
                 <$> filter (fun s => to_bool (Array_at T20 stm M s) = true)
                       (row_major (dims_ (hdr_ A))) in
      exists st' res,
        filter_mask T10 T20 to_bool fuel st stm A M = Done (st', res)
        /\ (forall X s, array_ok st X -> Array_at T10 st' X s = Array_at T10 st X s)
        /\ (F = [] -> res = Array_default)
        /\ (F <> [] ->
            dims_ (hdr_ res) = [Z.of_nat (length F)]
            /\ elements T10 st' res = F
            /\ exists l, buffsp_ res = Some l /\ (length st <= l)%nat)).
Proof.
  split; [|split].
  { intros He. unfold filter_mask. rewrite He. reflexivity. }
  { intros He Hne. unfold filter_mask. rewrite He.
    rewrite bool_decide_eq_false_2 by assumption. reflexivity. }
  intros Hok HdM Hfuel F. pose proof Hok as [Hl (l & Hbuf & Hlt)].
  pose proof (ok_dims _ Hl) as Hpos. pose proof (ok_rank _ Hl) as Hne.
  pose proof (ok_count _ Hl) as Hc.
  destruct (select_result T10 fuel st (dims_ (hdr_ A))
              (fun _ subs => to_bool (Array_at T20 stm M subs))
              (fun st' subs => Array_at T10 st' A subs)
              (fun subs => to_bool (Array_at T20 stm M subs))
              (Array_at T10 st A) Hpos Hne
              ltac:(reflexivity)
              ltac:(intros buf s; apply (Array_at_app_l T10 st _ A l); assumption)
              ltac:(rewrite <- Hc; exact Hfuel))
    as (st' & res & Hrun & Hrest).
  exists st', res. split; [|exact Hrest].
  rewrite <- Hrun. unfold filter_mask. rewrite (array_ok_not_empty st A Hok).
  rewrite HdM, bool_decide_eq_true_2 by reflexivity. cbn [negb]. rewrite Hc.
  destruct (Array_dims T10 st [prod_list (dims_ (hdr_ A))]) as [st1 res1].
  rewrite select_mask_loop_eq. reflexivity.
Qed.

Lemma X25_filter_mask_witness :
  let st := [[5; 2; 7; 4; 9; 6]] in
  let stm := [[true; false; false; true; true; false]] in
  let A := {| hdr_ := Array_header_dims [2; 3]; buffsp_ := Some 0%nat |} in
  let M := {| hdr_ := Array_header_dims [2; 3]; buffsp_ := Some 0%nat |} in
  exists st' res,
    filter_mask 0 false (fun b : bool => b) 6 st stm A M = Done (st', res)
    /\ dims_ (hdr_ res) = [3]
    /\ elements 0 st' res = [5; 4; 9]
    /\ filter_mask 0 false (fun b : bool => b) 6 st stm A
         {| hdr_ := Array_header_dims [3; 2]; buffsp_ := Some 0%nat |}
       = Throw invalid_argument.
Proof.
  intros st stm A M.
  pose proof (X25_filter_mask 0 false (fun b : bool => b) 6 st stm A M) as (_ & _ & H).
  destruct H as (st' & res & Hrun & _ & _ & Hres).
  - split.
    + apply Array_header_dims_ok. vm_compute. reflexivity.
    + exists 0%nat. split; [reflexivity|]. simpl. lia.
  - reflexivity.
  - vm_compute. lia.
  - destruct Hres as (Hd & Hel & _); [vm_compute; discriminate|].
    exists st', res. split; [exact Hrun|]. split; [exact Hd|]. split; [exact Hel|].
    apply (X25_filter_mask 0 false (fun b : bool => b) 6 st stm A).
    + reflexivity.
    + vm_compute. discriminate.
Defined.

(** X26. [find] by a mask returns an empty array for an empty array; throws
    [invalid_argument] when the mask's shape is not that of the non-empty
    array; and otherwise returns, as a newly allocated 1-D array, the flat
    buffer positions, under the array's own offset and strides, of the
    elements whose mask element at the same subscripts converts to true, in
    default order, or an empty array when there is none. *)
Theorem X26_find_mask {T1 T2} (T20 : T2) (to_bool : T2 -> bool) (Z0 : Z)
    (fuel : nat) (st : store T1) (stm : store T2) (stz : store Z) (A M : Array) :
  (empty st A = true ->
   find_mask T20 to_bool Z0 fuel st stm stz A M = Done (stz, Array_default))
  /\ (empty st A = false -> dims_ (hdr_ A) <> dims_ (hdr_ M) ->
      find_mask T20 to_bool Z0 fuel st stm stz A M = Throw invalid_argument)
  /\ (array_ok st A -> dims_ (hdr_ M) = dims_ (hdr_ A) ->
      (Z.to_nat (count_ (hdr_ A)) <= fuel)%nat ->
      let position :=
        subs2ind (offset_ (hdr_ A)) (strides_ (hdr_ A)) (dims_ (hdr_ A)) in
      let kept := filter (fun s => to_bool (Array_at T20 stm M s) = true)
                    (row_major (dims_ (hdr_ A))) in
      exists stz' res,
        find_mask T20 to_bool Z0 fuel st stm stz A M = Done (stz', res)
        /\ (kept = [] -> res = Array_default)
        /\ (kept <> [] ->
            dims_ (hdr_ res) = [Z.of_nat (length kept)]
            /\ elements Z0 stz' res = position <$> kept
            /\ exists l, buffsp_ res = Some l /\ (length stz <= l)%nat)).
Proof.
  split; [|split].
  { intros He. unfold find_mask. rewrite He. reflexivity. }
  { intros He Hne. unfold find_mask. rewrite He.
    rewrite bool_decide_eq_false_2 by assumption. reflexivity. }
  intros Hok HdM Hfuel position kept. pose proof Hok as [Hl _].
  pose proof (ok_dims _ Hl) as Hpos. pose proof (ok_rank _ Hl) as Hne.
  pose proof (ok_count _ Hl) as Hc.
  destruct (select_result Z0 fuel stz (dims_ (hdr_ A))
              (fun _ subs => to_bool (Array_at T20 stm M subs))
              (fun _ subs => position subs)
              (fun subs => to_bool (Array_at T20 stm M subs))
              position Hpos Hne
              ltac:(reflexivity) ltac:(reflexivity)
              ltac:(rewrite <- Hc; exact Hfuel))
    as (stz' & res & Hrun & _ & Hnone & Hsome).
  cbv zeta in Hnone, Hsome. fold kept in Hnone, Hsome.
  exists stz', res. split; [|split].
  - rewrite <- Hrun. unfold find_mask. rewrite (array_ok_not_empty st A Hok).
    rewrite HdM, bool_decide_eq_true_2 by reflexivity. cbn [negb]. rewrite Hc.
    destruct (Array_dims Z0 stz [prod_list (dims_ (hdr_ A))]) as [st1 res1].
    rewrite select_mask_loop_eq. reflexivity.
  - intros Hk. apply Hnone. rewrite Hk. reflexivity.
  - intros Hk. rewrite length_fmap in Hsome. apply Hsome.
    intros He. apply fmap_nil_inv in He. contradiction.
Qed.

Lemma X26_find_mask_witness :
  let st := [[5; 2; 7; 4; 9; 6]] in
  let stm := [[false; true; true; true]] in
  let A := {| hdr_ := Array_header_slice [2; 3] [3; 1] 0
                        [{| start := 0; stop := 1; step := 1 |};
                         {| start := 1; stop := 2; step := 1 |}];
              buffsp_ := Some 0%nat |} in
  let M := {| hdr_ := Array_header_dims [2; 2]; buffsp_ := Some 0%nat |} in
  exists stz' res,
    find_mask false (fun b : bool => b) 0 4 st stm [] A M = Done (stz', res)
    /\ elements 0 stz' res = [2; 4; 5].
Proof.
  intros st stm A M.
  pose proof (X26_find_mask false (fun b : bool => b) 0 4 st stm [] A M) as (_ & _ & H).
  destruct H as (stz' & res & Hrun & _ & Hres).
  - split.
    + apply layout_ok_intro; vm_compute; try reflexivity; try discriminate.
    + exists 0%nat. split; [reflexivity|]. simpl. lia.
  - reflexivity.
  - vm_compute. lia.
  - destruct Hres as (_ & Hel & _); [vm_compute; discriminate|].
    exists stz', res. split; [exact Hrun|]. rewrite Hel. reflexivity.
Defined.

(** * Inserting into the flattened array *)

(** An element read depends on the buffer of the handle only. *)
Lemma Array_at_same_buffer {T} (T0 : T) (st st' : store T) a l s :
  buffsp_ a = Some l -> st' !! l = st !! l -> Array_at T0 st' a s = Array_at T0 st a s.
Proof. intros Hl Heq. unfold Array_at, data. rewrite Hl, Heq. reflexivity. Qed.

Lemma elements_1d_nthZ {T} (T0 : T) (st : store T) a c i :
  dims_ (hdr_ a) = [c] -> 0 <= i < c ->
  nthZ T0 (elements T0 st a) i = Array_at T0 st a [i].
Proof.
  intros Hd Hi. rewrite <- (Z2Nat.id i) at 1 by lia. apply nthZ_lookup.
  unfold elements. rewrite Hd, row_major_single, <- list_fmap_compose, list_lookup_fmap.
  rewrite lookup_seqZ_lt by lia. simpl. rewrite Z2Nat.id by lia. reflexivity.
Qed.

(** [reshape] to one axis: the result is the array itself, a header over its
    buffer, or a copy in a new buffer; its element at [i] is the [i]-th
    element of the array in default order. *)
Lemma reshape_flat {T} (T0 : T) (fuel : nat) (st : store T) (H : Array) :
  array_ok st H ->
  is_subarray_ (hdr_ H) = true
    \/ (row_major_strides (dims_ (hdr_ H)) (strides_ (hdr_ H)) /\ offset_ (hdr_ H) = 0) ->
  (Z.to_nat (count_ (hdr_ H)) <= fuel)%nat ->
  exists ext r lr,
    reshape T0 fuel st H [count_ (hdr_ H)] = Done (st ++ ext, r)
    /\ buffsp_ r = Some lr
    /\ (buffsp_ r = buffsp_ H /\ ext = [] \/ lr = length st /\ length ext = 1%nat)
    /\ forall i, 0 <= i < count_ (hdr_ H) ->
         Array_at T0 (st ++ ext) r [i] = nthZ T0 (elements T0 st H) i.
Proof.
  intros Hok Hlay Hfuel. pose proof Hok as [Hl (l & Hbuf & Hlt)].
  destruct (array_ok_numel st H Hok) as [Hnum Hcnt].
  pose proof (ok_dims _ Hl) as Hpos. pose proof (ok_count _ Hl) as Hc.
  set (c := count_ (hdr_ H)) in *.
  assert (numel [c] = c) as Hn1 by (apply numel_single; assumption).
  assert (0 < numel [c]) as Hnn by lia.
  destruct (Array_header_dims_nonempty [c] Hnn) as (Hd & Hrm' & Hu' & Hc' & Ho' & _).
  assert (forall ext r,
            dims_ (hdr_ r) = [c] -> elements T0 (st ++ ext) r = elements T0 st H ->
            forall i, 0 <= i < c ->
              Array_at T0 (st ++ ext) r [i] = nthZ T0 (elements T0 st H) i) as Hread.
  { intros ext r Hdr Hel i Hi. rewrite <- Hel. symmetry.
    apply (elements_1d_nthZ T0 _ r c); assumption. }
  destruct (decide (dims_ (hdr_ H) = [c])) as [Heq|Hneq].
  { exists [], H, l. rewrite app_nil_r. split; [|split; [assumption|split; [left; auto|]]].
    - unfold reshape. rewrite (array_ok_not_empty st H Hok). fold c.
      destruct (Z.eqb_spec c (numel [c])); [|lia]. cbn [negb].
      rewrite bool_decide_eq_true_2 by assumption. reflexivity.
    - intros i Hi. symmetry. apply (elements_1d_nthZ T0 st H c); assumption. }
  destruct (is_subarray_ (hdr_ H)) eqn:Hview.
  - exists [elements T0 st H],
      {| hdr_ := Array_header_dims [c]; buffsp_ := Some (length st) |}, (length st).
    split; [apply reshape_view_spec; try assumption; fold c; lia|].
    split; [reflexivity|]. split; [right; auto|].
    apply Hread; [exact Hd|].
    apply (elements_fresh T0 st _ [c]).
    + apply fresh_Array_header_dims. exact Hnn.
    + repeat constructor. assumption.
    + rewrite length_elements by assumption. simpl. lia.
  - destruct Hlay as [Hv|[Hrm Ho]]; [discriminate|].
    exists [], {| hdr_ := Array_header_dims [c]; buffsp_ := buffsp_ H |}, l.
    rewrite app_nil_r. split; [|split; [assumption|split; [left; auto|]]].
    { unfold reshape. rewrite (array_ok_not_empty st H Hok). fold c.
      destruct (Z.eqb_spec c (numel [c])); [|lia]. cbn [negb].
      rewrite bool_decide_eq_false_2 by assumption. rewrite Hview.
      unfold hdr_empty. rewrite Hu'. reflexivity. }
    pose proof (Hread [] {| hdr_ := Array_header_dims [c]; buffsp_ := buffsp_ H |}) as Hr.
    rewrite app_nil_r in Hr. apply Hr; [exact Hd|].
    rewrite (elements_contiguous T0 st H) by assumption.
    rewrite (elements_contiguous T0 st {| hdr_ := Array_header_dims [c];
                                          buffsp_ := buffsp_ H |});
      cbn [hdr_]; rewrite ?Hd; try assumption; [|repeat constructor; assumption].
    unfold data. cbn [buffsp_]. f_equal. f_equal. simpl. lia.
Qed.

(** The position of the element [j] of a contiguous 1-D array. *)
Lemma subs2ind_1d n j :
  0 <= j < n ->
  subs2ind (offset_ (Array_header_dims [n])) (strides_ (Array_header_dims [n]))
    (dims_ (Array_header_dims [n])) [j] = j.
Proof.
  intros Hj. assert (0 < numel [n]) as Hn by (rewrite numel_single; lia).
  destruct (Array_header_dims_nonempty [n] Hn) as (Hd & Hrm & _ & _ & Ho & _).
  rewrite Hd, Ho. rewrite (subs2ind_row_major _ [n] [j] Hrm).
  - simpl. lia.
  - repeat constructor; lia.
Qed.

(** A loop that assigns elements of [src] to elements of a contiguous 1-D
    array over another buffer. *)
Lemma copy_block {T} (T0 : T) (S : store T) (src : Array) (l : nat) n (p q : Z -> Z)
    (f : Z -> T) (ixs : list Z) (B : list T) :
  (l < length S)%nat -> buffsp_ src <> Some l ->
  (forall i, i ∈ ixs -> 0 <= p i < n) ->
  (forall i, i ∈ ixs -> Array_at T0 S src [q i] = f i) ->
  let res := {| hdr_ := Array_header_dims [n]; buffsp_ := Some l |} in
  foldl (fun acc i => Array_set acc res [p i] (Array_at T0 acc src [q i]))
    (<[l := B]> S) ixs
  = <[l := foldl (fun b i => updZ b (p i) (f i)) B ixs]> S.
Proof.
  intros Hlt Hsrc Hin Hf res. revert B.
  induction ixs as [|i ixs IH]; intros B; [reflexivity|]. simpl.
  rewrite Array_at_insert_ne by assumption.
  rewrite Array_set_insert by (try reflexivity; assumption).
  cbn [res hdr_]. rewrite subs2ind_1d by (apply Hin; left).
  rewrite (Hf i) by left.
  apply IH.
  - intros j Hj. apply Hin. right. assumption.
  - intros j Hj. apply Hf. right. assumption.
Qed.

(** Consecutive writes replace a block of the buffer. *)
Lemma foldl_updZ_block {A} (f : Z -> A) (B : list A) off (k : nat) :
  0 <= off -> off + Z.of_nat k <= psize B ->
  foldl (fun b i => updZ b (off + i) (f i)) B (seqZ 0 (Z.of_nat k))
  = take (Z.to_nat off) B ++ (f <$> seqZ 0 (Z.of_nat k))
    ++ drop (Z.to_nat off + k) B.
Proof.
  intros Hoff. induction k as [|k IH]; intros Hk.
  - simpl. rewrite Nat.add_0_r, take_drop. reflexivity.
  - rewrite Nat2Z.inj_succ, <- Z.add_1_r, seqZ_snoc by lia.
    rewrite foldl_app, fmap_app. simpl. rewrite IH by lia.
    unfold updZ. destruct (Z.ltb_spec (off + (0 + Z.of_nat k)) 0); [lia|].
    assert (length (take (Z.to_nat off) B) = Z.to_nat off) as Hl1
      by (rewrite length_take; unfold psize in Hk; lia).
    assert (length (f <$> seqZ 0 (Z.of_nat k)) = k) as Hl2
      by (rewrite length_fmap, length_seqZ; lia).
    rewrite insert_app_r_alt by lia. rewrite Hl1.
    rewrite insert_app_r_alt by lia. rewrite Hl2.
    replace (Z.to_nat (off + (0 + Z.of_nat k)) - Z.to_nat off - k)%nat with 0%nat by lia.
    destruct (lookup_lt_is_Some_2 B (Z.to_nat off + k)) as [x Hx];
      [unfold psize in Hk; lia|].
    rewrite (drop_S _ _ _ Hx). simpl.
    rewrite <- !app_assoc. simpl.
    replace (Datatypes.S (Z.to_nat off + k)) with (Z.to_nat off + Datatypes.S k)%nat by lia.
    reflexivity.
Qed.

Lemma fmap_nthZ_seqZ {A} (d : A) (L : list A) a (k : nat) :
  0 <= a -> a + Z.of_nat k <= psize L ->
  (fun i => nthZ d L (a + i)) <$> seqZ 0 (Z.of_nat k) = take k (drop (Z.to_nat a) L).
Proof.
  intros Ha Hk. apply list_eq. intros i. rewrite list_lookup_fmap.
  destruct (Nat.lt_ge_cases i k) as [Hi|Hi].
  - rewrite lookup_seqZ_lt by lia. simpl.
    rewrite lookup_take_lt by assumption. rewrite lookup_drop.
    destruct (lookup_lt_is_Some_2 L (Z.to_nat a + i)) as [x Hx];
      [unfold psize in Hk; lia|].
    rewrite Hx. f_equal.
    replace (a + (0 + Z.of_nat i)) with (Z.of_nat (Z.to_nat a + i)) by lia.
    apply nthZ_lookup. exact Hx.
  - rewrite lookup_seqZ_ge by lia. simpl.
    rewrite lookup_take_ge by assumption. reflexivity.
Qed.
(** X27. [insert] without an axis returns a copy of the other array when
    one of the two is empty, and throws [out_of_range] when the position is
    beyond the element count of [lhs]. For non-empty arrays, each a view or
    contiguous, and a position from 0 to that count, it returns a newly
    allocated 1-D array holding the elements of [lhs] in default order with
    those of [rhs], in default order, put in before the element at the
    position. The arrays that existed before read as before. *)
Theorem X27_insert_flat {T} (T0 : T) (fuel : nat) (st : store T) (A B : Array) (ind : Z) :
  (empty st A = true -> insert_flat T0 fuel st A B ind = clone T0 fuel st B)
  /\ (empty st A = false -> empty st B = true ->
      insert_flat T0 fuel st A B ind = clone T0 fuel st A)
  /\ (empty st A = false -> empty st B = false -> count_ (hdr_ A) < ind ->
      insert_flat T0 fuel st A B ind = Throw out_of_range)
  /\ (array_ok st A -> array_ok st B ->
      is_subarray_ (hdr_ A) = true
        \/ (row_major_strides (dims_ (hdr_ A)) (strides_ (hdr_ A)) /\ offset_ (hdr_ A) = 0) ->
      is_subarray_ (hdr_ B) = true
        \/ (row_major_strides (dims_ (hdr_ B)) (strides_ (hdr_ B)) /\ offset_ (hdr_ B) = 0) ->
      0 <= ind <= count_ (hdr_ A) ->
      (Z.to_nat (count_ (hdr_ A)) <= fuel)%nat ->
      (Z.to_nat (count_ (hdr_ B)) <= fuel)%nat ->
      exists st' res,
        insert_flat T0 fuel st A B ind = Done (st', res)
        /\ dims_ (hdr_ res) = [count_ (hdr_ A) + count_ (hdr_ B)]
        /\ elements T0 st' res
           = take (Z.to_nat ind) (elements T0 st A) ++ elements T0 st B
             ++ drop (Z.to_nat ind) (elements T0 st A)
        /\ (forall X s, array_ok st X -> Array_at T0 st' X s = Array_at T0 st X s)).
Proof.
  split; [|split; [|split]].
  { intros He. unfold insert_flat. rewrite He. reflexivity. }
  { intros HeA HeB. unfold insert_flat. rewrite HeA, HeB. reflexivity. }
  { intros HeA HeB Hind. unfold insert_flat. rewrite HeA, HeB.
    destruct (Z.leb_spec ind (count_ (hdr_ A))); [lia|]. reflexivity. }
  intros HokA HokB HlayA HlayB Hind HfuelA HfuelB.
  pose proof HokA as [HlA (lA & HbufA & HltA)].
  pose proof HokB as [HlB (lB & HbufB & HltB)].
  destruct (array_ok_numel st A HokA) as [_ HcA].
  destruct (array_ok_numel st B HokB) as [_ HcB].
  pose proof (ok_dims _ HlA) as HposA. pose proof (ok_dims _ HlB) as HposB.
  set (cl := count_ (hdr_ A)) in *. set (cr := count_ (hdr_ B)) in *.
  set (n := cl + cr).
  set (L := elements T0 st A). set (R := elements T0 st B).
  assert (psize L = cl) as HlenL.
  { unfold psize, L. rewrite length_elements by assumption.
    rewrite <- (ok_count _ HlA). fold cl. lia. }
  assert (psize R = cr) as HlenR.
  { unfold psize, R. rewrite length_elements by assumption.
    rewrite <- (ok_count _ HlB). fold cr. lia. }
  set (l := length st).
  set (B0 := replicate (Z.to_nat n) T0).
  set (res := {| hdr_ := Array_header_dims [n]; buffsp_ := Some l |}).
  set (st1 := st ++ [B0]).
  assert (length st1 = Datatypes.S l) as Hlen1
    by (unfold st1, l; rewrite length_app; simpl; lia).
  (* the flattened lhs *)
  assert (array_ok st1 A) as HokA1 by (split; [assumption|]; exists lA; split; [assumption|lia]).
  assert (elements T0 st1 A = L) as HelA1.
  { unfold L, elements. apply list_fmap_ext. intros i s _.
    apply (Array_at_app_l T0 st _ A lA); assumption. }
  destruct (reshape_flat T0 fuel st1 A HokA1 HlayA HfuelA)
    as (ext1 & r1 & lr1 & Hrun1 & Hb1 & Hcase1 & Hread1).
  fold cl in Hrun1, Hread1. rewrite HelA1 in Hread1.
  set (st2 := st1 ++ ext1) in *.
  assert (lr1 <> l /\ (lr1 < length st2)%nat) as [Hne1 Hlt1].
  { unfold st2. rewrite length_app.
    destruct Hcase1 as [[Hsame _]|[-> Hl1]]; [|lia].
    rewrite Hb1, HbufA in Hsame. injection Hsame as ->. unfold l. lia. }
  (* the flattened rhs *)
  assert (array_ok st2 B) as HokB2.
  { split; [assumption|]. exists lB. split; [assumption|].
    unfold st2. rewrite length_app. lia. }
  assert (elements T0 st2 B = R) as HelB2.
  { unfold R, elements. apply list_fmap_ext. intros i s _.
    unfold st2, st1. rewrite <- app_assoc.
    apply (Array_at_app_l T0 st _ B lB); assumption. }
  destruct (reshape_flat T0 fuel st2 B HokB2 HlayB HfuelB)
    as (ext2 & r2 & lr2 & Hrun2 & Hb2 & Hcase2 & Hread2).
  fold cr in Hrun2, Hread2. rewrite HelB2 in Hread2.
  set (st3 := st2 ++ ext2) in *.
  assert (lr2 <> l) as Hne2.
  { destruct Hcase2 as [[Hsame _]|[-> Hl2]].
    - rewrite Hb2, HbufB in Hsame. injection Hsame as ->. unfold l. lia.
    - unfold st2. rewrite length_app. lia. }
  assert (length st3 = (length st2 + length ext2)%nat) as Hlen3
    by (unfold st3; apply length_app).
  assert ((l < length st3)%nat) as Hlt3.
  { rewrite Hlen3. unfold st2. rewrite length_app. lia. }
  assert (st3 !! l = Some B0) as HB0.
  { unfold st3, st2, st1. rewrite <- !app_assoc.
    rewrite lookup_app_r by (unfold l; lia). unfold l. rewrite Nat.sub_diag. reflexivity. }
  assert (forall i, 0 <= i < cl -> Array_at T0 st3 r1 [i] = nthZ T0 L i) as HreadL.
  { intros i Hi. rewrite <- (Hread1 i Hi). unfold st3.
    apply (Array_at_app_l T0 st2 _ r1 lr1); assumption. }
  assert (forall i, 0 <= i < cr -> Array_at T0 st3 r2 [i] = nthZ T0 R i) as HreadR.
  { intros i Hi. apply Hread2. assumption. }
  (* the three loops *)
  set (ki := Z.to_nat ind).
  set (B1 := foldl (fun b i => updZ b i (nthZ T0 L i)) B0 (seqZ 0 ind)).
  set (B2 := foldl (fun b i => updZ b (ind + i) (nthZ T0 R i)) B1 (seqZ 0 cr)).
  set (B3 := foldl (fun b i => updZ b (ind + cr + i) (nthZ T0 L (ind + i))) B2
               (seqZ 0 (cl - ind))).
  assert (psize B0 = n) as HpB0 by (unfold psize, B0; rewrite length_replicate; lia).
  assert (psize B1 = n) as HpB1
    by (unfold B1; rewrite (psize_foldl_updZ (fun i => i) (nthZ T0 L)); assumption).
  assert (psize B2 = n) as HpB2
    by (unfold B2; rewrite (psize_foldl_updZ (fun i => ind + i) (nthZ T0 R)); assumption).
  assert (psize B3 = n) as HpB3.
  { unfold B3.
    rewrite (psize_foldl_updZ (fun i => ind + cr + i) (fun i => nthZ T0 L (ind + i))).
    assumption. }
  assert (insert_flat T0 fuel st A B ind = Done (<[l := B3]> st3, res)) as Hrun.
  { unfold insert_flat.
    rewrite (array_ok_not_empty st A HokA), (array_ok_not_empty st B HokB).
    fold cl cr. destruct (Z.leb_spec ind cl); [|lia]. cbn [negb].
    fold n. rewrite (Array_dims_single T0 st n) by lia.
    fold l B0 st1 res. rewrite Hrun1, Hrun2. unfold for_up. cbv beta.
    rewrite !Z.sub_0_r. f_equal. f_equal.
    rewrite <- (list_insert_id st3 l B0 HB0) at 1.
    pose proof (copy_block T0 st3 r1 l n (fun i => i) (fun i => i) (nthZ T0 L)
                  (seqZ 0 ind) B0 Hlt3) as H1.
    cbv beta zeta in H1. fold res in H1. rewrite H1; clear H1.
    2:{ rewrite Hb1. congruence. }
    2:{ intros i Hi. apply elem_of_seqZ in Hi. unfold n. lia. }
    2:{ intros i Hi. apply elem_of_seqZ in Hi. apply HreadL. lia. }
    fold B1.
    pose proof (copy_block T0 st3 r2 l n (fun i => ind + i) (fun i => i) (nthZ T0 R)
                  (seqZ 0 cr) B1 Hlt3) as H2.
    cbv beta zeta in H2. fold res in H2. rewrite H2; clear H2.
    2:{ rewrite Hb2. congruence. }
    2:{ intros i Hi. apply elem_of_seqZ in Hi. unfold n. lia. }
    2:{ intros i Hi. apply elem_of_seqZ in Hi. apply HreadR. lia. }
    fold B2.
    pose proof (copy_block T0 st3 r1 l n (fun i => ind + cr + i) (fun i => ind + i)
                  (fun i => nthZ T0 L (ind + i)) (seqZ 0 (cl - ind)) B2 Hlt3) as H3.
    cbv beta zeta in H3. fold res in H3. rewrite H3; clear H3.
    2:{ rewrite Hb1. congruence. }
    2:{ intros i Hi. apply elem_of_seqZ in Hi. unfold n. lia. }
    2:{ intros i Hi. apply elem_of_seqZ in Hi. apply HreadL. lia. }
    reflexivity. }
  (* the content of the result *)
  assert (B3 = take ki L ++ R ++ drop ki L) as HB3.
  { assert (ind = Z.of_nat ki) as Hki by (unfold ki; lia).
    assert (cr = Z.of_nat (Z.to_nat cr)) as Hkr by lia.
    assert (cl - ind = Z.of_nat (Z.to_nat (cl - ind))) as Hk3 by lia.
    assert (B1 = take ki L ++ drop ki B0) as HB1.
    { unfold B1. change (fun b i => updZ b i (nthZ T0 L i))
        with (fun b i => updZ b (0 + i) ((fun i => nthZ T0 L (0 + i)) i)).
      rewrite Hki at 1. rewrite foldl_updZ_block by lia.
      rewrite fmap_nthZ_seqZ by lia. simpl. reflexivity. }
    assert (length (take ki L) = ki) as Hl1
      by (rewrite length_take; unfold psize in HlenL; lia).
    assert (B2 = take ki L ++ R ++ drop (ki + Z.to_nat cr) B1) as HB2.
    { unfold B2. rewrite Hkr at 1.
      change (fun b i => updZ b (ind + i) (nthZ T0 R i))
        with (fun b i => updZ b (ind + i) ((fun i => nthZ T0 R (0 + i)) i)).
      rewrite foldl_updZ_block by lia. fold ki.
      rewrite fmap_nthZ_seqZ by lia. simpl.
      rewrite (take_ge R) by (unfold psize in HlenR; lia).
      rewrite HB1 at 1. rewrite take_app_length' by (symmetry; exact Hl1). reflexivity. }
    unfold B3. rewrite Hk3 at 1. rewrite foldl_updZ_block by lia.
    rewrite fmap_nthZ_seqZ by lia. fold ki.
    rewrite (take_ge (drop ki L)) by (rewrite length_drop; unfold psize in HlenL; lia).
    rewrite (drop_ge B2) by (unfold psize in HpB2; unfold n in HpB2; lia).
    rewrite app_nil_r.
    replace (Z.to_nat (ind + cr)) with (ki + Z.to_nat cr)%nat by lia.
    rewrite HB2 at 1. rewrite app_assoc.
    rewrite take_app_length'
      by (rewrite length_app, Hl1; unfold psize in HlenR; lia).
    rewrite <- app_assoc. reflexivity. }
  exists (<[l := B3]> st3), res. split; [exact Hrun|].
  assert (0 < numel [n]) as Hnn by (rewrite numel_single; lia).
  destruct (Array_header_dims_nonempty [n] Hnn) as (Hd & Hrm & _ & _ & Ho & _).
  split; [exact Hd|]. split.
  - rewrite (elements_contiguous T0 _ res) by
      (cbn [res hdr_]; rewrite ?Hd; try assumption; repeat constructor; lia).
    cbn [res hdr_]. rewrite Hd. unfold data, res. cbn [buffsp_].
    rewrite list_lookup_insert_eq by assumption. cbn [default].
    replace (prod_list [n]) with (Z.of_nat (Z.to_nat n)) by (simpl; lia).
    rewrite <- HB3.
    transitivity (take (Z.to_nat n) (drop (Z.to_nat 0) B3));
      [exact (fmap_nthZ_seqZ T0 B3 0 (Z.to_nat n) ltac:(lia) ltac:(lia))|].
    simpl. apply take_ge. unfold psize in HpB3. lia.
  - intros X s [_ (lx & Hbx & Hltx)].
    rewrite Array_at_insert_ne by (rewrite Hbx; intros [= ->]; unfold l in Hltx; lia).
    unfold st3, st2, st1. rewrite <- !app_assoc.
    apply (Array_at_app_l T0 st _ X lx); assumption.
Qed.

Lemma X27_insert_flat_witness :
  let st := [[1; 2; 3; 4]; [8; 9]] in
  let A := {| hdr_ := Array_header_dims [2; 2]; buffsp_ := Some 0%nat |} in
  let B := {| hdr_ := Array_header_dims [2]; buffsp_ := Some 1%nat |} in
  exists st' res,
    insert_flat 0 4 st A B 1 = Done (st', res)
    /\ dims_ (hdr_ res) = [6]
    /\ elements 0 st' res = [1; 8; 9; 2; 3; 4].
Proof.
  intros st A B.
  pose proof (X27_insert_flat 0 4 st A B 1) as (_ & _ & _ & H).
  destruct H as (st' & res & Hrun & Hd & Hel & _).
  - split.
    + apply Array_header_dims_ok. vm_compute. reflexivity.
    + exists 0%nat. split; [reflexivity|]. simpl. lia.
  - split.
    + apply Array_header_dims_ok. vm_compute. reflexivity.
    + exists 1%nat. split; [reflexivity|]. simpl. lia.
  - right. split; [|reflexivity].
    apply (Array_header_dims_nonempty [2; 2]). vm_compute. reflexivity.
  - right. split; [|reflexivity].
    apply (Array_header_dims_nonempty [2]). vm_compute. reflexivity.
  - vm_compute. split; discriminate.
  - vm_compute. lia.
  - vm_compute. lia.
  - exists st', res. split; [exact Hrun|]. split; [exact Hd|]. rewrite Hel. reflexivity.
Defined.

(** * Appending to the flattened array *)

(** A single subscript addresses the last axis, modulo its extent, at the
    first position of every other axis. *)
Lemma Array_at_single_subscript {T} (T0 : T) (st : store T) a j :
  layout_ok (hdr_ a) ->
  Array_at T0 st a [j]
  = Array_at T0 st a
      (replicate (length (dims_ (hdr_ a)) - 1) 0
       ++ [j mod pget (dims_ (hdr_ a)) (psize (dims_ (hdr_ a)) - 1)]).
Proof.
  intros Hl. pose proof (ok_dims _ Hl) as Hpos. pose proof (ok_rank _ Hl) as Hne.
  assert (psize (strides_ (hdr_ a)) = psize (dims_ (hdr_ a))) as Hps
    by (unfold psize; rewrite (ok_strides _ Hl); reflexivity).
  set (D := dims_ (hdr_ a)) in *.
  assert (1 <= psize D) as Hn by (unfold psize; destruct D; [congruence|simpl; lia]).
  unfold Array_at. f_equal. fold D. rewrite !subs2ind_sum by assumption.
  f_equal. apply sum_range_ext. intros i Hi. f_equal.
  set (zs := replicate (length D - 1) 0).
  assert (psize zs = psize D - 1) as Hz
    by (unfold psize, zs; rewrite length_replicate; unfold psize in Hn; lia).
  rewrite !pget_trailing_subs by assumption.
  rewrite psize_app, Hz. change (psize [j]) with 1.
  change (psize [j mod pget D (psize D - 1)]) with 1.
  destruct (Z.ltb_spec i (psize D - 1)) as [Hlt|Hge];
    destruct (Z.ltb_spec i (psize D - (psize D - 1 + 1))) as [Hlt'|_]; try lia.
  - replace (i - Z.max 0 (psize D - (psize D - 1 + 1))) with i by lia.
    unfold pget. rewrite nthZ_app_l by lia. fold (pget zs i). unfold zs.
    rewrite pget_replicate. reflexivity.
  - replace (i - Z.max 0 (psize D - (psize D - 1 + 1))) with i by lia.
    replace (i - Z.max 0 (psize D - 1)) with 0 by lia.
    assert (i = psize D - 1) as -> by lia.
    unfold pget at 3. rewrite nthZ_app_r by lia. rewrite Hz, Z.sub_diag.
    change (nthZ 0 [j mod pget D (psize D - 1)] 0) with (j mod pget D (psize D - 1)).
    change (pget [j] 0) with j.
    rewrite Z.mod_mod; [reflexivity|].
    pose proof (pget_Forall _ _ (psize D - 1) Hpos ltac:(lia)). simpl in *. lia.
Qed.

(** X28. [append] without an axis returns a copy of the other array when
    one of the two is empty. For non-empty arrays it returns a newly
    allocated 1-D array holding the elements of [lhs] in default order,
    followed, for each [j] below the element count of [rhs], by the element
    of [rhs] at the single subscript [j]: for a 1-D [rhs] these are its
    elements in order, and in general they are the elements of the last
    axis of [rhs] at the first position of every other axis, [j] being taken
    modulo the extent. The arrays that existed before read as before. *)
Theorem X28_append_flat {T} (T0 : T) (fuel : nat) (st : store T) (A B : Array) :
  (empty st A = true -> append_flat T0 fuel st A B = clone T0 fuel st B)
  /\ (empty st A = false -> empty st B = true ->
      append_flat T0 fuel st A B = clone T0 fuel st A)
  /\ (array_ok st A -> array_ok st B ->
      is_subarray_ (hdr_ B) = true
        \/ (row_major_strides (dims_ (hdr_ B)) (strides_ (hdr_ B)) /\ offset_ (hdr_ B) = 0) ->
      (Z.to_nat (count_ (hdr_ A)) <= fuel)%nat ->
      (Z.to_nat (count_ (hdr_ B)) <= fuel)%nat ->
      exists st' res,
        append_flat T0 fuel st A B = Done (st', res)
        /\ dims_ (hdr_ res) = [count_ (hdr_ A) + count_ (hdr_ B)]
        /\ elements T0 st' res
           = elements T0 st A
             ++ ((fun j => Array_at T0 st B [j]) <$> seqZ 0 (count_ (hdr_ B)))
        /\ (dims_ (hdr_ B) = [count_ (hdr_ B)] ->
            elements T0 st' res = elements T0 st A ++ elements T0 st B)
        /\ (forall j,
              Array_at T0 st B [j]
              = Array_at T0 st B
                  (replicate (length (dims_ (hdr_ B)) - 1) 0
                   ++ [j mod pget (dims_ (hdr_ B)) (psize (dims_ (hdr_ B)) - 1)]))
        /\ (forall X s, array_ok st X -> Array_at T0 st' X s = Array_at T0 st X s)).
Proof.
  split; [|split].
  { intros He. unfold append_flat. rewrite He. reflexivity. }
  { intros HeA HeB. unfold append_flat. rewrite HeA, HeB. reflexivity. }
  intros HokA HokB HlayB HfuelA HfuelB.
  pose proof HokA as [HlA (lA & HbufA & HltA)].
  pose proof HokB as [HlB (lB & HbufB & HltB)].
  destruct (array_ok_numel st A HokA) as [_ HcA].
  destruct (array_ok_numel st B HokB) as [_ HcB].
  pose proof (ok_dims _ HlA) as HposA. pose proof (ok_dims _ HlB) as HposB.
  set (cl := count_ (hdr_ A)) in *. set (cr := count_ (hdr_ B)) in *.
  set (n := cl + cr).
  set (L := elements T0 st A).
  assert (length L = Z.to_nat cl) as HlenL.
  { unfold L. rewrite length_elements by assumption.
    rewrite <- (ok_count _ HlA). reflexivity. }
  set (l := length st).
  assert (numel [n] = n) as Hn1 by (apply numel_single; unfold n; lia).
  assert (0 < numel [n]) as Hnn by (unfold n in *; lia).
  set (B0 := L ++ replicate (Z.to_nat cr) T0).
  set (res := {| hdr_ := Array_header_dims [n]; buffsp_ := Some l |}).
  destruct (Array_header_dims_nonempty [n] Hnn) as (Hd & Hrm & _ & Hcnt & Ho & _).
  assert (resize T0 fuel st A [n] = Done (st ++ [B0], res)) as Hrun1.
  { rewrite (resize_spec T0 fuel st A [n] HokA Hnn) by (fold cl; rewrite Hn1; unfold n; lia).
    rewrite Hn1. fold cl L. unfold B0, res, l. repeat f_equal.
    - apply take_ge. unfold n. lia.
    - unfold n. lia. }
  set (st1 := st ++ [B0]).
  assert (array_ok st1 B) as HokB1.
  { split; [assumption|]. exists lB. split; [assumption|].
    unfold st1. rewrite length_app. lia. }
  destruct (reshape_flat T0 fuel st1 B HokB1 HlayB HfuelB)
    as (ext & r & lr & Hrun2 & _ & _ & _).
  fold cr in Hrun2.
  set (st2 := st1 ++ ext) in *.
  assert ((l < length st2)%nat) as Hlt2.
  { unfold st2, st1. rewrite !length_app. simpl. unfold l. lia. }
  assert (st2 !! l = Some B0) as HB0.
  { unfold st2, st1. rewrite <- app_assoc.
    rewrite lookup_app_r by (unfold l; lia). unfold l. rewrite Nat.sub_diag. reflexivity. }
  set (f := fun i => Array_at T0 st B [cl + i - cl]).
  set (Bf := foldl (fun b i => updZ b (cl + i) (f i)) B0 (seqZ 0 cr)).
  assert (append_flat T0 fuel st A B = Done (<[l := Bf]> st2, res)) as Hrun.
  { unfold append_flat.
    rewrite (array_ok_not_empty st A HokA), (array_ok_not_empty st B HokB).
    fold cl cr n. rewrite Hrun1. fold st1. rewrite Hrun2.
    cbn [res hdr_]. rewrite Hcnt, Hn1. fold res.
    unfold for_up. cbv beta. replace (n - cl) with cr by (unfold n; lia).
    rewrite <- (Z.add_0_r cl) at 1. rewrite <- fmap_add_seqZ, foldl_fmap.
    f_equal. f_equal.
    rewrite <- (list_insert_id st2 l B0 HB0) at 1.
    pose proof (copy_block T0 st2 B l n (fun i => cl + i) (fun i => cl + i - cl) f
                  (seqZ 0 cr) B0 Hlt2) as H1.
    cbv beta zeta in H1. fold res in H1. rewrite H1; clear H1.
    - reflexivity.
    - rewrite HbufB. intros [= ->]. unfold l in HltB. lia.
    - intros i Hi. apply elem_of_seqZ in Hi. unfold n. lia.
    - intros i Hi. unfold f, st2, st1. rewrite <- app_assoc.
      apply (Array_at_app_l T0 st _ B lB); assumption. }
  assert (Bf = L ++ ((fun j => Array_at T0 st B [j]) <$> seqZ 0 cr)) as HBf.
  { unfold Bf. rewrite <- (Z2Nat.id cr) at 1 by lia.
    rewrite foldl_updZ_block
      by (try lia; unfold psize, B0; rewrite length_app, length_replicate; lia).
    rewrite Z2Nat.id by lia.
    unfold B0. rewrite take_app_length' by lia.
    rewrite drop_ge by (rewrite length_app, length_replicate; lia).
    rewrite app_nil_r. f_equal. apply list_fmap_ext. intros k i _.
    unfold f. do 2 f_equal. lia. }
  assert (psize Bf = n) as HpBf.
  { rewrite HBf. unfold psize. rewrite length_app, length_fmap, length_seqZ. unfold n. lia. }
  assert (elements T0 (<[l := Bf]> st2) res = Bf) as Hel.
  { rewrite (elements_contiguous T0 _ res) by
      (cbn [res hdr_]; rewrite ?Hd; try assumption; repeat constructor; unfold n; lia).
    cbn [res hdr_]. rewrite Hd. unfold data, res. cbn [buffsp_].
    rewrite list_lookup_insert_eq by assumption. cbn [default].
    replace (prod_list [n]) with (Z.of_nat (Z.to_nat n)) by (simpl; unfold n; lia).
    transitivity (take (Z.to_nat n) (drop (Z.to_nat 0) Bf));
      [exact (fmap_nthZ_seqZ T0 Bf 0 (Z.to_nat n) ltac:(lia) ltac:(unfold n in *; lia))|].
    simpl. apply take_ge. unfold psize in HpBf. lia. }
  exists (<[l := Bf]> st2), res. split; [exact Hrun|].
  split; [exact Hd|]. split; [rewrite Hel; exact HBf|].
  split; [|split].
  - intros HdB. rewrite Hel, HBf. f_equal.
    unfold elements. rewrite HdB, row_major_single, <- list_fmap_compose. reflexivity.
  - intros j. apply Array_at_single_subscript. assumption.
  - intros X s [_ (lx & Hbx & Hltx)].
    rewrite Array_at_insert_ne by (rewrite Hbx; intros [= ->]; unfold l in Hltx; lia).
    unfold st2, st1. rewrite <- !app_assoc.
    apply (Array_at_app_l T0 st _ X lx); assumption.
Qed.

Lemma X28_append_flat_witness :
  let st := [[1; 2]; [5; 6; 7; 8]] in
  let A := {| hdr_ := Array_header_dims [2]; buffsp_ := Some 0%nat |} in
  let B := {| hdr_ := Array_header_dims [2; 2]; buffsp_ := Some 1%nat |} in
  exists st' res,
    append_flat 0 4 st A B = Done (st', res)
    /\ dims_ (hdr_ res) = [6]
    /\ elements 0 st' res = [1; 2; 5; 6; 5; 6].
Proof.
  intros st A B.
  pose proof (X28_append_flat 0 4 st A B) as (_ & _ & H).
  destruct H as (st' & res & Hrun & Hd & Hel & _).
  - split.
    + apply Array_header_dims_ok. vm_compute. reflexivity.
    + exists 0%nat. split; [reflexivity|]. simpl. lia.
  - split.
    + apply Array_header_dims_ok. vm_compute. reflexivity.
    + exists 1%nat. split; [reflexivity|]. simpl. lia.
  - right. split; [|reflexivity].
    apply (Array_header_dims_nonempty [2; 2]). vm_compute. reflexivity.
  - vm_compute. lia.
  - vm_compute. lia.
  - exists st', res. split; [exact Hrun|]. split; [exact Hd|]. rewrite Hel. reflexivity.
Defined.
